(** * QubitVector: a shallow embedding of [src/simulators/statevector/qubitvector.hpp]

    The development follows the layout of the header: bit masks and indexing,
    the amplitude arithmetic, the state record, the block iterator
    ([apply_lambda]), the gate kernels, matrix fusion, measurement sampling,
    checkpointing, serialisation and configuration.

    Conventions.
    - [uint_t] and [int_t] are modelled as [Z]; every place where the C++
      arithmetic wraps is written out with [wrap64] or [to_int64].
    - [std::array], [std::vector] and raw-pointer accesses outside the
      allocated range are undefined behaviour in C++; pure code returns
      [None] there and stateful code returns [Undefined].
    - The parallel loops of the header are run in index order; the gates
      are specified for distinct qubits of the register, where the
      iterations of the block loop touch disjoint sets of amplitudes (the
      index tables partition the buffer). The two reductions ([norm] and
      [inner_product]) add up doubles, where the order matters: they are
      run in index order when the [if] clause of the parallel region is
      false, and by the schedule of the OpenMP run-time system, a parameter
      of the model, when it is true.
    - Allocations are granted up to the largest object of the platform
      ([PTRDIFF_MAX] bytes; [max_size()] elements for a [std::vector]) and
      fail above it the way the allocating call does: [malloc] returns
      [nullptr], [new] and [std::vector] throw. *)

From Stdlib Require Import ZArith Lia String Sorted Floats.
From stdpp Require Import base tactics option list strings pretty.

Local Open Scope Z_scope.

#[local] Set Warnings "-register-all,-inexact-float".

(** ** Machine integers *)

Definition wrap64 (z : Z) : Z := z mod 2 ^ 64.

(** Conversion of a 64-bit pattern to [int_t] (two's complement). *)
Definition to_int64 (z : Z) : Z := (z + 2 ^ 63) mod 2 ^ 64 - 2 ^ 63.

(** [x << n] and [x >> n] on [uint_t]; a shift count outside [0, 64) is
    undefined. *)
Definition shl64 (x n : Z) : option Z :=
  if decide (0 <= n < 64) then Some (wrap64 (Z.shiftl x n)) else None.

Definition shr64 (x n : Z) : option Z :=
  if decide (0 <= n < 64) then Some (Z.shiftr x n) else None.

(** ** BIT MASKS and indexing *)

Definition BITS : list Z :=
[ 1; 2; 4; 8;
  16; 32; 64; 128;
  256; 512; 1024; 2048;
  4096; 8192; 16384; 32768;
  65536; 131072; 262144; 524288;
  1048576; 2097152; 4194304; 8388608;
  16777216; 33554432; 67108864; 134217728;
  268435456; 536870912; 1073741824; 2147483648;
  4294967296; 8589934592; 17179869184; 34359738368;
  68719476736; 137438953472; 274877906944; 549755813888;
  1099511627776; 2199023255552; 4398046511104; 8796093022208;
  17592186044416; 35184372088832; 70368744177664; 140737488355328;
  281474976710656; 562949953421312; 1125899906842624; 2251799813685248;
  4503599627370496; 9007199254740992; 18014398509481984; 36028797018963968;
  72057594037927936; 144115188075855872; 288230376151711744; 576460752303423488;
  1152921504606846976; 2305843009213693952; 4611686018427387904; 9223372036854775808 ].

Definition MASKS : list Z :=
[ 0; 1; 3; 7;
  15; 31; 63; 127;
  255; 511; 1023; 2047;
  4095; 8191; 16383; 32767;
  65535; 131071; 262143; 524287;
  1048575; 2097151; 4194303; 8388607;
  16777215; 33554431; 67108863; 134217727;
  268435455; 536870911; 1073741823; 2147483647;
  4294967295; 8589934591; 17179869183; 34359738367;
  68719476735; 137438953471; 274877906943; 549755813887;
  1099511627775; 2199023255551; 4398046511103; 8796093022207;
  17592186044415; 35184372088831; 70368744177663; 140737488355327;
  281474976710655; 562949953421311; 1125899906842623; 2251799813685247;
  4503599627370495; 9007199254740991; 18014398509481983; 36028797018963967;
  72057594037927935; 144115188075855871; 288230376151711743; 576460752303423487;
  1152921504606846975; 2305843009213693951; 4611686018427387903; 9223372036854775807 ].

(** [t[i]] for a table or vector [t] and an integer index [i]. *)
Definition at_ {A} (t : list A) (i : Z) : option A :=
  if decide (0 <= i) then t !! Z.to_nat i else None.

(** A counted loop [for (i = start; i < start + count; ++i) body] over a
    value that may fail. *)
Fixpoint for_opt {A} (body : nat -> A -> option A) (start count : nat) (a : A)
  : option A :=
  match count with
  | O => Some a
  | S c => a' ← body start a; for_opt body (S start) c a'
  end.

(** One iteration of the loop of [index0]. *)
Definition index0_step (q retval : Z) : option Z :=
  mask ← at_ MASKS q;
  let lowbits := Z.land retval mask in
  r1 ← shr64 retval q;
  r2 ← shl64 r1 (wrap64 (q + 1));
  Some (Z.lor r2 lowbits).

Fixpoint index0_loop (qubits_sorted : list Z) (retval : Z) : option Z :=
  match qubits_sorted with
  | [] => Some retval
  | q :: rest => r ← index0_step q retval; index0_loop rest r
  end.

Definition index0 (qubits_sorted : list Z) (k : Z) : option Z :=
  index0_loop qubits_sorted k.

(** The inner loop of [indexes]: [ret[n + j] = ret[j] | bit] for [j < n]. *)
Definition indexes_inner (n : nat) (bit : Z) (ret : list Z) : option (list Z) :=
  for_opt (fun j ret =>
             v ← ret !! j;
             if decide (n + j < length ret)%nat
             then Some (<[(n + j)%nat := Z.lor v bit]> ret)
             else None) 0 n ret.

(** *** What the specification says about the two functions *)

(** Inserting a 0 bit at position [q] of [r]. *)
Definition insert_zero_bit (q r : Z) : Z :=
  (r / 2 ^ q) * 2 ^ (q + 1) + r mod 2 ^ q.

Definition insert_zero_bits (Q : list Z) (k : Z) : Z :=
  foldl (fun r q => insert_zero_bit q r) k Q.

(** [base] with bit [Qu[j]] set for every [j] such that bit [j0 + j] of [i]
    is 1. *)
Fixpoint set_qubit_bits (j0 : nat) (Qu : list Z) (i : Z) (base : Z) : Z :=
  match Qu with
  | [] => base
  | q :: rest =>
      set_qubit_bits (S j0) rest i
        (if Z.testbit i (Z.of_nat j0) then Z.lor base (2 ^ q) else base)
  end.

(** The table that [indexes] has filled after [i] rounds of its outer loop. *)
Definition index_table (Qu : list Z) (r0 : Z) (i : nat) : list Z :=
  map (fun m => set_qubit_bits 0 (take i Qu) (Z.of_nat m) r0) (seq 0 (2 ^ i)).

(** Whether bit [b] is one of the bits that [set_qubit_bits] sets: some
    [Qu[j] = b] with bit [j0 + j] of [i] equal to 1. *)
Fixpoint selects (j0 : nat) (Qu : list Z) (i b : Z) : bool :=
  match Qu with
  | [] => false
  | q :: rest => ((q =? b) && Z.testbit i (Z.of_nat j0)) || selects (S j0) rest i b
  end.

(** The number of entries of [Q] below [b]. *)
Definition count_below (Q : list Z) (b : Z) : Z :=
  Z.of_nat (length (filter (fun q => q < b) Q)).

(** ** Amplitude arithmetic *)

(** The operations of [double] that the header uses, and those that the
    product of two [std::complex<double>] uses ([std::isnan], [std::isinf],
    [std::copysign] and the constant [INFINITY]). Nothing is assumed about
    them: properties that need a law of the arithmetic state it as a
    hypothesis. *)
Class Double (R : Type) := {
  d_zero : R;
  d_one : R;
  d_add : R -> R -> R;
  d_sub : R -> R -> R;
  d_mul : R -> R -> R;
  d_neg : R -> R;
  d_abs : R -> R;
  d_eqb : R -> R -> bool;
  d_ltb : R -> R -> bool;
  d_leb : R -> R -> bool;
  d_isnan : R -> bool;
  d_isinf : R -> bool;
  d_copysign : R -> R -> R;
  d_infinity : R
}.

(** [std::complex<double>]. *)
Record complex_t (R : Type) := Complex { real : R; imag : R }.
Arguments Complex {R} _ _.
Arguments real {R} _.
Arguments imag {R} _.

Section Amplitudes.
Context {R : Type} `{Double R}.

Definition c_of_double (x : R) : complex_t R := Complex x d_zero.
Definition c_zero : complex_t R := c_of_double d_zero.
Definition c_one : complex_t R := c_of_double d_one.

Definition c_add (a b : complex_t R) : complex_t R :=
  Complex (d_add (real a) (real b)) (d_add (imag a) (imag b)).

(** [copysign(isinf(x) ? 1.0 : 0.0, x)] and [isnan(x) ? copysign(0.0, x) : x],
    the two adjustments of a component in the product below. *)
Definition box_inf (x : R) : R :=
  d_copysign (if d_isinf x then d_one else d_zero) x.

Definition zero_nan (x : R) : R :=
  if d_isnan x then d_copysign d_zero x else x.

(** The components of [z] when one of them is infinite, and those of the
    other factor then. *)
Definition box_infs (z : complex_t R) : complex_t R :=
  Complex (box_inf (real z)) (box_inf (imag z)).

Definition zero_nans (z : complex_t R) : complex_t R :=
  Complex (zero_nan (real z)) (zero_nan (imag z)).

Definition c_isinf (z : complex_t R) : bool :=
  d_isinf (real z) || d_isinf (imag z).

(** [a * b] and [a *= b] on [std::complex<double>]: the products
    [x = ac - bd] and [y = ad + bc] of the components, and, when both [x] and
    [y] are NaN, the recovery of an infinite result that the standard
    library's product performs (C99 Annex G.5.1): a factor with an infinite
    component is boxed to components [1] and [0] with their signs, the NaN
    components of the other factor become zeros, and the products are
    computed again and multiplied by [INFINITY]. *)
Definition c_mul (z w : complex_t R) : complex_t R :=
  let a := real z in
  let b := imag z in
  let c := real w in
  let d := imag w in
  let ac := d_mul a c in
  let bd := d_mul b d in
  let ad := d_mul a d in
  let bc := d_mul b c in
  let x := d_sub ac bd in
  let y := d_add ad bc in
  if d_isnan x && d_isnan y then
    let '(z1, w1, recalc1) :=
      if c_isinf z then (box_infs z, zero_nans w, true) else (z, w, false) in
    let '(z2, w2, recalc2) :=
      if c_isinf w1 then (zero_nans z1, box_infs w1, true)
      else (z1, w1, recalc1) in
    let '(z3, w3, recalc3) :=
      if negb recalc2 &&
         (d_isinf ac || d_isinf bd || d_isinf ad || d_isinf bc)
      then (zero_nans z2, zero_nans w2, true)
      else (z2, w2, recalc2) in
    if recalc3 : bool then
      Complex
        (d_mul d_infinity
           (d_sub (d_mul (real z3) (real w3)) (d_mul (imag z3) (imag w3))))
        (d_mul d_infinity
           (d_add (d_mul (real z3) (imag w3)) (d_mul (imag z3) (real w3))))
    else Complex x y
  else Complex x y.

Definition conj (a : complex_t R) : complex_t R :=
  Complex (real a) (d_neg (imag a)).

(** [a == b] on two complex numbers, and on a complex and a double. *)
Definition c_eqb (a b : complex_t R) : bool :=
  d_eqb (real a) (real b) && d_eqb (imag a) (imag b).

Definition c_eqb_double (a : complex_t R) (x : R) : bool :=
  c_eqb a (c_of_double x).

(** [std::real(std::conj(a) * a)]. *)
Definition norm_sq (a : complex_t R) : R := real (c_mul (conj a) a).
End Amplitudes.

(** Exact integers are an instance (and agree with [double] on the small
    integers, where floating-point arithmetic is exact). No integer is a NaN
    or infinite, so the product of two complex numbers never reaches its
    recovery branch in this instance and [d_infinity] is never used. *)
#[export] Instance Double_Z : Double Z := {|
  d_zero := 0; d_one := 1;
  d_add := Z.add; d_sub := Z.sub; d_mul := Z.mul;
  d_neg := Z.opp; d_abs := Z.abs;
  d_eqb := Z.eqb; d_ltb := Z.ltb; d_leb := Z.leb;
  d_isnan := fun _ => false; d_isinf := fun _ => false;
  d_copysign := fun x y => if Z.ltb y 0 then Z.opp (Z.abs x) else Z.abs x;
  d_infinity := 0
|}.

(** [std::copysign] on binary64: the magnitude of [x] with the sign bit of
    [y]. *)
Definition float_copysign (x y : PrimFloat.float) : PrimFloat.float :=
  if PrimFloat.get_sign y then PrimFloat.opp (PrimFloat.abs x)
  else PrimFloat.abs x.

(** IEEE 754 binary64, the kernel's primitive floats. *)
#[export] Instance Double_float : Double PrimFloat.float := {|
  d_zero := PrimFloat.zero; d_one := PrimFloat.one;
  d_add := PrimFloat.add; d_sub := PrimFloat.sub; d_mul := PrimFloat.mul;
  d_neg := PrimFloat.opp; d_abs := PrimFloat.abs;
  d_eqb := PrimFloat.eqb; d_ltb := PrimFloat.ltb; d_leb := PrimFloat.leb;
  d_isnan := PrimFloat.is_nan; d_isinf := PrimFloat.is_infinity;
  d_copysign := float_copysign;
  d_infinity := PrimFloat.infinity
|}.

(** ** Results of stateful code *)

(** A call returns a value and the new state, or throws an exception
    ([msg] is its [what()]; the state is the one at the throw), or has
    undefined behaviour. *)
Inductive outcome (St A : Type) :=
  | Ok (a : A) (s : St)
  | Throw (msg : string) (s : St)
  | Undefined.
Arguments Ok {St A} _ _.
Arguments Throw {St A} _ _.
Arguments Undefined {St A}.

Definition M (St A : Type) : Type := St -> outcome St A.

Definition ret {St A} (a : A) : M St A := fun s => Ok a s.

Definition bind {St A B} (m : M St A) (f : A -> M St B) : M St B :=
  fun s => match m s with
           | Ok a s' => f a s'
           | Throw msg s' => Throw msg s'
           | Undefined => Undefined
           end.

Definition throw {St A} (msg : string) : M St A := fun s => Throw msg s.
Definition undefined {St A} : M St A := fun _ => Undefined.
Definition get {St} : M St St := fun s => Ok s s.
Definition put {St} (s : St) : M St unit := fun _ => Ok tt s.

(** A partial pure computation inside stateful code. *)
Definition lift {St A} (o : option A) : M St A :=
  match o with Some a => ret a | None => undefined end.

Declare Scope m_scope.
Delimit Scope m_scope with M.
Notation "x <- m ;; k" := (bind m (fun x => k))
  (at level 100, m at next level, right associativity) : m_scope.
Notation "m ;;; k" := (bind m (fun _ => k))
  (at level 100, right associativity) : m_scope.
Local Open Scope m_scope.

(** [for (i = start; i < start + count; ++i) a = body(i, a)]. *)
Fixpoint for_m {St A} (body : nat -> A -> M St A) (start count : nat) (a : A)
  : M St A :=
  match count with
  | O => ret a
  | S c => (a' <- body start a;; for_m body (S start) c a')
  end.

Definition for_ {St} (body : nat -> M St unit) (start count : nat) : M St unit :=
  for_m (fun i _ => body i) start count tt.

(** Runs a computation on a component of the state. *)
Definition zoom {St T A} (proj : St -> T) (inj : St -> T -> St) (m : M T A) : M St A :=
  fun s => match m (proj s) with
           | Ok a t => Ok a (inj s t)
           | Throw msg t => Throw msg (inj s t)
           | Undefined => Undefined
           end.

(** [a = f(a, x)] for the entries [x] of a list, in order. *)
Fixpoint fold_m {St A B} (f : A -> B -> M St A) (l : list B) (a : A) : M St A :=
  match l with
  | [] => ret a
  | x :: l' => (a' <- f a x;; fold_m f l' a')
  end.

(** ** OpenMP *)

(** The run-time system decides how the iterations of a parallel loop are
    distributed over the threads of the team, and in which order the
    private copies of a reduction variable are combined at the end.
    [omp_schedule threads count] lists, for a loop of [count] iterations and
    a team of [threads] threads, the iterations that each thread runs, in
    the order in which it runs them; the threads are listed in the order in
    which their private copies are combined. Nothing is assumed about
    it. *)
Class OpenMP := { omp_schedule : Z -> nat -> list (list nat) }.

(** The static schedule: one block of consecutive iterations per thread,
    the blocks of equal size but for the last ones, combined in the order
    of the thread numbers. *)
Definition static_schedule (threads : Z) (count : nat) : list (list nat) :=
  let t := Z.to_nat threads in
  let size := ((count + t - 1) / t)%nat in
  map (fun i => seq (i * size) (Nat.min size (count - i * size))) (seq 0 t).

#[export] Instance OpenMP_static : OpenMP := {| omp_schedule := static_schedule |}.

(** ** The state buffer *)

Section Buffer.
Context {R : Type}.

Definition buffer : Type := list (complex_t R).

(** [data_[i]] read and written through the raw pointer. *)
Definition rd (i : Z) : M buffer (complex_t R) :=
  fun b => match at_ b i with Some c => Ok c b | None => Undefined end.

Definition wr (i : Z) (v : complex_t R) : M buffer unit :=
  fun b => if decide (0 <= i < Z.of_nat (length b))
           then Ok tt (<[Z.to_nat i := v]> b)
           else Undefined.
End Buffer.
Arguments buffer : clear implicits.

(** [v[i] = x] on a local [std::vector]. *)
Definition upd {A} (v : list A) (i : Z) (x : A) : option (list A) :=
  if decide (0 <= i < Z.of_nat (length v)) then Some (<[Z.to_nat i := x]> v)
  else None.

(** [std::vector<T> v(n, x)] and [v.assign(n, x)] on an empty [v], for
    elements of [size] bytes and [n] converted to [size_t]: a count above
    [max_size() = PTRDIFF_MAX / size] throws [std::length_error]. *)
Definition vector_assign {St A} (size n : Z) (x : A) : M St (list A) :=
  if decide (wrap64 n > (2 ^ 63 - 1) / size)
  then throw "cannot create std::vector larger than max_size()"
  else ret (replicate (Z.to_nat (wrap64 n)) x).

(** [new T[n]] for elements of [size] bytes: a count whose size in bytes
    is not a [size_t] throws [std::bad_array_new_length]; a request of more
    than [PTRDIFF_MAX] bytes is refused by the allocator and
    [operator new[]] throws [std::bad_alloc]; every other request is
    granted (the memory for it is there). The cells hold [x]. *)
Definition new_array {St A} (size n : Z) (x : A) : M St (list A) :=
  if decide (size * n >= 2 ^ 64) then throw "std::bad_array_new_length"
  else if decide (size * n > 2 ^ 63 - 1) then throw "std::bad_alloc"
  else ret (replicate (Z.to_nat n) x).

(** [new uint_t[n]]; the contents of the array are unspecified (here
    zeros). *)
Definition new_uint_array {St} (n : Z) : M St (list Z) := new_array 8 n 0.

(** [indexes(qubits, qubits_sorted, k)]: the table is allocated with
    [BITS[N]] cells, then filled by the two loops. The fixed-size overload
    runs the same two loops on a [std::array] of [2^N] cells; the header
    uses it for [N <= 4], where the allocation here is always granted. *)
Definition indexes {St} (qubits qubits_sorted : list Z) (k : Z) : M St (list Z) :=
  let N := length qubits_sorted in
  dim <- lift (at_ BITS (Z.of_nat N));;
  ret_ <- new_uint_array dim;;
  r0 <- lift (index0 qubits_sorted k);;
  lift (for_opt (fun i ret =>
                   n ← at_ BITS (Z.of_nat i);
                   q ← qubits !! i;
                   bit ← at_ BITS q;
                   indexes_inner (Z.to_nat n) bit ret)
                0 N (<[0%nat := r0]> ret_)).

(** [std::sort] on a list of qubits. *)
Fixpoint sort_insert (x : Z) (l : list Z) : list Z :=
  match l with
  | [] => [x]
  | y :: l' => if decide (x <= y) then x :: l else y :: sort_insert x l'
  end.

Definition std_sort (l : list Z) : list Z := foldr sort_insert [] l.

(** [std::to_string] on an integer. *)
Definition to_string (z : Z) : string := pretty z.

(** ** The QubitVector class *)

(** The tree that [json()] builds. *)
Inductive json_t (R : Type) :=
  | JNumber (x : R)
  | JArray (elems : list (json_t R)).
Arguments JNumber {R} _.
Arguments JArray {R} _.

(** The protected data members and the config settings. [data_] and
    [checkpoint_] are raw pointers: [None] is [nullptr]. *)
Record QubitVector (R : Type) := {
  num_qubits_ : Z;
  data_size_ : Z;
  data_ : option (buffer R);
  checkpoint_ : option (buffer R);
  omp_threads_ : Z;
  omp_threshold_ : Z;
  sample_measure_index_size_ : Z;
  json_chop_threshold_ : R
}.
Arguments num_qubits_ {R} _.
Arguments data_size_ {R} _.
Arguments data_ {R} _.
Arguments checkpoint_ {R} _.
Arguments omp_threads_ {R} _.
Arguments omp_threshold_ {R} _.
Arguments sample_measure_index_size_ {R} _.
Arguments json_chop_threshold_ {R} _.

Section QubitVector.
Context {R : Type} `{Double R} `{OpenMP}.

(** The build flag: [true] when the header is compiled with [DEBUG]
    defined. *)
Variable DEBUG : bool.

Local Abbreviation QV := (QubitVector R).
Local Abbreviation cvector_t := (list (complex_t R)).

Definition set_data_ (s : QV) (d : option (buffer R)) : QV :=
  {| num_qubits_ := num_qubits_ s; data_size_ := data_size_ s;
     data_ := d; checkpoint_ := checkpoint_ s;
     omp_threads_ := omp_threads_ s; omp_threshold_ := omp_threshold_ s;
     sample_measure_index_size_ := sample_measure_index_size_ s;
     json_chop_threshold_ := json_chop_threshold_ s |}.

Definition set_checkpoint_ (s : QV) (c : option (buffer R)) : QV :=
  {| num_qubits_ := num_qubits_ s; data_size_ := data_size_ s;
     data_ := data_ s; checkpoint_ := c;
     omp_threads_ := omp_threads_ s; omp_threshold_ := omp_threshold_ s;
     sample_measure_index_size_ := sample_measure_index_size_ s;
     json_chop_threshold_ := json_chop_threshold_ s |}.

(** Kernels run on the buffer behind [data_]; dereferencing [nullptr] is
    undefined. *)
Definition on_data {A} (m : M (buffer R) A) : M QV A :=
  fun s => match data_ s with
           | None => Undefined
           | Some b =>
               match m b with
               | Ok a b' => Ok a (set_data_ s (Some b'))
               | Throw msg b' => Throw msg (set_data_ s (Some b'))
               | Undefined => Undefined
               end
           end.

Definition on_checkpoint {A} (m : M (buffer R) A) : M QV A :=
  fun s => match checkpoint_ s with
           | None => Undefined
           | Some b =>
               match m b with
               | Ok a b' => Ok a (set_checkpoint_ s (Some b'))
               | Throw msg b' => Throw msg (set_checkpoint_ s (Some b'))
               | Undefined => Undefined
               end
           end.

(** [malloc(sizeof(complex_t) * n)]: the byte count is computed in
    [size_t]. A request of more than [PTRDIFF_MAX] bytes returns [nullptr];
    every other request is granted (the memory for it is there), and the
    contents of the block are unspecified (here zeros). The callers store
    the result unchecked. *)
Definition malloc_complex (n : Z) : option (buffer R) :=
  let bytes := wrap64 (16 * n) in
  if decide (bytes > 2 ^ 63 - 1) then None
  else Some (replicate (Z.to_nat (bytes / 16)) c_zero).

(** *** Error handling *)

Definition check_qubit (qubit : Z) : M QV unit :=
  s <- get;;
  if decide (wrap64 (qubit + 1) > num_qubits_ s)
  then throw ("QubitVector: qubit index " +:+ to_string qubit +:+
              " > " +:+ to_string (num_qubits_ s))
  else ret tt.

Definition check_matrix (vec : cvector_t) (nqubits : Z) : M QV unit :=
  DIM <- lift (at_ BITS nqubits);;
  let SIZE := Z.of_nat (length vec) in
  if decide (SIZE <> wrap64 (DIM * DIM))
  then throw ("QubitVector: vector size is " +:+ to_string SIZE +:+
              " != " +:+ to_string (wrap64 (DIM * DIM)))
  else ret tt.

Definition check_vector (vec : cvector_t) (nqubits : Z) : M QV unit :=
  DIM <- lift (at_ BITS nqubits);;
  let SIZE := Z.of_nat (length vec) in
  if decide (SIZE <> DIM)
  then throw ("QubitVector: vector size is " +:+ to_string SIZE +:+
              " != " +:+ to_string DIM)
  else ret tt.

Definition check_checkpoint_msg : string :=
  "QubitVector: checkpoint must exist for inner_product() or revert()".

Definition check_checkpoint : M QV unit :=
  s <- get;;
  match checkpoint_ s with
  | None => throw check_checkpoint_msg
  | Some _ => ret tt
  end.

(** *** Constructors *)

Definition set_num_qubits (num_qubits : Z) : M QV unit :=
  s <- get;;
  let prev_num_qubits := num_qubits_ s in
  size <- lift (at_ BITS num_qubits);;
  (* free(checkpoint_); checkpoint_ = nullptr *)
  let data :=
    match data_ s with
    | Some b => if decide (prev_num_qubits <> num_qubits) then None else Some b
    | None => None
    end in
  let data :=
    match data with
    | None => malloc_complex size
    | Some b => Some b
    end in
  put {| num_qubits_ := num_qubits; data_size_ := size;
         data_ := data; checkpoint_ := None;
         omp_threads_ := omp_threads_ s; omp_threshold_ := omp_threshold_ s;
         sample_measure_index_size_ := sample_measure_index_size_ s;
         json_chop_threshold_ := json_chop_threshold_ s |}.

(** [QubitVector(num_qubits)]: the member initialisers, the default
    config settings, then [set_num_qubits]. *)
Definition new_QubitVector (num_qubits : Z) : outcome QV unit :=
  set_num_qubits num_qubits
    {| num_qubits_ := 0; data_size_ := 0; data_ := None; checkpoint_ := None;
       omp_threads_ := 1; omp_threshold_ := 14;
       sample_measure_index_size_ := 10;
       json_chop_threshold_ := d_zero |}.

(** *** Element access *)

Definition operator_index (element : Z) : M QV (complex_t R) :=
  s <- get;;
  (if DEBUG && bool_decide (element > data_size_ s)
   then throw ("QubitVector: vector index " +:+ to_string element +:+
               " > " +:+ to_string (data_size_ s))
   else ret tt);;;
  on_data (rd element).

(** *** Utility *)

Definition zero : M QV unit :=
  s <- get;;
  let END := to_int64 (data_size_ s) in
  for_ (fun k => on_data (wr (Z.of_nat k) c_zero)) 0 (Z.to_nat END).

Definition initialize : M QV unit :=
  zero;;; on_data (wr 0 c_one).

Definition initialize_from_vector (statevec : cvector_t) : M QV unit :=
  s <- get;;
  if decide (data_size_ s <> Z.of_nat (length statevec))
  then throw ("QubitVector::initialize input vector is incorrect length (" +:+
              to_string (data_size_ s) +:+ "!=" +:+
              to_string (Z.of_nat (length statevec)) +:+ ")")
  else
    let END := to_int64 (data_size_ s) in
    for_ (fun k => v <- lift (statevec !! k);; on_data (wr (Z.of_nat k) v))
         0 (Z.to_nat END).

(** *** Check point operations *)

Definition checkpoint : M QV unit :=
  s <- get;;
  (match checkpoint_ s with
   | None => put (set_checkpoint_ s (malloc_complex (data_size_ s)))
   | Some _ => ret tt
   end);;;
  let END := to_int64 (data_size_ s) in
  for_ (fun k => v <- on_data (rd (Z.of_nat k));;
                 on_checkpoint (wr (Z.of_nat k) v))
       0 (Z.to_nat END).

Definition revert (keep : bool) : M QV unit :=
  (if DEBUG then check_checkpoint else ret tt);;;
  s <- get;;
  let END := to_int64 (data_size_ s) in
  for_ (fun k => v <- on_checkpoint (rd (Z.of_nat k));;
                 on_data (wr (Z.of_nat k) v))
       0 (Z.to_nat END);;;
  if keep then ret tt
  else (s' <- get;; put (set_checkpoint_ s' None)).

(** The [if] clause of the parallel regions of the header. *)
Definition omp_parallel (s : QV) : bool :=
  bool_decide (num_qubits_ s > omp_threshold_ s) &&
  bool_decide (omp_threads_ s > 1).

(** [apply_reduction_lambda(func)] over all entries: the two accumulators
    start at 0 and the result is [complex_t(val_re, val_im)]. When the [if]
    clause is false the loop runs in index order on the accumulators. When
    it is true, [reduction(+: val_re, val_im)] gives every thread private
    accumulators that start at 0, the thread runs its iterations on them,
    and the private accumulators are added to the original ones, thread
    after thread in the order of the run-time system. *)
Definition apply_reduction_lambda_all
    (func : Z -> R * R -> M QV (R * R)) : M QV (complex_t R) :=
  s <- get;;
  let END := to_int64 (data_size_ s) in
  acc <-
    (if omp_parallel s then
       fold_m (fun acc iterations =>
                 priv <- fold_m (fun priv k => func (Z.of_nat k) priv)
                                iterations (d_zero, d_zero);;
                 ret (d_add (fst acc) (fst priv), d_add (snd acc) (snd priv)))
              (omp_schedule (omp_threads_ s) (Z.to_nat END))
              (d_zero, d_zero)
     else
       for_m (fun k acc => func (Z.of_nat k) acc) 0 (Z.to_nat END)
             (d_zero, d_zero));;
  ret (Complex (fst acc) (snd acc)).

Definition inner_product : M QV (complex_t R) :=
  (if DEBUG then check_checkpoint else ret tt);;;
  apply_reduction_lambda_all (fun k acc =>
    a <- on_data (rd k);;
    c <- on_checkpoint (rd k);;
    let z := c_mul a (conj c) in
    ret (d_add (fst acc) (real z), d_add (snd acc) (imag z))).

(** *** Config settings *)

(** The argument is an [int]; the members are [uint_t]. *)
Definition set_omp_threads (n : Z) : M QV unit :=
  s <- get;;
  if decide (n > 0)
  then put {| num_qubits_ := num_qubits_ s; data_size_ := data_size_ s;
              data_ := data_ s; checkpoint_ := checkpoint_ s;
              omp_threads_ := wrap64 n; omp_threshold_ := omp_threshold_ s;
              sample_measure_index_size_ := sample_measure_index_size_ s;
              json_chop_threshold_ := json_chop_threshold_ s |}
  else ret tt.

Definition set_omp_threshold (n : Z) : M QV unit :=
  s <- get;;
  if decide (n > 0)
  then put {| num_qubits_ := num_qubits_ s; data_size_ := data_size_ s;
              data_ := data_ s; checkpoint_ := checkpoint_ s;
              omp_threads_ := omp_threads_ s; omp_threshold_ := wrap64 n;
              sample_measure_index_size_ := sample_measure_index_size_ s;
              json_chop_threshold_ := json_chop_threshold_ s |}
  else ret tt.

Definition set_json_chop_threshold (threshold : R) : M QV unit :=
  s <- get;;
  put {| num_qubits_ := num_qubits_ s; data_size_ := data_size_ s;
         data_ := data_ s; checkpoint_ := checkpoint_ s;
         omp_threads_ := omp_threads_ s; omp_threshold_ := omp_threshold_ s;
         sample_measure_index_size_ := sample_measure_index_size_ s;
         json_chop_threshold_ := threshold |}.

Definition set_sample_measure_index_size (n : Z) : M QV unit :=
  s <- get;;
  put {| num_qubits_ := num_qubits_ s; data_size_ := data_size_ s;
         data_ := data_ s; checkpoint_ := checkpoint_ s;
         omp_threads_ := omp_threads_ s; omp_threshold_ := omp_threshold_ s;
         sample_measure_index_size_ := n;
         json_chop_threshold_ := json_chop_threshold_ s |}.

(** *** JSON serialization *)

(** Modelled from the spec: the conversion of a [complex_t] to [json_t]
    lives in [framework/json.hpp], which is not part of the sources at
    hand; the specification gives it as the two-element array
    [[real, imag]]. *)
Definition json_of_complex (c : complex_t R) : json_t R :=
  JArray [JNumber (real c); JNumber (imag c)].

(** [js[j][c] = x]. *)
Definition json_set (js : list (json_t R)) (j : Z) (c : nat) (x : R)
  : option (list (json_t R)) :=
  e ← at_ js j;
  match e with
  | JArray es =>
      if decide (c < length es)%nat
      then upd js j (JArray (<[c := JNumber x]> es))
      else None
  | JNumber _ => None
  end.

Definition json : M QV (json_t R) :=
  s <- get;;
  let END := to_int64 (data_size_ s) in
  let ZERO := json_of_complex c_zero in
  let js := replicate (Z.to_nat (data_size_ s)) ZERO in
  js <-
    (if d_ltb d_zero (json_chop_threshold_ s)
     then
       for_m (fun j js =>
                a <- on_data (rd (Z.of_nat j));;
                js <- (if d_ltb (json_chop_threshold_ s) (d_abs (real a))
                       then lift (json_set js (Z.of_nat j) 0 (real a))
                       else ret js);;
                (if d_ltb (json_chop_threshold_ s) (d_abs (imag a))
                 then lift (json_set js (Z.of_nat j) 1 (imag a))
                 else ret js))
             0 (Z.to_nat END) js
     else
       for_m (fun j js =>
                a <- on_data (rd (Z.of_nat j));;
                js <- lift (json_set js (Z.of_nat j) 0 (real a));;
                lift (json_set js (Z.of_nat j) 1 (imag a)))
             0 (Z.to_nat END) js);;
  ret (JArray js).

(** *** Statevector block update with Lambda function *)

(** [apply_lambda(func, qubits)] and [apply_lambda(func, qubits, params)]:
    the parameters reach the kernel through its closure. The kernel runs on
    the buffer behind [data_]. *)
Definition apply_lambda (func : list Z -> M (buffer R) unit) (qubits : list Z)
  : M QV unit :=
  (if DEBUG
   then for_ (fun i => q <- lift (qubits !! i);; check_qubit q) 0 (length qubits)
   else ret tt);;;
  s <- get;;
  let NUM_QUBITS := Z.of_nat (length qubits) in
  blocks <- lift (shr64 (data_size_ s) NUM_QUBITS);;
  let END := to_int64 blocks in
  let qubits_sorted := std_sort qubits in
  for_ (fun k =>
          inds <- indexes qubits qubits_sorted (Z.of_nat k);;
          on_data (func inds))
       0 (Z.to_nat END).

(** *** Single-qubit matrices *)

(** The literal [-1.]. *)
Definition d_minus_one : R := d_neg d_one.

(** [z *= x] for a complex [z] and a double [x]. *)
Definition c_scale (z : complex_t R) (x : R) : complex_t R :=
  Complex (d_mul (real z) x) (d_mul (imag z) x).

(** The four kernels of [apply_diagonal_matrix(qubit, diag)] that act on one
    entry [inds[pos]] of the block. *)
Definition kernel_times_minus_i (pos : Z) (inds : list Z) : M (buffer R) unit :=
  k <- lift (at_ inds pos);;
  z <- rd k;;
  let cache := imag z in
  wr k (Complex cache (d_mul (real z) d_minus_one)).

Definition kernel_times_i (pos : Z) (inds : list Z) : M (buffer R) unit :=
  k <- lift (at_ inds pos);;
  z <- rd k;;
  let cache := imag z in
  wr k (Complex (d_mul cache d_minus_one) (real z)).

Definition kernel_clear (pos : Z) (inds : list Z) : M (buffer R) unit :=
  k <- lift (at_ inds pos);;
  wr k c_zero.

Definition kernel_times (pos : Z) (mat : cvector_t) (inds : list Z)
  : M (buffer R) unit :=
  k <- lift (at_ inds pos);;
  m <- lift (at_ mat pos);;
  z <- rd k;;
  wr k (c_mul z m).

Definition apply_diagonal_matrix_1 (qubit : Z) (diag : cvector_t) : M QV unit :=
  d0 <- lift (at_ diag 0);;
  if c_eqb_double d0 d_one then
    d1 <- lift (at_ diag 1);;
    if c_eqb_double d1 d_one then ret tt
    else if c_eqb d1 (Complex d_zero d_minus_one) then
      apply_lambda (kernel_times_minus_i 1) [qubit]
    else if c_eqb d1 (Complex d_zero d_one) then
      apply_lambda (kernel_times_i 1) [qubit]
    else if c_eqb_double d0 d_zero then
      apply_lambda (kernel_clear 1) [qubit]
    else apply_lambda (kernel_times 1 diag) [qubit]
  else
    d1 <- lift (at_ diag 1);;
    if c_eqb_double d1 d_one then
      if c_eqb d0 (Complex d_zero d_minus_one) then
        apply_lambda (kernel_times_minus_i 1) [qubit]
      else if c_eqb d0 (Complex d_zero d_one) then
        apply_lambda (kernel_times_i 1) [qubit]
      else if c_eqb_double d0 d_zero then
        apply_lambda (kernel_clear 0) [qubit]
      else apply_lambda (kernel_times 0 diag) [qubit]
    else
      apply_lambda (fun inds => kernel_times 0 diag inds;;; kernel_times 1 diag inds)
                   [qubit].

(** The test [mat[1] == 0.0 && mat[2] == 0.0]. *)
Definition is_diagonal_2x2 {St} (mat : cvector_t) : M St bool :=
  m1 <- lift (at_ mat 1);;
  if c_eqb_double m1 d_zero
  then (m2 <- lift (at_ mat 2);; ret (c_eqb_double m2 d_zero))
  else ret false.

(** The update of the pair of entries at [pos0] and [pos1] by a 2x2
    matrix. *)
Definition update_pair (pos0 pos1 : Z) (mat : cvector_t) : M (buffer R) unit :=
  cache <- rd pos0;;
  m0 <- lift (at_ mat 0);;
  m2 <- lift (at_ mat 2);;
  a0 <- rd pos0;;
  a1 <- rd pos1;;
  wr pos0 (c_add (c_mul m0 a0) (c_mul m2 a1));;;
  m1 <- lift (at_ mat 1);;
  m3 <- lift (at_ mat 3);;
  a1 <- rd pos1;;
  wr pos1 (c_add (c_mul m1 cache) (c_mul m3 a1)).

Definition update_pair_diagonal (pos0 pos1 : Z) (diag : cvector_t)
  : M (buffer R) unit :=
  d0 <- lift (at_ diag 0);;
  a0 <- rd pos0;;
  wr pos0 (c_mul d0 a0);;;
  d1 <- lift (at_ diag 1);;
  a1 <- rd pos1;;
  wr pos1 (c_mul d1 a1).

Definition apply_matrix_1 (qubit : Z) (mat : cvector_t) : M QV unit :=
  diagonal <- is_diagonal_2x2 mat;;
  if diagonal : bool then
    m0 <- lift (at_ mat 0);;
    m3 <- lift (at_ mat 3);;
    apply_diagonal_matrix_1 qubit [m0; m3]
  else
    apply_lambda (fun inds =>
                    pos0 <- lift (at_ inds 0);;
                    pos1 <- lift (at_ inds 1);;
                    update_pair pos0 pos1 mat)
                 [qubit].

(** *** Matrix multiplication *)

(** The kernel of [apply_matrix(qubits, mat)] for a block of [DIM]
    entries, after the declaration of [cache]; the cases 2, 3 and 4 of the
    switch are this kernel with [DIM] written as 4, 8 and 16. *)
Definition dense_kernel (DIM : Z) (mat : cvector_t) (inds : list Z)
  : M (buffer R) unit :=
  cache <- for_m (fun i cache =>
                    ii <- lift (inds !! i);;
                    c <- rd ii;;
                    wr ii c_zero;;;
                    ret (cache ++ [c]))
                 0 (Z.to_nat DIM) [];;
  for_ (fun i =>
          for_ (fun j =>
                  ii <- lift (inds !! i);;
                  m <- lift (at_ mat (wrap64 (Z.of_nat i + wrap64 (DIM * Z.of_nat j))));;
                  cj <- lift (cache !! j);;
                  d <- rd ii;;
                  wr ii (c_add d (c_mul m cj)))
               0 (Z.to_nat DIM))
       0 (Z.to_nat DIM).

Definition apply_matrix (qubits : list Z) (mat : cvector_t) : M QV unit :=
  let N := Z.of_nat (length qubits) in
  (if DEBUG then check_vector mat (wrap64 (2 * N)) else ret tt);;;
  if decide (N = 1) then
    q <- lift (at_ qubits 0);;
    apply_matrix_1 q mat
  else
    DIM <- lift (at_ BITS N);;
    apply_lambda (fun inds =>
                    (* cache: a std::array in the cases 2, 3 and 4,
                       std::make_unique<complex_t[]>(DIM) otherwise *)
                    (if decide (2 <= N <= 4) then ret tt
                     else (cache <- new_array 16 DIM (c_zero (R:=R));; ret tt));;;
                    dense_kernel DIM mat inds)
                 qubits.

Definition diagonal_kernel (DIM : Z) (diag : cvector_t) (inds : list Z)
  : M (buffer R) unit :=
  for_ (fun i =>
          ii <- lift (inds !! i);;
          m <- lift (diag !! i);;
          d <- rd ii;;
          wr ii (c_mul d m))
       0 (Z.to_nat DIM).

Definition apply_diagonal_matrix (qubits : list Z) (diag : cvector_t)
  : M QV unit :=
  let N := Z.of_nat (length qubits) in
  (if DEBUG then check_vector diag N else ret tt);;;
  if decide (N = 1) then
    q <- lift (at_ qubits 0);;
    apply_diagonal_matrix_1 q diag
  else
    DIM <- lift (at_ BITS N);;
    apply_lambda (diagonal_kernel DIM diag) qubits.

(** *** Multi-controlled gates *)

(** [std::swap(data_[i], data_[j])]. *)
Definition swap_entries (i j : Z) : M (buffer R) unit :=
  a <- rd i;;
  b <- rd j;;
  wr i b;;;
  wr j a.

(** The four cases of the switch hold the same kernel. *)
Definition apply_mcx (qubits : list Z) : M QV unit :=
  let N := Z.of_nat (length qubits) in
  pos0 <- lift (at_ MASKS (wrap64 (N - 1)));;
  pos1 <- lift (at_ MASKS N);;
  apply_lambda (fun inds =>
                  i0 <- lift (at_ inds pos0);;
                  i1 <- lift (at_ inds pos1);;
                  swap_entries i0 i1)
               qubits.

Definition kernel_negate (pos : Z) (inds : list Z) : M (buffer R) unit :=
  k <- lift (at_ inds pos);;
  z <- rd k;;
  wr k (c_scale z d_minus_one).

Definition apply_mcz (qubits : list Z) : M QV unit :=
  let N := Z.of_nat (length qubits) in
  if decide (N = 1) then apply_lambda (kernel_negate 1) qubits
  else if decide (N = 2) then apply_lambda (kernel_negate 3) qubits
  else if decide (N = 3) then apply_lambda (kernel_negate 7) qubits
  else apply_lambda (fun inds =>
                       pos <- lift (at_ MASKS N);;
                       kernel_negate pos inds)
                    qubits.

(** [apply_mcu]: in both switches the cases 2, 3 and default hold the same
    kernel, which addresses [data_] by [pos0] and [pos1] themselves. *)
Definition apply_mcu (qubits : list Z) (mat : cvector_t) : M QV unit :=
  let N := Z.of_nat (length qubits) in
  pos0 <- lift (at_ MASKS (wrap64 (N - 1)));;
  pos1 <- lift (at_ MASKS N);;
  diagonal <- is_diagonal_2x2 mat;;
  if diagonal : bool then
    m0 <- lift (at_ mat 0);;
    m3 <- lift (at_ mat 3);;
    let diag := [m0; m3] in
    if decide (N = 1) then
      q <- lift (at_ qubits 0);;
      apply_diagonal_matrix_1 q diag
    else
      apply_lambda (fun inds => update_pair_diagonal pos0 pos1 diag) qubits
  else
    if decide (N = 1) then
      q <- lift (at_ qubits 0);;
      apply_matrix_1 q mat
    else
      apply_lambda (fun inds => update_pair pos0 pos1 mat) qubits.

(** *** Gate-swap optimized helper functions *)

(** Exchanges [mat[a]] and [mat[b]]. *)
Definition vswap (mat : cvector_t) (a b : Z) : option cvector_t :=
  cache ← at_ mat a;
  x ← at_ mat b;
  mat ← upd mat a x;
  upd mat b cache.

Definition swap_cols_and_rows (idx1 idx2 : Z) (mat : cvector_t) (dim : Z)
  : option cvector_t :=
  mask1 ← at_ BITS idx1;
  mask2 ← at_ BITS idx2;
  for_opt (fun first mat =>
             let first := Z.of_nat first in
             if negb (Z.land first mask1 =? 0) && (Z.land first mask2 =? 0)
             then
               let second := Z.lor (Z.lxor first mask1) mask2 in
               mat ← for_opt (fun i mat =>
                                vswap mat (wrap64 (wrap64 (first * dim) + Z.of_nat i))
                                          (wrap64 (wrap64 (second * dim) + Z.of_nat i)))
                             0 (Z.to_nat dim) mat;
               for_opt (fun i mat =>
                          vswap mat (wrap64 (wrap64 (Z.of_nat i * dim) + first))
                                    (wrap64 (wrap64 (Z.of_nat i * dim) + second)))
                       0 (Z.to_nat dim) mat
             else Some mat)
          0 (Z.to_nat dim) mat.

(** The two searches in the body of the loop of [sort_matrix]: the first
    position where [current] and [sorted] differ, and the position after it
    where [sorted] holds [current[from]]. Each stops at [current.size()]. *)
Fixpoint find_from (current sorted : list Z) (from count : nat) : option nat :=
  match count with
  | O => Some from
  | S c =>
      x ← current !! from;
      y ← sorted !! from;
      if decide (x <> y) then Some from else find_from current sorted (S from) c
  end.

Fixpoint find_to (x : Z) (sorted : list Z) (to count : nat) : option nat :=
  match count with
  | O => Some to
  | S c =>
      y ← sorted !! to;
      if decide (x = y) then Some to else find_to x sorted (S to) c
  end.

(** The loop [while (current != sorted)], unrolled [rounds] times; a run
    that needs more rounds has no result. A round that swaps puts one more
    entry of [current] in its place when the entries are distinct, so
    [current.size()] rounds are enough then. *)
Fixpoint sort_matrix_loop {St} (rounds : nat) (current sorted : list Z)
    (ret_ : cvector_t) (DIM : Z) : M St cvector_t :=
  if decide (current = sorted) then ret ret_
  else
    match rounds with
    | O => undefined
    | S rounds' =>
        let size := length current in
        from <- lift (find_from current sorted 0 size);;
        if decide (from = size) then ret ret_
        else
          x <- lift (current !! from);;
          to <- lift (find_to x sorted (S from) (size - S from));;
          if decide (to = size)
          then throw "QubitVector<data_t>::sort_matrix we should not reach here"
          else
            ret' <- lift (swap_cols_and_rows (Z.of_nat from) (Z.of_nat to) ret_ DIM);;
            y <- lift (current !! to);;
            let current := <[to := x]> (<[from := y]> current) in
            sort_matrix_loop rounds' current sorted ret' DIM
    end.

Definition sort_matrix {St} (src sorted : list Z) (mat : cvector_t)
  : M St cvector_t :=
  let N := Z.of_nat (length src) in
  DIM <- lift (at_ BITS N);;
  sort_matrix_loop (length src) src sorted mat DIM.

(** [std::distance(v.begin(), std::find(v.begin(), v.end(), x))]. *)
Fixpoint find_index (v : list Z) (x : Z) : Z :=
  match v with
  | [] => 0
  | y :: v' => if decide (y = x) then 0 else 1 + find_index v' x
  end.

(** The assignments [u[row + col * dst_dim] = vmat[r + c * src_dim]] of one
    round of [expand_matrix], for the listed offsets of the rows and
    columns. *)
Definition expand_block (offsets : list Z) (i dst_dim src_dim : Z)
    (vmat u : cvector_t) : option cvector_t :=
  for_opt (fun r u =>
             for_opt (fun c u =>
                        dr ← offsets !! r;
                        dc ← offsets !! c;
                        v ← at_ vmat (wrap64 (Z.of_nat r + wrap64 (Z.of_nat c * src_dim)));
                        upd u (wrap64 (wrap64 (i + dr) + wrap64 (wrap64 (i + dc) * dst_dim))) v)
                     0 (length offsets) u)
          0 (length offsets) u.

(** [filled[i + d] = true] for the listed offsets. *)
Definition mark_filled (offsets : list Z) (i : Z) (filled : list bool)
  : option (list bool) :=
  foldl (fun f d => f ← f; upd f (wrap64 (i + d)) true) (Some filled) offsets.

Definition expand_loop (offsets : list Z) (dst_dim src_dim : Z)
    (vmat : cvector_t) (u : cvector_t) (filled : list bool)
  : option (cvector_t * list bool) :=
  for_opt (fun i '(u, filled) =>
             f ← filled !! i;
             if f : bool then Some (u, filled)
             else
               u ← expand_block offsets (Z.of_nat i) dst_dim src_dim vmat u;
               filled ← mark_filled offsets (Z.of_nat i) filled;
               Some (u, filled))
          0 (Z.to_nat dst_dim) (u, filled).

Definition expand_matrix {St} (src_qubits dst_sorted_qubits : list Z)
    (vmat : cvector_t) : M St cvector_t :=
  dst_dim <- lift (at_ BITS (Z.of_nat (length dst_sorted_qubits)));;
  let dst_vmat_size := wrap64 (dst_dim * dst_dim) in
  src_dim <- lift (at_ BITS (Z.of_nat (length src_qubits)));;
  u <- vector_assign 16 dst_vmat_size c_zero;;
  let filled := replicate (Z.to_nat dst_dim) false in
  if decide (length src_qubits = 1%nat) then
    q <- lift (at_ src_qubits 0);;
    let index := find_index dst_sorted_qubits q in
    delta <- lift (at_ BITS index);;
    r <- lift (expand_loop [0; delta] dst_dim src_dim vmat u filled);;
    ret (fst r)
  else if decide (length src_qubits = 2%nat) then
    let sorted_src_qubits := std_sort src_qubits in
    sorted_vmat <- sort_matrix src_qubits sorted_src_qubits vmat;;
    q0 <- lift (at_ src_qubits 0);;
    q1 <- lift (at_ src_qubits 1);;
    let low := find_index dst_sorted_qubits q0 in
    let high := find_index dst_sorted_qubits q1 in
    low_delta <- lift (at_ BITS low);;
    high_delta <- lift (at_ BITS high);;
    r <- lift (expand_loop [0; low_delta; high_delta; wrap64 (low_delta + high_delta)]
                           dst_dim src_dim sorted_vmat u filled);;
    ret (fst r)
  else
    throw ("Fusion::illegal qubit number:" +:+
           to_string (Z.of_nat (length src_qubits))).

(** The qubits of [regs] in order of first appearance. *)
Definition collect_qubits (regs : list (list Z)) : list Z :=
  foldl (fun acc reg =>
           foldl (fun acc qubit =>
                    if decide (qubit ∈ acc) then acc else acc ++ [qubit])
                 acc reg)
        [] regs.

(** [u_tmp[i + j * dim] += u[i + k * dim] * U[k + j * dim]] over [i], [j]
    and [k]. *)
Definition matrix_product (dim : Z) (u U : cvector_t) : option cvector_t :=
  let n := Z.to_nat dim in
  for_opt (fun i u_tmp =>
    for_opt (fun j u_tmp =>
      for_opt (fun k u_tmp =>
                 let ij := wrap64 (Z.of_nat i + wrap64 (Z.of_nat j * dim)) in
                 a ← at_ u (wrap64 (Z.of_nat i + wrap64 (Z.of_nat k * dim)));
                 b ← at_ U (wrap64 (Z.of_nat k + wrap64 (Z.of_nat j * dim)));
                 t ← at_ u_tmp ij;
                 upd u_tmp ij (c_add t (c_mul a b)))
              0 n u_tmp)
      0 n u_tmp)
    0 n (replicate (length U) c_zero).

(** In a [DEBUG] build the size check ends in a stray [;], so the [throw]
    after it is not guarded. *)
Definition apply_matrix_sequence (regs : list (list Z)) (mats : list cvector_t)
  : M QV unit :=
  if decide (length mats = 0%nat) then ret tt
  else
    (if DEBUG
     then throw "QubitVector<data_t>::apply_matrix_sequence allows same size of qubitss and mats."
     else ret tt);;;
    let at_most_two := forallb (fun reg => bool_decide (length reg <= 2)%nat) regs in
    if negb at_most_two then
      for_ (fun i =>
              reg <- lift (regs !! i);;
              mat <- lift (mats !! i);;
              apply_matrix reg mat)
           0 (length regs)
    else
      let sorted_qubits := std_sort (collect_qubits regs) in
      sorted_mats <-
        for_m (fun i sorted_mats =>
                 reg <- lift (regs !! i);;
                 mat <- lift (mats !! i);;
                 e <- expand_matrix reg sorted_qubits mat;;
                 ret (sorted_mats ++ [e]))
              0 (length regs) [];;
      U <- lift (sorted_mats !! 0%nat);;
      dim <- lift (at_ BITS (Z.of_nat (length sorted_qubits)));;
      U <- for_m (fun m U =>
                    u <- lift (sorted_mats !! m);;
                    lift (matrix_product dim u U))
                 1 (length sorted_mats - 1) U;;
      apply_matrix sorted_qubits U.

(** *** Sample measure outcomes *)

(** The walk [for (; sample < END - 1; ++sample)] with its [break], as the
    [count] rounds that are left. *)
Fixpoint sample_walk (count : nat) (sample : Z) (p rnd : R) : M (buffer R) Z :=
  match count with
  | O => ret sample
  | S c =>
      a <- rd sample;;
      let p := d_add p (norm_sq a) in
      if d_ltb rnd p then ret sample
      else sample_walk c (sample + 1) p rnd
  end.

(** The descent of the table of block weights: the sample index and the
    weight passed over. *)
Fixpoint sample_descend (idxs : list R) (loop sample : Z) (p rnd : R) : Z * R :=
  match idxs with
  | [] => (sample, p)
  | w :: idxs' =>
      if d_ltb rnd (d_add p w) then (sample, p)
      else sample_descend idxs' loop (to_int64 (wrap64 (sample + loop))) (d_add p w) rnd
  end.

Definition sample_measure (rnds : list R) : M QV (list Z) :=
  s <- get;;
  let END := to_int64 (data_size_ s) in
  let SHOTS := length rnds in
  let samples := replicate SHOTS 0 in
  let INDEX_SIZE := sample_measure_index_size_ s in
  index_end <- lift (at_ BITS INDEX_SIZE);;
  let INDEX_END := to_int64 index_end in
  if decide (END < INDEX_END) then
    for_m (fun i samples =>
             rnd <- lift (rnds !! i);;
             sample <- on_data (sample_walk (Z.to_nat (END - 1)) 0 d_zero rnd);;
             lift (upd samples (Z.of_nat i) (wrap64 sample)))
          0 SHOTS samples
  else
    idxs <- vector_assign 8 INDEX_END d_zero;;
    loop <- lift (if decide (0 <= INDEX_SIZE < 64)
                  then Some (wrap64 (Z.shiftr END INDEX_SIZE)) else None);;
    idxs <- for_m (fun i idxs =>
                     let base := wrap64 (loop * Z.of_nat i) in
                     total <- for_m (fun j total =>
                                       let k := Z.lor base (Z.of_nat j) in
                                       a <- on_data (rd k);;
                                       ret (d_add total (norm_sq a)))
                                    0 (Z.to_nat loop) d_zero;;
                     lift (upd idxs (Z.of_nat i) total))
                  0 (Z.to_nat INDEX_END) idxs;;
    for_m (fun i samples =>
             rnd <- lift (rnds !! i);;
             let '(sample, p) := sample_descend idxs loop 0 d_zero rnd in
             sample <- on_data (sample_walk (Z.to_nat (END - 1 - sample)) sample p rnd);;
             lift (upd samples (Z.of_nat i) (wrap64 sample)))
          0 SHOTS samples.

(** *** The remaining gates *)

Definition apply_permutation_matrix (qubits : list Z) (pairs : list (Z * Z))
  : M QV unit :=
  apply_lambda (fun inds =>
                  for_ (fun n =>
                          p <- lift (pairs !! n);;
                          i0 <- lift (at_ inds (fst p));;
                          i1 <- lift (at_ inds (snd p));;
                          swap_entries i0 i1)
                       0 (length pairs))
               qubits.

Definition c_neg (z : complex_t R) : complex_t R :=
  Complex (d_neg (real z)) (d_neg (imag z)).

Definition apply_mcy (qubits : list Z) : M QV unit :=
  let N := Z.of_nat (length qubits) in
  pos0 <- lift (at_ MASKS (wrap64 (N - 1)));;
  pos1 <- lift (at_ MASKS N);;
  let I := Complex d_zero d_one in
  apply_lambda (fun inds =>
                  i0 <- lift (at_ inds pos0);;
                  cache <- rd i0;;
                  i1 <- lift (at_ inds pos1);;
                  a1 <- rd i1;;
                  wr i0 (c_mul (c_neg I) a1);;;
                  wr i1 (c_mul I cache))
               qubits.

Definition apply_mcswap (qubits : list Z) : M QV unit :=
  let N := Z.of_nat (length qubits) in
  pos0 <- lift (at_ MASKS (wrap64 (N - 1)));;
  bit <- lift (at_ BITS (wrap64 (N - 2)));;
  let pos1 := wrap64 (pos0 + bit) in
  apply_lambda (fun inds =>
                  i0 <- lift (at_ inds pos0);;
                  i1 <- lift (at_ inds pos1);;
                  swap_entries i0 i1)
               qubits.

Definition initialize_component (qubits : list Z) (state : cvector_t)
  : M QV unit :=
  let N := Z.of_nat (length qubits) in
  apply_lambda (fun inds =>
                  DIM <- lift (shl64 1 N);;
                  i0 <- lift (at_ inds 0);;
                  cache <- rd i0;;
                  for_ (fun i =>
                          ii <- lift (inds !! i);;
                          x <- lift (state !! i);;
                          wr ii (c_mul cache x))
                       0 (Z.to_nat DIM))
               qubits.

(** The calls that apply a gate to the state. *)
Inductive gate :=
  | Matrix1 (qubit : Z) (mat : cvector_t)
  | Matrix (qubits : list Z) (mat : cvector_t)
  | MatrixSequence (regs : list (list Z)) (mats : list cvector_t)
  | DiagonalMatrix1 (qubit : Z) (diag : cvector_t)
  | DiagonalMatrix (qubits : list Z) (diag : cvector_t)
  | PermutationMatrix (qubits : list Z) (pairs : list (Z * Z))
  | Mcx (qubits : list Z)
  | Mcy (qubits : list Z)
  | Mcz (qubits : list Z)
  | Mcu (qubits : list Z) (mat : cvector_t)
  | Mcswap (qubits : list Z)
  | InitializeComponent (qubits : list Z) (state : cvector_t).

Definition apply_gate (g : gate) : M QV unit :=
  match g with
  | Matrix1 qubit mat => apply_matrix_1 qubit mat
  | Matrix qubits mat => apply_matrix qubits mat
  | MatrixSequence regs mats => apply_matrix_sequence regs mats
  | DiagonalMatrix1 qubit diag => apply_diagonal_matrix_1 qubit diag
  | DiagonalMatrix qubits diag => apply_diagonal_matrix qubits diag
  | PermutationMatrix qubits pairs => apply_permutation_matrix qubits pairs
  | Mcx qubits => apply_mcx qubits
  | Mcy qubits => apply_mcy qubits
  | Mcz qubits => apply_mcz qubits
  | Mcu qubits mat => apply_mcu qubits mat
  | Mcswap qubits => apply_mcswap qubits
  | InitializeComponent qubits state => initialize_component qubits state
  end.

Fixpoint apply_gates (gs : list gate) : M QV unit :=
  match gs with
  | [] => ret tt
  | g :: gs' => apply_gate g;;; apply_gates gs'
  end.

(** *** What the specification says *)

(** The class invariant of an instance that holds a state: [N] qubits,
    [N <= 58] so that the [16 * 2^N] bytes of a buffer are at most
    [PTRDIFF_MAX] (a larger buffer cannot be allocated), a state buffer of
    [2^N] amplitudes and, when there is a checkpoint, a checkpoint buffer of
    the same size. *)
Definition wf (s : QV) : Prop :=
  0 <= num_qubits_ s <= 58 /\
  data_size_ s = 2 ^ num_qubits_ s /\
  (exists b, data_ s = Some b /\ Z.of_nat (length b) = data_size_ s) /\
  (forall c, checkpoint_ s = Some c -> Z.of_nat (length c) = data_size_ s).

(** The multi-controlled U of the specification: in every block the pair of
    amplitudes at [T[pos0]] and [T[pos1]] is updated, with the diagonal
    fast path of the single-qubit case; for one qubit it is the plain
    single-qubit path. *)
Definition apply_mcu_spec (qubits : list Z) (mat : cvector_t) : M QV unit :=
  let N := Z.of_nat (length qubits) in
  pos0 <- lift (at_ MASKS (wrap64 (N - 1)));;
  pos1 <- lift (at_ MASKS N);;
  diagonal <- is_diagonal_2x2 mat;;
  if diagonal : bool then
    m0 <- lift (at_ mat 0);;
    m3 <- lift (at_ mat 3);;
    let diag := [m0; m3] in
    if decide (N = 1) then
      q <- lift (at_ qubits 0);;
      apply_diagonal_matrix_1 q diag
    else
      apply_lambda (fun T =>
                      i0 <- lift (at_ T pos0);;
                      i1 <- lift (at_ T pos1);;
                      update_pair_diagonal i0 i1 diag)
                   qubits
  else
    if decide (N = 1) then
      q <- lift (at_ qubits 0);;
      apply_matrix_1 q mat
    else
      apply_lambda (fun T =>
                      i0 <- lift (at_ T pos0);;
                      i1 <- lift (at_ T pos1);;
                      update_pair i0 i1 mat)
                   qubits.

(** Sequential application of the gates of a sequence with
    [apply_matrix]. *)
Definition apply_each (regs : list (list Z)) (mats : list cvector_t) : M QV unit :=
  for_ (fun i =>
          reg <- lift (regs !! i);;
          mat <- lift (mats !! i);;
          apply_matrix reg mat)
       0 (length regs).

(** The running sum [p] of [sample_measure] after the first [k] amplitudes:
    the squared magnitudes added to 0 in index order. The sum over
    [i <= j] is [cumulative b (S j)]. *)
Definition cumulative (b : buffer R) (k : nat) : R :=
  foldl (fun p a => d_add p (norm_sq a)) d_zero (take k b).

(** [j] is the outcome for the random number [rnd]: the first index below
    [last] at which the running sum exceeds [rnd], and [last] when there is
    none. *)
Definition is_outcome (b : buffer R) (last : nat) (rnd : R) (j : nat) : Prop :=
  (forall j', (j' < j)%nat -> d_ltb rnd (cumulative b (S j')) = false) /\
  ((j < last)%nat /\ d_ltb rnd (cumulative b (S j)) = true \/ j = last).

(** A part of an amplitude after chopping, and the entry of the serialised
    array for the amplitude [a]. *)
Definition chop (threshold x : R) : R :=
  if d_ltb threshold (d_abs x) then x else d_zero.

Definition json_entry (threshold : R) (a : complex_t R) : json_t R :=
  if d_ltb d_zero threshold
  then JArray [JNumber (chop threshold (real a)); JNumber (chop threshold (imag a))]
  else JArray [JNumber (real a); JNumber (imag a)].

(** *** Frames of the gate calls *)

(** A kernel keeps the size of the buffer. *)
Definition len_pres {A} (m : M (buffer R) A) : Prop :=
  forall b a b', m b = Ok a b' -> length b' = length b.

(** [s'] differs from [s] at most in the contents of the state buffer. *)
Definition frame (s s' : QV) : Prop :=
  num_qubits_ s' = num_qubits_ s /\
  data_size_ s' = data_size_ s /\
  checkpoint_ s' = checkpoint_ s /\
  omp_threads_ s' = omp_threads_ s /\
  omp_threshold_ s' = omp_threshold_ s /\
  sample_measure_index_size_ s' = sample_measure_index_size_ s /\
  json_chop_threshold_ s' = json_chop_threshold_ s /\
  match data_ s, data_ s' with
  | Some b, Some b' => length b' = length b
  | None, None => True
  | _, _ => False
  end.

Definition framed {A} (m : M QV A) : Prop :=
  forall s a s', m s = Ok a s' -> frame s s'.

(** *** Reading the state: copies, probabilities and the norm *)

(** [vector()]: a copy of the buffer as a [cvector_t]. *)
Definition vector : M QV cvector_t :=
  s <- get;;
  ret_ <- vector_assign 16 (data_size_ s) c_zero;;
  let END := to_int64 (data_size_ s) in
  for_m (fun j ret_ =>
           a <- on_data (rd (Z.of_nat j));;
           lift (upd ret_ (Z.of_nat j) a))
        0 (Z.to_nat END) ret_.

Definition probability (outcome : Z) : M QV R :=
  v <- on_data (rd outcome);;
  ret (real (c_mul v (conj v))).

(** [probabilities()]: all measurement outcomes. The vector is built with
    [data_size_] entries and assigned [data_size_] zeros. *)
Definition probabilities : M QV (list R) :=
  s <- get;;
  probs <- vector_assign 8 (data_size_ s) d_zero;;
  let END := to_int64 (data_size_ s) in
  for_m (fun j probs =>
           p <- probability (Z.of_nat j);;
           lift (upd probs (Z.of_nat j) p))
        0 (Z.to_nat END) probs.

(** [norm()]: the reduction adds [real(data_[k] * conj(data_[k]))] to
    [val_re] and leaves [val_im] alone. *)
Definition norm : M QV R :=
  z <- apply_reduction_lambda_all (fun k acc =>
         a <- on_data (rd k);;
         ret (d_add (fst acc) (real (c_mul a (conj a))), snd acc));;
  ret (real z).

(** *** What the code shows about sums and swaps *)

(** The list with its entries [a] at [p] and [c] at [q] replaced by
    [f a c] and [g a c]. *)
Definition pair_update {A} (f g : A -> A -> A) (p q : nat) (b : list A)
  : list A :=
  match b !! p, b !! q with
  | Some a, Some c => <[q := g a c]> (<[p := f a c]> b)
  | _, _ => b
  end.

(** The list with its entries at [p] and [q] exchanged. *)
Definition exchange {A} (p q : nat) (b : list A) : list A :=
  pair_update (fun _ c => c) (fun a _ => a) p q b.

(** Entry [i] of the index table of the counter [k], as the specification
    describes it. *)
Definition block_entry (qubits : list Z) (k i : Z) : Z :=
  set_qubit_bits 0 qubits i (insert_zero_bits (std_sort qubits) k).

(** The entries of [b] at the indices [T], in order ([d] where there is
    none). *)
Definition gather {A} (d : A) (T : list Z) (b : list A) : list A :=
  (fun t => default d (b !! Z.to_nat t)) <$> T.

(** The list [b] with [ws[i]] written at the index [T[i]], for every [i]. *)
Definition scatter {A} (T : list Z) (ws : list A) (b : list A) : list A :=
  foldl (fun bb tw => <[Z.to_nat (fst tw) := snd tw]> bb) b (zip T ws).

(** A two-bit number with its bits exchanged. *)
Definition swap_two_bits (r : nat) : nat :=
  match r with
  | 1 => 2
  | 2 => 1
  | _ => r
  end%nat.

(** Whether all the listed bits of [x] are 1. *)
Definition all_bits_set (bits : list Z) (x : Z) : bool :=
  forallb (Z.testbit x) bits.

(** The sum of a list of doubles, added to 0 from left to right. *)
Definition sum_left (xs : list R) : R := foldl d_add d_zero xs.

(** The weights of the [count] consecutive blocks of [loop] amplitudes: the
    squared moduli of a block added to 0 from left to right. *)
Definition block_weights (b : cvector_t) (loop count : nat) : list R :=
  map (fun i => foldl (fun p a => d_add p (norm_sq a)) d_zero
                  (take loop (drop (loop * i) b)))
      (seq 0 count).

(** Row [i] of the column-major [DIM] x [DIM] matrix [mat] times the vector
    [vs]: the products [mat[i + DIM * j] * vs[j]] added to 0 from left to
    right. *)
Definition dense_row (mat vs : cvector_t) (DIM i : nat) : complex_t R :=
  foldl (fun acc j =>
           c_add acc (c_mul (default c_zero (mat !! (i + DIM * j)%nat))
                            (default c_zero (vs !! j))))
        c_zero (seq 0 DIM).

End QubitVector.

(** ** Test vectors *)

(** A register of [n] qubits holding the amplitudes [amps], with the
    default config settings and no checkpoint. *)
Definition qv_of {R} `{Double R} (n : Z) (amps : list (complex_t R))
  : QubitVector R :=
  {| num_qubits_ := n; data_size_ := 2 ^ n;
     data_ := Some amps; checkpoint_ := None;
     omp_threads_ := 1; omp_threshold_ := 14;
     sample_measure_index_size_ := 10;
     json_chop_threshold_ := d_zero |}.

(** The same with a sample-measure index size and a chop threshold. *)
Definition qv_config {R} `{Double R} (n : Z) (amps : list (complex_t R))
    (index_size : Z) (threshold : R) : QubitVector R :=
  {| num_qubits_ := n; data_size_ := 2 ^ n;
     data_ := Some amps; checkpoint_ := None;
     omp_threads_ := 1; omp_threshold_ := 14;
     sample_measure_index_size_ := index_size;
     json_chop_threshold_ := threshold |}.

(** Real amplitudes and matrix entries. *)
Definition reals {R} `{Double R} (xs : list R) : list (complex_t R) :=
  map c_of_double xs.

(** Column-major 2x2 and 4x4 matrices with entries 0 and 1: the X gate and
    the controlled X whose control is the first listed qubit. *)
Definition X_matrix {R} `{Double R} : list (complex_t R) :=
  reals [d_zero; d_one; d_one; d_zero].

Definition CX_matrix {R} `{Double R} : list (complex_t R) :=
  reals [d_one; d_zero; d_zero; d_zero;
         d_zero; d_zero; d_zero; d_one;
         d_zero; d_zero; d_one; d_zero;
         d_zero; d_one; d_zero; d_zero].

(** The diagonal matrix of the Z gate. *)
Definition Z_matrix {R} `{Double R} : list (complex_t R) :=
  reals [d_one; d_zero; d_zero; d_neg d_one].

(** The basis state [|j>] of [n] qubits. *)
Definition basis {R} `{Double R} (n : Z) (j : nat) : QubitVector R :=
  qv_of n (<[j := c_one]> (replicate (Z.to_nat (2 ^ n)) c_zero)).

(** * Properties *)

(** ** Properties of the tables and of the bit-index algebra *)

(** A computation that returns passes its value and state on. *)
Lemma bind_run {St A B} (m : M St A) (f : A -> M St B) s a s' :
  m s = Ok a s' -> bind m f s = f a s'.
Proof. intros Hm. unfold bind. by rewrite Hm. Qed.

(** Vectors of up to [2^59 - 1] amplitudes and of up to [2^60 - 1] doubles
    are built. *)
Lemma vector_assign_granted {St A} (size n : Z) (x : A) (s : St) :
  (size = 16 /\ 0 <= n < 2 ^ 59) \/ (size = 8 /\ 0 <= n < 2 ^ 60) ->
  vector_assign size n x s = Ok (replicate (Z.to_nat n) x) s.
Proof.
  intros Hn. unfold vector_assign.
  assert (wrap64 n = n) as ->.
  { unfold wrap64. apply Z.mod_small. lia. }
  destruct Hn as [[-> Hn] | [-> Hn]].
  - change ((2 ^ 63 - 1) / 16) with (2 ^ 59 - 1). by rewrite decide_False by lia.
  - change ((2 ^ 63 - 1) / 8) with (2 ^ 60 - 1). by rewrite decide_False by lia.
Qed.

(** Unless both components of the componentwise product are NaN, the
    product of two complex numbers is that product; over the integers it
    always is. *)
Lemma c_mul_componentwise {R : Type} `{Double R} (z w : complex_t R) :
  d_isnan (d_sub (d_mul (real z) (real w)) (d_mul (imag z) (imag w))) &&
  d_isnan (d_add (d_mul (real z) (imag w)) (d_mul (imag z) (real w))) = false ->
  c_mul z w
  = Complex (d_sub (d_mul (real z) (real w)) (d_mul (imag z) (imag w)))
            (d_add (d_mul (real z) (imag w)) (d_mul (imag z) (real w))).
Proof. intros Hnan. unfold c_mul. cbv zeta. by rewrite Hnan. Qed.

Lemma c_mul_integers (z w : complex_t Z) :
  c_mul z w
  = Complex (real z * real w - imag z * imag w)
            (real z * imag w + imag z * real w).
Proof. exact (c_mul_componentwise z w eq_refl). Qed.

(** The product of [std::complex<double>] in binary64: finite factors give
    the componentwise formula; infinite factors give an infinite product,
    and the squared modulus of an amplitude with an infinite part is
    infinite whatever its other part. *)
Example c_mul_binary64 :
  (c_mul (Complex 1 2) (Complex 3 4) = Complex (-5) 10)%float /\
  (c_mul (Complex infinity infinity) (Complex 2 0)
   = Complex infinity infinity)%float /\
  (c_mul (c_neg (Complex 0 1)) (Complex infinity infinity)
   = Complex infinity neg_infinity)%float /\
  (norm_sq (Complex infinity nan) = infinity)%float /\
  (real (c_mul (Complex infinity nan) (conj (Complex infinity nan)))
   = infinity)%float.
Proof. repeat split; vm_compute; reflexivity. Qed.

(** The examples of the header's comments. *)
Example index0_doc_example : index0 [1; 4] 77 = Some 297.
Proof. reflexivity. Qed.

Example indexes_doc_example :
  indexes [1; 4] [1; 4] 77 tt = Ok [297; 299; 313; 315] tt.
Proof. reflexivity. Qed.

Example indexes_doc_example_rev :
  indexes [3; 1] [1; 3] 0 tt = Ok [0; 8; 2; 10] tt.
Proof. reflexivity. Qed.

Lemma BITS_lookup (n : nat) : (n < 64)%nat -> BITS !! n = Some (2 ^ Z.of_nat n).
Proof.
  intros Hn. do 64 (destruct n as [|n]; [reflexivity|]). lia.
Qed.

Lemma MASKS_lookup (n : nat) :
  (n < 64)%nat -> MASKS !! n = Some (Z.ones (Z.of_nat n)).
Proof.
  intros Hn. do 64 (destruct n as [|n]; [reflexivity|]). lia.
Qed.

Lemma BITS_at (q : Z) : 0 <= q < 64 -> at_ BITS q = Some (2 ^ q).
Proof.
  intros Hq. unfold at_. rewrite decide_True by lia.
  rewrite BITS_lookup by lia. by rewrite Z2Nat.id by lia.
Qed.

Lemma MASKS_at (q : Z) : 0 <= q < 64 -> at_ MASKS q = Some (Z.ones q).
Proof.
  intros Hq. unfold at_. rewrite decide_True by lia.
  rewrite MASKS_lookup by lia. by rewrite Z2Nat.id by lia.
Qed.

Lemma BITS_length : length BITS = 64%nat.
Proof. reflexivity. Qed.

Lemma at_BITS_Some (q v : Z) : at_ BITS q = Some v -> 0 <= q < 64 /\ v = 2 ^ q.
Proof.
  unfold at_. case_decide; [|done]. intros Hv.
  assert (Z.to_nat q < 64)%nat as Hlt.
  { apply lookup_lt_Some in Hv. by rewrite BITS_length in Hv. }
  rewrite BITS_lookup in Hv by done. rewrite Z2Nat.id in Hv by lia.
  split; [lia | congruence].
Qed.

Lemma insert_zero_bit_bits (q r : Z) :
  0 <= q -> 0 <= r ->
  insert_zero_bit q r = Z.lor (Z.shiftl (Z.shiftr r q) (q + 1)) (Z.land r (Z.ones q)).
Proof.
  intros Hq Hr. unfold insert_zero_bit.
  rewrite Z.land_ones, Z.shiftr_div_pow2, Z.shiftl_mul_pow2 by lia.
  rewrite <- Z.land_ones by lia.
  rewrite <- Z.shiftl_mul_pow2, <- Z.shiftr_div_pow2 by lia.
  symmetry. rewrite <- Z.lxor_lor.
  - symmetry. apply Z.add_nocarry_lxor.
    apply Z.bits_inj'. intros n Hn.
    rewrite Z.land_spec, Z.bits_0, Z.land_spec.
    destruct (decide (n < q + 1)).
    + rewrite Z.shiftl_spec_low by lia. done.
    + rewrite Z.testbit_ones_nonneg by lia.
      rewrite (proj2 (Z.ltb_ge n q)) by lia.
      by rewrite !andb_false_r.
  - apply Z.bits_inj'. intros n Hn.
    rewrite Z.land_spec, Z.bits_0, Z.land_spec.
    destruct (decide (n < q + 1)).
    + rewrite Z.shiftl_spec_low by lia. done.
    + rewrite Z.testbit_ones_nonneg by lia.
      rewrite (proj2 (Z.ltb_ge n q)) by lia.
      by rewrite !andb_false_r.
Qed.

Lemma insert_zero_bit_testbit (q r b : Z) :
  0 <= q -> 0 <= r -> 0 <= b ->
  Z.testbit (insert_zero_bit q r) b =
    if decide (b < q) then Z.testbit r b
    else if decide (b = q) then false
    else Z.testbit r (b - 1).
Proof.
  intros Hq Hr Hb. rewrite insert_zero_bit_bits by done.
  rewrite Z.lor_spec, Z.land_spec, Z.testbit_ones_nonneg by lia.
  repeat case_decide.
  - rewrite Z.shiftl_spec_low by lia.
    rewrite (proj2 (Z.ltb_lt b q)) by lia. by rewrite andb_true_r.
  - subst b. rewrite Z.shiftl_spec_low by lia.
    rewrite (proj2 (Z.ltb_ge q q)) by lia. by rewrite andb_false_r.
  - rewrite Z.shiftl_spec by lia. rewrite Z.shiftr_spec by lia.
    rewrite (proj2 (Z.ltb_ge b q)) by lia. rewrite andb_false_r, orb_false_r.
    f_equal. lia.
Qed.

Lemma insert_zero_bit_bound (q r n : Z) :
  0 <= q -> 0 <= n -> 0 <= r < 2 ^ n -> 0 <= insert_zero_bit q r < 2 ^ (n + 1).
Proof.
  intros Hq Hn Hr.
  assert (0 <= insert_zero_bit q r) as Hnn.
  { unfold insert_zero_bit.
    pose proof (Z.mod_pos_bound r (2 ^ q) ltac:(lia)).
    pose proof (Z.div_pos r (2 ^ q) ltac:(lia) ltac:(lia)).
    assert (0 < 2 ^ (q + 1)) by lia. nia. }
  split; [done|].
  destruct (decide (insert_zero_bit q r = 0)) as [->|Hne]; [lia|].
  apply Z.log2_lt_pow2; [lia|].
  assert (Z.log2 (insert_zero_bit q r) < n + 1 \/ n + 1 <= Z.log2 (insert_zero_bit q r))
    as [|Hge] by lia; [done|exfalso].
  pose proof (Z.bit_log2 (insert_zero_bit q r) ltac:(lia)) as Hbit.
  set (l := Z.log2 (insert_zero_bit q r)) in *.
  rewrite insert_zero_bit_testbit in Hbit by lia.
  assert (forall c, n <= c -> Z.testbit r c = false) as Hhigh.
  { intros c Hc. destruct (decide (r = 0)) as [->|]; [apply Z.bits_0|].
    apply Z.bits_above_log2; [lia|].
    assert (Z.log2 r < n); [|lia]. apply Z.log2_lt_pow2; lia. }
  repeat case_decide; try done.
  - rewrite Hhigh in Hbit by lia. done.
  - rewrite Hhigh in Hbit by lia. done.
Qed.

Lemma index0_step_spec (q r : Z) :
  0 <= q < 63 -> 0 <= r < 2 ^ 63 ->
  index0_step q r = Some (insert_zero_bit q r).
Proof.
  intros Hq Hr. unfold index0_step.
  rewrite MASKS_at by lia. simpl.
  unfold shr64. rewrite decide_True by lia. simpl.
  unfold wrap64 at 1. rewrite (Z.mod_small (q + 1)) by lia.
  unfold shl64. rewrite decide_True by lia. simpl.
  f_equal. rewrite insert_zero_bit_bits by lia. f_equal.
  unfold wrap64. apply Z.mod_small.
  rewrite Z.shiftl_mul_pow2, Z.shiftr_div_pow2 by lia.
  pose proof (Z.div_pos r (2 ^ q) ltac:(lia) ltac:(lia)).
  assert (r / 2 ^ q < 2 ^ (63 - q)).
  { apply Z.div_lt_upper_bound; [lia|]. rewrite <- Z.pow_add_r by lia.
    replace (q + (63 - q)) with 63 by lia. lia. }
  assert (2 ^ 64 = 2 ^ (63 - q) * 2 ^ (q + 1)) as ->.
  { rewrite <- Z.pow_add_r by lia. f_equal. lia. }
  assert (0 < 2 ^ (q + 1)) by lia. nia.
Qed.

Lemma index0_loop_spec (Q : list Z) : forall (r n : Z),
  0 <= n -> n + Z.of_nat (length Q) <= 63 ->
  Forall (fun q => 0 <= q < 63) Q ->
  0 <= r < 2 ^ n ->
  index0_loop Q r = Some (insert_zero_bits Q r) /\
  0 <= insert_zero_bits Q r < 2 ^ (n + Z.of_nat (length Q)).
Proof.
  induction Q as [|q Q IH]; intros r n Hn Hlen HQ Hr.
  - simpl. rewrite Z.add_0_r. done.
  - apply Forall_cons in HQ as [Hq HQ]. simpl in Hlen |- *.
    assert (r < 2 ^ 63).
    { apply Z.lt_le_trans with (2 ^ n); [lia|]. apply Z.pow_le_mono_r; lia. }
    rewrite index0_step_spec by lia. simpl.
    pose proof (insert_zero_bit_bound q r n ltac:(lia) Hn Hr) as Hb.
    destruct (IH (insert_zero_bit q r) (n + 1)) as [-> Hbound]; try done; try lia.
    split; [done|].
    replace (n + Z.of_nat (S (length Q))) with (n + 1 + Z.of_nat (length Q)) by lia.
    done.
Qed.

Lemma insert_zero_bits_nonneg (Q : list Z) : forall r,
  Forall (fun q => 0 <= q) Q -> 0 <= r -> 0 <= insert_zero_bits Q r.
Proof.
  induction Q as [|q Q IH]; intros r HQ Hr; [done|].
  apply Forall_cons in HQ as [Hq HQ]. simpl. apply IH; [done|].
  unfold insert_zero_bit.
  pose proof (Z.mod_pos_bound r (2 ^ q) ltac:(lia)).
  pose proof (Z.div_pos r (2 ^ q) ltac:(lia) ltac:(lia)).
  assert (0 < 2 ^ (q + 1)) by lia. nia.
Qed.

Lemma count_below_nil (b : Z) : count_below [] b = 0.
Proof. reflexivity. Qed.

Lemma count_below_cons (q b : Z) (Q : list Z) :
  count_below (q :: Q) b = (if decide (q < b) then 1 else 0) + count_below Q b.
Proof.
  unfold count_below. rewrite filter_cons. case_decide; simpl; lia.
Qed.

Lemma count_below_nonneg (Q : list Z) (b : Z) : 0 <= count_below Q b.
Proof. unfold count_below. lia. Qed.

Lemma count_below_none (Q : list Z) (b : Z) :
  Forall (fun x => b <= x) Q -> count_below Q b = 0.
Proof.
  induction 1 as [|x Q Hx _ IH]; [done|].
  rewrite count_below_cons, IH. case_decide; lia.
Qed.

Lemma count_below_sorted (Q : list Z) : forall q b,
  StronglySorted Z.lt Q -> Forall (fun x => q < x) Q -> q < b ->
  count_below Q b <= b - q - 1.
Proof.
  induction Q as [|x Q IH]; intros q b Hs Hq Hb.
  - rewrite count_below_nil. lia.
  - apply StronglySorted_inv in Hs as [Hs Hx].
    apply Forall_cons in Hq as [Hqx Hq].
    rewrite count_below_cons. case_decide.
    + specialize (IH x b Hs Hx ltac:(lia)). lia.
    + rewrite count_below_none; [lia|].
      eapply Forall_impl; [exact Hx|]. simpl. intros. lia.
Qed.

Lemma insert_zero_bits_testbit (Q : list Z) : forall r b,
  StronglySorted Z.lt Q -> Forall (fun q => 0 <= q) Q -> 0 <= r -> 0 <= b ->
  Z.testbit (insert_zero_bits Q r) b =
    if decide (b ∈ Q) then false else Z.testbit r (b - count_below Q b).
Proof.
  induction Q as [|q Q IH]; intros r b Hs HQ Hr Hb.
  - rewrite count_below_nil. case_decide as Hin.
    + by apply elem_of_nil in Hin.
    + simpl. f_equal. lia.
  - apply StronglySorted_inv in Hs as [Hs Hq].
    apply Forall_cons in HQ as [Hq0 HQ].
    assert (0 <= insert_zero_bit q r) as Hr'.
    { apply (insert_zero_bits_nonneg [q] r); [by constructor | done]. }
    change (insert_zero_bits (q :: Q) r) with (insert_zero_bits Q (insert_zero_bit q r)).
    rewrite IH by done. rewrite count_below_cons.
    assert (b ∈ q :: Q <-> b = q \/ b ∈ Q) as Hcons by apply elem_of_cons.
    pose proof (count_below_nonneg Q b) as Hc0.
    assert (b <= q -> count_below Q b = 0) as Hc1.
    { intros Hle. apply count_below_none.
      eapply Forall_impl; [exact Hq|]. simpl. intros. lia. }
    assert (q < b -> count_below Q b <= b - q - 1) as Hc2.
    { intros Hlt. by apply count_below_sorted. }
    destruct (decide (b ∈ Q)) as [Hin|Hnin].
    { rewrite decide_True by tauto. done. }
    destruct (Z.lt_trichotomy b q) as [Hlt|[Heq|Hgt]].
    + rewrite Hc1 by lia. rewrite insert_zero_bit_testbit by lia.
      destruct (decide (b ∈ q :: Q)) as [Hm|Hm].
      { apply Hcons in Hm as [?|?]; [lia|done]. }
      repeat case_decide; try lia; f_equal; lia.
    + rewrite Hc1 by lia. rewrite insert_zero_bit_testbit by lia.
      destruct (decide (b ∈ q :: Q)) as [Hm|Hm]; [|tauto].
      repeat case_decide; try lia; done.
    + specialize (Hc2 Hgt). rewrite insert_zero_bit_testbit by lia.
      destruct (decide (b ∈ q :: Q)) as [Hm|Hm].
      { apply Hcons in Hm as [?|?]; [lia|done]. }
      repeat case_decide; try lia; f_equal; lia.
Qed.

Lemma of_nat_pow2 (i : nat) : Z.of_nat (2 ^ i) = 2 ^ Z.of_nat i.
Proof. by rewrite Nat2Z.inj_pow. Qed.

Lemma pow2_to_nat (i : nat) : Z.to_nat (2 ^ Z.of_nat i) = (2 ^ i)%nat.
Proof. rewrite <- of_nat_pow2. apply Nat2Z.id. Qed.

Lemma pow2_nat_pos (i : nat) : (0 < 2 ^ i)%nat.
Proof. pose proof (Nat.pow_nonzero 2 i). lia. Qed.

Lemma set_qubit_bits_app (l1 : list Z) : forall l2 j0 i base,
  set_qubit_bits j0 (l1 ++ l2) i base =
  set_qubit_bits (j0 + length l1) l2 i (set_qubit_bits j0 l1 i base).
Proof.
  induction l1 as [|q l1 IH]; intros l2 j0 i base; simpl.
  - by rewrite Nat.add_0_r.
  - rewrite IH. f_equal. lia.
Qed.

Lemma set_qubit_bits_ext (l : list Z) : forall j0 i i' base,
  (forall j, (j < length l)%nat ->
     Z.testbit i (Z.of_nat (j0 + j)) = Z.testbit i' (Z.of_nat (j0 + j))) ->
  set_qubit_bits j0 l i base = set_qubit_bits j0 l i' base.
Proof.
  induction l as [|q l IH]; intros j0 i i' base Hbits; [done|]. simpl.
  pose proof (Hbits 0%nat ltac:(simpl; lia)) as H0.
  rewrite Nat.add_0_r in H0. rewrite H0. apply IH.
  intros j Hj. specialize (Hbits (S j) ltac:(simpl; lia)).
  by replace (S j0 + j)%nat with (j0 + S j)%nat by lia.
Qed.

Lemma index_table_length Qu r0 i : length (index_table Qu r0 i) = (2 ^ i)%nat.
Proof. unfold index_table. by rewrite length_map, length_seq. Qed.

Lemma index_table_lookup Qu r0 i (m : nat) :
  (m < 2 ^ i)%nat ->
  index_table Qu r0 i !! m = Some (set_qubit_bits 0 (take i Qu) (Z.of_nat m) r0).
Proof.
  intros Hm. unfold index_table.
  rewrite list_lookup_fmap, lookup_seq_lt by done. done.
Qed.

Lemma testbit_below_pow2 (m j : nat) :
  (m < 2 ^ j)%nat -> Z.testbit (Z.of_nat m) (Z.of_nat j) = false.
Proof.
  intros Hm. destruct (decide (m = 0%nat)) as [->|Hne]; [apply Z.bits_0|].
  apply Z.bits_above_log2; [lia|]. apply Z.log2_lt_pow2; [lia|].
  rewrite <- of_nat_pow2. lia.
Qed.

Lemma testbit_add_pow2_low (i m j : nat) :
  (j < i)%nat ->
  Z.testbit (Z.of_nat (2 ^ i + m)) (Z.of_nat j) = Z.testbit (Z.of_nat m) (Z.of_nat j).
Proof.
  intros Hj.
  rewrite <- (Z.mod_pow2_bits_low (Z.of_nat (2 ^ i + m)) (Z.of_nat i)) by lia.
  rewrite <- (Z.mod_pow2_bits_low (Z.of_nat m) (Z.of_nat i) (Z.of_nat j)) by lia.
  f_equal. rewrite Nat2Z.inj_add, of_nat_pow2.
  replace (2 ^ Z.of_nat i + Z.of_nat m) with (Z.of_nat m + 1 * 2 ^ Z.of_nat i) by lia.
  by rewrite Z.mod_add by lia.
Qed.

Lemma testbit_add_pow2_high (i m : nat) :
  (m < 2 ^ i)%nat -> Z.testbit (Z.of_nat (2 ^ i + m)) (Z.of_nat i) = true.
Proof.
  intros Hm. apply Z.testbit_true; [lia|].
  rewrite Nat2Z.inj_add, of_nat_pow2.
  assert (Z.of_nat m < 2 ^ Z.of_nat i).
  { rewrite <- of_nat_pow2. lia. }
  replace ((2 ^ Z.of_nat i + Z.of_nat m) / 2 ^ Z.of_nat i) with 1; [done|].
  apply Z.div_unique with (Z.of_nat m); lia.
Qed.

Lemma index_table_S Qu r0 i q :
  Qu !! i = Some q ->
  index_table Qu r0 (S i) =
  index_table Qu r0 i ++ map (fun v => Z.lor v (2 ^ q)) (index_table Qu r0 i).
Proof.
  intros Hq. unfold index_table.
  assert (length (take i Qu) = i) as Hlen.
  { apply lookup_lt_Some in Hq. rewrite length_take. lia. }
  rewrite (take_S_r _ _ _ Hq).
  replace (2 ^ S i)%nat with (2 ^ i + 2 ^ i)%nat by (simpl; lia).
  rewrite seq_app, map_app. f_equal.
  - apply map_ext_in. intros m Hm%in_seq.
    rewrite set_qubit_bits_app. simpl. rewrite Hlen.
    by rewrite testbit_below_pow2 by lia.
  - replace (0 + 2 ^ i)%nat with (2 ^ i + 0)%nat by lia.
    rewrite <- fmap_add_seq.
    change (Nat.add (2 ^ i)%nat <$> seq 0 (2 ^ i)) with
      (map (Nat.add (2 ^ i)%nat) (seq 0 (2 ^ i))).
    rewrite !map_map. apply map_ext_in. intros m Hm%in_seq.
    rewrite set_qubit_bits_app. simpl. rewrite Hlen.
    rewrite testbit_add_pow2_high by lia. f_equal.
    apply set_qubit_bits_ext. intros j Hj. simpl.
    apply testbit_add_pow2_low. lia.
Qed.

Lemma indexes_inner_from (f : Z -> Z) (bit : Z) (A B : list Z) : forall (c j : nat),
  (j + c <= length A)%nat -> (length A <= length B)%nat ->
  for_opt (fun j ret =>
             v ← ret !! j;
             if decide (length A + j < length ret)%nat
             then Some (<[(length A + j)%nat := Z.lor v bit]> ret)
             else None) j c
          (A ++ map (fun v => Z.lor v bit) (take j A) ++ drop j B) =
  Some (A ++ map (fun v => Z.lor v bit) (take (j + c) A) ++ drop (j + c) B).
Proof.
  induction c as [|c IH]; intros j Hj HB.
  - simpl. by rewrite Nat.add_0_r.
  - simpl.
    destruct (lookup_lt_is_Some_2 A j ltac:(lia)) as [v Hv].
    destruct (lookup_lt_is_Some_2 B j ltac:(lia)) as [w Hw].
    rewrite lookup_app_l by lia. rewrite Hv. simpl.
    rewrite decide_True.
    2: { rewrite !length_app, length_map, length_take, length_drop. lia. }
    rewrite insert_app_r_alt by lia.
    replace (length A + j - length A)%nat with j by lia.
    rewrite insert_app_r_alt by (rewrite length_map, length_take; lia).
    rewrite length_map, length_take.
    replace (j - j `min` length A)%nat with 0%nat by lia.
    rewrite (drop_S _ _ _ Hw). simpl.
    replace (j + S c)%nat with (S j + c)%nat by lia.
    rewrite <- IH by lia.
    f_equal. f_equal.
    rewrite (take_S_r _ _ _ Hv), map_app. simpl.
    by rewrite <- app_assoc.
Qed.

Lemma indexes_inner_spec (bit : Z) (A B : list Z) :
  (length A <= length B)%nat ->
  indexes_inner (length A) bit (A ++ B) =
  Some (A ++ map (fun v => Z.lor v bit) A ++ drop (length A) B).
Proof.
  intros HB. unfold indexes_inner.
  pose proof (indexes_inner_from (fun v => Z.lor v bit) bit A B (length A) 0
                ltac:(lia) HB) as H.
  rewrite take_0, drop_0 in H. simpl in H.
  rewrite firstn_all in H. exact H.
Qed.

Lemma pow2_nat_le (i j : nat) : (i <= j)%nat -> (2 ^ i <= 2 ^ j)%nat.
Proof. intros. apply Nat.pow_le_mono_r; lia. Qed.

Lemma indexes_outer_from (Qu : list Z) (r0 : Z) (N : nat) : forall (c i : nat),
  (i + c <= N)%nat -> (N <= length Qu)%nat -> (N < 64)%nat ->
  Forall (fun q => 0 <= q < 64) Qu ->
  for_opt (fun i ret =>
             n ← at_ BITS (Z.of_nat i);
             q ← Qu !! i;
             bit ← at_ BITS q;
             indexes_inner (Z.to_nat n) bit ret) i c
          (index_table Qu r0 i ++ replicate (2 ^ N - 2 ^ i) 0) =
  Some (index_table Qu r0 (i + c) ++ replicate (2 ^ N - 2 ^ (i + c)) 0).
Proof.
  induction c as [|c IH]; intros i Hi HN H64 HQu.
  - simpl. by rewrite Nat.add_0_r.
  - simpl. rewrite BITS_at by lia. simpl.
    destruct (lookup_lt_is_Some_2 Qu i ltac:(lia)) as [q Hq].
    rewrite Hq. simpl.
    assert (0 <= q < 64) as Hq64.
    { eapply Forall_lookup_1 in HQu; [|exact Hq]. done. }
    rewrite BITS_at by done. simpl.
    rewrite pow2_to_nat.
    pose proof (pow2_nat_le (S i) N ltac:(lia)) as Hle. simpl in Hle.
    rewrite <- (index_table_length Qu r0 i) at 1.
    rewrite indexes_inner_spec.
    2: { rewrite index_table_length, length_replicate. lia. }
    simpl. rewrite index_table_length, drop_replicate.
    rewrite app_assoc, <- (index_table_S Qu r0 i q Hq).
    replace (2 ^ N - 2 ^ i - 2 ^ i)%nat with (2 ^ N - 2 ^ S i)%nat by (simpl; lia).
    rewrite IH by (done || lia).
    by replace (S i + c)%nat with (i + S c)%nat by lia.
Qed.

(** The allocation of a table of [2^n] cells is granted up to [n = 59]. *)
Lemma new_uint_array_granted {St} (n : nat) (s : St) :
  (n <= 59)%nat ->
  new_uint_array (2 ^ Z.of_nat n) s = Ok (replicate (2 ^ n) 0) s.
Proof.
  intros Hn. unfold new_uint_array, new_array.
  assert (0 < 2 ^ Z.of_nat n <= 2 ^ 59).
  { split; [lia|]. apply Z.pow_le_mono_r; lia. }
  rewrite decide_False by lia. rewrite decide_False by lia.
  by rewrite pow2_to_nat.
Qed.

Lemma new_uint_array_refused {St} (n : nat) (s : St) :
  (60 <= n)%nat ->
  exists msg, new_uint_array (2 ^ Z.of_nat n) s = Throw msg s.
Proof.
  intros Hn. unfold new_uint_array, new_array.
  assert (2 ^ 60 <= 2 ^ Z.of_nat n) by (apply Z.pow_le_mono_r; lia).
  case_decide; [by eexists|]. rewrite decide_True by lia. by eexists.
Qed.

Lemma indexes_spec {St} (Qu Q : list Z) (k r0 : Z) (s : St) :
  length Qu = length Q -> (length Q <= 59)%nat ->
  Forall (fun q => 0 <= q < 64) Qu ->
  index0 Q k = Some r0 ->
  indexes Qu Q k s = Ok (index_table Qu r0 (length Q)) s.
Proof.
  intros Hlen H64 HQu H0. unfold indexes. cbv zeta.
  rewrite BITS_at by lia. erewrite bind_run by reflexivity.
  erewrite bind_run by (by apply new_uint_array_granted).
  rewrite H0. erewrite bind_run by reflexivity.
  pose proof (pow2_nat_pos (length Q)).
  assert (<[0%nat:=r0]> (replicate (2 ^ length Q) 0) =
          index_table Qu r0 0 ++ replicate (2 ^ length Q - 2 ^ 0) 0) as ->.
  { destruct (2 ^ length Q)%nat as [|n] eqn:E; [lia|].
    simpl. by rewrite Nat.sub_0_r. }
  rewrite indexes_outer_from by (done || lia).
  simpl. rewrite Nat.sub_diag. simpl. by rewrite app_nil_r.
Qed.

(** A call of [indexes] that returns has listed at most 59 qubits and
    leaves the state alone; with 60 or more listed qubits (below 64) the
    allocation of the table throws. *)
Lemma indexes_returns {St} (Qu Q : list Z) (k : Z) (s s' : St) (T : list Z) :
  indexes Qu Q k s = Ok T s' -> (length Q <= 59)%nat /\ s' = s.
Proof.
  unfold indexes. cbv zeta. intros HT.
  destruct (decide (length Q < 64)%nat) as [H64|H64].
  - rewrite BITS_at in HT by lia. erewrite bind_run in HT by reflexivity.
    destruct (decide (length Q <= 59)%nat) as [H59|H59].
    + split; [done|].
      erewrite bind_run in HT by (by apply new_uint_array_granted).
      unfold bind, lift, ret, undefined in HT.
      destruct (index0 Q k); [|done].
      destruct (for_opt _ _ _ _); [|done]. by injection HT as _ ->.
    + destruct (new_uint_array_refused (length Q) s ltac:(lia)) as [msg Hmsg].
      unfold bind in HT. by rewrite Hmsg in HT.
  - assert (at_ BITS (Z.of_nat (length Q)) = None) as Hnone.
    { unfold at_. case_decide; [|done].
      apply lookup_ge_None_2. change (length BITS) with 64%nat. lia. }
    by rewrite Hnone in HT.
Qed.

Lemma indexes_throws {St} (Qu Q : list Z) (k : Z) (s : St) :
  (60 <= length Q < 64)%nat -> exists msg, indexes Qu Q k s = Throw msg s.
Proof.
  intros HQ. unfold indexes. cbv zeta.
  rewrite BITS_at by lia. erewrite bind_run by reflexivity.
  destruct (new_uint_array_refused (length Q) s ltac:(lia)) as [msg Hmsg].
  exists msg. unfold bind. by rewrite Hmsg.
Qed.

Lemma set_qubit_bits_zero (Qu : list Z) : forall j0 base,
  set_qubit_bits j0 Qu 0 base = base.
Proof.
  induction Qu as [|q Qu IH]; intros j0 base; [done|].
  simpl. rewrite Z.bits_0. apply IH.
Qed.

(** C1, as amended. For a register of [N] qubits ([N <= 63], the largest
    size for which the shifts and the tables [BITS] and [MASKS] are
    defined), a strictly ascending list [Q] of [M] qubits below [N]
    ([M <= 59], the largest table of [2^M] cells that can be allocated), a
    permutation [Qu] of [Q]
    and a counter [k] in [[0, 2^(N-M))]: [index0 Q k] is [k] with a 0 bit
    inserted at each position of [Q] in ascending order (it stays below
    [2^N], its bits at the positions of [Q] are 0 and the other bits are the
    bits of [k] in order), and [indexes Qu Q k] returns, in any state and
    without changing it, a table [T] of [2^M] entries with
    [T[0] = index0 Q k] and, for every [i < 2^M], [T[i]] equal to
    [index0 Q k] with bit [Qu[j]] set for every [j] such that bit [j] of
    [i] is 1. *)
Theorem index0_indexes_correct (N : Z) (Q Qu : list Z) (k : Z) :
  0 <= N <= 63 ->
  (length Q <= 59)%nat ->
  StronglySorted Z.lt Q ->
  Forall (fun q => 0 <= q < N) Q ->
  Qu ≡ₚ Q ->
  0 <= k < 2 ^ (N - Z.of_nat (length Q)) ->
  exists (i0 : Z) (T : list Z),
    index0 Q k = Some i0 /\
    i0 = insert_zero_bits Q k /\
    0 <= i0 < 2 ^ N /\
    (forall b, 0 <= b ->
       Z.testbit i0 b =
         if decide (b ∈ Q) then false else Z.testbit k (b - count_below Q b)) /\
    (forall (St : Type) (s : St), indexes Qu Q k s = Ok T s) /\
    length T = (2 ^ length Q)%nat /\
    T !! 0%nat = Some i0 /\
    (forall i : nat, (i < 2 ^ length Q)%nat ->
       T !! i = Some (set_qubit_bits 0 Qu (Z.of_nat i) i0)).
Proof.
  intros HN H59 Hs HQ Hperm Hk.
  assert (Z.of_nat (length Q) <= N) as HM.
  { destruct (decide (Z.of_nat (length Q) <= N)); [done|].
    rewrite Z.pow_neg_r in Hk by lia. lia. }
  destruct (index0_loop_spec Q k (N - Z.of_nat (length Q))) as [H0 Hb];
    try done; try lia.
  { eapply Forall_impl; [exact HQ|]. simpl. intros. lia. }
  replace (N - Z.of_nat (length Q) + Z.of_nat (length Q)) with N in Hb by lia.
  assert (Forall (fun q => 0 <= q < 64) Qu) as HQu.
  { rewrite Hperm. eapply Forall_impl; [exact HQ|]. simpl. intros. lia. }
  exists (insert_zero_bits Q k), (index_table Qu (insert_zero_bits Q k) (length Q)).
  split; [exact H0|]. split; [done|]. split; [done|].
  split.
  { intros b Hb0. apply insert_zero_bits_testbit; try done; try lia.
    eapply Forall_impl; [exact HQ|]. simpl. intros. lia. }
  split.
  { intros St s. apply indexes_spec; try done; try lia. by rewrite Hperm. }
  split; [apply index_table_length|].
  assert (take (length Q) Qu = Qu) as Htake.
  { apply take_ge. rewrite Hperm. done. }
  split.
  - rewrite index_table_lookup by apply pow2_nat_pos.
    rewrite Htake. f_equal. apply set_qubit_bits_zero.
  - intros i Hi. rewrite index_table_lookup by done. by rewrite Htake.
Qed.

Lemma index0_indexes_correct_witness :
  exists (i0 : Z) (T : list Z),
    index0 [1; 4] 77 = Some i0 /\
    i0 = insert_zero_bits [1; 4] 77 /\
    0 <= i0 < 2 ^ 9 /\
    (forall b, 0 <= b ->
       Z.testbit i0 b =
         if decide (b ∈ [1; 4]) then false
         else Z.testbit 77 (b - count_below [1; 4] b)) /\
    (forall (St : Type) (s : St), indexes [4; 1] [1; 4] 77 s = Ok T s) /\
    length T = (2 ^ length [1; 4])%nat /\
    T !! 0%nat = Some i0 /\
    (forall i : nat, (i < 2 ^ length [1; 4])%nat ->
       T !! i = Some (set_qubit_bits 0 [4; 1] (Z.of_nat i) i0)).
Proof.
  apply (index0_indexes_correct 9 [1; 4] [4; 1] 77).
  - lia.
  - simpl. lia.
  - repeat constructor.
  - repeat constructor; lia.
  - apply Permutation_swap.
  - simpl. lia.
Defined.

Lemma seq_strongly_sorted (start len : nat) :
  StronglySorted Z.lt (Z.of_nat <$> seq start len).
Proof.
  revert start. induction len as [|len IH]; intros start; simpl.
  - constructor.
  - constructor; [apply IH|].
    apply Forall_forall. intros x [y [-> Hy]]%list_elem_of_fmap.
    apply elem_of_seq in Hy. lia.
Qed.

(** C1, as stated, fails for the 61 qubits [0 .. 60] of a register of 61
    qubits and the counter 0: the list is sorted, its qubits are distinct
    and below 61, the counter is in [[0, 2^0)], and [indexes] throws on the
    allocation of its table of [2^61] cells, so that there is no table
    [T]. *)
Lemma indexes_table_too_large :
  StronglySorted Z.lt (Z.of_nat <$> seq 0 61) /\
  Forall (fun q => 0 <= q < 61) (Z.of_nat <$> seq 0 61) /\
  0 <= 0 < 2 ^ (61 - Z.of_nat (length (Z.of_nat <$> seq 0 61))) /\
  index0 (Z.of_nat <$> seq 0 61) 0 = Some 0 /\
  indexes (Z.of_nat <$> seq 0 61) (Z.of_nat <$> seq 0 61) 0 tt
  = Throw "std::bad_array_new_length" tt /\
  ~ (exists (T : list Z) (s' : unit),
       indexes (Z.of_nat <$> seq 0 61) (Z.of_nat <$> seq 0 61) 0 tt = Ok T s').
Proof.
  split; [apply seq_strongly_sorted|].
  split.
  { apply Forall_forall. intros x [y [-> Hy]]%list_elem_of_fmap.
    apply elem_of_seq in Hy. lia. }
  split; [by vm_compute|].
  split; [reflexivity|].
  split; [reflexivity|].
  intros (T & s' & HT). discriminate HT.
Qed.

(** ** Configuration, element access and the empty sequence *)

Section Simple_properties.
Context {R : Type} `{Double R}.

(** C9. For every [regs], [apply_matrix_sequence(regs, mats)] with an empty
    [mats] returns at once: no error is raised (in a [DEBUG] build or
    otherwise) and the state, with every amplitude of its buffer, is the one
    before the call. *)
Theorem apply_matrix_sequence_empty_mats
    (DEBUG : bool) (regs : list (list Z)) (s : QubitVector R) :
  apply_matrix_sequence DEBUG regs [] s = Ok tt s.
Proof. reflexivity. Qed.

Lemma wrap64_small (z : Z) : 0 <= z < 2 ^ 64 -> wrap64 z = z.
Proof. intros Hz. unfold wrap64. by apply Z.mod_small. Qed.

(** C10. For every [int] [n], [set_omp_threads(n)] and
    [set_omp_threshold(n)] return without an error; when [n > 0] the
    corresponding field holds [n] afterwards and nothing else changes; when
    [n <= 0] the state is unchanged. *)
Theorem set_omp_stores_positive_only (n : Z) (s : QubitVector R) :
  - 2 ^ 31 <= n < 2 ^ 31 ->
  exists s1 s2 : QubitVector R,
    set_omp_threads n s = Ok tt s1 /\
    set_omp_threshold n s = Ok tt s2 /\
    (n > 0 -> omp_threads_ s1 = n /\ omp_threshold_ s2 = n) /\
    (n <= 0 -> s1 = s /\ s2 = s) /\
    omp_threshold_ s1 = omp_threshold_ s /\
    omp_threads_ s2 = omp_threads_ s /\
    (num_qubits_ s1, data_size_ s1, data_ s1, checkpoint_ s1,
     sample_measure_index_size_ s1, json_chop_threshold_ s1) =
    (num_qubits_ s, data_size_ s, data_ s, checkpoint_ s,
     sample_measure_index_size_ s, json_chop_threshold_ s) /\
    (num_qubits_ s2, data_size_ s2, data_ s2, checkpoint_ s2,
     sample_measure_index_size_ s2, json_chop_threshold_ s2) =
    (num_qubits_ s, data_size_ s, data_ s, checkpoint_ s,
     sample_measure_index_size_ s, json_chop_threshold_ s).
Proof.
  intros Hn. unfold set_omp_threads, set_omp_threshold, bind, get, put, ret.
  destruct (decide (n > 0)) as [Hpos|Hneg].
  - eexists _, _. split; [reflexivity|]. split; [reflexivity|]. simpl.
    rewrite wrap64_small by lia. repeat split; lia.
  - exists s, s. repeat split; lia.
Qed.

(** C8. The bounds check of [operator[]] in a [DEBUG] build raises its error
    for an index [i] exactly when [i] is greater than the buffer size
    [data_size_]; for [i = data_size_], the first index out of range, the
    check passes and the call goes on to read [data_[i]]. *)
Theorem operator_index_debug_check (i : Z) (s : QubitVector R) :
  (i > data_size_ s <->
     exists msg, operator_index true i s = Throw msg s) /\
  (i <= data_size_ s -> operator_index true i s = on_data (rd i) s) /\
  operator_index true (data_size_ s) s = on_data (rd (data_size_ s)) s /\
  (forall b, data_ s = Some b -> Z.of_nat (length b) = data_size_ s ->
     operator_index true (data_size_ s) s = Undefined).
Proof.
  assert (forall j, j <= data_size_ s ->
            operator_index true j s = on_data (rd j) s) as Hpass.
  { intros j Hj. unfold operator_index, bind, get. simpl.
    rewrite bool_decide_eq_false_2 by lia. reflexivity. }
  split; [|split; [|split]].
  - split.
    + intros Hi. eexists. unfold operator_index, bind, get. simpl.
      rewrite bool_decide_eq_true_2 by done. reflexivity.
    + intros [msg Hthrow]. destruct (decide (i > data_size_ s)); [done|].
      rewrite Hpass in Hthrow by lia.
      unfold on_data, rd in Hthrow.
      destruct (data_ s) as [b|]; [|done].
      destruct (at_ b i); done.
  - apply Hpass.
  - apply Hpass. lia.
  - intros b Hb Hlen. rewrite Hpass by lia.
    unfold on_data, rd. rewrite Hb.
    unfold at_. case_decide; [|done].
    rewrite lookup_ge_None_2 by lia. done.
Qed.

(** The release build makes no check at all. *)
Lemma operator_index_release (i : Z) (s : QubitVector R) :
  operator_index false i s = on_data (rd i) s.
Proof. reflexivity. Qed.

End Simple_properties.

Lemma set_omp_stores_positive_only_witness :
  exists s1 s2 : QubitVector Z,
    let s := {| num_qubits_ := 0; data_size_ := 1;
                data_ := Some [Complex 1 0]; checkpoint_ := None;
                omp_threads_ := 1; omp_threshold_ := 14;
                sample_measure_index_size_ := 10;
                json_chop_threshold_ := 0 |} in
    set_omp_threads 4 s = Ok tt s1 /\
    set_omp_threshold 4 s = Ok tt s2 /\
    (4 > 0 -> omp_threads_ s1 = 4 /\ omp_threshold_ s2 = 4) /\
    (4 <= 0 -> s1 = s /\ s2 = s) /\
    omp_threshold_ s1 = omp_threshold_ s /\
    omp_threads_ s2 = omp_threads_ s /\
    (num_qubits_ s1, data_size_ s1, data_ s1, checkpoint_ s1,
     sample_measure_index_size_ s1, json_chop_threshold_ s1) =
    (num_qubits_ s, data_size_ s, data_ s, checkpoint_ s,
     sample_measure_index_size_ s, json_chop_threshold_ s) /\
    (num_qubits_ s2, data_size_ s2, data_ s2, checkpoint_ s2,
     sample_measure_index_size_ s2, json_chop_threshold_ s2) =
    (num_qubits_ s, data_size_ s, data_ s, checkpoint_ s,
     sample_measure_index_size_ s, json_chop_threshold_ s).
Proof.
  apply (set_omp_stores_positive_only 4). lia.
Defined.

(** ** Missing checkpoint *)

(** C6, as amended. In a build with [DEBUG] defined, [revert(keep)] and
    [inner_product()] on an instance without a checkpoint buffer raise the
    error "checkpoint must exist" and leave the state as it was. *)
Theorem missing_checkpoint_raises_in_debug
    {R : Type} `{Double R} `{OpenMP} (s : QubitVector R) (keep : bool) :
  checkpoint_ s = None ->
  revert true keep s = Throw check_checkpoint_msg s /\
  inner_product true s = Throw check_checkpoint_msg s.
Proof.
  intros Hc.
  unfold revert, inner_product, check_checkpoint, bind, get, throw.
  rewrite Hc. done.
Qed.

Lemma missing_checkpoint_raises_in_debug_witness :
  revert true false (basis (R:=Z) 1 0) = Throw check_checkpoint_msg (basis 1 0) /\
  inner_product true (basis (R:=Z) 1 0) = Throw check_checkpoint_msg (basis 1 0).
Proof.
  apply (missing_checkpoint_raises_in_debug (basis (R:=Z) 1 0) false).
  reflexivity.
Defined.

(** C6, as stated, fails in the build without [DEBUG]: [check_checkpoint]
    is compiled out, and both calls read through the null [checkpoint_]. *)
Lemma missing_checkpoint_release_build :
  checkpoint_ (basis (R:=Z) 1 0) = None /\
  revert false false (basis (R:=Z) 1 0) = Undefined /\
  revert false true (basis (R:=Z) 1 0) = Undefined /\
  inner_product false (basis (R:=Z) 1 0) = Undefined /\
  ~ (forall (DEBUG keep : bool) (s : QubitVector Z),
       checkpoint_ s = None ->
       revert DEBUG keep s = Throw check_checkpoint_msg s /\
       inner_product DEBUG s = Throw check_checkpoint_msg s).
Proof.
  repeat split; try reflexivity.
  intros Hclaim.
  destruct (Hclaim false false (basis 1 0) eq_refl) as [Hrevert _].
  vm_compute in Hrevert. discriminate.
Qed.

(** ** The multi-controlled U gate *)

(** C2 at its failing inputs. For the qubits [[1; 0]] (control 1, target 0)
    and the X matrix on the state [|10>], [apply_mcu] updates the entries 1
    and 3 of the buffer, not the entries [T[1] = 2] and [T[3] = 3] of the
    block: the state is left as it was, where the gate of the specification
    and [apply_mcx] give [|11>]. On three qubits, with the qubits [[0; 1]]
    and the Z matrix, the diagonal path multiplies the entry 3 twice, once
    per block, and never reaches the entry 7, where the gate of the
    specification and [apply_mcz] negate the entries 3 and 7. *)
Lemma apply_mcu_ignores_index_table :
  apply_mcu false [1; 0] X_matrix (basis (R:=Z) 2 2) = Ok tt (basis 2 2) /\
  apply_mcu_spec false [1; 0] X_matrix (basis (R:=Z) 2 2) = Ok tt (basis 2 3) /\
  apply_mcx false [1; 0] (basis (R:=Z) 2 2) = Ok tt (basis 2 3) /\
  apply_mcu false [0; 1] Z_matrix (qv_of (R:=Z) 3 (reals [0; 0; 0; 1; 0; 0; 0; 1]))
    = Ok tt (qv_of 3 (reals [0; 0; 0; 1; 0; 0; 0; 1])) /\
  apply_mcu_spec false [0; 1] Z_matrix (qv_of (R:=Z) 3 (reals [0; 0; 0; 1; 0; 0; 0; 1]))
    = Ok tt (qv_of 3 (reals [0; 0; 0; -1; 0; 0; 0; -1])) /\
  apply_mcz false [0; 1] (qv_of (R:=Z) 3 (reals [0; 0; 0; 1; 0; 0; 0; 1]))
    = Ok tt (qv_of 3 (reals [0; 0; 0; -1; 0; 0; 0; -1])).
Proof. repeat split; vm_compute; reflexivity. Qed.

(** The same run in binary64 arithmetic. *)
Lemma apply_mcu_ignores_index_table_binary64 :
  apply_mcu false [1; 0] X_matrix (basis (R:=PrimFloat.float) 2 2)
    = Ok tt (basis 2 2) /\
  apply_mcu_spec false [1; 0] X_matrix (basis (R:=PrimFloat.float) 2 2)
    = Ok tt (basis 2 3).
Proof. split; vm_compute; reflexivity. Qed.

(** ** Matrix fusion *)

(** C3 at its failing inputs. For the single gate CX on the qubits [[1; 0]]
    (not sorted) and the state [|10>], [apply_matrix] gives [|11>] and
    [apply_matrix_sequence] leaves [|10>]: [expand_matrix] sorts the matrix
    and then places it with the positions of the unsorted qubits, which
    undoes the sorting. A list of no qubits has at most two qubits too:
    [apply_matrix] multiplies the state by the 1x1 matrix and
    [apply_matrix_sequence] throws. In a [DEBUG] build
    [apply_matrix_sequence] throws for every non-empty sequence. *)
Lemma apply_matrix_sequence_unsorted_pair :
  apply_each false [[1; 0]] [CX_matrix] (basis (R:=Z) 2 2) = Ok tt (basis 2 3) /\
  apply_matrix_sequence false [[1; 0]] [CX_matrix] (basis (R:=Z) 2 2)
    = Ok tt (basis 2 2) /\
  expand_matrix (St:=unit) [1; 0] [0; 1] (CX_matrix (R:=Z)) tt = Ok CX_matrix tt /\
  apply_each false [[]] [reals [2]] (basis (R:=Z) 1 1)
    = Ok tt (qv_of 1 (reals [0; 2])) /\
  apply_matrix_sequence false [[]] [reals [2]] (basis (R:=Z) 1 1)
    = Throw "Fusion::illegal qubit number:0" (basis 1 1) /\
  apply_matrix_sequence true [[0; 1]] [CX_matrix] (basis (R:=Z) 2 1)
    = Throw "QubitVector<data_t>::apply_matrix_sequence allows same size of qubitss and mats."
            (basis 2 1).
Proof. repeat split; vm_compute; reflexivity. Qed.

(** The same run in binary64 arithmetic: the two results differ by 1 in two
    amplitudes. *)
Lemma apply_matrix_sequence_unsorted_pair_binary64 :
  apply_each false [[1; 0]] [CX_matrix] (basis (R:=PrimFloat.float) 2 2)
    = Ok tt (basis 2 3) /\
  apply_matrix_sequence false [[1; 0]] [CX_matrix] (basis (R:=PrimFloat.float) 2 2)
    = Ok tt (basis 2 2).
Proof. split; vm_compute; reflexivity. Qed.

(** On sorted qubit lists the two agree on these inputs. *)
Example apply_matrix_sequence_sorted_pair :
  apply_matrix_sequence false [[0]; [0; 1]] [X_matrix; CX_matrix] (basis (R:=Z) 2 0)
  = apply_each false [[0]; [0; 1]] [X_matrix; CX_matrix] (basis (R:=Z) 2 0).
Proof. vm_compute. reflexivity. Qed.

(** ** Checkpoint and revert *)

Section Frames.
Context {R : Type} `{Double R}.

Lemma bind_Ok {St A B} (m : M St A) (f : A -> M St B) s b s'' :
  bind m f s = Ok b s'' -> exists a s', m s = Ok a s' /\ f a s' = Ok b s''.
Proof.
  unfold bind. destruct (m s) as [a s'| |]; [|done..]. eauto.
Qed.

Lemma frame_refl (s : QubitVector R) : frame s s.
Proof. unfold frame. destruct (data_ s); done. Qed.

Lemma frame_trans (s1 s2 s3 : QubitVector R) :
  frame s1 s2 -> frame s2 s3 -> frame s1 s3.
Proof.
  unfold frame. intros (?&?&?&?&?&?&?&H12) (?&?&?&?&?&?&?&H23).
  repeat split; try congruence.
  destruct (data_ s1), (data_ s2), (data_ s3); try done. congruence.
Qed.

(** The buffer kernels. *)
Lemma len_pres_ret {A} (a : A) : len_pres (R:=R) (ret a).
Proof. intros b a' b' [= _ ->]. done. Qed.

Lemma len_pres_lift {A} (o : option A) : len_pres (R:=R) (lift o).
Proof. destruct o; [apply len_pres_ret|]. intros b a b'. done. Qed.

Lemma len_pres_rd (i : Z) : len_pres (R:=R) (rd i).
Proof. intros b a b'. unfold rd. destruct (at_ b i); [|done]. by intros [= _ ->]. Qed.

Lemma len_pres_wr (i : Z) (v : complex_t R) : len_pres (wr i v).
Proof.
  intros b a b'. unfold wr. case_decide; [|done]. intros [= _ <-].
  apply length_insert.
Qed.

Lemma len_pres_bind {A B} (m : M (buffer R) A) (f : A -> M (buffer R) B) :
  len_pres m -> (forall a, len_pres (f a)) -> len_pres (bind m f).
Proof.
  intros Hm Hf b x b'' (a & b' & H1 & H2)%bind_Ok.
  rewrite (Hf _ _ _ _ H2). eapply Hm, H1.
Qed.

Lemma len_pres_for_m {A} (body : nat -> A -> M (buffer R) A) count :
  (forall i a, len_pres (body i a)) -> forall start a, len_pres (for_m body start count a).
Proof.
  intros Hbody. induction count as [|c IH]; intros start a; simpl.
  - apply len_pres_ret.
  - apply len_pres_bind; [apply Hbody | intros a'; apply IH].
Qed.

Lemma len_pres_for_ (body : nat -> M (buffer R) unit) start count :
  (forall i, len_pres (body i)) -> len_pres (for_ body start count).
Proof. intros Hbody. apply len_pres_for_m. intros i _. apply Hbody. Qed.

(** The calls on the whole state. *)
Lemma framed_ret {A} (a : A) : framed (R:=R) (ret a).
Proof. intros s a' s' [= _ <-]. apply frame_refl. Qed.

Lemma framed_get : framed (R:=R) get.
Proof. intros s a' s' [= _ <-]. apply frame_refl. Qed.

Lemma framed_throw {A} (msg : string) : framed (R:=R) (A:=A) (throw msg).
Proof. intros s a s'. done. Qed.

Lemma framed_undefined {A} : framed (R:=R) (A:=A) undefined.
Proof. intros s a s'. done. Qed.

Lemma framed_lift {A} (o : option A) : framed (R:=R) (lift o).
Proof. destruct o; [apply framed_ret | apply framed_undefined]. Qed.

Lemma framed_bind {A B} (m : M (QubitVector R) A) (f : A -> M (QubitVector R) B) :
  framed m -> (forall a, framed (f a)) -> framed (bind m f).
Proof.
  intros Hm Hf s x s'' (a & s' & H1 & H2)%bind_Ok.
  eapply frame_trans; [eapply Hm, H1 | eapply Hf, H2].
Qed.

Lemma framed_for_m {A} (body : nat -> A -> M (QubitVector R) A) count :
  (forall i a, framed (body i a)) -> forall start a, framed (for_m body start count a).
Proof.
  intros Hbody. induction count as [|c IH]; intros start a; simpl.
  - apply framed_ret.
  - apply framed_bind; [apply Hbody | intros a'; apply IH].
Qed.

Lemma framed_for_ (body : nat -> M (QubitVector R) unit) start count :
  (forall i, framed (body i)) -> framed (for_ body start count).
Proof. intros Hbody. apply framed_for_m. intros i _. apply Hbody. Qed.

Lemma framed_on_data {A} (m : M (buffer R) A) : len_pres m -> framed (on_data m).
Proof.
  intros Hm s a s'. unfold on_data.
  destruct (data_ s) as [b|] eqn:Hb; [|done].
  destruct (m b) as [a' b'| |] eqn:Hmb; [|done..].
  intros [= _ <-]. unfold frame. simpl. rewrite Hb.
  repeat split. eapply Hm, Hmb.
Qed.

Lemma framed_check_qubit (q : Z) : framed (R:=R) (check_qubit q).
Proof.
  unfold check_qubit. apply framed_bind; [apply framed_get|].
  intros s. case_decide; [apply framed_throw | apply framed_ret].
Qed.

Lemma framed_check_vector (v : list (complex_t R)) (n : Z) :
  framed (check_vector v n).
Proof.
  unfold check_vector. apply framed_bind; [apply framed_lift|].
  intros DIM. simpl. case_decide; [apply framed_throw | apply framed_ret].
Qed.

Lemma framed_new_array {A} (size n : Z) (x : A) :
  framed (R:=R) (new_array size n x).
Proof.
  unfold new_array.
  repeat case_decide; [apply framed_throw | apply framed_throw | apply framed_ret].
Qed.

Lemma len_pres_new_array {A} (size n : Z) (x : A) :
  len_pres (R:=R) (new_array size n x).
Proof.
  unfold new_array. intros b a b'.
  repeat case_decide; [done | done | by intros [= _ ->]].
Qed.

Lemma framed_indexes (qubits qubits_sorted : list Z) (k : Z) :
  framed (R:=R) (indexes qubits qubits_sorted k).
Proof.
  unfold indexes. cbv zeta.
  apply framed_bind; [apply framed_lift|]. intros dim.
  apply framed_bind.
  { apply framed_new_array. }
  intros ret_. apply framed_bind; [apply framed_lift|]. intros r0.
  apply framed_lift.
Qed.

Lemma framed_vector_assign {A} (size n : Z) (x : A) :
  framed (R:=R) (vector_assign size n x).
Proof.
  unfold vector_assign. case_decide; [apply framed_throw | apply framed_ret].
Qed.

Lemma framed_apply_lambda (DEBUG : bool) func (qubits : list Z) :
  (forall inds, len_pres (func inds)) -> framed (R:=R) (apply_lambda DEBUG func qubits).
Proof.
  intros Hfunc. unfold apply_lambda.
  apply framed_bind.
  { destruct DEBUG; [|apply framed_ret].
    apply framed_for_. intros i. apply framed_bind; [apply framed_lift|].
    intros q. apply framed_check_qubit. }
  intros _. apply framed_bind; [apply framed_get|]. intros s.
  apply framed_bind; [apply framed_lift|]. intros blocks. simpl.
  apply framed_for_. intros k.
  apply framed_bind; [apply framed_indexes|]. intros inds.
  apply framed_on_data, Hfunc.
Qed.

End Frames.

(** The frame lemmas, for [eauto] and for the tactic below. *)
Create HintDb frames discriminated.
#[export] Hint Resolve
  len_pres_ret len_pres_lift len_pres_rd len_pres_wr len_pres_new_array
  framed_ret framed_get framed_throw framed_undefined framed_lift
  framed_check_qubit framed_check_vector framed_vector_assign
  framed_indexes : frames.

(** Peels a call or a kernel down to its reads and writes. *)
Ltac frames :=
  repeat first
    [ progress intros
    | progress cbv zeta
    | solve [eauto with frames]
    | apply framed_bind
    | apply framed_for_
    | apply framed_for_m
    | apply framed_on_data
    | apply framed_apply_lambda
    | apply len_pres_bind
    | apply len_pres_for_
    | apply len_pres_for_m
    | match goal with
      | |- framed (if ?c then _ else _) => destruct c
      | |- len_pres (if ?c then _ else _) => destruct c
      | |- framed (match ?x with _ => _ end) => destruct x
      | |- len_pres (match ?x with _ => _ end) => destruct x
      end ].

Section Gate_frames.
Context {R : Type} `{Double R}.
Variable DEBUG : bool.

Lemma framed_is_diagonal_2x2 (mat : list (complex_t R)) :
  framed (R:=R) (is_diagonal_2x2 mat).
Proof. unfold is_diagonal_2x2. frames. Qed.

Lemma len_pres_update_pair (p0 p1 : Z) (mat : list (complex_t R)) :
  len_pres (update_pair p0 p1 mat).
Proof. unfold update_pair. frames. Qed.

Lemma len_pres_update_pair_diagonal (p0 p1 : Z) (diag : list (complex_t R)) :
  len_pres (update_pair_diagonal p0 p1 diag).
Proof. unfold update_pair_diagonal. frames. Qed.

Lemma len_pres_swap_entries (i j : Z) : len_pres (R:=R) (swap_entries i j).
Proof. unfold swap_entries. frames. Qed.

Lemma framed_apply_diagonal_matrix_1 (qubit : Z) (diag : list (complex_t R)) :
  framed (apply_diagonal_matrix_1 DEBUG qubit diag).
Proof.
  unfold apply_diagonal_matrix_1, kernel_times_minus_i, kernel_times_i,
    kernel_clear, kernel_times.
  frames.
Qed.

Lemma framed_apply_matrix_1 (qubit : Z) (mat : list (complex_t R)) :
  framed (apply_matrix_1 DEBUG qubit mat).
Proof.
  unfold apply_matrix_1.
  apply framed_bind; [apply framed_is_diagonal_2x2|]. intros [].
  - frames; apply framed_apply_diagonal_matrix_1.
  - frames; apply len_pres_update_pair.
Qed.

Lemma framed_apply_matrix (qubits : list Z) (mat : list (complex_t R)) :
  framed (apply_matrix DEBUG qubits mat).
Proof.
  unfold apply_matrix, dense_kernel. frames; apply framed_apply_matrix_1.
Qed.

Lemma framed_apply_diagonal_matrix (qubits : list Z) (diag : list (complex_t R)) :
  framed (apply_diagonal_matrix DEBUG qubits diag).
Proof.
  unfold apply_diagonal_matrix, diagonal_kernel.
  frames; apply framed_apply_diagonal_matrix_1.
Qed.

Lemma framed_apply_permutation_matrix (qubits : list Z) (pairs : list (Z * Z)) :
  framed (R:=R) (apply_permutation_matrix DEBUG qubits pairs).
Proof.
  unfold apply_permutation_matrix. frames; apply len_pres_swap_entries.
Qed.

Lemma framed_apply_mcx (qubits : list Z) : framed (R:=R) (apply_mcx DEBUG qubits).
Proof. unfold apply_mcx. frames; apply len_pres_swap_entries. Qed.

Lemma framed_apply_mcy (qubits : list Z) : framed (apply_mcy DEBUG qubits).
Proof. unfold apply_mcy. frames. Qed.

Lemma framed_apply_mcz (qubits : list Z) : framed (apply_mcz DEBUG qubits).
Proof. unfold apply_mcz, kernel_negate. frames. Qed.

Lemma framed_apply_mcswap (qubits : list Z) :
  framed (R:=R) (apply_mcswap DEBUG qubits).
Proof. unfold apply_mcswap. frames; apply len_pres_swap_entries. Qed.

Lemma framed_apply_mcu (qubits : list Z) (mat : list (complex_t R)) :
  framed (apply_mcu DEBUG qubits mat).
Proof.
  unfold apply_mcu.
  apply framed_bind; [apply framed_lift|]. intros pos0.
  apply framed_bind; [apply framed_lift|]. intros pos1.
  apply framed_bind; [apply framed_is_diagonal_2x2|]. intros [].
  - frames;
      first [apply framed_apply_diagonal_matrix_1 | apply len_pres_update_pair_diagonal].
  - frames; first [apply framed_apply_matrix_1 | apply len_pres_update_pair].
Qed.

Lemma framed_initialize_component (qubits : list Z) (state : list (complex_t R)) :
  framed (initialize_component DEBUG qubits state).
Proof. unfold initialize_component. frames. Qed.

Lemma framed_sort_matrix_loop (rounds : nat) :
  forall current sorted (mat : list (complex_t R)) DIM,
  framed (R:=R) (sort_matrix_loop rounds current sorted mat DIM).
Proof.
  induction rounds as [|rounds IH]; intros current sorted mat DIM; simpl.
  - frames.
  - frames; apply IH.
Qed.

Lemma framed_expand_matrix (src dst : list Z) (vmat : list (complex_t R)) :
  framed (R:=R) (expand_matrix src dst vmat).
Proof.
  unfold expand_matrix, sort_matrix. frames; apply framed_sort_matrix_loop.
Qed.

Lemma framed_apply_matrix_sequence regs (mats : list (list (complex_t R))) :
  framed (apply_matrix_sequence DEBUG regs mats).
Proof.
  unfold apply_matrix_sequence.
  frames; apply framed_sort_matrix_loop.
Qed.

Lemma framed_apply_gate (g : gate) : framed (apply_gate DEBUG g).
Proof.
  destruct g; simpl.
  - apply framed_apply_matrix_1.
  - apply framed_apply_matrix.
  - apply framed_apply_matrix_sequence.
  - apply framed_apply_diagonal_matrix_1.
  - apply framed_apply_diagonal_matrix.
  - apply framed_apply_permutation_matrix.
  - apply framed_apply_mcx.
  - apply framed_apply_mcy.
  - apply framed_apply_mcz.
  - apply framed_apply_mcu.
  - apply framed_apply_mcswap.
  - apply framed_initialize_component.
Qed.

Lemma framed_apply_gates (gs : list gate) : framed (apply_gates DEBUG gs).
Proof.
  induction gs as [|g gs IH]; simpl.
  - apply framed_ret.
  - apply framed_bind; [apply framed_apply_gate | intros _; apply IH].
Qed.

End Gate_frames.

Section Checkpoint.
Context {R : Type} `{Double R}.

Lemma to_int64_small (z : Z) : 0 <= z < 2 ^ 63 -> to_int64 z = z.
Proof.
  intros Hz. unfold to_int64. rewrite Z.mod_small by lia. lia.
Qed.

Lemma for__S {St} (body : nat -> M St unit) (start c : nat) (s : St) :
  for_ body start (S c) s = bind (body start) (fun _ => for_ body (S start) c) s.
Proof.
  unfold for_. simpl. unfold bind. by destruct (body start s) as [[] s'| |].
Qed.

Lemma pow2_bound_59 (n : Z) : 0 <= n <= 59 -> 0 < 2 ^ n <= 2 ^ 59.
Proof. intros Hn. split; [lia|]. apply Z.pow_le_mono_r; lia. Qed.

Lemma pow2_bound_58 (n : Z) : 0 <= n <= 58 -> 0 < 2 ^ n <= 2 ^ 58.
Proof. intros Hn. split; [lia|]. apply Z.pow_le_mono_r; lia. Qed.

(** The buffers that [malloc] grants: up to [2^58] amplitudes. The request
    for [2^59] amplitudes is [2^63] bytes and is refused. *)
Lemma malloc_complex_granted (n : Z) :
  0 <= n <= 58 ->
  malloc_complex (R:=R) (2 ^ n) = Some (replicate (Z.to_nat (2 ^ n)) c_zero).
Proof.
  intros Hn. unfold malloc_complex. cbv zeta.
  assert (0 < 2 ^ n <= 2 ^ 58) by (split; [lia | apply Z.pow_le_mono_r; lia]).
  rewrite wrap64_small by lia.
  rewrite decide_False by lia.
  rewrite Z.mul_comm, Z.div_mul by lia. done.
Qed.

Lemma malloc_complex_refused : malloc_complex (R:=R) (2 ^ 59) = None.
Proof. reflexivity. Qed.

(** Single reads and writes through [data_] and [checkpoint_]. *)
Lemma on_data_rd (s : QubitVector R) (b : list (complex_t R)) (k : nat) v :
  data_ s = Some b -> b !! k = Some v ->
  on_data (rd (Z.of_nat k)) s = Ok v (set_data_ s (Some b)).
Proof.
  intros Hb Hv. unfold on_data, rd, at_. rewrite Hb.
  rewrite decide_True by lia. by rewrite Nat2Z.id, Hv.
Qed.

Lemma on_checkpoint_rd (s : QubitVector R) (cb : list (complex_t R)) (k : nat) v :
  checkpoint_ s = Some cb -> cb !! k = Some v ->
  on_checkpoint (rd (Z.of_nat k)) s = Ok v (set_checkpoint_ s (Some cb)).
Proof.
  intros Hb Hv. unfold on_checkpoint, rd, at_. rewrite Hb.
  rewrite decide_True by lia. by rewrite Nat2Z.id, Hv.
Qed.

Lemma on_data_wr (s : QubitVector R) (b : list (complex_t R)) (k : nat) v :
  data_ s = Some b -> (k < length b)%nat ->
  on_data (wr (Z.of_nat k) v) s = Ok tt (set_data_ s (Some (<[k := v]> b))).
Proof.
  intros Hb Hk. unfold on_data, wr. rewrite Hb.
  rewrite decide_True by lia. by rewrite Nat2Z.id.
Qed.

Lemma on_checkpoint_wr (s : QubitVector R) (cb : list (complex_t R)) (k : nat) v :
  checkpoint_ s = Some cb -> (k < length cb)%nat ->
  on_checkpoint (wr (Z.of_nat k) v) s
  = Ok tt (set_checkpoint_ s (Some (<[k := v]> cb))).
Proof.
  intros Hb Hk. unfold on_checkpoint, wr. rewrite Hb.
  rewrite decide_True by lia. by rewrite Nat2Z.id.
Qed.

(** Overwriting the cell [k] of a buffer that already holds the first [k]
    cells of [src]. *)
Lemma insert_take_drop {A} (src dst : list A) (k : nat) (v : A) :
  src !! k = Some v -> (k < length dst)%nat ->
  <[k := v]> (take k src ++ drop k dst) = take (S k) src ++ drop (S k) dst.
Proof.
  intros Hv Hk.
  destruct (lookup_lt_is_Some_2 dst k Hk) as [w Hw].
  pose proof (lookup_lt_Some _ _ _ Hv).
  rewrite insert_app_r_alt by (rewrite length_take; lia).
  rewrite length_take. replace (k - k `min` length src)%nat with 0%nat by lia.
  rewrite (drop_S _ _ _ Hw). simpl.
  rewrite (take_S_r _ _ _ Hv), <- app_assoc. done.
Qed.

(** The copy loop of [checkpoint]. *)
Lemma checkpoint_loop (count : nat) :
  forall (k : nat) nq ds (b cb : list (complex_t R)) ot oth smi jct,
  length cb = length b -> (k + count <= length b)%nat ->
  for_ (fun k => v <- on_data (rd (Z.of_nat k));;
                 on_checkpoint (wr (Z.of_nat k) v)) k count
       {| num_qubits_ := nq; data_size_ := ds; data_ := Some b;
          checkpoint_ := Some (take k b ++ drop k cb);
          omp_threads_ := ot; omp_threshold_ := oth;
          sample_measure_index_size_ := smi; json_chop_threshold_ := jct |}
  = Ok tt
       {| num_qubits_ := nq; data_size_ := ds; data_ := Some b;
          checkpoint_ := Some (take (k + count) b ++ drop (k + count) cb);
          omp_threads_ := ot; omp_threshold_ := oth;
          sample_measure_index_size_ := smi; json_chop_threshold_ := jct |}.
Proof.
  induction count as [|c IH]; intros k nq ds b cb ot oth smi jct Hlen Hk.
  - rewrite Nat.add_0_r. reflexivity.
  - rewrite for__S.
    destruct (lookup_lt_is_Some_2 b k ltac:(lia)) as [v Hv].
    unfold bind at 1. unfold bind at 1.
    rewrite (on_data_rd _ b k v) by done.
    erewrite on_checkpoint_wr; [|reflexivity|].
    2: { rewrite length_app, length_take, length_drop. lia. }
    unfold set_checkpoint_, set_data_. simpl.
    rewrite insert_take_drop by (done || lia).
    rewrite IH by lia. by replace (S k + c)%nat with (k + S c)%nat by lia.
Qed.

(** The copy loop of [revert]. *)
Lemma revert_loop (count : nat) :
  forall (k : nat) nq ds (b cb : list (complex_t R)) ot oth smi jct,
  length cb = length b -> (k + count <= length b)%nat ->
  for_ (fun k => v <- on_checkpoint (rd (Z.of_nat k));;
                 on_data (wr (Z.of_nat k) v)) k count
       {| num_qubits_ := nq; data_size_ := ds;
          data_ := Some (take k cb ++ drop k b);
          checkpoint_ := Some cb;
          omp_threads_ := ot; omp_threshold_ := oth;
          sample_measure_index_size_ := smi; json_chop_threshold_ := jct |}
  = Ok tt
       {| num_qubits_ := nq; data_size_ := ds;
          data_ := Some (take (k + count) cb ++ drop (k + count) b);
          checkpoint_ := Some cb;
          omp_threads_ := ot; omp_threshold_ := oth;
          sample_measure_index_size_ := smi; json_chop_threshold_ := jct |}.
Proof.
  induction count as [|c IH]; intros k nq ds b cb ot oth smi jct Hlen Hk.
  - rewrite Nat.add_0_r. reflexivity.
  - rewrite for__S.
    destruct (lookup_lt_is_Some_2 cb k ltac:(lia)) as [w Hw].
    unfold bind at 1. unfold bind at 1.
    rewrite (on_checkpoint_rd _ cb k w) by done.
    erewrite on_data_wr; [|reflexivity|].
    2: { rewrite length_app, length_take, length_drop. lia. }
    unfold set_checkpoint_, set_data_. simpl.
    rewrite insert_take_drop by (done || lia).
    rewrite IH by lia. by replace (S k + c)%nat with (k + S c)%nat by lia.
Qed.

Lemma take_drop_all {A} (l1 l2 : list A) :
  length l2 = length l1 -> take (0 + length l1) l1 ++ drop (0 + length l1) l2 = l1.
Proof.
  intros Hlen. simpl. rewrite firstn_all, drop_ge by lia. apply app_nil_r.
Qed.

(** [checkpoint()] always returns and leaves a copy of the state buffer in
    the checkpoint buffer. *)
Lemma checkpoint_spec (s : QubitVector R) (b : buffer R) :
  wf s -> data_ s = Some b ->
  exists s1, checkpoint s = Ok tt s1 /\ data_ s1 = Some b /\
             checkpoint_ s1 = Some b /\ data_size_ s1 = data_size_ s /\
             num_qubits_ s1 = num_qubits_ s.
Proof.
  intros (HN & Hsize & (b0 & Hb0 & Hlen) & Hck) Hb.
  rewrite Hb in Hb0. injection Hb0 as <-.
  destruct s as [nq ds d c ot oth smi jct]. simpl in *. subst d ds.
  pose proof (pow2_bound_59 nq ltac:(lia)) as Hpow.
  assert (Z.to_nat (to_int64 (2 ^ nq)) = length b) as HEND.
  { rewrite to_int64_small by lia. lia. }
  unfold checkpoint. unfold bind at 1. unfold get at 1. simpl.
  destruct c as [cb|].
  - specialize (Hck cb eq_refl).
    unfold bind at 1. unfold ret at 1. rewrite HEND.
    pose proof (checkpoint_loop (length b) 0 nq (2 ^ nq) b cb ot oth smi jct
                  ltac:(lia) ltac:(lia)) as Hloop.
    rewrite take_0, drop_0, take_drop_all in Hloop by lia.
    eexists. split; [exact Hloop|]. done.
  - unfold bind at 1. unfold put at 1, set_checkpoint_. simpl. rewrite HEND.
    rewrite (malloc_complex_granted nq HN).
    pose proof (checkpoint_loop (length b) 0 nq (2 ^ nq) b
                  (replicate (Z.to_nat (2 ^ nq)) c_zero)
                  ot oth smi jct ltac:(rewrite length_replicate; lia) ltac:(lia))
      as Hloop.
    rewrite take_0, drop_0, take_drop_all in Hloop
      by (rewrite ?length_replicate; lia).
    eexists. split; [exact Hloop|]. done.
Qed.

(** [revert(keep)] on a state with a checkpoint buffer of the size of the
    state buffer. *)
Lemma revert_spec (DEBUG keep : bool) (s : QubitVector R) (b cb : buffer R) :
  0 <= num_qubits_ s <= 59 -> data_size_ s = 2 ^ num_qubits_ s ->
  data_ s = Some b -> checkpoint_ s = Some cb ->
  Z.of_nat (length b) = data_size_ s -> length cb = length b ->
  exists s3, revert DEBUG keep s = Ok tt s3 /\ data_ s3 = Some cb /\
             checkpoint_ s3 = (if keep then Some cb else None).
Proof.
  intros HN Hsize Hb Hc Hlen Hlenc.
  destruct s as [nq ds d c ot oth smi jct]. simpl in *. subst d c ds.
  pose proof (pow2_bound_59 nq ltac:(lia)) as Hpow.
  assert (Z.to_nat (to_int64 (2 ^ nq)) = length b) as HEND.
  { rewrite to_int64_small by lia. lia. }
  unfold revert. unfold bind at 1.
  assert ((if DEBUG then check_checkpoint else ret tt)
            {| num_qubits_ := nq; data_size_ := 2 ^ nq; data_ := Some b;
               checkpoint_ := Some cb; omp_threads_ := ot; omp_threshold_ := oth;
               sample_measure_index_size_ := smi; json_chop_threshold_ := jct |}
          = Ok tt
            {| num_qubits_ := nq; data_size_ := 2 ^ nq; data_ := Some b;
               checkpoint_ := Some cb; omp_threads_ := ot; omp_threshold_ := oth;
               sample_measure_index_size_ := smi; json_chop_threshold_ := jct |})
    as ->.
  { by destruct DEBUG. }
  unfold bind at 1. unfold get at 1. simpl. rewrite HEND.
  pose proof (revert_loop (length b) 0 nq (2 ^ nq) b cb ot oth smi jct
                ltac:(lia) ltac:(lia)) as Hloop.
  replace (0 + length b)%nat with (0 + length cb)%nat in Hloop by lia.
  rewrite take_0, drop_0, take_drop_all in Hloop by lia.
  simpl app in Hloop.
  destruct keep;
    (eexists; split;
      [etransitivity; [apply bind_run; exact Hloop | reflexivity] | done]).
Qed.

(** C5. From a state that satisfies the class invariant, [checkpoint()],
    then any sequence of gate calls that returns, then [revert(false)]
    returns with every amplitude of the state buffer equal to its value at
    the call of [checkpoint()] and with the checkpoint buffer released;
    [revert(true)] restores the amplitudes in the same way and keeps the
    checkpoint buffer. *)
Theorem checkpoint_revert_restores
    (DEBUG : bool) (gs : list gate) (s s2 : QubitVector R) :
  wf s ->
  (checkpoint;;; apply_gates DEBUG gs)%M s = Ok tt s2 ->
  (exists s3, revert DEBUG false s2 = Ok tt s3 /\
              data_ s3 = data_ s /\ checkpoint_ s3 = None) /\
  (exists s3, revert DEBUG true s2 = Ok tt s3 /\
              data_ s3 = data_ s /\ checkpoint_ s3 = data_ s /\
              is_Some (checkpoint_ s3)).
Proof.
  intros Hwf Hrun.
  pose proof Hwf as (HN & Hsize & (b & Hb & Hlen) & _).
  destruct (checkpoint_spec s b Hwf Hb) as (s1 & Hck & Hd1 & Hc1 & Hs1 & Hn1).
  apply bind_Ok in Hrun as ([] & s1' & Hck' & Hgates).
  rewrite Hck in Hck'. injection Hck' as <-.
  apply framed_apply_gates in Hgates as (Hn2 & Hs2 & Hc2 & _ & _ & _ & _ & Hd2).
  rewrite Hd1 in Hd2. destruct (data_ s2) as [b2|] eqn:Hb2; [|done].
  rewrite Hb. split.
  - destruct (revert_spec DEBUG false s2 b2 b) as (s3 & Hr & Hd3 & Hc3);
      try done; try congruence; try lia.
    exists s3. done.
  - destruct (revert_spec DEBUG true s2 b2 b) as (s3 & Hr & Hd3 & Hc3);
      try done; try congruence; try lia.
    exists s3. rewrite Hc3. done.
Qed.

(** The constructor establishes the class invariant. *)
Lemma new_QubitVector_wf (n : Z) :
  0 <= n <= 58 -> exists s, new_QubitVector (R:=R) n = Ok tt s /\ wf s /\
                            num_qubits_ s = n /\ checkpoint_ s = None.
Proof.
  intros Hn. unfold new_QubitVector, set_num_qubits, bind, get, put. simpl.
  rewrite BITS_at by lia. simpl. eexists. split; [reflexivity|].
  unfold wf. simpl. repeat split; try lia; try done.
  rewrite malloc_complex_granted by lia. eexists. split; [done|].
  rewrite length_replicate. pose proof (pow2_bound_59 n ltac:(lia)). lia.
Qed.

End Checkpoint.

Lemma checkpoint_revert_restores_witness :
  (exists s3,
     revert false false
       (set_checkpoint_ (basis (R:=Z) 2 3) (data_ (basis (R:=Z) 2 2))) = Ok tt s3 /\
     data_ s3 = data_ (basis (R:=Z) 2 2) /\ checkpoint_ s3 = None) /\
  (exists s3,
     revert false true
       (set_checkpoint_ (basis (R:=Z) 2 3) (data_ (basis (R:=Z) 2 2))) = Ok tt s3 /\
     data_ s3 = data_ (basis (R:=Z) 2 2) /\
     checkpoint_ s3 = data_ (basis (R:=Z) 2 2) /\
     is_Some (checkpoint_ s3)).
Proof.
  apply (checkpoint_revert_restores false [Mcx [1; 0]] (basis (R:=Z) 2 2)).
  - unfold wf. simpl. repeat split; try lia.
    + eexists. split; [reflexivity|]. reflexivity.
    + intros c Hc. discriminate.
  - vm_compute. reflexivity.
Defined.

(** ** JSON serialisation *)

Section Serialisation.
Context {R : Type} `{Double R}.

Lemma at_of_nat {A} (l : list A) (j : nat) : at_ l (Z.of_nat j) = l !! j.
Proof. unfold at_. rewrite decide_True by lia. by rewrite Nat2Z.id. Qed.

Lemma upd_of_nat {A} (l : list A) (j : nat) (x : A) :
  (j < length l)%nat -> upd l (Z.of_nat j) x = Some (<[j := x]> l).
Proof.
  intros Hj. unfold upd. rewrite decide_True by lia. by rewrite Nat2Z.id.
Qed.

(** Two assignments [js[j][0] = x; js[j][1] = y] on an entry of two
    numbers. *)
Lemma json_set_0 (js : list (json_t R)) (j : nat) (x x0 y0 : R) :
  js !! j = Some (JArray [JNumber x0; JNumber y0]) ->
  json_set js (Z.of_nat j) 0 x = Some (<[j := JArray [JNumber x; JNumber y0]]> js).
Proof.
  intros Hj. unfold json_set. rewrite at_of_nat, Hj. simpl.
  apply upd_of_nat. eapply lookup_lt_Some, Hj.
Qed.

Lemma json_set_1 (js : list (json_t R)) (j : nat) (y x0 y0 : R) :
  js !! j = Some (JArray [JNumber x0; JNumber y0]) ->
  json_set js (Z.of_nat j) 1 y = Some (<[j := JArray [JNumber x0; JNumber y]]> js).
Proof.
  intros Hj. unfold json_set. rewrite at_of_nat, Hj. simpl.
  apply upd_of_nat. eapply lookup_lt_Some, Hj.
Qed.

(** A loop that turns the entry [j] of [js] from [ZERO] into [entry a], for
    the amplitude [a] at [j]. *)
Lemma json_loop (s : QubitVector R) (b : list (complex_t R))
    (body : nat -> list (json_t R) -> M (QubitVector R) (list (json_t R)))
    (entry : complex_t R -> json_t R) (ZERO : json_t R) :
  (forall j js a, b !! j = Some a -> js !! j = Some ZERO ->
     body j js s = Ok (<[j := entry a]> js) s) ->
  forall count k, (k + count <= length b)%nat ->
    for_m body k count (map entry (take k b) ++ replicate (length b - k) ZERO) s
    = Ok (map entry (take (k + count) b)
            ++ replicate (length b - (k + count)) ZERO) s.
Proof.
  intros Hbody. induction count as [|c IH]; intros k Hk.
  - simpl. by rewrite Nat.add_0_r.
  - simpl. destruct (lookup_lt_is_Some_2 b k ltac:(lia)) as [a Ha].
    assert (length (map entry (take k b)) = k) as Hlen.
    { rewrite length_map, length_take. lia. }
    erewrite bind_run.
    2: { apply (Hbody k _ a Ha).
         rewrite lookup_app_r by lia. rewrite Hlen, Nat.sub_diag.
         apply lookup_replicate_2. lia. }
    rewrite insert_app_r_alt by lia. rewrite Hlen, Nat.sub_diag.
    replace (length b - k)%nat with (S (length b - S k)) by lia. simpl.
    replace (map entry (take k b) ++ entry a :: replicate (length b - S k) ZERO)
      with (map entry (take (S k) b) ++ replicate (length b - S k) ZERO).
    2: { rewrite (take_S_r _ _ _ Ha), map_app, <- app_assoc. done. }
    rewrite IH by lia. by replace (S k + c)%nat with (k + S c)%nat by lia.
Qed.

Lemma json_loop_all (s : QubitVector R) (b : list (complex_t R))
    (body : nat -> list (json_t R) -> M (QubitVector R) (list (json_t R)))
    (entry : complex_t R -> json_t R) (ZERO : json_t R) :
  (forall j js a, b !! j = Some a -> js !! j = Some ZERO ->
     body j js s = Ok (<[j := entry a]> js) s) ->
  for_m body 0 (length b) (replicate (length b) ZERO) s = Ok (map entry b) s.
Proof.
  intros Hbody.
  pose proof (json_loop s b body entry ZERO Hbody (length b) 0%nat ltac:(lia))
    as Hloop.
  rewrite take_0, Nat.sub_0_r in Hloop. simpl in Hloop.
  rewrite firstn_all, Nat.sub_diag in Hloop. simpl in Hloop.
  by rewrite app_nil_r in Hloop.
Qed.

(** The body of the loop of [json()] with chopping. *)
Lemma json_chop_step (s : QubitVector R) (thr : R) (j : nat)
    (js : list (json_t R)) (a : complex_t R) :
  on_data (rd (Z.of_nat j)) s = Ok a s ->
  js !! j = Some (json_of_complex c_zero) ->
  (a <- on_data (rd (Z.of_nat j));;
   js <- (if d_ltb thr (d_abs (real a))
          then lift (json_set js (Z.of_nat j) 0 (real a))
          else ret js);;
   (if d_ltb thr (d_abs (imag a))
    then lift (json_set js (Z.of_nat j) 1 (imag a))
    else ret js))%M s
  = Ok (<[j := JArray [JNumber (chop thr (real a)); JNumber (chop thr (imag a))]]> js) s.
Proof.
  intros Hrd Hj. erewrite bind_run by exact Hrd.
  pose proof (lookup_lt_Some _ _ _ Hj) as Hlt.
  unfold chop, json_of_complex in *. simpl in Hj.
  destruct (d_ltb thr (d_abs (real a))); destruct (d_ltb thr (d_abs (imag a))).
  - erewrite bind_run.
    2: { erewrite json_set_0 by exact Hj. reflexivity. }
    erewrite json_set_1 by (by apply list_lookup_insert_eq).
    simpl. by rewrite list_insert_insert_eq.
  - erewrite bind_run.
    2: { erewrite json_set_0 by exact Hj. reflexivity. }
    reflexivity.
  - erewrite bind_run by reflexivity.
    erewrite json_set_1 by exact Hj. reflexivity.
  - erewrite bind_run by reflexivity.
    unfold ret. by rewrite (list_insert_id _ _ _ Hj).
Qed.

(** The body of the loop of [json()] without chopping. *)
Lemma json_plain_step (s : QubitVector R) (j : nat)
    (js : list (json_t R)) (a : complex_t R) :
  on_data (rd (Z.of_nat j)) s = Ok a s ->
  js !! j = Some (json_of_complex c_zero) ->
  (a <- on_data (rd (Z.of_nat j));;
   js <- lift (json_set js (Z.of_nat j) 0 (real a));;
   lift (json_set js (Z.of_nat j) 1 (imag a)))%M s
  = Ok (<[j := JArray [JNumber (real a); JNumber (imag a)]]> js) s.
Proof.
  intros Hrd Hj. erewrite bind_run by exact Hrd.
  pose proof (lookup_lt_Some _ _ _ Hj) as Hlt.
  unfold json_of_complex in *. simpl in Hj.
  erewrite bind_run.
  2: { erewrite json_set_0 by exact Hj. reflexivity. }
  erewrite json_set_1 by (by apply list_lookup_insert_eq).
  simpl. by rewrite list_insert_insert_eq.
Qed.

Lemma json_run (s : QubitVector R) (b : list (complex_t R)) :
  wf s -> data_ s = Some b ->
  json s = Ok (JArray (map (json_entry (json_chop_threshold_ s)) b)) s.
Proof.
  intros (HN & Hsize & (b0 & Hb0 & Hlen) & _) Hb.
  rewrite Hb in Hb0. injection Hb0 as <-.
  destruct s as [nq ds d c ot oth smi jct]. simpl in *. subst d ds.
  pose proof (pow2_bound_59 nq ltac:(lia)) as Hpow.
  assert (Z.to_nat (to_int64 (2 ^ nq)) = length b) as HEND.
  { rewrite to_int64_small by lia. lia. }
  assert (Z.to_nat (2 ^ nq) = length b) as Hsz by lia.
  set (s := {| num_qubits_ := nq; data_size_ := 2 ^ nq; data_ := Some b;
               checkpoint_ := c; omp_threads_ := ot; omp_threshold_ := oth;
               sample_measure_index_size_ := smi; json_chop_threshold_ := jct |}).
  assert (forall j a, b !! j = Some a -> on_data (rd (Z.of_nat j)) s = Ok a s)
    as Hrd.
  { intros j a Ha. rewrite (on_data_rd s b j a) by done. reflexivity. }
  unfold json. unfold bind at 1. unfold get at 1. simpl.
  rewrite HEND, Hsz. unfold json_entry. fold s.
  destruct (d_ltb d_zero jct) eqn:Hthr.
  - erewrite bind_run; [reflexivity|].
    apply (json_loop_all s b _
             (fun a => JArray [JNumber (chop jct (real a));
                               JNumber (chop jct (imag a))])).
    intros j js a Ha Hj. apply json_chop_step; [by apply Hrd | done].
  - erewrite bind_run; [reflexivity|].
    apply (json_loop_all s b _
             (fun a => JArray [JNumber (real a); JNumber (imag a)])).
    intros j js a Ha Hj. apply json_plain_step; [by apply Hrd | done].
Qed.

(** C7. For a state that satisfies the class invariant, [json()] returns an
    array of [2^N] entries and leaves the state as it was; the entry [j] is
    the two-element array of the real and the imaginary part of [a[j]],
    where, when [json_chop_threshold > 0], a part whose absolute value is
    [<=] the threshold is replaced by 0 and a part above it is emitted as
    it is, each part on its own, and, when the threshold is 0 (or not above
    0), both parts are emitted as they are. The two laws of the order of
    [double] that the statement uses are hypotheses. *)
Theorem json_emits_chopped_amplitudes (s : QubitVector R) (b : list (complex_t R)) :
  (forall x y : R, d_leb x y = true -> d_ltb y x = false) ->
  (forall x : R, d_eqb x d_zero = true -> d_ltb d_zero x = false) ->
  wf s -> data_ s = Some b ->
  exists js : list (json_t R),
    json s = Ok (JArray js) s /\
    Z.of_nat (length js) = 2 ^ num_qubits_ s /\
    forall (j : nat) (a : complex_t R), b !! j = Some a ->
      exists x y : R,
        js !! j = Some (JArray [JNumber x; JNumber y]) /\
        (d_ltb d_zero (json_chop_threshold_ s) = true ->
           (d_leb (d_abs (real a)) (json_chop_threshold_ s) = true -> x = d_zero) /\
           (d_leb (d_abs (imag a)) (json_chop_threshold_ s) = true -> y = d_zero) /\
           (d_ltb (json_chop_threshold_ s) (d_abs (real a)) = true -> x = real a) /\
           (d_ltb (json_chop_threshold_ s) (d_abs (imag a)) = true -> y = imag a) /\
           x = chop (json_chop_threshold_ s) (real a) /\
           y = chop (json_chop_threshold_ s) (imag a)) /\
        (d_ltb d_zero (json_chop_threshold_ s) = false -> x = real a /\ y = imag a) /\
        (d_eqb (json_chop_threshold_ s) d_zero = true -> x = real a /\ y = imag a).
Proof.
  intros Hle Hzero Hwf Hb.
  exists (map (json_entry (json_chop_threshold_ s)) b).
  split; [by apply json_run|].
  destruct Hwf as (_ & Hsize & (b0 & Hb0 & Hlen) & _).
  rewrite Hb in Hb0. injection Hb0 as <-.
  split; [rewrite length_map; congruence|].
  intros j a Ha.
  assert (map (json_entry (json_chop_threshold_ s)) b !! j
          = Some (json_entry (json_chop_threshold_ s) a)) as Hj.
  { rewrite list_lookup_fmap, Ha. done. }
  rewrite Hj. unfold json_entry.
  destruct (d_ltb d_zero (json_chop_threshold_ s)) eqn:Hthr.
  - eexists _, _. split; [reflexivity|]. split; [|split].
    + intros _. unfold chop. repeat split.
      * intros Hx. by rewrite (Hle _ _ Hx).
      * intros Hy. by rewrite (Hle _ _ Hy).
      * intros Hx. by rewrite Hx.
      * intros Hy. by rewrite Hy.
    + done.
    + intros Heq. apply Hzero in Heq. congruence.
  - eexists _, _. split; [reflexivity|]. split; [done|]. split; done.
Qed.

End Serialisation.

Lemma json_emits_chopped_amplitudes_witness :
  exists js : list (json_t Z),
    json (qv_config 1 [Complex 1 (-5); Complex (-3) 2] 10 2) = Ok (JArray js)
         (qv_config 1 [Complex 1 (-5); Complex (-3) 2] 10 2) /\
    Z.of_nat (length js) = 2 ^ 1 /\
    forall (j : nat) (a : complex_t Z),
      [Complex 1 (-5); Complex (-3) 2] !! j = Some a ->
      exists x y : Z,
        js !! j = Some (JArray [JNumber x; JNumber y]) /\
        (d_ltb d_zero 2 = true ->
           (d_leb (d_abs (real a)) 2 = true -> x = d_zero) /\
           (d_leb (d_abs (imag a)) 2 = true -> y = d_zero) /\
           (d_ltb 2 (d_abs (real a)) = true -> x = real a) /\
           (d_ltb 2 (d_abs (imag a)) = true -> y = imag a) /\
           x = chop 2 (real a) /\
           y = chop 2 (imag a)) /\
        (d_ltb d_zero 2 = false -> x = real a /\ y = imag a) /\
        (d_eqb 2 d_zero = true -> x = real a /\ y = imag a).
Proof.
  apply (json_emits_chopped_amplitudes
           (qv_config 1 [Complex 1 (-5); Complex (-3) 2] 10 2)
           [Complex 1 (-5); Complex (-3) 2]).
  - intros x y Hxy. simpl in *. lia.
  - intros x Hx. simpl in *. lia.
  - unfold wf. simpl. repeat split; try lia.
    + eexists. split; [reflexivity|]. reflexivity.
    + intros c Hc. discriminate.
  - reflexivity.
Defined.

Example json_chop_example :
  json (qv_config 1 [Complex 1 (-5); Complex (-3) 2] 10 2)
  = Ok (JArray [JArray [JNumber 0; JNumber (-5)]; JArray [JNumber (-3); JNumber 0]])
       (qv_config 1 [Complex 1 (-5); Complex (-3) 2] 10 2).
Proof. vm_compute. reflexivity. Qed.

(** ** Measurement sampling *)

Section Sampling.
Context {R : Type} `{Double R}.

Lemma cumulative_0 (b : list (complex_t R)) : cumulative b 0 = d_zero.
Proof. unfold cumulative. by rewrite take_0. Qed.

Lemma cumulative_S (b : list (complex_t R)) (k : nat) (a : complex_t R) :
  b !! k = Some a -> cumulative b (S k) = d_add (cumulative b k) (norm_sq a).
Proof.
  intros Ha. unfold cumulative. rewrite (take_S_r _ _ _ Ha), foldl_app. done.
Qed.

Lemma on_data_run {A} (m : M (buffer R) A) (s : QubitVector R)
    (b b' : list (complex_t R)) (a : A) :
  data_ s = Some b -> m b = Ok a b' -> on_data m s = Ok a (set_data_ s (Some b')).
Proof. intros Hb Hm. unfold on_data. by rewrite Hb, Hm. Qed.

(** The walk from the index [k], entered with the running sum of the first
    [k] amplitudes, none of which exceeded [rnd]. *)
Lemma sample_walk_spec (b : list (complex_t R)) (rnd : R) : forall (count k : nat),
  (k + count <= length b)%nat ->
  (forall j', (j' < k)%nat -> d_ltb rnd (cumulative b (S j')) = false) ->
  exists j : nat,
    sample_walk count (Z.of_nat k) (cumulative b k) rnd b = Ok (Z.of_nat j) b /\
    (k <= j <= k + count)%nat /\
    is_outcome b (k + count) rnd j.
Proof.
  induction count as [|c IH]; intros k Hk Hbefore.
  - exists k. simpl. split; [done|]. split; [lia|].
    split; [done|]. right. lia.
  - destruct (lookup_lt_is_Some_2 b k ltac:(lia)) as [a Ha].
    simpl. erewrite bind_run.
    2: { unfold rd. rewrite at_of_nat, Ha. reflexivity. }
    rewrite <- (cumulative_S b k a Ha).
    destruct (d_ltb rnd (cumulative b (S k))) eqn:Hcross.
    + exists k. split; [done|]. split; [lia|].
      split; [done|]. left. split; [lia | done].
    + destruct (IH (S k) ltac:(lia)) as (j & Hrun & Hj & Hfirst & Hlast).
      { intros j' Hj'. destruct (decide (j' = k)) as [->|]; [done|].
        apply Hbefore. lia. }
      exists j. replace (Z.of_nat k + 1) with (Z.of_nat (S k)) by lia.
      split; [done|]. split; [lia|]. split; [done|].
      by replace (k + S c)%nat with (S k + c)%nat by lia.
Qed.

(** The loop over the shots of the small-state regime. *)
Lemma shots_loop (s : QubitVector R) (b : list (complex_t R)) (rnds : list R)
    (last : nat) :
  data_ s = Some b -> set_data_ s (Some b) = s ->
  (last <= length b)%nat -> Z.of_nat last < 2 ^ 64 ->
  forall (count k : nat) (samples : list Z),
    length samples = length rnds -> (k + count <= length rnds)%nat ->
    (forall i rnd, (i < k)%nat -> rnds !! i = Some rnd ->
       exists j : nat, samples !! i = Some (Z.of_nat j) /\
                       is_outcome b last rnd j /\ (j <= last)%nat) ->
    exists out : list Z,
      for_m (fun i samples =>
               rnd <- lift (rnds !! i);;
               sample <- on_data (sample_walk last 0 d_zero rnd);;
               lift (upd samples (Z.of_nat i) (wrap64 sample)))
            k count samples s = Ok out s /\
      length out = length rnds /\
      (forall i rnd, (i < k + count)%nat -> rnds !! i = Some rnd ->
         exists j : nat, out !! i = Some (Z.of_nat j) /\
                         is_outcome b last rnd j /\ (j <= last)%nat).
Proof.
  intros Hb Hs Hlast H64.
  induction count as [|c IH]; intros k samples Hlen Hk Hdone.
  - exists samples. simpl. split; [done|]. split; [done|].
    intros i rnd Hi. apply Hdone. lia.
  - destruct (lookup_lt_is_Some_2 rnds k ltac:(lia)) as [rnd Hrnd].
    destruct (sample_walk_spec b rnd last 0 ltac:(lia) ltac:(lia))
      as (j & Hrun & Hj & Hout).
    rewrite cumulative_0 in Hrun. change (Z.of_nat 0) with 0 in Hrun.
    simpl in Hout.
    assert ((rnd <- lift (rnds !! k);;
             sample <- on_data (sample_walk last 0 d_zero rnd);;
             lift (upd samples (Z.of_nat k) (wrap64 sample)))%M s
            = Ok (<[k := Z.of_nat j]> samples) s) as Hbody.
    { rewrite Hrnd. erewrite bind_run by reflexivity.
      erewrite bind_run.
      2: { rewrite (on_data_run _ s b b _ Hb Hrun), Hs. reflexivity. }
      rewrite wrap64_small by lia.
      rewrite upd_of_nat by lia. reflexivity. }
    cbn [for_m]. erewrite bind_run by exact Hbody.
    destruct (IH (S k) (<[k := Z.of_nat j]> samples)) as (out & Hloop & Hlen' & Hall).
    + by rewrite length_insert.
    + lia.
    + intros i rnd' Hi Hrnd'. destruct (decide (i = k)) as [->|Hne].
      * rewrite Hrnd in Hrnd'. injection Hrnd' as <-.
        exists j. rewrite list_lookup_insert_eq by lia. split; [done|].
        split; [done | lia].
      * rewrite list_lookup_insert_ne by done. apply Hdone; [lia | done].
    + exists out. split; [exact Hloop|]. split; [done|].
      intros i rnd' Hi. apply Hall. lia.
Qed.

(** The regime of small states where the code reaches it. For a state of
    [N] qubits that satisfies the class invariant and a
    [sample_measure_index_size] in [[0, 62]] with
    [2^N < 2^sample_measure_index_size], [sample_measure(rnds)] returns one
    outcome per entry of [rnds], in the order of [rnds], and leaves the
    state as it was, so that a second call returns the same outcomes; the
    outcome for the shot [i] is the smallest [j] in [[0, 2^N - 1)] with
    [rnds[i]] below the running sum of the [|a[0]|^2, ..., |a[j]|^2], and
    [2^N - 1] when there is none; every outcome lies in [[0, 2^N)]. *)
Theorem sample_measure_small_state
    (s : QubitVector R) (b : list (complex_t R)) (rnds : list R) :
  wf s -> data_ s = Some b ->
  0 <= sample_measure_index_size_ s <= 62 ->
  2 ^ num_qubits_ s < 2 ^ sample_measure_index_size_ s ->
  exists out : list Z,
    sample_measure rnds s = Ok out s /\
    (out1 <- sample_measure rnds;; out2 <- sample_measure rnds;;
     ret (out1, out2))%M s = Ok (out, out) s /\
    length out = length rnds /\
    forall (i : nat) (rnd : R), rnds !! i = Some rnd ->
      exists j : nat,
        out !! i = Some (Z.of_nat j) /\
        is_outcome b (length b - 1) rnd j /\
        0 <= Z.of_nat j < 2 ^ num_qubits_ s.
Proof.
  intros (HN & Hsize & (b0 & Hb0 & Hlen) & _) Hb Hidx Hsmall.
  rewrite Hb in Hb0. injection Hb0 as <-.
  destruct s as [nq ds d c ot oth smi jct]. simpl in *. subst d ds.
  pose proof (pow2_bound_59 nq ltac:(lia)) as Hpow.
  assert (0 < 2 ^ smi < 2 ^ 63) as Hsmi.
  { split; [lia|]. apply Z.pow_lt_mono_r; lia. }
  set (s := {| num_qubits_ := nq; data_size_ := 2 ^ nq; data_ := Some b;
               checkpoint_ := c; omp_threads_ := ot; omp_threshold_ := oth;
               sample_measure_index_size_ := smi; json_chop_threshold_ := jct |}).
  assert (exists out : list Z,
            sample_measure rnds s = Ok out s /\ length out = length rnds /\
            forall (i : nat) (rnd : R), rnds !! i = Some rnd ->
              exists j : nat, out !! i = Some (Z.of_nat j) /\
                is_outcome b (length b - 1) rnd j /\
                0 <= Z.of_nat j < 2 ^ nq) as (out & Hrun & Hlen' & Hall).
  { destruct (shots_loop s b rnds (length b - 1) eq_refl eq_refl
                ltac:(lia) ltac:(lia) (length rnds) 0
                (replicate (length rnds) 0))
      as (out & Hloop & Hlen' & Hall).
    - by rewrite length_replicate.
    - lia.
    - intros i rnd Hi. lia.
    - exists out. split; [|split; [done|]].
      + unfold sample_measure. unfold bind at 1. unfold get at 1. simpl.
        rewrite BITS_at by lia. unfold bind at 1. simpl.
        rewrite !to_int64_small by lia.
        rewrite decide_True by lia.
        replace (Z.to_nat (2 ^ nq - 1)) with (length b - 1)%nat by lia.
        exact Hloop.
      + intros i rnd Hrnd.
        destruct (Hall i rnd) as (j & Hj & Hout & Hle); [|done|].
        { simpl. eapply lookup_lt_Some, Hrnd. }
        exists j. split; [done|]. split; [done|]. lia. }
  exists out. split; [done|]. split; [|done].
  erewrite bind_run by exact Hrun.
  erewrite bind_run by exact Hrun.
  reflexivity.
Qed.

End Sampling.

Lemma sample_measure_small_state_witness :
  exists out : list Z,
    sample_measure [0; 1; 2; 5; 100] (qv_of 2 (reals [1; 2; 0; 3])) =
      Ok out (qv_of 2 (reals [1; 2; 0; 3])) /\
    (out1 <- sample_measure [0; 1; 2; 5; 100];;
     out2 <- sample_measure [0; 1; 2; 5; 100];;
     ret (out1, out2))%M (qv_of 2 (reals [1; 2; 0; 3])) =
      Ok (out, out) (qv_of 2 (reals [1; 2; 0; 3])) /\
    length out = length [0; 1; 2; 5; 100] /\
    forall (i : nat) (rnd : Z), [0; 1; 2; 5; 100] !! i = Some rnd ->
      exists j : nat,
        out !! i = Some (Z.of_nat j) /\
        is_outcome (reals [1; 2; 0; 3]) (length (reals [1; 2; 0; 3]) - 1) rnd j /\
        0 <= Z.of_nat j < 2 ^ 2.
Proof.
  apply (sample_measure_small_state (qv_of 2 (reals [1; 2; 0; 3]))
           (reals [1; 2; 0; 3]) [0; 1; 2; 5; 100]).
  - unfold wf. simpl. repeat split; try lia.
    + eexists. split; [reflexivity|]. reflexivity.
    + intros c Hc. discriminate.
  - reflexivity.
  - simpl. lia.
  - simpl. lia.
Defined.

(** C4. At [sample_measure_index_size = 63] the code misses the regime of
    small states that its test [END < INDEX_END] is there to select
    ("Qubit number is below index size"): [2^1 < 2^63], but
    [INDEX_END = BITS[63]] is [-2^63] as an [int_t], the test fails, and the
    regime of large states throws on the allocation of its table, where the
    claim has the call return one outcome per random number. *)
Lemma sample_measure_index_size_63 :
  wf (qv_config (R:=Z) 1 (reals [1; 0]) 63 0) /\
  2 ^ num_qubits_ (qv_config (R:=Z) 1 (reals [1; 0]) 63 0)
    < 2 ^ sample_measure_index_size_ (qv_config (R:=Z) 1 (reals [1; 0]) 63 0) /\
  sample_measure [0] (qv_config (R:=Z) 1 (reals [1; 0]) 63 0)
    = Throw "cannot create std::vector larger than max_size()"
            (qv_config 1 (reals [1; 0]) 63 0) /\
  ~ (exists out : list Z,
       sample_measure [0] (qv_config (R:=Z) 1 (reals [1; 0]) 63 0)
       = Ok out (qv_config 1 (reals [1; 0]) 63 0)).
Proof.
  split; [|split; [|split]].
  - unfold wf. simpl. repeat split; try lia.
    + eexists. split; [reflexivity|]. reflexivity.
    + intros c Hc. discriminate.
  - simpl. lia.
  - vm_compute. reflexivity.
  - intros [out Hout]. vm_compute in Hout. discriminate.
Qed.

(** The scenario of the specification in binary64 arithmetic: the state
    [[sqrt 0.3, sqrt 0.7]] and four random numbers. *)
Example sample_measure_binary64 :
  sample_measure [0.2; 0.29999; 0.30001; 0.9999]%float
    (qv_of 1 (reals [PrimFloat.sqrt 0.3; PrimFloat.sqrt 0.7]%float))
  = Ok [0; 0; 1; 1]
       (qv_of 1 (reals [PrimFloat.sqrt 0.3; PrimFloat.sqrt 0.7]%float)).
Proof. vm_compute. reflexivity. Qed.

(** * Further properties *)

(** ** The blocks of the index tables *)

Lemma set_qubit_bits_testbit (Qu : list Z) : forall (j0 : nat) (i base b : Z),
  Forall (fun q => 0 <= q) Qu -> 0 <= b ->
  Z.testbit (set_qubit_bits j0 Qu i base) b
  = Z.testbit base b || selects j0 Qu i b.
Proof.
  induction Qu as [|q Qu IH]; intros j0 i base b HQ Hb; simpl.
  - by rewrite orb_false_r.
  - apply Forall_cons in HQ as [Hq HQ]. rewrite IH by done.
    destruct (Z.testbit i (Z.of_nat j0)).
    + rewrite Z.lor_spec, Z.pow2_bits_eqb by lia.
      rewrite andb_true_r. by rewrite orb_assoc.
    + by rewrite andb_false_r.
Qed.

Lemma set_qubit_bits_nonneg (Qu : list Z) : forall (j0 : nat) (i base : Z),
  Forall (fun q => 0 <= q) Qu -> 0 <= base -> 0 <= set_qubit_bits j0 Qu i base.
Proof.
  induction Qu as [|q Qu IH]; intros j0 i base HQ Hbase; simpl; [done|].
  apply Forall_cons in HQ as [Hq HQ]. apply IH; [done|].
  destruct (Z.testbit i (Z.of_nat j0)); [|done].
  apply Z.lor_nonneg. split; [done|]. lia.
Qed.

Lemma selects_not_elem (Qu : list Z) : forall (j0 : nat) (i b : Z),
  b ∉ Qu -> selects j0 Qu i b = false.
Proof.
  induction Qu as [|q Qu IH]; intros j0 i b Hb; simpl; [done|].
  apply not_elem_of_cons in Hb as [Hne Hb].
  rewrite IH by done. rewrite (proj2 (Z.eqb_neq q b)) by done. done.
Qed.

Lemma selects_lookup (Qu : list Z) : forall (j0 j : nat) (i b : Z),
  NoDup Qu -> Qu !! j = Some b ->
  selects j0 Qu i b = Z.testbit i (Z.of_nat (j0 + j)).
Proof.
  induction Qu as [|q Qu IH]; intros j0 j i b Hnd Hj; [done|].
  apply NoDup_cons in Hnd as [Hq Hnd]. simpl.
  destruct j as [|j]; simpl in Hj.
  - injection Hj as ->. rewrite Z.eqb_refl. simpl.
    rewrite selects_not_elem by done. rewrite Nat.add_0_r. apply orb_false_r.
  - rewrite (IH (S j0) j i b Hnd Hj).
    assert (q <> b) as Hne.
    { intros ->. apply Hq. eapply list_elem_of_lookup_2, Hj. }
    rewrite (proj2 (Z.eqb_neq q b)) by done.
    rewrite andb_false_l, orb_false_l.
    f_equal. lia.
Qed.

(** A number all of whose bits from [n] on are 0 is below [2^n]. *)
Lemma below_pow2_of_bits (x n : Z) :
  0 <= x -> 0 <= n -> (forall b, n <= b -> Z.testbit x b = false) -> x < 2 ^ n.
Proof.
  intros Hx Hn Hbits.
  destruct (decide (x = 0)) as [->|Hne]; [lia|].
  apply Z.log2_lt_pow2; [lia|].
  destruct (decide (Z.log2 x < n)) as [|Hge]; [done|exfalso].
  pose proof (Z.bit_log2 x ltac:(lia)) as Hbit.
  rewrite Hbits in Hbit by lia. done.
Qed.

Lemma above_pow2_bits (x n b : Z) :
  0 <= x < 2 ^ n -> n <= b -> Z.testbit x b = false.
Proof.
  intros Hx Hb. destruct (decide (x = 0)) as [->|Hne]; [apply Z.bits_0|].
  apply Z.bits_above_log2; [lia|].
  assert (Z.log2 x < n); [|lia].
  apply Z.log2_lt_pow2; lia.
Qed.

Lemma insert_zero_bit_inj (q r r' : Z) :
  0 <= q -> 0 <= r -> 0 <= r' ->
  insert_zero_bit q r = insert_zero_bit q r' -> r = r'.
Proof.
  intros Hq Hr Hr' Heq. apply Z.bits_inj'. intros b Hb.
  destruct (decide (b < q)) as [Hlt|Hge].
  - pose proof (insert_zero_bit_testbit q r b Hq Hr Hb) as H1.
    pose proof (insert_zero_bit_testbit q r' b Hq Hr' Hb) as H2.
    rewrite decide_True in H1, H2 by done. congruence.
  - pose proof (insert_zero_bit_testbit q r (b + 1) Hq Hr ltac:(lia)) as H1.
    pose proof (insert_zero_bit_testbit q r' (b + 1) Hq Hr' ltac:(lia)) as H2.
    rewrite decide_False in H1, H2 by lia.
    rewrite decide_False in H1, H2 by lia.
    replace (b + 1 - 1) with b in H1, H2 by lia. congruence.
Qed.

Lemma insert_zero_bits_inj (Q : list Z) : forall r r',
  Forall (fun q => 0 <= q) Q -> 0 <= r -> 0 <= r' ->
  insert_zero_bits Q r = insert_zero_bits Q r' -> r = r'.
Proof.
  induction Q as [|q Q IH]; intros r r' HQ Hr Hr' Heq; [done|].
  apply Forall_cons in HQ as [Hq HQ].
  apply (insert_zero_bit_inj q); try done.
  apply IH; try done.
  - apply (insert_zero_bits_nonneg [q] r); [by constructor | done].
  - apply (insert_zero_bits_nonneg [q] r'); [by constructor | done].
Qed.

Lemma StronglySorted_lt_NoDup (Q : list Z) : StronglySorted Z.lt Q -> NoDup Q.
Proof.
  induction 1 as [|q Q Hs IH Hq]; [constructor|].
  constructor; [|done]. intros Hin.
  rewrite Forall_forall in Hq. specialize (Hq q Hin). lia.
Qed.

Section Blocks.
Variables (N : Z) (Q Qu : list Z).
Hypothesis HN : 0 <= N <= 63.
Hypothesis Hsorted : StronglySorted Z.lt Q.
Hypothesis Hrange : Forall (fun q => 0 <= q < N) Q.
Hypothesis Hperm : Qu ≡ₚ Q.

Lemma blocks_Q_nonneg : Forall (fun q => 0 <= q) Q.
Proof using Hrange. eapply Forall_impl; [exact Hrange|]. simpl. intros. lia. Qed.

Lemma blocks_Qu_nonneg : Forall (fun q => 0 <= q) Qu.
Proof using Hrange Hperm. rewrite Hperm. apply blocks_Q_nonneg. Qed.

Lemma blocks_Qu_NoDup : NoDup Qu.
Proof using Hsorted Hperm. rewrite Hperm. by apply StronglySorted_lt_NoDup. Qed.

(** The entries of the table of the counter [k]. *)
Lemma blocks_entry {St} (s s' : St) (k : Z) (T : list Z) (i : nat) (x : Z) :
  0 <= k < 2 ^ (N - Z.of_nat (length Q)) ->
  indexes Qu Q k s = Ok T s' -> T !! i = Some x ->
  (i < 2 ^ length Q)%nat /\
  x = set_qubit_bits 0 Qu (Z.of_nat i) (insert_zero_bits Q k) /\
  0 <= insert_zero_bits Q k < 2 ^ N.
Proof using HN Hsorted Hrange Hperm.
  intros Hk HT Hx.
  assert (Z.of_nat (length Q) <= N) as HM.
  { destruct (decide (Z.of_nat (length Q) <= N)); [done|].
    rewrite Z.pow_neg_r in Hk by lia. lia. }
  destruct (index0_loop_spec Q k (N - Z.of_nat (length Q))) as [H0 Hb];
    try done; try lia.
  { eapply Forall_impl; [exact Hrange|]. simpl. intros. lia. }
  replace (N - Z.of_nat (length Q) + Z.of_nat (length Q)) with N in Hb by lia.
  destruct (indexes_returns _ _ _ _ _ _ HT) as [H59 ->].
  rewrite (indexes_spec Qu Q k (insert_zero_bits Q k)) in HT; try done; try lia.
  2: { by rewrite Hperm. }
  2: { rewrite Hperm. eapply Forall_impl; [exact Hrange|]. simpl. intros. lia. }
  injection HT as <-.
  assert (i < 2 ^ length Q)%nat as Hi.
  { apply lookup_lt_Some in Hx. by rewrite index_table_length in Hx. }
  rewrite index_table_lookup in Hx by done.
  rewrite take_ge in Hx by (by rewrite Hperm).
  split; [done|]. split; [congruence | done].
Qed.

(** The bits of an entry: outside [Q] those of [index0], at [Qu[j]] bit
    [j] of the position in the table. *)
Lemma blocks_entry_bit_outside (i0 i b : Z) :
  0 <= b -> b ∉ Q ->
  Z.testbit (set_qubit_bits 0 Qu i i0) b = Z.testbit i0 b.
Proof using Hrange Hperm.
  intros Hb Hnot. rewrite set_qubit_bits_testbit by (apply blocks_Qu_nonneg || done).
  rewrite selects_not_elem; [apply orb_false_r|]. by rewrite Hperm.
Qed.

Lemma blocks_entry_bit_at (k i : Z) (j : nat) (b : Z) :
  0 <= k -> Qu !! j = Some b ->
  Z.testbit (set_qubit_bits 0 Qu i (insert_zero_bits Q k)) b
  = Z.testbit i (Z.of_nat j).
Proof using Hsorted Hrange Hperm.
  intros Hk Hj.
  assert (b ∈ Q) as Hin.
  { rewrite <- Hperm. eapply list_elem_of_lookup_2, Hj. }
  assert (0 <= b) as Hb.
  { pose proof blocks_Q_nonneg as HQ. rewrite Forall_forall in HQ. by apply HQ. }
  rewrite set_qubit_bits_testbit by (apply blocks_Qu_nonneg || done).
  rewrite insert_zero_bits_testbit by (done || apply blocks_Q_nonneg).
  rewrite decide_True by done. simpl.
  by rewrite (selects_lookup Qu 0 j i b blocks_Qu_NoDup Hj).
Qed.

End Blocks.

(** X1. The entries of an index table are indices of the state buffer:
    every entry of [indexes Qu Q k] lies in [[0, 2^N)]. *)
Theorem indexes_entries_in_range {St}
    (N : Z) (Q Qu : list Z) (k : Z) (T : list Z) (s s' : St) :
  0 <= N <= 63 ->
  StronglySorted Z.lt Q ->
  Forall (fun q => 0 <= q < N) Q ->
  Qu ≡ₚ Q ->
  0 <= k < 2 ^ (N - Z.of_nat (length Q)) ->
  indexes Qu Q k s = Ok T s' ->
  Forall (fun x => 0 <= x < 2 ^ N) T.
Proof.
  intros HN Hs HQ Hperm Hk HT. apply Forall_lookup_2. intros i x Hx.
  destruct (blocks_entry N Q Qu HN Hs HQ Hperm s s' k T i x Hk HT Hx)
    as (Hi & -> & Hi0).
  pose proof (blocks_Qu_nonneg N Q Qu HQ Hperm) as HQu.
  split; [apply set_qubit_bits_nonneg; [done | lia]|].
  apply below_pow2_of_bits; [apply set_qubit_bits_nonneg; [done | lia] | lia |].
  intros b Hb.
  rewrite (blocks_entry_bit_outside N Q Qu HQ Hperm) by
    (lia || (intros Hin; rewrite Forall_forall in HQ; specialize (HQ b Hin); lia)).
  by apply (above_pow2_bits _ N).
Qed.

Lemma indexes_entries_in_range_witness :
  Forall (fun x => 0 <= x < 2 ^ 9) [297; 313; 299; 315].
Proof.
  apply (indexes_entries_in_range 9 [1; 4] [4; 1] 77 [297; 313; 299; 315] tt tt).
  - lia.
  - repeat constructor.
  - repeat constructor; lia.
  - apply Permutation_swap.
  - simpl. lia.
  - reflexivity.
Defined.

(** X2. The entries of one index table are pairwise distinct. *)
Theorem indexes_entries_distinct {St}
    (N : Z) (Q Qu : list Z) (k : Z) (T : list Z) (s s' : St) :
  0 <= N <= 63 ->
  StronglySorted Z.lt Q ->
  Forall (fun q => 0 <= q < N) Q ->
  Qu ≡ₚ Q ->
  0 <= k < 2 ^ (N - Z.of_nat (length Q)) ->
  indexes Qu Q k s = Ok T s' ->
  NoDup T.
Proof.
  intros HN Hs HQ Hperm Hk HT. apply NoDup_alt. intros i i' x Hx Hx'.
  destruct (blocks_entry N Q Qu HN Hs HQ Hperm s s' k T i x Hk HT Hx)
    as (Hi & Hxi & _).
  destruct (blocks_entry N Q Qu HN Hs HQ Hperm s s' k T i' x Hk HT Hx')
    as (Hi' & Hxi' & _).
  apply Nat2Z.inj. apply Z.bits_inj'. intros j Hj.
  destruct (decide (j < Z.of_nat (length Q))) as [Hlt|Hge].
  - assert (length Qu = length Q) as Hlen by (by rewrite Hperm).
    destruct (lookup_lt_is_Some_2 Qu (Z.to_nat j) ltac:(lia)) as [b Hb].
    pose proof (blocks_entry_bit_at N Q Qu Hs HQ Hperm k (Z.of_nat i) _ b
                  ltac:(lia) Hb) as H1.
    pose proof (blocks_entry_bit_at N Q Qu Hs HQ Hperm k (Z.of_nat i') _ b
                  ltac:(lia) Hb) as H2.
    rewrite Z2Nat.id in H1, H2 by lia. congruence.
  - rewrite (above_pow2_bits (Z.of_nat i) (Z.of_nat (length Q))),
      (above_pow2_bits (Z.of_nat i') (Z.of_nat (length Q))); try done; try lia.
    + rewrite <- of_nat_pow2. lia.
    + rewrite <- of_nat_pow2. lia.
Qed.

Lemma indexes_entries_distinct_witness : NoDup [297; 313; 299; 315].
Proof.
  apply (indexes_entries_distinct 9 [1; 4] [4; 1] 77 [297; 313; 299; 315] tt tt).
  - lia.
  - repeat constructor.
  - repeat constructor; lia.
  - apply Permutation_swap.
  - simpl. lia.
  - reflexivity.
Defined.

(** X3. The index tables of two different counters have no entry in
    common: the iterations of the block loop touch disjoint sets of
    amplitudes. *)
Theorem indexes_blocks_disjoint {St}
    (N : Z) (Q Qu : list Z) (k k' : Z) (T T' : list Z) (x : Z)
    (s1 s1' s2 s2' : St) :
  0 <= N <= 63 ->
  StronglySorted Z.lt Q ->
  Forall (fun q => 0 <= q < N) Q ->
  Qu ≡ₚ Q ->
  0 <= k < 2 ^ (N - Z.of_nat (length Q)) ->
  0 <= k' < 2 ^ (N - Z.of_nat (length Q)) ->
  indexes Qu Q k s1 = Ok T s1' ->
  indexes Qu Q k' s2 = Ok T' s2' ->
  x ∈ T -> x ∈ T' -> k = k'.
Proof.
  intros HN Hs HQ Hperm Hk Hk' HT HT' [i Hx]%list_elem_of_lookup_1
    [i' Hx']%list_elem_of_lookup_1.
  destruct (blocks_entry N Q Qu HN Hs HQ Hperm s1 s1' k T i x Hk HT Hx)
    as (_ & Hxi & Hi0).
  destruct (blocks_entry N Q Qu HN Hs HQ Hperm s2 s2' k' T' i' x Hk' HT' Hx')
    as (_ & Hxi' & Hi0').
  pose proof (blocks_Q_nonneg N Q HQ) as HQ0.
  apply (insert_zero_bits_inj Q); try done; try lia.
  apply Z.bits_inj'. intros b Hb.
  destruct (decide (b ∈ Q)) as [Hin|Hnot].
  - rewrite !insert_zero_bits_testbit by (done || lia).
    by rewrite !decide_True by done.
  - rewrite <- (blocks_entry_bit_outside N Q Qu HQ Hperm _ (Z.of_nat i) b Hb Hnot).
    rewrite <- (blocks_entry_bit_outside N Q Qu HQ Hperm (insert_zero_bits Q k')
                  (Z.of_nat i') b Hb Hnot).
    congruence.
Qed.

Lemma indexes_blocks_disjoint_witness : 77 = 77.
Proof.
  apply (indexes_blocks_disjoint 9 [1; 4] [4; 1] 77 77
           [297; 313; 299; 315] [297; 313; 299; 315] 313 tt tt tt tt).
  - lia.
  - repeat constructor.
  - repeat constructor; lia.
  - apply Permutation_swap.
  - simpl. lia.
  - simpl. lia.
  - reflexivity.
  - reflexivity.
  - apply list_elem_of_In. simpl. tauto.
  - apply list_elem_of_In. simpl. tauto.
Defined.

(** ** Construction and initialisation *)

Section Initialisation.
Context {R : Type} `{Double R}.

(** A loop that copies [src] into the state buffer cell by cell. *)
Lemma fill_loop (s : QubitVector R) (src : list (complex_t R))
    (body : nat -> M (QubitVector R) unit) :
  (forall (k : nat) (b : list (complex_t R)) v,
     src !! k = Some v -> (k < length b)%nat ->
     body k (set_data_ s (Some b)) = Ok tt (set_data_ s (Some (<[k := v]> b)))) ->
  forall (count k : nat) (b : list (complex_t R)),
    (k + count <= length src)%nat -> (length src <= length b)%nat ->
    for_ body k count (set_data_ s (Some (take k src ++ drop k b)))
    = Ok tt (set_data_ s (Some (take (k + count) src ++ drop (k + count) b))).
Proof.
  intros Hbody. induction count as [|c IH]; intros k b Hk Hlen.
  - by rewrite Nat.add_0_r.
  - rewrite for__S.
    destruct (lookup_lt_is_Some_2 src k ltac:(lia)) as [v Hv].
    erewrite bind_run.
    2: { apply (Hbody k _ v Hv).
         rewrite length_app, length_take, length_drop. lia. }
    rewrite insert_take_drop by (done || lia).
    rewrite IH by lia. by replace (S k + c)%nat with (k + S c)%nat by lia.
Qed.

Lemma fill_loop_all (s : QubitVector R) (src b : list (complex_t R))
    (body : nat -> M (QubitVector R) unit) :
  (forall (k : nat) (b : list (complex_t R)) v,
     src !! k = Some v -> (k < length b)%nat ->
     body k (set_data_ s (Some b)) = Ok tt (set_data_ s (Some (<[k := v]> b)))) ->
  length src = length b ->
  for_ body 0 (length b) (set_data_ s (Some b)) = Ok tt (set_data_ s (Some src)).
Proof.
  intros Hbody Hlen.
  pose proof (fill_loop s src body Hbody (length b) 0 b ltac:(lia) ltac:(lia))
    as Hloop.
  rewrite take_0, drop_0 in Hloop. simpl in Hloop.
  rewrite <- Hlen, firstn_all, drop_ge, app_nil_r in Hloop by lia.
  by rewrite <- Hlen.
Qed.

(** X4. The constructor: for [0 <= n <= 58] it returns a state of [n]
    qubits that satisfies the class invariant, without a checkpoint and
    with the default config settings (1 thread, threshold 14, index size
    10, no chopping); for [n = 59] the request of [2^63] bytes is refused
    and the constructor returns all the same, with [data_] the null pointer
    and [data_size_ = 2^59]; for [n >= 64] the table [BITS] is read out of
    range. *)
Theorem constructor_establishes_invariant (n : Z) :
  (0 <= n <= 58 ->
   exists s : QubitVector R,
     new_QubitVector n = Ok tt s /\ wf s /\
     num_qubits_ s = n /\ data_size_ s = 2 ^ n /\ checkpoint_ s = None /\
     omp_threads_ s = 1 /\ omp_threshold_ s = 14 /\
     sample_measure_index_size_ s = 10 /\ json_chop_threshold_ s = d_zero) /\
  (n = 59 ->
   exists s : QubitVector R,
     new_QubitVector n = Ok tt s /\ data_ s = None /\ ~ wf s /\
     num_qubits_ s = 59 /\ data_size_ s = 2 ^ 59) /\
  (64 <= n -> new_QubitVector (R:=R) n = Undefined).
Proof.
  split; [|split].
  - intros Hn. unfold new_QubitVector, set_num_qubits, bind, get, put. simpl.
    rewrite BITS_at by lia. simpl. eexists. split; [reflexivity|].
    unfold wf. simpl. repeat split; try lia; try done.
    rewrite malloc_complex_granted by lia. eexists. split; [done|].
    rewrite length_replicate. pose proof (pow2_bound_59 n ltac:(lia)). lia.
  - intros ->. unfold new_QubitVector, set_num_qubits, bind, get, put.
    cbn [num_qubits_ data_ checkpoint_ omp_threads_ omp_threshold_
         sample_measure_index_size_ json_chop_threshold_].
    rewrite BITS_at by lia. cbn [lift ret].
    rewrite malloc_complex_refused.
    eexists. split; [reflexivity|]. cbn [data_ num_qubits_ data_size_].
    split; [done|]. split; [|done].
    intros (HN & _). cbn [num_qubits_] in HN. lia.
  - intros Hn. unfold new_QubitVector, set_num_qubits, bind, get. simpl.
    assert (at_ BITS n = None) as ->; [|done].
    unfold at_. case_decide; [|done].
    apply lookup_ge_None_2. rewrite BITS_length. lia.
Qed.

(** X5. [set_num_qubits(n)] on a state that satisfies the class invariant.
    For [0 <= n <= 58] the result satisfies the invariant with [n] qubits,
    the checkpoint is released and the config settings are kept; when [n]
    is the current number of qubits the state buffer keeps its contents.
    For [n = 59] the request of [2^63] bytes is refused and the call
    returns with [data_] the null pointer. *)
Theorem set_num_qubits_resizes (n : Z) (s : QubitVector R) :
  wf s ->
  (0 <= n <= 58 ->
   exists s' : QubitVector R,
     set_num_qubits n s = Ok tt s' /\ wf s' /\
     num_qubits_ s' = n /\ data_size_ s' = 2 ^ n /\ checkpoint_ s' = None /\
     (n = num_qubits_ s -> data_ s' = data_ s) /\
     (omp_threads_ s', omp_threshold_ s',
      sample_measure_index_size_ s', json_chop_threshold_ s')
     = (omp_threads_ s, omp_threshold_ s,
        sample_measure_index_size_ s, json_chop_threshold_ s)) /\
  (n = 59 ->
   exists s' : QubitVector R,
     set_num_qubits n s = Ok tt s' /\ data_ s' = None /\
     num_qubits_ s' = 59 /\ data_size_ s' = 2 ^ 59).
Proof.
  intros (HN & Hsize & (b & Hb & Hlen) & _). split.
  - intros Hn.
    unfold set_num_qubits, bind, get, put. rewrite BITS_at by lia. simpl.
    eexists. split; [reflexivity|]. simpl. rewrite Hb.
    pose proof (pow2_bound_59 n ltac:(lia)).
    destruct (decide (num_qubits_ s <> n)) as [Hne|Heq].
    + unfold wf. simpl. repeat split; try lia; try done.
      rewrite malloc_complex_granted by lia. eexists. split; [done|].
      rewrite length_replicate. lia.
    + assert (num_qubits_ s = n) as Hsame by lia.
      unfold wf. simpl. repeat split; try lia; try done.
      exists b. split; [done|]. congruence.
  - intros ->.
    unfold set_num_qubits, bind, get, put. rewrite BITS_at by lia.
    cbn [lift ret]. rewrite Hb.
    rewrite decide_True by lia. rewrite malloc_complex_refused.
    eexists. split; [reflexivity|]. done.
Qed.

(** X6. [initialize()] on a state that satisfies the class invariant
    returns with amplitude 0 equal to 1 and every other amplitude equal to
    0; nothing but the state buffer changes. *)
Theorem initialize_sets_zero_state (s : QubitVector R) :
  wf s ->
  initialize s
  = Ok tt (set_data_ s (Some (<[0%nat := c_one]>
                                (replicate (Z.to_nat (2 ^ num_qubits_ s)) c_zero)))).
Proof.
  intros (HN & Hsize & (b & Hb & Hlen) & _).
  destruct s as [nq ds d c ot oth smi jct]. simpl in *. subst d ds.
  pose proof (pow2_bound_59 nq ltac:(lia)) as Hpow.
  assert (Z.to_nat (to_int64 (2 ^ nq)) = length b) as HEND.
  { rewrite to_int64_small by lia. lia. }
  assert (Z.to_nat (2 ^ nq) = length b) as Hsz by lia.
  set (s := {| num_qubits_ := nq; data_size_ := 2 ^ nq; data_ := Some b;
               checkpoint_ := c; omp_threads_ := ot; omp_threshold_ := oth;
               sample_measure_index_size_ := smi; json_chop_threshold_ := jct |}).
  unfold initialize, zero.
  erewrite bind_run.
  2: { erewrite bind_run by reflexivity. simpl. rewrite HEND.
       apply (fill_loop_all s (replicate (length b) c_zero) b
                (fun k => on_data (wr (Z.of_nat k) c_zero))).
       - intros k b' v Hv Hk. apply lookup_replicate_1 in Hv as [-> _].
         exact (on_data_wr (set_data_ s (Some b')) b' k c_zero eq_refl Hk).
       - apply length_replicate. }
  rewrite Hsz.
  apply (on_data_wr (set_data_ s (Some (replicate (length b) c_zero)))
           (replicate (length b) c_zero) 0 c_one); [done|].
  rewrite length_replicate. lia.
Qed.

(** X7. [initialize_from_vector(v)] on a state that satisfies the class
    invariant: when the length of [v] is not [2^N] it throws and the state
    is as before; otherwise it returns with the state buffer equal to [v],
    and [vector()] then returns [v]. *)
Theorem initialize_from_vector_round_trip
    (s : QubitVector R) (v : list (complex_t R)) :
  wf s ->
  (Z.of_nat (length v) <> 2 ^ num_qubits_ s ->
   exists msg, initialize_from_vector v s = Throw msg s) /\
  (Z.of_nat (length v) = 2 ^ num_qubits_ s ->
   initialize_from_vector v s = Ok tt (set_data_ s (Some v)) /\
   (initialize_from_vector v;;; vector)%M s = Ok v (set_data_ s (Some v))).
Proof.
  intros (HN & Hsize & (b & Hb & Hlen) & _).
  destruct s as [nq ds d c ot oth smi jct]. simpl in *. subst d ds.
  pose proof (pow2_bound_59 nq ltac:(lia)) as Hpow.
  assert (Z.to_nat (to_int64 (2 ^ nq)) = length b) as HEND.
  { rewrite to_int64_small by lia. lia. }
  split.
  - intros Hne. eexists. unfold initialize_from_vector, bind, get. simpl.
    rewrite decide_True by lia. reflexivity.
  - intros Hv.
    assert (initialize_from_vector v
              {| num_qubits_ := nq; data_size_ := 2 ^ nq; data_ := Some b;
                 checkpoint_ := c; omp_threads_ := ot; omp_threshold_ := oth;
                 sample_measure_index_size_ := smi; json_chop_threshold_ := jct |}
            = Ok tt
              {| num_qubits_ := nq; data_size_ := 2 ^ nq; data_ := Some v;
                 checkpoint_ := c; omp_threads_ := ot; omp_threshold_ := oth;
                 sample_measure_index_size_ := smi; json_chop_threshold_ := jct |})
      as Hinit.
    { unfold initialize_from_vector. unfold bind at 1. unfold get at 1. simpl.
      rewrite decide_False by lia. rewrite HEND.
      apply (fill_loop_all
               {| num_qubits_ := nq; data_size_ := 2 ^ nq; data_ := Some b;
                  checkpoint_ := c; omp_threads_ := ot; omp_threshold_ := oth;
                  sample_measure_index_size_ := smi; json_chop_threshold_ := jct |}
               v b
               (fun k => v0 <- lift (v !! k);; on_data (wr (Z.of_nat k) v0))%M).
      - intros k b' a Ha Hk. rewrite Ha. erewrite bind_run by reflexivity.
        exact (on_data_wr (set_data_ _ (Some b')) b' k a eq_refl Hk).
      - lia. }
    split; [exact Hinit|].
    erewrite bind_run by exact Hinit.
    unfold vector. unfold bind at 1. unfold get at 1.
    erewrite bind_run
      by (apply vector_assign_granted; simpl;
          pose proof (pow2_bound_58 nq ltac:(lia)); lia).
    simpl.
    rewrite !to_int64_small by lia.
    replace (Z.to_nat (2 ^ nq)) with (length v) by lia.
    set (s' := {| num_qubits_ := nq; data_size_ := 2 ^ nq; data_ := Some v;
                  checkpoint_ := c; omp_threads_ := ot; omp_threshold_ := oth;
                  sample_measure_index_size_ := smi; json_chop_threshold_ := jct |}).
    assert (forall (count k : nat) (acc : list (complex_t R)),
              (k + count <= length v)%nat -> length acc = length v ->
              for_m (fun j ret_ =>
                       a <- on_data (rd (Z.of_nat j));;
                       lift (upd ret_ (Z.of_nat j) a))
                    k count (take k v ++ drop k acc) s'
              = Ok (take (k + count) v ++ drop (k + count) acc) s') as Hcopy.
    { induction count as [|n IH]; intros k acc Hk Hacc.
      - by rewrite Nat.add_0_r.
      - destruct (lookup_lt_is_Some_2 v k ltac:(lia)) as [a Ha].
        cbn [for_m]. erewrite bind_run.
        2: { erewrite bind_run.
             2: { rewrite (on_data_rd s' v k a) by done. reflexivity. }
             rewrite upd_of_nat.
             2: { rewrite length_app, length_take, length_drop. lia. }
             reflexivity. }
        rewrite insert_take_drop by (done || lia).
        rewrite IH by lia. by replace (S k + n)%nat with (k + S n)%nat by lia. }
    specialize (Hcopy (length v) 0%nat (replicate (length v) c_zero)
                  ltac:(lia) ltac:(by rewrite length_replicate)).
    rewrite take_0, drop_0 in Hcopy. simpl in Hcopy.
    rewrite firstn_all, drop_ge, app_nil_r in Hcopy
      by (rewrite length_replicate; lia).
    exact Hcopy.
Qed.

End Initialisation.

Lemma set_num_qubits_resizes_witness :
  (exists s' : QubitVector Z,
     set_num_qubits 1 (basis (R:=Z) 2 2) = Ok tt s' /\ wf s' /\
     num_qubits_ s' = 1 /\ data_size_ s' = 2 ^ 1 /\ checkpoint_ s' = None /\
     (1 = num_qubits_ (basis (R:=Z) 2 2) -> data_ s' = data_ (basis (R:=Z) 2 2)) /\
     (omp_threads_ s', omp_threshold_ s',
      sample_measure_index_size_ s', json_chop_threshold_ s')
     = (omp_threads_ (basis (R:=Z) 2 2), omp_threshold_ (basis (R:=Z) 2 2),
        sample_measure_index_size_ (basis (R:=Z) 2 2),
        json_chop_threshold_ (basis (R:=Z) 2 2))) /\
  (exists s' : QubitVector Z,
     set_num_qubits 59 (basis (R:=Z) 2 2) = Ok tt s' /\ data_ s' = None /\
     num_qubits_ s' = 59 /\ data_size_ s' = 2 ^ 59).
Proof.
  destruct (set_num_qubits_resizes 1 (basis (R:=Z) 2 2)) as [Hsmall _].
  - unfold wf. simpl. repeat split; try lia.
    + eexists. split; [reflexivity|]. reflexivity.
    + intros c Hc. discriminate.
  - destruct (set_num_qubits_resizes 59 (basis (R:=Z) 2 2)) as [_ Hbig].
    + unfold wf. simpl. repeat split; try lia.
      * eexists. split; [reflexivity|]. reflexivity.
      * intros c Hc. discriminate.
    + split; [apply Hsmall; lia | apply Hbig; reflexivity].
Defined.

Lemma initialize_sets_zero_state_witness :
  initialize (basis (R:=Z) 2 2)
  = Ok tt (set_data_ (basis (R:=Z) 2 2)
             (Some (<[0%nat := c_one]>
                      (replicate (Z.to_nat (2 ^ num_qubits_ (basis (R:=Z) 2 2)))
                         c_zero)))).
Proof.
  apply (initialize_sets_zero_state (basis (R:=Z) 2 2)).
  unfold wf. simpl. repeat split; try lia.
  - eexists. split; [reflexivity|]. reflexivity.
  - intros c Hc. discriminate.
Defined.

Lemma initialize_from_vector_round_trip_witness :
  (Z.of_nat (length (reals (R:=Z) [0; 1; 0; 0]%Z))
   <> 2 ^ num_qubits_ (basis (R:=Z) 2 2) ->
   exists msg,
     initialize_from_vector (reals (R:=Z) [0; 1; 0; 0]%Z) (basis (R:=Z) 2 2)
     = Throw msg (basis (R:=Z) 2 2)) /\
  (Z.of_nat (length (reals (R:=Z) [0; 1; 0; 0]%Z))
   = 2 ^ num_qubits_ (basis (R:=Z) 2 2) ->
   initialize_from_vector (reals (R:=Z) [0; 1; 0; 0]%Z) (basis (R:=Z) 2 2)
   = Ok tt (set_data_ (basis (R:=Z) 2 2) (Some (reals (R:=Z) [0; 1; 0; 0]%Z))) /\
   (initialize_from_vector (reals (R:=Z) [0; 1; 0; 0]%Z);;; vector)%M
     (basis (R:=Z) 2 2)
   = Ok (reals (R:=Z) [0; 1; 0; 0]%Z)
        (set_data_ (basis (R:=Z) 2 2) (Some (reals (R:=Z) [0; 1; 0; 0]%Z)))).
Proof.
  apply (initialize_from_vector_round_trip (basis (R:=Z) 2 2)
           (reals (R:=Z) [0; 1; 0; 0]%Z)).
  unfold wf. simpl. repeat split; try lia.
  - eexists. split; [reflexivity|]. reflexivity.
  - intros c Hc. discriminate.
Defined.

(** ** The invariant under gate calls *)

Section Invariant.
Context {R : Type} `{Double R}.

(** X8. A sequence of gate calls that returns keeps the class invariant and
    changes nothing but the contents of the state buffer: the number of
    qubits, the buffer size, the checkpoint buffer and the config settings
    are as before. *)
Theorem gates_keep_invariant
    (DEBUG : bool) (gs : list gate) (s s' : QubitVector R) :
  wf s -> apply_gates DEBUG gs s = Ok tt s' ->
  wf s' /\
  num_qubits_ s' = num_qubits_ s /\ data_size_ s' = data_size_ s /\
  checkpoint_ s' = checkpoint_ s /\
  (omp_threads_ s', omp_threshold_ s',
   sample_measure_index_size_ s', json_chop_threshold_ s')
  = (omp_threads_ s, omp_threshold_ s,
     sample_measure_index_size_ s, json_chop_threshold_ s).
Proof.
  intros (HN & Hsize & (b & Hb & Hlen) & Hck) Hrun.
  apply framed_apply_gates in Hrun as (Hn & Hs & Hc & Ht & Hth & Hi & Hj & Hd).
  rewrite Hb in Hd. destruct (data_ s') as [b'|] eqn:Hb'; [|done].
  split; [|by rewrite Hn, Hs, Hc, Ht, Hth, Hi, Hj].
  unfold wf. rewrite Hn, Hs, Hc. repeat split; try lia; try done.
  exists b'. split; [done | lia].
Qed.

(** X9. In a [DEBUG] build the block loop checks the qubits first: when
    one of them, [q], has [num_qubits_ <= q < 2^64 - 1], the call throws
    before any amplitude is touched, whatever the kernel. The largest
    [uint_t], [2^64 - 1], passes [check_qubit]: the test is
    [qubit + 1 > num_qubits_] and its sum wraps to 0. *)
Theorem apply_lambda_debug_rejects_qubit
    (func : list Z -> M (buffer R) unit) (qubits : list Z) (q : Z)
    (s : QubitVector R) :
  0 <= num_qubits_ s ->
  (q ∈ qubits -> num_qubits_ s <= q < 2 ^ 64 - 1 ->
   exists msg, apply_lambda true func qubits s = Throw msg s) /\
  check_qubit (2 ^ 64 - 1) s = Ok tt s.
Proof.
  intros HN. split.
  2: { unfold check_qubit, bind, get.
       change (wrap64 (2 ^ 64 - 1 + 1)) with 0.
       by rewrite decide_False by lia. }
  intros Hin Hq.
  assert (forall q', (check_qubit q' s = Ok tt s) \/
                     (exists msg, check_qubit q' s = Throw msg s)) as Hcheck.
  { intros q'. unfold check_qubit, bind, get. case_decide; [right | left]; eauto. }
  assert (exists msg, check_qubit q s = Throw msg s) as Hbad.
  { unfold check_qubit, bind, get. rewrite wrap64_small by lia.
    rewrite decide_True by lia. eauto. }
  assert (forall count start,
            (start + count = length qubits)%nat ->
            (exists i, (start <= i)%nat /\ qubits !! i = Some q) ->
            exists msg,
              for_ (fun i => q <- lift (qubits !! i);; check_qubit q)%M
                   start count s = Throw msg s) as Hloop.
  { induction count as [|c IH]; intros start Hlen (i & Hi & Hqi).
    - apply lookup_lt_Some in Hqi. lia.
    - rewrite for__S.
      destruct (lookup_lt_is_Some_2 qubits start ltac:(lia)) as [q' Hq'].
      unfold bind at 1. unfold bind at 1. rewrite Hq'. simpl.
      destruct (decide (i = start)) as [->|Hne].
      + rewrite Hq' in Hqi. injection Hqi as ->.
        destruct Hbad as [msg ->]. eauto.
      + destruct (Hcheck q') as [-> | [msg ->]]; [|eauto].
        apply IH; [lia|]. exists i. split; [lia | done]. }
  apply list_elem_of_lookup_1 in Hin as [i Hi].
  destruct (Hloop (length qubits) 0%nat ltac:(lia)) as [msg Hmsg].
  { exists i. split; [lia | done]. }
  exists msg. unfold apply_lambda. unfold bind at 1. by rewrite Hmsg.
Qed.

(** X10. In a [DEBUG] build [apply_matrix(qubits, mat)] with fewer than 32
    qubits throws when [mat] does not have [4^N] entries, and leaves the
    state as it was. *)
Theorem apply_matrix_debug_rejects_size
    (qubits : list Z) (mat : list (complex_t R)) (s : QubitVector R) :
  Z.of_nat (length qubits) < 32 ->
  Z.of_nat (length mat) <> 4 ^ Z.of_nat (length qubits) ->
  exists msg, apply_matrix true qubits mat s = Throw msg s.
Proof.
  intros HN Hsize. unfold apply_matrix. cbv zeta.
  unfold bind at 1. unfold check_vector, bind.
  rewrite wrap64_small by lia. rewrite BITS_at by lia. simpl.
  replace (2 ^ (2 * Z.of_nat (length qubits))) with (4 ^ Z.of_nat (length qubits)).
  2: { rewrite Z.pow_mul_r by lia. done. }
  rewrite decide_True by done. eauto.
Qed.

(** The allocation of the [4^n] amplitudes of a matrix on [n] qubits: above
    [max_size()] for 30 and 31 qubits; from 32 qubits on the count
    [dst_dim * dst_dim] wraps to 0. *)
Lemma matrix_allocation {St} (n : Z) (s : St) :
  0 <= n < 64 ->
  vector_assign 16 (wrap64 (2 ^ n * 2 ^ n)) (c_zero (R:=R)) s =
    if decide (n = 30 \/ n = 31)
    then Throw "cannot create std::vector larger than max_size()" s
    else Ok (replicate (Z.to_nat (wrap64 (2 ^ n * 2 ^ n))) c_zero) s.
Proof.
  intros Hn. unfold vector_assign.
  change ((2 ^ 63 - 1) / 16) with (2 ^ 59 - 1).
  rewrite <- Z.pow_add_r by lia.
  assert (wrap64 (wrap64 (2 ^ (n + n))) = wrap64 (2 ^ (n + n))) as ->.
  { unfold wrap64. apply Z.mod_mod. lia. }
  destruct (decide (n = 30 \/ n = 31)) as [[-> | ->] | Hne].
  - rewrite decide_True; [done | by vm_compute].
  - rewrite decide_True; [done | by vm_compute].
  - rewrite decide_False; [done|].
    destruct (decide (n <= 29)) as [Hle | Hgt].
    + rewrite wrap64_small.
      * assert (2 ^ (n + n) <= 2 ^ 58) by (apply Z.pow_le_mono_r; lia). lia.
      * split; [lia|]. apply Z.pow_lt_mono_r; lia.
    + unfold wrap64.
      replace (n + n) with (64 + (n + n - 64)) by lia.
      rewrite Z.pow_add_r by lia.
      rewrite Z.mul_comm, Z.mod_mul by lia. lia.
Qed.

(** X11. [expand_matrix] builds the destination matrix before it looks at
    the number of source qubits. For a destination of 30 or 31 qubits the
    allocation of its [4^n] amplitudes is above [max_size()] and the call
    throws [std::length_error], whatever the source. For every other
    destination below 64 qubits, a source whose number of qubits (below 64)
    is neither one nor two throws "Fusion::illegal qubit number:" followed
    by that number. *)
Theorem expand_matrix_rejects_size {St}
    (src dst : list Z) (vmat : list (complex_t R)) (s : St) :
  (length src < 64)%nat -> (length dst < 64)%nat ->
  (length dst = 30%nat \/ length dst = 31%nat ->
   expand_matrix src dst vmat s
   = Throw "cannot create std::vector larger than max_size()" s) /\
  (length dst <> 30%nat -> length dst <> 31%nat ->
   length src <> 1%nat -> length src <> 2%nat ->
   expand_matrix src dst vmat s
   = Throw ("Fusion::illegal qubit number:" +:+
            to_string (Z.of_nat (length src))) s).
Proof.
  intros Hsrc Hdst. split.
  - intros Hbig. unfold expand_matrix.
    unfold bind at 1. rewrite BITS_at by lia. simpl.
    unfold bind at 1. rewrite BITS_at by lia. simpl.
    unfold bind at 1. rewrite matrix_allocation by lia.
    rewrite decide_True by lia. done.
  - intros H30 H31 H1 H2. unfold expand_matrix.
    unfold bind at 1. rewrite BITS_at by lia. simpl.
    unfold bind at 1. rewrite BITS_at by lia. simpl.
    unfold bind at 1. rewrite matrix_allocation by lia.
    rewrite decide_False by lia.
    rewrite decide_False by done. rewrite decide_False by done. done.
Qed.

Lemma is_diagonal_2x2_pure {St} (mat : list (complex_t R)) (s : St) d s' :
  is_diagonal_2x2 mat s = Ok d s' ->
  s' = s /\ forall {St'} (s2 : St'), is_diagonal_2x2 mat s2 = Ok d s2.
Proof.
  unfold is_diagonal_2x2, bind, lift, ret, undefined.
  destruct (at_ mat 1) as [m1|]; [|done].
  destruct (c_eqb_double m1 d_zero).
  - destruct (at_ mat 2) as [m2|]; [|done]. intros [= <- <-]. done.
  - intros [= <- <-]. done.
Qed.

(** X12. For a single qubit [apply_mcu([q], mat)] is
    [apply_matrix(q, mat)]: the diagonal test that [apply_mcu] makes before
    it dispatches and the one that [apply_matrix(q, mat)] makes again agree,
    so both run the same kernel or fail alike. *)
Theorem single_qubit_entry_points_coincide
    (DEBUG : bool) (q : Z) (mat : list (complex_t R)) (s : QubitVector R) :
  apply_mcu DEBUG [q] mat s = apply_matrix_1 DEBUG q mat s.
Proof.
  assert (apply_mcu DEBUG [q] mat s
          = (diagonal <- is_diagonal_2x2 mat;;
             if diagonal : bool
             then (m0 <- lift (at_ mat 0);;
                   m3 <- lift (at_ mat 3);;
                   apply_diagonal_matrix_1 DEBUG q [m0; m3])
             else apply_matrix_1 DEBUG q mat)%M s) as -> by reflexivity.
  unfold apply_matrix_1 at 2. unfold bind at 1 4.
  destruct (is_diagonal_2x2 mat s) as [[] s'| |] eqn:Hd; [done| |done..].
  destruct (is_diagonal_2x2_pure mat s false s' Hd) as [-> Hany].
  unfold apply_matrix_1. unfold bind at 1. by rewrite Hany.
Qed.

End Invariant.

Lemma gates_keep_invariant_witness :
  wf (basis (R:=Z) 2 3) /\
  num_qubits_ (basis (R:=Z) 2 3) = num_qubits_ (basis (R:=Z) 2 2) /\
  data_size_ (basis (R:=Z) 2 3) = data_size_ (basis (R:=Z) 2 2) /\
  checkpoint_ (basis (R:=Z) 2 3) = checkpoint_ (basis (R:=Z) 2 2) /\
  (omp_threads_ (basis (R:=Z) 2 3), omp_threshold_ (basis (R:=Z) 2 3),
   sample_measure_index_size_ (basis (R:=Z) 2 3),
   json_chop_threshold_ (basis (R:=Z) 2 3))
  = (omp_threads_ (basis (R:=Z) 2 2), omp_threshold_ (basis (R:=Z) 2 2),
     sample_measure_index_size_ (basis (R:=Z) 2 2),
     json_chop_threshold_ (basis (R:=Z) 2 2)).
Proof.
  apply (gates_keep_invariant false [Mcx [1; 0]] (basis (R:=Z) 2 2)
           (basis (R:=Z) 2 3)).
  - unfold wf. simpl. repeat split; try lia.
    + eexists. split; [reflexivity|]. reflexivity.
    + intros c Hc. discriminate.
  - vm_compute. reflexivity.
Defined.

Lemma apply_lambda_debug_rejects_qubit_witness :
  (exists msg,
     apply_lambda true (fun _ => ret tt) [0; 5] (basis (R:=Z) 2 2)
     = Throw msg (basis (R:=Z) 2 2)) /\
  check_qubit (2 ^ 64 - 1) (basis (R:=Z) 2 2) = Ok tt (basis (R:=Z) 2 2).
Proof.
  destruct (apply_lambda_debug_rejects_qubit (fun _ => ret tt) [0; 5] 5
              (basis (R:=Z) 2 2)) as [Hthrow Hpass].
  - simpl. lia.
  - split; [|exact Hpass]. apply Hthrow.
    + apply list_elem_of_In. simpl. tauto.
    + simpl. lia.
Defined.

Lemma apply_matrix_debug_rejects_size_witness :
  exists msg,
    apply_matrix true [0; 1] (X_matrix (R:=Z)) (basis (R:=Z) 2 2)
    = Throw msg (basis (R:=Z) 2 2).
Proof.
  apply (apply_matrix_debug_rejects_size [0; 1] (X_matrix (R:=Z))
           (basis (R:=Z) 2 2)).
  - simpl. lia.
  - simpl. lia.
Defined.

Lemma expand_matrix_rejects_size_witness :
  expand_matrix [0] (Z.of_nat <$> seq 0 30) (X_matrix (R:=Z)) tt
  = Throw "cannot create std::vector larger than max_size()" tt /\
  expand_matrix [0; 1; 2] [0; 1; 2] (X_matrix (R:=Z)) tt
  = Throw ("Fusion::illegal qubit number:" +:+
           to_string (Z.of_nat (length [0; 1; 2]))) tt.
Proof.
  split.
  - apply (expand_matrix_rejects_size [0] (Z.of_nat <$> seq 0 30)
             (X_matrix (R:=Z)) tt).
    + simpl. lia.
    + simpl. lia.
    + left. reflexivity.
  - apply (expand_matrix_rejects_size [0; 1; 2] [0; 1; 2] (X_matrix (R:=Z)) tt).
    + simpl. lia.
    + simpl. lia.
    + simpl. lia.
    + simpl. lia.
    + simpl. lia.
    + simpl. lia.
Defined.

(** ** Probabilities, norm and inner product *)

Section Reductions.
Context {R : Type} `{Double R} `{OpenMP}.

(** A loop that folds a step function over the items of a list, one item
    per round. *)
Lemma reduce_loop {Acc X} (s : QubitVector R) (items : list X)
    (step : Acc -> X -> Acc) (body : nat -> Acc -> M (QubitVector R) Acc) :
  (forall k acc x, items !! k = Some x -> body k acc s = Ok (step acc x) s) ->
  forall (count k : nat) (acc : Acc),
    (k + count <= length items)%nat ->
    for_m body k count acc s = Ok (foldl step acc (take count (drop k items))) s.
Proof.
  intros Hbody. induction count as [|c IH]; intros k acc Hk.
  - by rewrite take_0.
  - destruct (lookup_lt_is_Some_2 items k ltac:(lia)) as [x Hx].
    cbn [for_m]. erewrite bind_run by (by apply Hbody).
    rewrite IH by lia. rewrite (drop_S _ _ _ Hx). done.
Qed.

(** A loop that stores [f] of every amplitude in a vector. *)
Lemma gather_loop {A X} (s : QubitVector R) (b : list X)
    (f : X -> A) (body : nat -> list A -> M (QubitVector R) (list A)) :
  (forall j acc a, b !! j = Some a -> (j < length acc)%nat ->
     body j acc s = Ok (<[j := f a]> acc) s) ->
  forall (count k : nat) (acc : list A),
    (k + count <= length b)%nat -> length acc = length b ->
    for_m body k count (take k (map f b) ++ drop k acc) s
    = Ok (take (k + count) (map f b) ++ drop (k + count) acc) s.
Proof.
  intros Hbody. induction count as [|c IH]; intros k acc Hk Hacc.
  - by rewrite Nat.add_0_r.
  - destruct (lookup_lt_is_Some_2 b k ltac:(lia)) as [a Ha].
    cbn [for_m]. erewrite bind_run.
    2: { apply (Hbody k _ a Ha).
         rewrite length_app, length_take, length_drop, length_map. lia. }
    rewrite insert_take_drop.
    2: { rewrite list_lookup_fmap, Ha. done. }
    2: { lia. }
    rewrite IH by lia. by replace (S k + c)%nat with (k + S c)%nat by lia.
Qed.

Lemma foldl_fst_sum {X} (g : X -> R) (items : list X) : forall (acc : R * R),
  foldl (fun acc x => (d_add (fst acc) (g x), snd acc)) acc items
  = (foldl d_add (fst acc) (map g items), snd acc).
Proof.
  induction items as [|x items IH]; intros [re im]; [done|].
  simpl. by rewrite IH.
Qed.

Lemma foldl_pair_sum {X} (g h : X -> R) (items : list X) : forall (acc : R * R),
  foldl (fun acc x => (d_add (fst acc) (g x), d_add (snd acc) (h x))) acc items
  = (foldl d_add (fst acc) (map g items), foldl d_add (snd acc) (map h items)).
Proof.
  induction items as [|x items IH]; intros [re im]; [done|].
  simpl. by rewrite IH.
Qed.

Lemma probabilities_run (s : QubitVector R) (b : list (complex_t R)) :
  wf s -> data_ s = Some b ->
  probabilities s = Ok (map (fun a => real (c_mul a (conj a))) b) s.
Proof.
  intros (HN & Hsize & (b0 & Hb0 & Hlen) & _) Hb.
  rewrite Hb in Hb0. injection Hb0 as <-.
  destruct s as [nq ds d c ot oth smi jct]. simpl in *. subst d ds.
  pose proof (pow2_bound_59 nq ltac:(lia)) as Hpow.
  set (s := {| num_qubits_ := nq; data_size_ := 2 ^ nq; data_ := Some b;
               checkpoint_ := c; omp_threads_ := ot; omp_threshold_ := oth;
               sample_measure_index_size_ := smi; json_chop_threshold_ := jct |}).
  assert (forall j a, b !! j = Some a -> on_data (rd (Z.of_nat j)) s = Ok a s)
    as Hrd.
  { intros j a Ha. rewrite (on_data_rd s b j a) by done. reflexivity. }
  unfold probabilities. unfold bind at 1. unfold get at 1.
  erewrite bind_run
    by (apply vector_assign_granted; simpl;
        pose proof (pow2_bound_58 nq ltac:(lia)); lia).
  simpl.
  rewrite to_int64_small by lia.
  replace (Z.to_nat (2 ^ nq)) with (length b) by lia.
  pose proof (gather_loop s b (fun a => real (c_mul a (conj a)))
                (fun j probs => p <- probability (Z.of_nat j);;
                                lift (upd probs (Z.of_nat j) p))%M) as Hloop.
  specialize (Hloop ltac:(
    intros j acc a Ha Hj; unfold probability;
    erewrite bind_run by (erewrite bind_run by (by apply Hrd); reflexivity);
    by rewrite upd_of_nat)).
  specialize (Hloop (length b) 0%nat (replicate (length b) d_zero)
                ltac:(lia) ltac:(by rewrite length_replicate)).
  rewrite take_0, drop_0 in Hloop. simpl in Hloop.
  rewrite take_ge, drop_ge, app_nil_r in Hloop
    by (rewrite ?length_map, ?length_replicate; lia).
  exact Hloop.
Qed.

Lemma norm_run (s : QubitVector R) (b : list (complex_t R)) :
  wf s -> data_ s = Some b -> omp_parallel s = false ->
  norm s = Ok (sum_left (map (fun a => real (c_mul a (conj a))) b)) s.
Proof.
  intros (HN & Hsize & (b0 & Hb0 & Hlen) & _) Hb Hseq.
  rewrite Hb in Hb0. injection Hb0 as <-.
  destruct s as [nq ds d c ot oth smi jct].
  unfold omp_parallel in Hseq. simpl in *. subst d ds.
  pose proof (pow2_bound_59 nq ltac:(lia)) as Hpow.
  set (s := {| num_qubits_ := nq; data_size_ := 2 ^ nq; data_ := Some b;
               checkpoint_ := c; omp_threads_ := ot; omp_threshold_ := oth;
               sample_measure_index_size_ := smi; json_chop_threshold_ := jct |}).
  assert (forall j a, b !! j = Some a -> on_data (rd (Z.of_nat j)) s = Ok a s)
    as Hrd.
  { intros j a Ha. rewrite (on_data_rd s b j a) by done. reflexivity. }
  unfold norm, apply_reduction_lambda_all.
  erewrite bind_run.
  2: { unfold bind at 1. unfold get at 1. unfold omp_parallel. simpl.
       rewrite Hseq.
       rewrite to_int64_small by lia.
       replace (Z.to_nat (2 ^ nq)) with (length b) by lia.
       erewrite bind_run; [reflexivity|].
       apply (reduce_loop s b
                (fun acc a => (d_add (fst acc) (real (c_mul a (conj a))), snd acc))).
       - intros k acc a Ha. erewrite bind_run by (by apply Hrd). reflexivity.
       - lia. }
  rewrite drop_0, firstn_all, foldl_fst_sum. reflexivity.
Qed.

(** X13. On a state that satisfies the class invariant, [probabilities()]
    returns the [2^N] values [real(a[j] * conj(a[j]))] in index order; when
    the reduction is not run in parallel (the [if] clause
    [num_qubits_ > omp_threshold_ && omp_threads_ > 1] is false), [norm()]
    returns their sum added from left to right starting at 0, as the same
    double; neither changes the state. *)
Theorem probabilities_sum_to_norm (s : QubitVector R) (b : list (complex_t R)) :
  wf s -> data_ s = Some b -> omp_parallel s = false ->
  exists probs : list R,
    probabilities s = Ok probs s /\
    Z.of_nat (length probs) = 2 ^ num_qubits_ s /\
    (forall j a, b !! j = Some a -> probs !! j = Some (real (c_mul a (conj a)))) /\
    norm s = Ok (sum_left probs) s.
Proof.
  intros Hwf Hb Hseq. eexists. split; [by apply probabilities_run|].
  split; [|split; [|by apply norm_run]].
  - destruct Hwf as (_ & Hsize & (b0 & Hb0 & Hlen) & _).
    rewrite Hb in Hb0. injection Hb0 as <-. rewrite length_map. congruence.
  - intros j a Ha. by rewrite list_lookup_fmap, Ha.
Qed.

(** X14. The inner product of a state with its checkpoint, both of [2^N]
    amplitudes, when the reduction is not run in parallel (the [if] clause
    [num_qubits_ > omp_threshold_ && omp_threads_ > 1] is false): the sums,
    added from left to right starting at 0, of the real and of the
    imaginary parts of [a[k] * conj(c[k])]; the state is not changed. When
    the checkpoint holds the amplitudes of the state itself, as after
    [checkpoint()], the real part is the double that [norm()] returns. *)
Theorem inner_product_with_checkpoint
    (DEBUG : bool) (s : QubitVector R) (b cb : list (complex_t R)) :
  wf s -> data_ s = Some b -> checkpoint_ s = Some cb ->
  omp_parallel s = false ->
  inner_product DEBUG s
  = Ok (Complex
          (sum_left (map (fun p => real (c_mul (fst p) (conj (snd p)))) (zip b cb)))
          (sum_left (map (fun p => imag (c_mul (fst p) (conj (snd p)))) (zip b cb))))
       s /\
  (cb = b ->
   exists nrm im, inner_product DEBUG s = Ok (Complex nrm im) s /\
                  norm s = Ok nrm s).
Proof.
  intros Hwf Hb Hcb Hseq.
  assert (inner_product DEBUG s
          = Ok (Complex
                  (sum_left (map (fun p => real (c_mul (fst p) (conj (snd p)))) (zip b cb)))
                  (sum_left (map (fun p => imag (c_mul (fst p) (conj (snd p)))) (zip b cb))))
               s) as Hip.
  { pose proof Hwf as (HN & Hsize & (b0 & Hb0 & Hlen) & Hck).
    rewrite Hb in Hb0. injection Hb0 as <-.
    specialize (Hck cb Hcb).
    destruct s as [nq ds d c ot oth smi jct].
    unfold omp_parallel in Hseq. simpl in *. subst d ds c.
    pose proof (pow2_bound_59 nq ltac:(lia)) as Hpow.
    set (s := {| num_qubits_ := nq; data_size_ := 2 ^ nq; data_ := Some b;
                 checkpoint_ := Some cb; omp_threads_ := ot; omp_threshold_ := oth;
                 sample_measure_index_size_ := smi; json_chop_threshold_ := jct |}).
    unfold inner_product.
    erewrite bind_run.
    2: { instantiate (1 := s). instantiate (1 := tt). by destruct DEBUG. }
    unfold apply_reduction_lambda_all.
    unfold bind at 1. unfold get at 1. unfold omp_parallel. simpl.
    rewrite Hseq.
    rewrite to_int64_small by lia.
    replace (Z.to_nat (2 ^ nq)) with (length (zip b cb)).
    2: { rewrite length_zip_with. lia. }
    erewrite bind_run.
    2: { apply (reduce_loop s (zip b cb)
                  (fun acc p =>
                     (d_add (fst acc) (real (c_mul (fst p) (conj (snd p)))),
                      d_add (snd acc) (imag (c_mul (fst p) (conj (snd p))))))).
         - intros k acc [a a'] Hk.
           apply lookup_zip_with_Some in Hk as (x & y & [= <- <-] & Hx & Hy).
           erewrite bind_run by exact (on_data_rd s b k a eq_refl Hx).
           erewrite bind_run by exact (on_checkpoint_rd s cb k a' eq_refl Hy).
           reflexivity.
         - lia. }
    rewrite drop_0, firstn_all, foldl_pair_sum. reflexivity. }
  split; [exact Hip|].
  intros ->. eexists _, _. split; [exact Hip|].
  rewrite (norm_run s b Hwf Hb Hseq). f_equal. unfold sum_left. f_equal.
  clear. induction b as [|a b IH]; [done|]. simpl. f_equal. exact IH.
Qed.

End Reductions.

Lemma probabilities_sum_to_norm_witness :
  exists probs : list Z,
    probabilities (basis (R:=Z) 2 2) = Ok probs (basis (R:=Z) 2 2) /\
    Z.of_nat (length probs) = 2 ^ num_qubits_ (basis (R:=Z) 2 2) /\
    (forall j a, reals (R:=Z) [0; 0; 1; 0]%Z !! j = Some a ->
                 probs !! j = Some (real (c_mul a (conj a)))) /\
    norm (basis (R:=Z) 2 2) = Ok (sum_left probs) (basis (R:=Z) 2 2).
Proof.
  apply (probabilities_sum_to_norm (basis (R:=Z) 2 2)
           (reals (R:=Z) [0; 0; 1; 0]%Z)).
  - unfold wf. simpl. repeat split; try lia.
    + eexists. split; [reflexivity|]. reflexivity.
    + intros c Hc. discriminate.
  - reflexivity.
  - reflexivity.
Defined.

Lemma inner_product_with_checkpoint_witness :
  inner_product false
    (set_checkpoint_ (basis (R:=Z) 2 2) (Some (reals (R:=Z) [0; 0; 1; 0]%Z)))
  = Ok (Complex
          (sum_left (map (fun p => real (c_mul (fst p) (conj (snd p))))
                       (zip (reals (R:=Z) [0; 0; 1; 0]%Z)
                            (reals (R:=Z) [0; 0; 1; 0]%Z))))
          (sum_left (map (fun p => imag (c_mul (fst p) (conj (snd p))))
                       (zip (reals (R:=Z) [0; 0; 1; 0]%Z)
                            (reals (R:=Z) [0; 0; 1; 0]%Z)))))
       (set_checkpoint_ (basis (R:=Z) 2 2) (Some (reals (R:=Z) [0; 0; 1; 0]%Z))) /\
  (reals (R:=Z) [0; 0; 1; 0]%Z = reals (R:=Z) [0; 0; 1; 0]%Z ->
   exists nrm im,
     inner_product false
       (set_checkpoint_ (basis (R:=Z) 2 2) (Some (reals (R:=Z) [0; 0; 1; 0]%Z)))
     = Ok (Complex nrm im)
          (set_checkpoint_ (basis (R:=Z) 2 2) (Some (reals (R:=Z) [0; 0; 1; 0]%Z))) /\
     norm (set_checkpoint_ (basis (R:=Z) 2 2) (Some (reals (R:=Z) [0; 0; 1; 0]%Z)))
     = Ok nrm
          (set_checkpoint_ (basis (R:=Z) 2 2) (Some (reals (R:=Z) [0; 0; 1; 0]%Z)))).
Proof.
  apply (inner_product_with_checkpoint false
           (set_checkpoint_ (basis (R:=Z) 2 2) (Some (reals (R:=Z) [0; 0; 1; 0]%Z)))
           (reals (R:=Z) [0; 0; 1; 0]%Z) (reals (R:=Z) [0; 0; 1; 0]%Z)).
  - unfold wf. simpl. repeat split; try lia.
    + eexists. split; [reflexivity|]. reflexivity.
    + intros c Hc. injection Hc as <-. reflexivity.
  - reflexivity.
  - reflexivity.
  - reflexivity.
Defined.

(** The hypothesis on the [if] clause is needed. In binary64, with two
    threads, threshold 1 and the static schedule, the reduction of [norm()]
    over the four squared moduli [2^53, 1, 1, 1] adds [2^53 + 1] and
    [1 + 1] apart and returns [2^53 + 2]; their sum from left to right,
    the sum of [probabilities()], is [2^53]. *)
Example norm_parallel_binary64 :
  norm {| num_qubits_ := 2; data_size_ := 4;
          data_ := Some [Complex 67108864 67108864; c_one; c_one; c_one]%float;
          checkpoint_ := None; omp_threads_ := 2; omp_threshold_ := 1;
          sample_measure_index_size_ := 10; json_chop_threshold_ := 0%float |}
  = Ok 9007199254740994%float
       {| num_qubits_ := 2; data_size_ := 4;
          data_ := Some [Complex 67108864 67108864; c_one; c_one; c_one]%float;
          checkpoint_ := None; omp_threads_ := 2; omp_threshold_ := 1;
          sample_measure_index_size_ := 10; json_chop_threshold_ := 0%float |} /\
  sum_left [9007199254740992; 1; 1; 1]%float = 9007199254740992%float.
Proof. split; vm_compute; reflexivity. Qed.

(** ** The block loop as a fold *)

Lemma sort_insert_perm (x : Z) (l : list Z) : sort_insert x l ≡ₚ x :: l.
Proof.
  induction l as [|y l IH]; simpl; [done|].
  case_decide; [done|]. rewrite IH. apply Permutation_swap.
Qed.

Lemma std_sort_perm (l : list Z) : std_sort l ≡ₚ l.
Proof.
  induction l as [|x l IH]; simpl; [done|].
  fold (std_sort l). by rewrite sort_insert_perm, IH.
Qed.

Lemma sort_insert_sorted (x : Z) (l : list Z) :
  StronglySorted Z.lt l -> x ∉ l -> StronglySorted Z.lt (sort_insert x l).
Proof.
  induction l as [|y l IH]; intros Hs Hx; simpl.
  - repeat constructor.
  - apply StronglySorted_inv in Hs as [Hs Hy].
    apply not_elem_of_cons in Hx as [Hne Hx].
    case_decide.
    + constructor; [by constructor|]. constructor; [lia|].
      eapply Forall_impl; [exact Hy|]. simpl; intros; lia.
    + constructor; [by apply IH|]. rewrite sort_insert_perm.
      constructor; [lia | done].
Qed.

Lemma std_sort_sorted (l : list Z) : NoDup l -> StronglySorted Z.lt (std_sort l).
Proof.
  induction 1 as [|x l Hx Hnd IH]; simpl; [constructor|].
  fold (std_sort l). apply sort_insert_sorted; [done|]. by rewrite std_sort_perm.
Qed.

(** Distinct qubits below [N] are at most [N]. *)
Lemma NoDup_range_length (N : Z) (l : list Z) :
  NoDup l -> Forall (fun q => 0 <= q < N) l -> Z.of_nat (length l) <= Z.max 0 N.
Proof.
  intros Hnd Hr.
  assert (l ⊆+ Z.of_nat <$> seq 0 (Z.to_nat N)) as Hsub.
  { apply NoDup_submseteq; [done|]. intros x Hx.
    rewrite Forall_forall in Hr. specialize (Hr x Hx).
    apply list_elem_of_fmap. exists (Z.to_nat x). split; [lia|].
    apply elem_of_seq. lia. }
  apply submseteq_length in Hsub. rewrite length_fmap, length_seq in Hsub. lia.
Qed.

Lemma length_bind_const {A B} (f : A -> list B) (n : nat) (l : list A) :
  (forall x, x ∈ l -> length (f x) = n) -> length (l ≫= f) = (length l * n)%nat.
Proof.
  induction l as [|x l IH]; intros Hf; [done|].
  change ((x :: l) ≫= f) with (f x ++ (l ≫= f)).
  rewrite length_app, IH, Hf; [simpl; lia | by left |].
  intros y Hy. apply Hf. by right.
Qed.

Section Partition.
Variables (N : Z) (Q Qu : list Z).
Hypothesis HN : 0 <= N <= 63.
Hypothesis Hsorted : StronglySorted Z.lt Q.
Hypothesis Hrange : Forall (fun q => 0 <= q < N) Q.
Hypothesis Hperm : Qu ≡ₚ Q.

Lemma blocks_length_le : Z.of_nat (length Q) <= N.
Proof using HN Hsorted Hrange.
  pose proof (NoDup_range_length N Q (StronglySorted_lt_NoDup Q Hsorted) Hrange).
  lia.
Qed.

(** The table of the counter [k]. *)
Lemma blocks_table {St} (s : St) (k : Z) :
  (length Q <= 59)%nat ->
  0 <= k < 2 ^ (N - Z.of_nat (length Q)) ->
  indexes Qu Q k s = Ok (index_table Qu (insert_zero_bits Q k) (length Q)) s.
Proof using HN Hsorted Hrange Hperm.
  intros H59 Hk. pose proof blocks_length_le as HM.
  destruct (index0_loop_spec Q k (N - Z.of_nat (length Q))) as [H0 Hb];
    try done; try lia.
  { eapply Forall_impl; [exact Hrange|]. simpl. intros. lia. }
  apply indexes_spec; try done; try lia.
  - by rewrite Hperm.
  - rewrite Hperm. eapply Forall_impl; [exact Hrange|]. simpl. intros. lia.
Qed.

Lemma blocks_table_lookup (k : Z) (i : nat) :
  (i < 2 ^ length Q)%nat ->
  index_table Qu (insert_zero_bits Q k) (length Q) !! i
  = Some (set_qubit_bits 0 Qu (Z.of_nat i) (insert_zero_bits Q k)).
Proof using Hperm.
  intros Hi. rewrite index_table_lookup by done.
  by rewrite take_ge by (by rewrite Hperm).
Qed.

Lemma blocks_base_range (k : Z) :
  0 <= k < 2 ^ (N - Z.of_nat (length Q)) -> 0 <= insert_zero_bits Q k < 2 ^ N.
Proof using HN Hsorted Hrange.
  intros Hk. pose proof blocks_length_le as HM.
  destruct (index0_loop_spec Q k (N - Z.of_nat (length Q))) as [H0 Hb];
    try done; try lia.
  { eapply Forall_impl; [exact Hrange|]. simpl. intros. lia. }
  by replace (N - Z.of_nat (length Q) + Z.of_nat (length Q)) with N in Hb by lia.
Qed.

(** Every entry is an index of the buffer. *)
Lemma blocks_range (k i : Z) :
  0 <= k < 2 ^ (N - Z.of_nat (length Q)) ->
  0 <= set_qubit_bits 0 Qu i (insert_zero_bits Q k) < 2 ^ N.
Proof using HN Hsorted Hrange Hperm.
  intros Hk. pose proof (blocks_base_range k Hk) as Hb.
  pose proof (blocks_Qu_nonneg N Q Qu Hrange Hperm) as HQu.
  split; [apply set_qubit_bits_nonneg; [done | lia]|].
  apply below_pow2_of_bits; [apply set_qubit_bits_nonneg; [done | lia] | lia |].
  intros b Hb'.
  rewrite (blocks_entry_bit_outside N Q Qu Hrange Hperm) by
    (lia || (intros Hin; rewrite Forall_forall in Hrange;
             specialize (Hrange b Hin); lia)).
  by apply (above_pow2_bits _ N).
Qed.

(** An entry determines its counter and its position in the table. *)
Lemma blocks_inj (k k' : Z) (i i' : nat) :
  0 <= k -> 0 <= k' -> (i < 2 ^ length Q)%nat -> (i' < 2 ^ length Q)%nat ->
  set_qubit_bits 0 Qu (Z.of_nat i) (insert_zero_bits Q k)
  = set_qubit_bits 0 Qu (Z.of_nat i') (insert_zero_bits Q k') ->
  k = k' /\ i = i'.
Proof using Hsorted Hrange Hperm.
  intros Hk Hk' Hi Hi' Heq.
  pose proof (blocks_Q_nonneg N Q Hrange) as HQ0.
  assert (k = k') as <-.
  { apply (insert_zero_bits_inj Q); try done.
    apply Z.bits_inj'. intros b Hb.
    destruct (decide (b ∈ Q)) as [Hin|Hnot].
    - rewrite !insert_zero_bits_testbit by (done || lia).
      by rewrite !decide_True by done.
    - rewrite <- (blocks_entry_bit_outside N Q Qu Hrange Hperm _ (Z.of_nat i) b Hb Hnot).
      rewrite <- (blocks_entry_bit_outside N Q Qu Hrange Hperm (insert_zero_bits Q k')
                    (Z.of_nat i') b Hb Hnot).
      congruence. }
  split; [done|].
  apply Nat2Z.inj. apply Z.bits_inj'. intros j Hj.
  destruct (decide (j < Z.of_nat (length Q))) as [Hlt|Hge].
  - assert (length Qu = length Q) as Hlen by (by rewrite Hperm).
    destruct (lookup_lt_is_Some_2 Qu (Z.to_nat j) ltac:(lia)) as [b Hb].
    pose proof (blocks_entry_bit_at N Q Qu Hsorted Hrange Hperm k (Z.of_nat i) _ b
                  ltac:(lia) Hb) as H1.
    pose proof (blocks_entry_bit_at N Q Qu Hsorted Hrange Hperm k (Z.of_nat i') _ b
                  ltac:(lia) Hb) as H2.
    rewrite Z2Nat.id in H1, H2 by lia. congruence.
  - rewrite (above_pow2_bits (Z.of_nat i) (Z.of_nat (length Q))),
      (above_pow2_bits (Z.of_nat i') (Z.of_nat (length Q))); try done; try lia.
    + rewrite <- of_nat_pow2. lia.
    + rewrite <- of_nat_pow2. lia.
Qed.

(** Every index of the buffer is an entry of some table: the tables of the
    counters [0 .. 2^(N-n) - 1] partition the indices. *)
Lemma blocks_cover (x : Z) :
  0 <= x < 2 ^ N ->
  exists k i : nat,
    (k < Z.to_nat (2 ^ (N - Z.of_nat (length Q))))%nat /\
    (i < 2 ^ length Q)%nat /\
    x = set_qubit_bits 0 Qu (Z.of_nat i) (insert_zero_bits Q (Z.of_nat k)).
Proof using HN Hsorted Hrange Hperm.
  intros Hx. pose proof blocks_length_le as HM.
  set (K := Z.to_nat (2 ^ (N - Z.of_nat (length Q)))).
  set (tab := fun k : nat =>
                index_table Qu (insert_zero_bits Q (Z.of_nat k)) (length Q)).
  set (all := seq 0 K ≫= tab).
  assert (forall k y, k ∈ seq 0 K -> y ∈ tab k ->
            exists i : nat, (i < 2 ^ length Q)%nat /\
              y = set_qubit_bits 0 Qu (Z.of_nat i) (insert_zero_bits Q (Z.of_nat k)))
    as Htab.
  { intros k y Hk [i Hy]%list_elem_of_lookup_1.
    assert (i < 2 ^ length Q)%nat as Hi.
    { apply lookup_lt_Some in Hy. unfold tab in Hy.
      by rewrite index_table_length in Hy. }
    exists i. split; [done|]. unfold tab in Hy.
    rewrite blocks_table_lookup in Hy by done. congruence. }
  assert (NoDup all) as Hnd.
  { apply NoDup_bind; [| |apply NoDup_seq].
    - intros k k' y Hk Hk' Hy Hy'.
      destruct (Htab k y Hk Hy) as (i & Hi & ->).
      destruct (Htab k' _ Hk' Hy') as (i' & Hi' & Heq).
      apply Nat2Z.inj. eapply blocks_inj; [| | | |exact Heq]; (done || lia).
    - intros k Hk. apply NoDup_alt. intros i i' y Hy Hy'.
      assert (i < 2 ^ length Q)%nat as Hi.
      { apply lookup_lt_Some in Hy. unfold tab in Hy.
        by rewrite index_table_length in Hy. }
      assert (i' < 2 ^ length Q)%nat as Hi'.
      { apply lookup_lt_Some in Hy'. unfold tab in Hy'.
        by rewrite index_table_length in Hy'. }
      unfold tab in Hy, Hy'. rewrite blocks_table_lookup in Hy, Hy' by done.
      eapply (blocks_inj (Z.of_nat k) (Z.of_nat k)); [| | | |congruence];
        (done || lia). }
  assert (length all = Z.to_nat (2 ^ N)) as Hlen.
  { unfold all. rewrite (length_bind_const tab (2 ^ length Q)).
    2: { intros k _. apply index_table_length. }
    rewrite length_seq. unfold K. apply Nat2Z.inj.
    rewrite Nat2Z.inj_mul, of_nat_pow2, !Z2Nat.id by lia.
    rewrite <- Z.pow_add_r by lia. f_equal. lia. }
  assert (all ≡ₚ Z.of_nat <$> seq 0 (Z.to_nat (2 ^ N))) as Hall.
  { apply submseteq_length_Permutation.
    - apply NoDup_submseteq; [done|]. intros y Hy.
      apply list_elem_of_bind in Hy as (k & Hy & Hk).
      destruct (Htab k y Hk Hy) as (i & Hi & ->).
      apply elem_of_seq in Hk.
      pose proof (blocks_range (Z.of_nat k) (Z.of_nat i) ltac:(lia)) as Hr.
      apply list_elem_of_fmap.
      exists (Z.to_nat (set_qubit_bits 0 Qu (Z.of_nat i)
                          (insert_zero_bits Q (Z.of_nat k)))).
      split; [lia|]. apply elem_of_seq. lia.
    - rewrite length_fmap, length_seq. lia. }
  assert (x ∈ all) as Hin.
  { rewrite Hall. apply list_elem_of_fmap. exists (Z.to_nat x).
    split; [lia|]. apply elem_of_seq. lia. }
  apply list_elem_of_bind in Hin as (k & Hy & Hk).
  destruct (Htab k x Hk Hy) as (i & Hi & ->).
  apply elem_of_seq in Hk. exists k, i. repeat split; (done || lia).
Qed.

End Partition.

(** X15. Every index of the buffer is an entry of the index table of some
    counter: with X3, the tables of the counters [0 .. 2^(N-n) - 1]
    partition the indices [0 .. 2^N - 1], so the block loop visits every
    amplitude in exactly one iteration. *)
Theorem indexes_tables_cover {St} (N : Z) (Q Qu : list Z) (x : Z) (s : St) :
  0 <= N <= 63 ->
  (length Q <= 59)%nat ->
  StronglySorted Z.lt Q ->
  Forall (fun q => 0 <= q < N) Q ->
  Qu ≡ₚ Q ->
  0 <= x < 2 ^ N ->
  exists (k : Z) (T : list Z),
    0 <= k < 2 ^ (N - Z.of_nat (length Q)) /\
    indexes Qu Q k s = Ok T s /\ x ∈ T.
Proof.
  intros HN H59 Hs HQ Hperm Hx.
  destruct (blocks_cover N Q Qu HN Hs HQ Hperm x Hx) as (k & i & Hk & Hi & ->).
  assert (0 <= Z.of_nat k < 2 ^ (N - Z.of_nat (length Q))) as Hk' by lia.
  exists (Z.of_nat k). eexists. split; [done|].
  split; [by apply (blocks_table N Q Qu HN Hs HQ Hperm)|].
  eapply list_elem_of_lookup_2. by apply (blocks_table_lookup Q Qu Hperm).
Qed.

Lemma indexes_tables_cover_witness :
  exists (k : Z) (T : list Z),
    0 <= k < 2 ^ (9 - Z.of_nat (length [1; 4])) /\
    indexes [4; 1] [1; 4] k tt = Ok T tt /\ 313 ∈ T.
Proof.
  apply (indexes_tables_cover 9 [1; 4] [4; 1] 313 tt).
  - lia.
  - simpl. lia.
  - repeat constructor.
  - repeat constructor; lia.
  - apply Permutation_swap.
  - lia.
Defined.

(** [block_entry qubits k i] is entry [i] of the table that the block loop
    computes for the counter [k]. *)
Lemma indexes_block_entry {St}
    (N : Z) (qubits : list Z) (k : Z) (i : nat) (s : St) :
  0 <= N <= 63 -> (length qubits <= 59)%nat ->
  NoDup qubits -> Forall (fun q => 0 <= q < N) qubits ->
  0 <= k < 2 ^ (N - Z.of_nat (length qubits)) -> (i < 2 ^ length qubits)%nat ->
  exists T : list Z,
    indexes qubits (std_sort qubits) k s = Ok T s /\
    T !! i = Some (block_entry qubits k (Z.of_nat i)).
Proof.
  intros HN H59 Hnd Hr Hk Hi.
  pose proof (std_sort_sorted qubits Hnd) as Hs.
  assert (qubits ≡ₚ std_sort qubits) as Hperm by (by rewrite std_sort_perm).
  assert (Forall (fun q => 0 <= q < N) (std_sort qubits)) as Hr'.
  { by rewrite std_sort_perm. }
  assert (length (std_sort qubits) = length qubits) as Hlq.
  { by rewrite std_sort_perm. }
  eexists. split.
  - apply (blocks_table N _ _ HN Hs Hr' Hperm); by rewrite Hlq.
  - apply (blocks_table_lookup _ _ Hperm). by rewrite Hlq.
Qed.

Section Pair_updates.
Context {A : Type}.

Lemma pair_update_length (f g : A -> A -> A) (p q : nat) (b : list A) :
  length (pair_update f g p q b) = length b.
Proof.
  unfold pair_update. destruct (b !! p), (b !! q); by rewrite ?length_insert.
Qed.

Lemma pair_update_lookup (f g : A -> A -> A) (p q x : nat) (b : list A) a c :
  p <> q -> b !! p = Some a -> b !! q = Some c ->
  pair_update f g p q b !! x
  = if decide (x = p) then Some (f a c)
    else if decide (x = q) then Some (g a c) else b !! x.
Proof.
  intros Hpq Ha Hc. unfold pair_update. rewrite Ha, Hc.
  pose proof (lookup_lt_Some _ _ _ Ha). pose proof (lookup_lt_Some _ _ _ Hc).
  destruct (decide (x = q)) as [->|Hxq].
  - rewrite list_lookup_insert_eq by (rewrite length_insert; lia).
    by rewrite decide_False by done.
  - rewrite list_lookup_insert_ne by done. case_decide as Hxp.
    + subst. by rewrite list_lookup_insert_eq by lia.
    + by rewrite list_lookup_insert_ne by done.
Qed.

(** Updating the pairs [(p k, q k)] one key after the other, when no
    index occurs in two pairs. *)
Lemma pair_updates_lookup (f g : A -> A -> A) (p q : nat -> nat) (ks : list nat) :
  forall b : list A,
  NoDup ks ->
  (forall k k', k ∈ ks -> k' ∈ ks -> p k = p k' -> k = k') ->
  (forall k k', k ∈ ks -> k' ∈ ks -> q k = q k' -> k = k') ->
  (forall k k', k ∈ ks -> k' ∈ ks -> p k <> q k') ->
  length (foldl (fun b k => pair_update f g (p k) (q k) b) b ks) = length b /\
  (forall k a c, k ∈ ks -> b !! p k = Some a -> b !! q k = Some c ->
     foldl (fun b k => pair_update f g (p k) (q k) b) b ks !! p k = Some (f a c) /\
     foldl (fun b k => pair_update f g (p k) (q k) b) b ks !! q k = Some (g a c)) /\
  (forall x, (forall k, k ∈ ks -> x <> p k /\ x <> q k) ->
     foldl (fun b k => pair_update f g (p k) (q k) b) b ks !! x = b !! x).
Proof.
  induction ks as [|k0 ks IH]; intros b Hnd Hp Hq Hpq.
  - simpl. split; [done|]. split; [|done].
    intros k a c Hk. by apply elem_of_nil in Hk.
  - apply NoDup_cons in Hnd as [Hk0 Hnd]. simpl.
    destruct (IH (pair_update f g (p k0) (q k0) b) Hnd) as (IHlen & IHpair & IHout).
    { intros k k' Hk Hk'. apply Hp; by right. }
    { intros k k' Hk Hk'. apply Hq; by right. }
    { intros k k' Hk Hk'. apply Hpq; by right. }
    assert (forall k, k ∈ ks -> k <> k0) as Hne.
    { intros k Hk ->. done. }
    assert (forall k, k ∈ ks ->
              p k <> p k0 /\ p k <> q k0 /\ q k <> p k0 /\ q k <> q k0) as Hapart.
    { intros k Hk. repeat split; intros Heq.
      - apply (Hne k Hk). apply Hp; [by right | by left | done].
      - apply (Hpq k k0); [by right | by left | done].
      - apply (Hpq k0 k); [by left | by right | done].
      - apply (Hne k Hk). apply Hq; [by right | by left | done]. }
    assert (p k0 <> q k0) as Hpq0 by (apply Hpq; by left).
    split; [by rewrite IHlen, pair_update_length|]. split.
    + intros k a c [->|Hk]%elem_of_cons Ha Hc.
      * split.
        -- rewrite IHout.
           2: { intros k Hk. destruct (Hapart k Hk) as (?&?&?&?). done. }
           rewrite (pair_update_lookup f g _ _ _ b a c) by done.
           by rewrite decide_True by done.
        -- rewrite IHout.
           2: { intros k Hk. destruct (Hapart k Hk) as (?&?&?&?). done. }
           rewrite (pair_update_lookup f g _ _ _ b a c) by done.
           rewrite decide_False by done. by rewrite decide_True by done.
      * destruct (Hapart k Hk) as (H1 & H2 & H3 & H4).
        apply IHpair; [done| |].
        -- unfold pair_update.
           destruct (b !! p k0), (b !! q k0); try done.
           by rewrite !list_lookup_insert_ne by done.
        -- unfold pair_update.
           destruct (b !! p k0), (b !! q k0); try done.
           by rewrite !list_lookup_insert_ne by done.
    + intros x Hx. rewrite IHout.
      2: { intros k Hk. apply Hx. by right. }
      destruct (Hx k0 ltac:(left)) as [Hx1 Hx2].
      unfold pair_update.
      destruct (b !! p k0), (b !! q k0); try done.
      by rewrite !list_lookup_insert_ne by done.
Qed.

End Pair_updates.

Section Block_loop.
Context {R : Type} `{Double R}.

(** The DEBUG loop of [apply_lambda] passes when the qubits are in range. *)
Lemma check_qubits_pass (qubits : list Z) (s : QubitVector R) :
  num_qubits_ s <= 63 -> Forall (fun q => 0 <= q < num_qubits_ s) qubits ->
  forall count start : nat, (start + count <= length qubits)%nat ->
  for_ (fun i => q <- lift (qubits !! i);; check_qubit q)%M start count s = Ok tt s.
Proof.
  intros HN Hr. induction count as [|c IH]; intros start Hc; [done|].
  rewrite for__S.
  destruct (lookup_lt_is_Some_2 qubits start ltac:(lia)) as [q Hq].
  pose proof (Forall_lookup_1 _ _ _ _ Hr Hq) as Hq'. simpl in Hq'.
  erewrite bind_run.
  2: { rewrite Hq. unfold lift, bind, ret, check_qubit, bind, get.
       rewrite wrap64_small by lia. rewrite decide_False by lia. reflexivity. }
  apply IH. lia.
Qed.

(** The loop over the blocks, for a kernel that runs without error on
    every table and amounts to the function [step k] on the buffer. *)
Lemma block_loop (func : list Z -> M (buffer R) unit)
    (step : nat -> list (complex_t R) -> list (complex_t R))
    (qubits : list Z) (s : QubitVector R) (len K : nat) :
  (forall (k : nat) (b' : list (complex_t R)), (k < K)%nat -> length b' = len ->
     exists T, (forall s' : QubitVector R,
                  indexes qubits (std_sort qubits) (Z.of_nat k) s' = Ok T s') /\
               func T b' = Ok tt (step k b') /\ length (step k b') = len) ->
  forall (count start : nat) (b' : list (complex_t R)),
    (start + count <= K)%nat -> length b' = len ->
    for_ (fun k => inds <- indexes qubits (std_sort qubits) (Z.of_nat k);;
                   on_data (func inds))%M
         start count (set_data_ s (Some b'))
    = Ok tt (set_data_ s (Some (foldl (fun b k => step k b) b' (seq start count)))).
Proof.
  intros Hker. induction count as [|c IH]; intros start b' Hc Hlen; [done|].
  rewrite for__S.
  destruct (Hker start b' ltac:(lia) Hlen) as (T & HT & Hf & Hlen').
  erewrite bind_run.
  2: { erewrite bind_run by apply HT.
       exact (on_data_run (func T) (set_data_ s (Some b')) b' (step start b') tt
                eq_refl Hf). }
  exact (IH (S start) (step start b') ltac:(lia) Hlen').
Qed.

(** [apply_lambda] on distinct qubits of the register. *)
Lemma apply_lambda_run (DEBUG : bool) (func : list Z -> M (buffer R) unit)
    (step : nat -> list (complex_t R) -> list (complex_t R))
    (qubits : list Z) (s : QubitVector R) (b : list (complex_t R)) :
  wf s -> data_ s = Some b -> NoDup qubits ->
  Forall (fun q => 0 <= q < num_qubits_ s) qubits ->
  (forall (k : nat) (b' : list (complex_t R)),
     (k < Z.to_nat (2 ^ (num_qubits_ s - Z.of_nat (length qubits))))%nat ->
     length b' = length b ->
     func (index_table qubits (insert_zero_bits (std_sort qubits) (Z.of_nat k))
             (length qubits)) b' = Ok tt (step k b') /\
     length (step k b') = length b) ->
  apply_lambda DEBUG func qubits s
  = Ok tt (set_data_ s
             (Some (foldl (fun b k => step k b) b
                      (seq 0 (Z.to_nat (2 ^ (num_qubits_ s
                                             - Z.of_nat (length qubits)))))))).
Proof.
  intros (HN & Hsize & _ & _) Hb Hnd Hr Hker.
  pose proof (std_sort_sorted qubits Hnd) as Hs.
  pose proof (std_sort_perm qubits) as Hperm.
  assert (length (std_sort qubits) = length qubits) as Hlenq by (by rewrite Hperm).
  assert (Forall (fun q => 0 <= q < num_qubits_ s) (std_sort qubits)) as Hr'.
  { by rewrite Hperm. }
  assert (0 <= num_qubits_ s <= 63) as HN' by lia.
  pose proof (blocks_length_le _ _ HN' Hs Hr') as Hn. rewrite Hlenq in Hn.
  pose proof (pow2_bound_59 (num_qubits_ s) ltac:(lia)) as Hpow.
  assert (0 < 2 ^ (num_qubits_ s - Z.of_nat (length qubits)) <= 2 ^ 59) as Hpow'.
  { split; [lia|]. apply Z.pow_le_mono_r; lia. }
  pose proof (block_loop func step qubits s (length b)
                (Z.to_nat (2 ^ (num_qubits_ s - Z.of_nat (length qubits)))))
    as Hloop.
  assert (forall (k : nat) (s' : QubitVector R),
            (k < Z.to_nat (2 ^ (num_qubits_ s - Z.of_nat (length qubits))))%nat ->
            indexes qubits (std_sort qubits) (Z.of_nat k) s'
            = Ok (index_table qubits
                    (insert_zero_bits (std_sort qubits) (Z.of_nat k))
                    (length qubits)) s') as Htab.
  { intros k s' Hk.
    rewrite (blocks_table (num_qubits_ s) (std_sort qubits) qubits HN' Hs Hr').
    - by rewrite Hlenq.
    - done.
    - rewrite Hlenq. lia.
    - rewrite Hlenq. lia. }
  specialize (Hloop ltac:(
    intros k b' Hk Hlen; eexists; split;
    [intros s'; by apply Htab | by apply Hker])).
  specialize (Hloop (Z.to_nat (2 ^ (num_qubits_ s - Z.of_nat (length qubits))))
                0%nat b ltac:(lia) eq_refl).
  unfold apply_lambda.
  erewrite bind_run.
  2: { instantiate (1 := s). instantiate (1 := tt). destruct DEBUG; [|done].
       apply check_qubits_pass; (done || lia). }
  unfold bind at 1. unfold get at 1.
  unfold shr64. rewrite decide_True by lia.
  erewrite bind_run by reflexivity.
  rewrite Hsize, Z.shiftr_div_pow2 by lia.
  rewrite <- Z.pow_sub_r by lia.
  rewrite to_int64_small by lia.
  destruct s as [nq ds d c ot oth smi jct]. simpl in *. subst d.
  exact Hloop.
Qed.

Lemma rd_run (i : Z) (b : list (complex_t R)) (a : complex_t R) :
  0 <= i -> b !! Z.to_nat i = Some a -> rd i b = Ok a b.
Proof.
  intros Hi Ha. unfold rd, at_. rewrite decide_True by done. by rewrite Ha.
Qed.

Lemma wr_run (i : Z) (v : complex_t R) (b : list (complex_t R)) :
  0 <= i < Z.of_nat (length b) -> wr i v b = Ok tt (<[Z.to_nat i := v]> b).
Proof. intros Hi. unfold wr. by rewrite decide_True by done. Qed.

Lemma swap_entries_run (i j : Z) (b : list (complex_t R)) :
  0 <= i < Z.of_nat (length b) -> 0 <= j < Z.of_nat (length b) ->
  swap_entries i j b = Ok tt (exchange (Z.to_nat i) (Z.to_nat j) b).
Proof.
  intros Hi Hj. unfold swap_entries, exchange, pair_update.
  destruct (lookup_lt_is_Some_2 b (Z.to_nat i) ltac:(lia)) as [a Ha].
  destruct (lookup_lt_is_Some_2 b (Z.to_nat j) ltac:(lia)) as [c Hc].
  rewrite Ha, Hc.
  erewrite bind_run by (apply rd_run; [lia | exact Ha]).
  erewrite bind_run by (apply rd_run; [lia | exact Hc]).
  erewrite bind_run by (by apply wr_run).
  apply wr_run. rewrite length_insert. lia.
Qed.

End Block_loop.

(** ** Controlled gates *)

Section Controlled_entries.
Variables (N : Z) (controls : list Z) (t : Z).
Hypothesis HN : 0 <= N <= 63.
Hypothesis Hnd : NoDup (controls ++ [t]).
Hypothesis Hr : Forall (fun q => 0 <= q < N) (controls ++ [t]).

Local Abbreviation qubits := (controls ++ [t]).
Local Abbreviation base k := (insert_zero_bits (std_sort qubits) k).
Local Abbreviation entry k i := (set_qubit_bits 0 qubits i (base k)).

Lemma controlled_sorted : StronglySorted Z.lt (std_sort qubits).
Proof using Hnd. by apply std_sort_sorted. Qed.

Lemma controlled_range : Forall (fun q => 0 <= q < N) (std_sort qubits).
Proof using Hr. by rewrite std_sort_perm. Qed.

Lemma controlled_perm : qubits ≡ₚ std_sort qubits.
Proof. by rewrite std_sort_perm. Qed.

Lemma controlled_length : Z.of_nat (length controls) + 1 <= N.
Proof using HN Hnd Hr.
  pose proof (blocks_length_le N _ HN controlled_sorted controlled_range) as Hl.
  rewrite std_sort_perm, length_app in Hl. simpl in Hl. lia.
Qed.

Lemma entry_bit_outside (k i b : Z) :
  0 <= b -> b ∉ qubits -> Z.testbit (entry k i) b = Z.testbit (base k) b.
Proof using Hr.
  intros Hb Hnot.
  apply (blocks_entry_bit_outside N _ _ controlled_range controlled_perm);
    [done|]. by rewrite std_sort_perm.
Qed.

Lemma entry_bit_control (k i : Z) (j : nat) (c : Z) :
  0 <= k -> controls !! j = Some c ->
  Z.testbit (entry k i) c = Z.testbit i (Z.of_nat j).
Proof using Hnd Hr.
  intros Hk Hc.
  apply (blocks_entry_bit_at N _ _ controlled_sorted controlled_range
           controlled_perm); [done|].
  by apply lookup_app_l_Some.
Qed.

Lemma entry_bit_target (k i : Z) :
  0 <= k -> Z.testbit (entry k i) t = Z.testbit i (Z.of_nat (length controls)).
Proof using Hnd Hr.
  intros Hk.
  apply (blocks_entry_bit_at N _ _ controlled_sorted controlled_range
           controlled_perm); [done|].
  rewrite lookup_app_r by done. by rewrite Nat.sub_diag.
Qed.

Lemma target_nonneg : 0 <= t.
Proof using Hr.
  apply Forall_app in Hr as [_ Ht]. apply Forall_cons in Ht as [Ht _]. lia.
Qed.

Lemma controls_nonneg (c : Z) : c ∈ controls -> 0 <= c.
Proof using Hr.
  intros Hc. apply Forall_app in Hr as [Hcs _].
  rewrite Forall_forall in Hcs. specialize (Hcs c Hc). lia.
Qed.

Lemma target_not_control : t ∉ controls.
Proof using Hnd.
  intros Hin. apply NoDup_app in Hnd as (_ & Hdis & _).
  apply (Hdis t Hin). by left.
Qed.

(** Two entries of one table that agree on the target bit and on every
    control bit are equal. *)
Lemma entry_eq_of_bits (k i i' : Z) :
  0 <= k ->
  Z.testbit i (Z.of_nat (length controls)) = Z.testbit i' (Z.of_nat (length controls)) ->
  (forall j : nat, (j < length controls)%nat ->
     Z.testbit i (Z.of_nat j) = Z.testbit i' (Z.of_nat j)) ->
  entry k i = entry k i'.
Proof using Hnd Hr.
  intros Hk Ht Hc. apply Z.bits_inj'. intros b Hb.
  destruct (decide (b ∈ qubits)) as [Hin|Hnot].
  - apply elem_of_app in Hin as [Hin|Hin].
    + apply list_elem_of_lookup_1 in Hin as [j Hj].
      rewrite !(entry_bit_control k _ j b Hk Hj).
      apply Hc. by apply lookup_lt_Some in Hj.
    + apply list_elem_of_singleton in Hin as ->.
      by rewrite !entry_bit_target by done.
  - by rewrite !entry_bit_outside by done.
Qed.

(** The entries at [MASKS[n-1]] and [MASKS[n]]: all control bits are 1, the
    target bit is 0 in the first and 1 in the second. *)
Lemma entry_ones_controls (k : Z) (m : Z) :
  0 <= k -> Z.of_nat (length controls) <= m ->
  all_bits_set controls (entry k (Z.ones m)) = true.
Proof using Hnd Hr.
  intros Hk Hm. unfold all_bits_set. apply forallb_forall. intros c Hc.
  apply list_elem_of_In in Hc. apply list_elem_of_lookup_1 in Hc as [j Hj].
  rewrite (entry_bit_control k _ j c Hk Hj).
  apply lookup_lt_Some in Hj. apply Z.ones_spec_low. lia.
Qed.

Lemma entry_ones_pair (k : Z) :
  0 <= k ->
  entry k (Z.ones (Z.of_nat (length controls) + 1))
  = Z.lxor (entry k (Z.ones (Z.of_nat (length controls)))) (2 ^ t) /\
  entry k (Z.ones (Z.of_nat (length controls)))
  = Z.lxor (entry k (Z.ones (Z.of_nat (length controls) + 1))) (2 ^ t).
Proof using Hnd Hr.
  intros Hk. pose proof target_nonneg as Ht.
  assert (forall b, 0 <= b ->
            Z.testbit (entry k (Z.ones (Z.of_nat (length controls) + 1))) b
            = xorb (Z.testbit (entry k (Z.ones (Z.of_nat (length controls)))) b)
                   (Z.testbit (2 ^ t) b)) as Hbits.
  { intros b Hb. rewrite Z.pow2_bits_eqb by done.
    destruct (decide (b = t)) as [->|Hne].
    - rewrite !entry_bit_target by done. rewrite Z.eqb_refl.
      rewrite Z.ones_spec_low, Z.ones_spec_high by lia. done.
    - rewrite (proj2 (Z.eqb_neq t b)) by done. rewrite xorb_false_r.
      destruct (decide (b ∈ controls)) as [Hin|Hnot].
      + apply list_elem_of_lookup_1 in Hin as [j Hj].
        rewrite !(entry_bit_control k _ j b Hk Hj).
        apply lookup_lt_Some in Hj.
        by rewrite !Z.ones_spec_low by lia.
      + rewrite !entry_bit_outside; try done.
        * intros [?|?%list_elem_of_singleton]%elem_of_app; done.
        * intros [?|?%list_elem_of_singleton]%elem_of_app; done. }
  split; apply Z.bits_inj'; intros b Hb; rewrite Z.lxor_spec, Hbits by done.
  - done.
  - by rewrite xorb_assoc, xorb_nilpotent, xorb_false_r.
Qed.

(** An index all of whose control bits are 1 is the entry at [MASKS[n-1]]
    or at [MASKS[n]] of its table, by its target bit. *)
Lemma entry_of_controlled (k : Z) (i : Z) :
  0 <= k ->
  all_bits_set controls (entry k i) = true ->
  entry k i = entry k (if Z.testbit (entry k i) t
                       then Z.ones (Z.of_nat (length controls) + 1)
                       else Z.ones (Z.of_nat (length controls))).
Proof using Hnd Hr.
  intros Hk Hall. unfold all_bits_set in Hall.
  rewrite forallb_forall in Hall.
  apply entry_eq_of_bits; [done| |].
  - rewrite (entry_bit_target k i Hk).
    destruct (Z.testbit i (Z.of_nat (length controls))).
    + by rewrite Z.ones_spec_low by lia.
    + by rewrite Z.ones_spec_high by lia.
  - intros j Hj.
    destruct (lookup_lt_is_Some_2 controls j Hj) as [c Hc].
    rewrite <- (entry_bit_control k i j c Hk Hc).
    rewrite Hall by (apply list_elem_of_In; eapply list_elem_of_lookup_2, Hc).
    destruct (Z.testbit (entry k i) t); by rewrite Z.ones_spec_low by lia.
Qed.

End Controlled_entries.

Section Controlled_gates.
Context {R : Type} `{Double R}.

Lemma lxor_pow2_range (N t x : Z) :
  0 <= t < N -> 0 <= x < 2 ^ N -> 0 <= Z.lxor x (2 ^ t) < 2 ^ N.
Proof.
  intros Ht Hx.
  assert (0 <= Z.lxor x (2 ^ t)) as Hnn.
  { apply Z.lxor_nonneg. split; intros; lia. }
  split; [done|]. apply below_pow2_of_bits; [done | lia |].
  intros j Hj. rewrite Z.lxor_spec, Z.pow2_bits_eqb by lia.
  rewrite (above_pow2_bits x N j) by (done || lia).
  by rewrite (proj2 (Z.eqb_neq t j)) by lia.
Qed.

Lemma all_bits_set_flip (controls : list Z) (t x : Z) :
  0 <= t -> t ∉ controls ->
  all_bits_set controls (Z.lxor x (2 ^ t)) = all_bits_set controls x.
Proof.
  intros Ht Hnot. unfold all_bits_set.
  induction controls as [|c controls IH]; [done|].
  apply not_elem_of_cons in Hnot as [Hne Hnot]. simpl.
  rewrite IH by done. f_equal.
  rewrite Z.lxor_spec, Z.pow2_bits_eqb by done.
  rewrite (proj2 (Z.eqb_neq t c)) by done. apply xorb_false_r.
Qed.

(** The block loop on distinct qubits of the register for a kernel that
    replaces the amplitudes [a] at [inds[P0]] and [c] at [inds[P1]] by
    [f a c] and [g a c]: in every block these two amplitudes are updated
    and the others are kept. *)
Lemma block_pair_run (DEBUG : bool) (func : list Z -> M (buffer R) unit)
    (f g : complex_t R -> complex_t R -> complex_t R)
    (qubits : list Z) (P0 P1 : nat) (s : QubitVector R) (b : list (complex_t R)) :
  wf s -> data_ s = Some b -> NoDup qubits ->
  Forall (fun q => 0 <= q < num_qubits_ s) qubits ->
  (P0 < 2 ^ length qubits)%nat -> (P1 < 2 ^ length qubits)%nat -> P0 <> P1 ->
  (forall (T : list Z) (b' : list (complex_t R)) (i0 i1 : Z),
     T !! P0 = Some i0 -> T !! P1 = Some i1 ->
     0 <= i0 < Z.of_nat (length b') -> 0 <= i1 < Z.of_nat (length b') ->
     i0 <> i1 ->
     func T b' = Ok tt (pair_update f g (Z.to_nat i0) (Z.to_nat i1) b')) ->
  exists b' : list (complex_t R),
    apply_lambda DEBUG func qubits s = Ok tt (set_data_ s (Some b')) /\
    length b' = length b /\
    forall k i : nat,
      (k < Z.to_nat (2 ^ (num_qubits_ s - Z.of_nat (length qubits))))%nat ->
      (i < 2 ^ length qubits)%nat ->
      exists a c : complex_t R,
        b !! Z.to_nat (block_entry qubits (Z.of_nat k) (Z.of_nat P0)) = Some a /\
        b !! Z.to_nat (block_entry qubits (Z.of_nat k) (Z.of_nat P1)) = Some c /\
        b' !! Z.to_nat (block_entry qubits (Z.of_nat k) (Z.of_nat i))
        = if decide (i = P0) then Some (f a c)
          else if decide (i = P1) then Some (g a c)
          else b !! Z.to_nat (block_entry qubits (Z.of_nat k) (Z.of_nat i)).
Proof.
  intros Hwf Hb Hnd Hr HP0 HP1 HP Hker.
  pose proof Hwf as (HN & Hsize & (b0 & Hb0 & Hlen) & _).
  rewrite Hb in Hb0. injection Hb0 as <-. rewrite Hsize in Hlen.
  assert (0 <= num_qubits_ s <= 63) as HN' by lia.
  pose proof (std_sort_sorted qubits Hnd) as Hs.
  pose proof (std_sort_perm qubits) as Hperm'.
  assert (qubits ≡ₚ std_sort qubits) as Hperm by done.
  assert (Forall (fun q => 0 <= q < num_qubits_ s) (std_sort qubits)) as Hr'.
  { by rewrite Hperm'. }
  assert (length (std_sort qubits) = length qubits) as Hlq by (by rewrite Hperm').
  set (K := Z.to_nat (2 ^ (num_qubits_ s - Z.of_nat (length qubits)))).
  set (p := fun k : nat =>
              Z.to_nat (block_entry qubits (Z.of_nat k) (Z.of_nat P0))).
  set (q := fun k : nat =>
              Z.to_nat (block_entry qubits (Z.of_nat k) (Z.of_nat P1))).
  assert (forall k : nat, (k < K)%nat ->
            0 <= Z.of_nat k
            < 2 ^ (num_qubits_ s - Z.of_nat (length (std_sort qubits))))
    as HkK.
  { intros k Hk. rewrite Hlq. unfold K in Hk. lia. }
  assert (forall (k : nat) i, (k < K)%nat ->
            0 <= block_entry qubits (Z.of_nat k) i < Z.of_nat (length b))
    as Hrange.
  { intros k i Hk. rewrite Hlen.
    apply (blocks_range (num_qubits_ s) _ _ HN' Hs Hr' Hperm). by apply HkK. }
  assert (forall (k k' i i' : nat),
            (i < 2 ^ length qubits)%nat -> (i' < 2 ^ length qubits)%nat ->
            block_entry qubits (Z.of_nat k) (Z.of_nat i)
            = block_entry qubits (Z.of_nat k') (Z.of_nat i') ->
            k = k' /\ i = i') as Hinj.
  { intros k k' i i' Hi Hi' Heq.
    destruct (blocks_inj (num_qubits_ s) _ _ Hs Hr' Hperm
                (Z.of_nat k) (Z.of_nat k') i i') as [Hkk Hii];
      [lia | lia | by rewrite Hlq | by rewrite Hlq | done |].
    split; [lia | done]. }
  (* the run *)
  assert (apply_lambda DEBUG func qubits s
          = Ok tt (set_data_ s
                     (Some (foldl (fun b k => pair_update f g (p k) (q k) b) b
                              (seq 0 K)))))
    as Hrun.
  { apply (apply_lambda_run DEBUG _ (fun k b => pair_update f g (p k) (q k) b));
      try done.
    intros k b' Hk Hlen'. fold K in Hk. split; [|by rewrite pair_update_length].
    apply Hker.
    - rewrite <- Hlq.
      by rewrite (blocks_table_lookup _ qubits Hperm) by (by rewrite Hlq).
    - rewrite <- Hlq.
      by rewrite (blocks_table_lookup _ qubits Hperm) by (by rewrite Hlq).
    - rewrite Hlen'. by apply Hrange.
    - rewrite Hlen'. by apply Hrange.
    - intros Heq. apply Hinj in Heq as [_ Heq]; done. }
  (* what the updates amount to *)
  destruct (pair_updates_lookup f g p q (seq 0 K) b) as (Hl & Hpair & Hout).
  { apply NoDup_seq. }
  { intros k k' Hk%elem_of_seq Hk'%elem_of_seq Heq. unfold p in Heq.
    apply Z2Nat.inj in Heq; [|apply Hrange; lia..].
    apply Hinj in Heq as [Heq _]; done. }
  { intros k k' Hk%elem_of_seq Hk'%elem_of_seq Heq. unfold q in Heq.
    apply Z2Nat.inj in Heq; [|apply Hrange; lia..].
    apply Hinj in Heq as [Heq _]; done. }
  { intros k k' Hk%elem_of_seq Hk'%elem_of_seq Heq. unfold p, q in Heq.
    apply Z2Nat.inj in Heq; [|apply Hrange; lia..].
    apply Hinj in Heq as [_ Heq]; done. }
  eexists. split; [exact Hrun|]. split; [exact Hl|].
  intros k i Hk Hi. fold K in Hk.
  pose proof (Hrange k (Z.of_nat P0) Hk) as Hr0.
  pose proof (Hrange k (Z.of_nat P1) Hk) as Hr1.
  destruct (lookup_lt_is_Some_2 b (p k) ltac:(unfold p; lia)) as [a Ha].
  destruct (lookup_lt_is_Some_2 b (q k) ltac:(unfold q; lia)) as [c Hc].
  exists a, c. split; [done|]. split; [done|].
  destruct (Hpair k a c ltac:(apply elem_of_seq; lia) Ha Hc) as [Hp Hq].
  destruct (decide (i = P0)) as [->|Hne0]; [exact Hp|].
  destruct (decide (i = P1)) as [->|Hne1]; [exact Hq|].
  apply Hout. intros k' Hk'%elem_of_seq.
  pose proof (Hrange k (Z.of_nat i) Hk).
  split; intros Heq; unfold p, q in Heq;
    (apply Z2Nat.inj in Heq; [|lia|apply Hrange; lia]);
    apply Hinj in Heq as [_ Heq]; done.
Qed.

(** The same for the kernels of the controlled gates: the last qubit is
    the target [t], the two positions are [MASKS[n-1]] and [MASKS[n]]. The
    pair of every index whose control bits are all 1 is updated, the other
    amplitudes are kept. *)
Lemma controlled_pair_run (DEBUG : bool) (func : list Z -> M (buffer R) unit)
    (f g : complex_t R -> complex_t R -> complex_t R)
    (controls : list Z) (t : Z) (s : QubitVector R) (b : list (complex_t R)) :
  wf s -> data_ s = Some b -> NoDup (controls ++ [t]) ->
  Forall (fun q => 0 <= q < num_qubits_ s) (controls ++ [t]) ->
  (forall (T : list Z) (b' : list (complex_t R)) (i0 i1 : Z),
     at_ T (Z.ones (Z.of_nat (length controls))) = Some i0 ->
     at_ T (Z.ones (Z.of_nat (length controls) + 1)) = Some i1 ->
     0 <= i0 < Z.of_nat (length b') -> 0 <= i1 < Z.of_nat (length b') ->
     i0 <> i1 ->
     func T b' = Ok tt (pair_update f g (Z.to_nat i0) (Z.to_nat i1) b')) ->
  exists b' : list (complex_t R),
    apply_lambda DEBUG func (controls ++ [t]) s = Ok tt (set_data_ s (Some b')) /\
    length b' = length b /\
    forall x : nat, (x < length b)%nat ->
      exists a c : complex_t R,
        b !! x = Some a /\
        b !! Z.to_nat (Z.lxor (Z.of_nat x) (2 ^ t)) = Some c /\
        b' !! x = Some (if all_bits_set controls (Z.of_nat x)
                        then (if Z.testbit (Z.of_nat x) t then g c a else f a c)
                        else a).
Proof.
  intros Hwf Hb Hnd Hr Hker.
  pose proof Hwf as (HN & Hsize & (b0 & Hb0 & Hlen) & _).
  rewrite Hb in Hb0. injection Hb0 as <-. rewrite Hsize in Hlen.
  assert (0 <= num_qubits_ s <= 63) as HN' by lia.
  pose proof (controlled_length _ controls t HN' Hnd Hr) as Hlc.
  pose proof (controlled_sorted controls t Hnd) as Hs.
  pose proof (controlled_range _ controls t Hr) as Hr'.
  pose proof (controlled_perm controls t) as Hperm.
  pose proof (target_nonneg _ controls t Hr) as Ht.
  assert (t < num_qubits_ s) as HtN.
  { apply Forall_app in Hr as [_ Hr2]. apply Forall_cons in Hr2 as [Hr2 _]. lia. }
  set (lc := Z.of_nat (length controls)) in *.
  assert (length (std_sort (controls ++ [t])) = length (controls ++ [t])) as Hlq.
  { by rewrite std_sort_perm. }
  assert (Z.of_nat (length (controls ++ [t])) = lc + 1) as Hn.
  { rewrite length_app. simpl. lia. }
  assert (forall m, 0 <= m <= lc + 1 ->
            (Z.to_nat (Z.ones m) < 2 ^ length (controls ++ [t]))%nat)
    as Hones.
  { intros m Hm. apply Nat2Z.inj_lt.
    rewrite of_nat_pow2, Hn, Z2Nat.id by (rewrite Z.ones_equiv; lia).
    rewrite Z.ones_equiv.
    assert (2 ^ m <= 2 ^ (lc + 1)) by (apply Z.pow_le_mono_r; lia). lia. }
  assert (forall m, 0 <= m -> Z.of_nat (Z.to_nat (Z.ones m)) = Z.ones m) as Hones'.
  { intros m Hm. rewrite Z2Nat.id; [done|]. rewrite Z.ones_equiv. lia. }
  assert (Z.ones lc <> Z.ones (lc + 1)) as Hones_ne.
  { rewrite !Z.ones_equiv. rewrite Z.pow_add_r by lia.
    assert (0 < 2 ^ lc) by lia. lia. }
  assert (0 <= Z.ones lc /\ 0 <= Z.ones (lc + 1)) as [Hnn0 Hnn1].
  { rewrite !Z.ones_equiv. lia. }
  destruct (block_pair_run DEBUG func f g (controls ++ [t])
              (Z.to_nat (Z.ones lc)) (Z.to_nat (Z.ones (lc + 1))) s b
              Hwf Hb Hnd Hr) as (b' & Hrun & Hl & Hblock).
  { apply Hones. lia. }
  { apply Hones. lia. }
  { lia. }
  { intros T b' i0 i1 H0 H1. apply Hker; unfold at_; by rewrite decide_True. }
  exists b'. split; [exact Hrun|]. split; [exact Hl|].
  intros x Hx.
  pose proof (lxor_pow2_range (num_qubits_ s) t (Z.of_nat x) ltac:(lia) ltac:(lia))
    as Hpartner.
  destruct (lookup_lt_is_Some_2 b x Hx) as [a Ha].
  destruct (lookup_lt_is_Some_2 b (Z.to_nat (Z.lxor (Z.of_nat x) (2 ^ t)))
              ltac:(lia)) as [c Hc].
  exists a, c. split; [done|]. split; [done|].
  destruct (blocks_cover (num_qubits_ s) _ _ HN' Hs Hr' Hperm (Z.of_nat x)
              ltac:(lia)) as (k & i & Hk & Hi & Hxe).
  rewrite Hlq in Hk, Hi.
  destruct (Hblock k i Hk Hi) as (a0 & c0 & Ha0 & Hc0 & Hnew).
  rewrite !Hones' in Ha0, Hc0 by lia.
  unfold block_entry in *.
  rewrite <- Hxe, Nat2Z.id in Hnew.
  destruct (entry_ones_pair _ controls t Hnd Hr (Z.of_nat k) ltac:(lia))
    as [H10 H01]. fold lc in H10, H01.
  destruct (all_bits_set controls (Z.of_nat x)) eqn:Hall.
  - rewrite Hxe in Hall.
    pose proof (entry_of_controlled _ controls t Hnd Hr (Z.of_nat k) (Z.of_nat i)
                  ltac:(lia) Hall) as Hcase.
    rewrite <- Hxe in Hcase. fold lc in Hcase.
    destruct (Z.testbit (Z.of_nat x) t).
    + assert (i = Z.to_nat (Z.ones (lc + 1))) as ->.
      { rewrite Hxe in Hcase.
        destruct (blocks_inj (num_qubits_ s) _ _ Hs Hr' Hperm
                    (Z.of_nat k) (Z.of_nat k) i (Z.to_nat (Z.ones (lc + 1))))
          as [_ Hii]; [lia | lia | by rewrite Hlq
                      | rewrite Hlq; apply Hones; lia
                      | by rewrite Hones' by lia | done]. }
      rewrite decide_False in Hnew by lia. rewrite decide_True in Hnew by done.
      rewrite Hnew. f_equal.
      rewrite <- Hcase, Nat2Z.id in Hc0. rewrite Hcase, <- H01 in Hc.
      congruence.
    + assert (i = Z.to_nat (Z.ones lc)) as ->.
      { rewrite Hxe in Hcase.
        destruct (blocks_inj (num_qubits_ s) _ _ Hs Hr' Hperm
                    (Z.of_nat k) (Z.of_nat k) i (Z.to_nat (Z.ones lc)))
          as [_ Hii]; [lia | lia | by rewrite Hlq
                      | rewrite Hlq; apply Hones; lia
                      | by rewrite Hones' by lia | done]. }
      rewrite decide_True in Hnew by done.
      rewrite Hnew. f_equal.
      rewrite <- Hcase, Nat2Z.id in Ha0. rewrite Hcase, <- H10 in Hc.
      congruence.
  - assert (forall m, lc <= m -> i <> Z.to_nat (Z.ones m)) as Hne.
    { intros m Hm ->.
      pose proof (entry_ones_controls _ controls t Hnd Hr (Z.of_nat k) m
                    ltac:(lia) Hm) as Hall'.
      rewrite Hxe, Hones' in Hall by lia. congruence. }
    rewrite !decide_False in Hnew by (apply Hne; lia).
    by rewrite Hnew.
Qed.

(** [apply_mcx] exchanges the two amplitudes of every such pair. *)
Lemma apply_mcx_run (DEBUG : bool) (controls : list Z) (t : Z)
    (s : QubitVector R) (b : list (complex_t R)) :
  wf s -> data_ s = Some b -> NoDup (controls ++ [t]) ->
  Forall (fun q => 0 <= q < num_qubits_ s) (controls ++ [t]) ->
  exists b' : list (complex_t R),
    apply_mcx DEBUG (controls ++ [t]) s = Ok tt (set_data_ s (Some b')) /\
    length b' = length b /\
    forall x : nat, (x < length b)%nat ->
      b' !! x = b !! (if all_bits_set controls (Z.of_nat x)
                      then Z.to_nat (Z.lxor (Z.of_nat x) (2 ^ t))
                      else x).
Proof.
  intros Hwf Hb Hnd Hr.
  pose proof Hwf as (HN & _).
  pose proof (controlled_length (num_qubits_ s) controls t ltac:(lia) Hnd Hr)
    as Hlc.
  destruct (controlled_pair_run DEBUG
              (fun inds =>
                 i0 <- lift (at_ inds (Z.ones (Z.of_nat (length controls))));;
                 i1 <- lift (at_ inds (Z.ones (Z.of_nat (length controls) + 1)));;
                 swap_entries i0 i1)%M
              (fun _ c => c) (fun a _ => a) controls t s b Hwf Hb Hnd Hr)
    as (b' & Hrun & Hlen & Hlook).
  { intros T b' i0 i1 H0 H1 Hi0 Hi1 Hne. rewrite H0, H1.
    erewrite bind_run by reflexivity. erewrite bind_run by reflexivity.
    by apply swap_entries_run. }
  exists b'. split; [|split; [done|]].
  - unfold apply_mcx. rewrite length_app. simpl length.
    replace (Z.of_nat (length controls + 1) - 1)
      with (Z.of_nat (length controls)) by lia.
    rewrite wrap64_small by lia.
    replace (Z.of_nat (length controls + 1))
      with (Z.of_nat (length controls) + 1) by lia.
    rewrite !MASKS_at by lia.
    erewrite bind_run by reflexivity. erewrite bind_run by reflexivity.
    exact Hrun.
  - intros x Hx. destruct (Hlook x Hx) as (a & c & Ha & Hc & ->).
    destruct (all_bits_set controls (Z.of_nat x)); [|done].
    rewrite Hc. by destruct (Z.testbit (Z.of_nat x) t).
Qed.

(** X16. [apply_mcx] on distinct qubits of the register, the last of which
    is the target [t] and the others the controls: the call returns, the
    buffer keeps its length, and the new amplitude at every index [x] is
    the old amplitude at [x] with bit [t] flipped when all control bits of
    [x] are 1, and the old amplitude at [x] otherwise. *)
Theorem apply_mcx_flips_target (DEBUG : bool) (controls : list Z) (t : Z)
    (s : QubitVector R) (b : list (complex_t R)) :
  wf s -> data_ s = Some b -> NoDup (controls ++ [t]) ->
  Forall (fun q => 0 <= q < num_qubits_ s) (controls ++ [t]) ->
  exists b' : list (complex_t R),
    apply_mcx DEBUG (controls ++ [t]) s = Ok tt (set_data_ s (Some b')) /\
    length b' = length b /\
    forall x : nat, (x < length b)%nat ->
      b' !! x = b !! (if all_bits_set controls (Z.of_nat x)
                      then Z.to_nat (Z.lxor (Z.of_nat x) (2 ^ t))
                      else x).
Proof. apply apply_mcx_run. Qed.

(** X17. Applying [apply_mcx] twice to the same distinct qubits of the
    register gives back the state it started from, amplitude for
    amplitude. *)
Theorem apply_mcx_twice_restores (DEBUG : bool) (controls : list Z) (t : Z)
    (s : QubitVector R) :
  wf s -> NoDup (controls ++ [t]) ->
  Forall (fun q => 0 <= q < num_qubits_ s) (controls ++ [t]) ->
  (apply_mcx DEBUG (controls ++ [t]);;; apply_mcx DEBUG (controls ++ [t]))%M s
  = Ok tt s.
Proof.
  intros Hwf Hnd Hr.
  pose proof Hwf as (HN & Hsize & (b & Hb & Hlen) & Hck).
  destruct (apply_mcx_run DEBUG controls t s b Hwf Hb Hnd Hr)
    as (b1 & Hrun1 & Hlen1 & Hb1).
  assert (wf (set_data_ s (Some b1))) as Hwf1.
  { unfold wf. simpl. repeat split; try lia; try done.
    exists b1. split; [done|]. by rewrite Hlen1. }
  destruct (apply_mcx_run DEBUG controls t (set_data_ s (Some b1)) b1 Hwf1
              eq_refl Hnd Hr) as (b2 & Hrun2 & Hlen2 & Hb2).
  erewrite bind_run by exact Hrun1. rewrite Hrun2.
  pose proof (target_nonneg _ controls t Hr) as Ht.
  pose proof (target_not_control controls t Hnd) as Hnot.
  assert (b2 = b) as ->.
  { apply list_eq. intros x.
    destruct (decide (x < length b)%nat) as [Hx|Hx].
    2: { rewrite !lookup_ge_None_2; [done | lia | lia]. }
    rewrite Hb2 by lia.
    destruct (all_bits_set controls (Z.of_nat x)) eqn:Hall.
    - assert (Z.to_nat (Z.lxor (Z.of_nat x) (2 ^ t)) < length b)%nat as Hx'.
      { destruct (decide (Z.to_nat (Z.lxor (Z.of_nat x) (2 ^ t)) < length b)%nat)
          as [|Hge]; [done|exfalso].
        pose proof (Hb2 x ltac:(lia)) as Hbad. rewrite Hall in Hbad.
        rewrite (lookup_ge_None_2 b1) in Hbad by lia.
        apply lookup_ge_None_1 in Hbad. lia. }
      assert (0 <= Z.lxor (Z.of_nat x) (2 ^ t)) as Hnn.
      { apply Z.lxor_nonneg. split; intros; lia. }
      rewrite Hb1 by lia. rewrite Z2Nat.id by done.
      rewrite all_bits_set_flip, Hall by done.
      rewrite Z.lxor_assoc, Z.lxor_nilpotent, Z.lxor_0_r.
      by rewrite Nat2Z.id.
    - rewrite Hb1 by lia. by rewrite Hall. }
  destruct s as [nq ds d c ot oth smi jct]. simpl in *. by subst d.
Qed.

Lemma all_bits_set_snoc (controls : list Z) (t x : Z) :
  all_bits_set (controls ++ [t]) x = all_bits_set controls x && Z.testbit x t.
Proof.
  unfold all_bits_set. rewrite forallb_app. simpl. by rewrite andb_true_r.
Qed.

(** X18. [apply_mcy] on distinct qubits of the register, the last of which
    is the target [t]: the call returns and, at every index [x] whose
    control bits are all 1, the new amplitude is [-i] times the old
    amplitude of the partner index (bit [t] flipped) when bit [t] of [x]
    is 0, and [i] times it when bit [t] is 1; the other amplitudes are
    kept. *)
Theorem apply_mcy_rotates_pairs (DEBUG : bool) (controls : list Z) (t : Z)
    (s : QubitVector R) (b : list (complex_t R)) :
  wf s -> data_ s = Some b -> NoDup (controls ++ [t]) ->
  Forall (fun q => 0 <= q < num_qubits_ s) (controls ++ [t]) ->
  exists b' : list (complex_t R),
    apply_mcy DEBUG (controls ++ [t]) s = Ok tt (set_data_ s (Some b')) /\
    length b' = length b /\
    forall x : nat, (x < length b)%nat ->
      exists a c : complex_t R,
        b !! x = Some a /\
        b !! Z.to_nat (Z.lxor (Z.of_nat x) (2 ^ t)) = Some c /\
        b' !! x = Some (if all_bits_set controls (Z.of_nat x)
                        then (if Z.testbit (Z.of_nat x) t
                              then c_mul (Complex d_zero d_one) c
                              else c_mul (c_neg (Complex d_zero d_one)) c)
                        else a).
Proof.
  intros Hwf Hb Hnd Hr.
  pose proof Hwf as (HN & _).
  pose proof (controlled_length (num_qubits_ s) controls t ltac:(lia) Hnd Hr)
    as Hlc.
  destruct (controlled_pair_run DEBUG
              (fun inds =>
                 i0 <- lift (at_ inds (Z.ones (Z.of_nat (length controls))));;
                 cache <- rd i0;;
                 i1 <- lift (at_ inds (Z.ones (Z.of_nat (length controls) + 1)));;
                 a1 <- rd i1;;
                 wr i0 (c_mul (c_neg (Complex d_zero d_one)) a1);;;
                 wr i1 (c_mul (Complex d_zero d_one) cache))%M
              (fun _ c => c_mul (c_neg (Complex d_zero d_one)) c)
              (fun a _ => c_mul (Complex d_zero d_one) a)
              controls t s b Hwf Hb Hnd Hr)
    as (b' & Hrun & Hlen & Hlook).
  { intros T b' i0 i1 H0 H1 Hi0 Hi1 Hne. rewrite H0, H1.
    destruct (lookup_lt_is_Some_2 b' (Z.to_nat i0) ltac:(lia)) as [a Ha].
    destruct (lookup_lt_is_Some_2 b' (Z.to_nat i1) ltac:(lia)) as [c Hc].
    unfold pair_update. rewrite Ha, Hc.
    erewrite bind_run by reflexivity.
    erewrite bind_run by (apply rd_run; [lia | exact Ha]).
    erewrite bind_run by reflexivity.
    erewrite bind_run by (apply rd_run; [lia | exact Hc]).
    erewrite bind_run by (by apply wr_run).
    apply wr_run. rewrite length_insert. lia. }
  exists b'. split; [|split; [done|]].
  - unfold apply_mcy. rewrite length_app. simpl length.
    replace (Z.of_nat (length controls + 1) - 1)
      with (Z.of_nat (length controls)) by lia.
    rewrite wrap64_small by lia.
    replace (Z.of_nat (length controls + 1))
      with (Z.of_nat (length controls) + 1) by lia.
    rewrite !MASKS_at by lia.
    erewrite bind_run by reflexivity. erewrite bind_run by reflexivity.
    exact Hrun.
  - intros x Hx. destruct (Hlook x Hx) as (a & c & Ha & Hc & ->).
    exists a, c. done.
Qed.

(** X19. [apply_mcz] on distinct qubits of the register (at least one):
    the call returns, the amplitude at every index all of whose listed
    bits are 1 is multiplied by the double [-1.], and every other amplitude
    is kept. *)
Theorem apply_mcz_negates_selected (DEBUG : bool) (controls : list Z) (t : Z)
    (s : QubitVector R) (b : list (complex_t R)) :
  wf s -> data_ s = Some b -> NoDup (controls ++ [t]) ->
  Forall (fun q => 0 <= q < num_qubits_ s) (controls ++ [t]) ->
  exists b' : list (complex_t R),
    apply_mcz DEBUG (controls ++ [t]) s = Ok tt (set_data_ s (Some b')) /\
    length b' = length b /\
    forall (x : nat) (a : complex_t R), b !! x = Some a ->
      b' !! x = Some (if all_bits_set (controls ++ [t]) (Z.of_nat x)
                      then c_scale a d_minus_one else a).
Proof.
  intros Hwf Hb Hnd Hr.
  pose proof Hwf as (HN & _).
  pose proof (controlled_length (num_qubits_ s) controls t ltac:(lia) Hnd Hr)
    as Hlc.
  set (lc := Z.of_nat (length controls)) in *.
  assert (forall func : list Z -> M (buffer R) unit,
            (forall T b', func T b' = kernel_negate (Z.ones (lc + 1)) T b') ->
            exists b' : list (complex_t R),
              apply_lambda DEBUG func (controls ++ [t]) s
              = Ok tt (set_data_ s (Some b')) /\
              length b' = length b /\
              forall (x : nat) (a : complex_t R), b !! x = Some a ->
                b' !! x = Some (if all_bits_set (controls ++ [t]) (Z.of_nat x)
                                then c_scale a d_minus_one else a)) as Hgen.
  { intros func Hfunc.
    destruct (controlled_pair_run DEBUG func
                (fun a _ => a) (fun _ c => c_scale c d_minus_one)
                controls t s b Hwf Hb Hnd Hr)
      as (b' & Hrun & Hlen & Hlook).
    { intros T b' i0 i1 H0 H1 Hi0 Hi1 Hne. rewrite Hfunc.
      unfold kernel_negate. fold lc in H1. rewrite H1.
      destruct (lookup_lt_is_Some_2 b' (Z.to_nat i0) ltac:(lia)) as [a Ha].
      destruct (lookup_lt_is_Some_2 b' (Z.to_nat i1) ltac:(lia)) as [c Hc].
      unfold pair_update. rewrite Ha, Hc.
      erewrite bind_run by reflexivity.
      erewrite bind_run by (apply rd_run; [lia | exact Hc]).
      rewrite (list_insert_id b' (Z.to_nat i0) a Ha).
      by apply wr_run. }
    exists b'. split; [done|]. split; [done|].
    intros x a Ha.
    destruct (Hlook x ltac:(by eapply lookup_lt_Some)) as (a' & c & Ha' & Hc & ->).
    rewrite Ha in Ha'. injection Ha' as <-.
    rewrite all_bits_set_snoc.
    destruct (all_bits_set controls (Z.of_nat x)); [|done].
    by destruct (Z.testbit (Z.of_nat x) t). }
  assert (Z.of_nat (length (controls ++ [t])) = lc + 1) as Hn.
  { rewrite length_app. simpl. lia. }
  unfold apply_mcz. rewrite Hn.
  repeat case_decide.
  - apply Hgen. intros T b'. by replace (lc + 1) with 1 by lia.
  - apply Hgen. intros T b'. by replace (lc + 1) with 2 by lia.
  - apply Hgen. intros T b'. by replace (lc + 1) with 3 by lia.
  - apply Hgen. intros T b'. rewrite MASKS_at by lia.
    by erewrite bind_run by reflexivity.
Qed.

(** X20. [apply_matrix(q, mat)] for a qubit of the register and a 2x2
    matrix [mat = [m0, m1, m2, m3]] (column-major) that fails the test
    [mat[1] == 0.0 && mat[2] == 0.0]: the call returns and every pair of
    amplitudes [(a0, a1)] at indices that differ in bit [q] only becomes
    [(m0 a0 + m2 a1, m1 a0 + m3 a1)]. *)
Theorem apply_matrix_1_multiplies_pairs (DEBUG : bool) (q : Z)
    (m0 m1 m2 m3 : complex_t R) (s : QubitVector R) (b : list (complex_t R)) :
  wf s -> data_ s = Some b -> 0 <= q < num_qubits_ s ->
  c_eqb_double m1 d_zero && c_eqb_double m2 d_zero = false ->
  exists b' : list (complex_t R),
    apply_matrix_1 DEBUG q [m0; m1; m2; m3] s = Ok tt (set_data_ s (Some b')) /\
    length b' = length b /\
    forall x : nat, (x < length b)%nat ->
      exists a c : complex_t R,
        b !! x = Some a /\
        b !! Z.to_nat (Z.lxor (Z.of_nat x) (2 ^ q)) = Some c /\
        b' !! x = Some (if Z.testbit (Z.of_nat x) q
                        then c_add (c_mul m1 c) (c_mul m3 a)
                        else c_add (c_mul m0 a) (c_mul m2 c)).
Proof.
  intros Hwf Hb Hq Hnd.
  destruct (controlled_pair_run DEBUG
              (fun inds =>
                 pos0 <- lift (at_ inds 0);;
                 pos1 <- lift (at_ inds 1);;
                 update_pair pos0 pos1 [m0; m1; m2; m3])%M
              (fun a c => c_add (c_mul m0 a) (c_mul m2 c))
              (fun a c => c_add (c_mul m1 a) (c_mul m3 c))
              [] q s b Hwf Hb)
    as (b' & Hrun & Hlen & Hlook).
  { apply NoDup_singleton. }
  { by apply Forall_singleton. }
  { intros T b' i0 i1 H0 H1 Hi0 Hi1 Hne.
    change (Z.ones (Z.of_nat (length (@nil Z)))) with 0 in H0.
    change (Z.ones (Z.of_nat (length (@nil Z)) + 1)) with 1 in H1.
    rewrite H0, H1.
    destruct (lookup_lt_is_Some_2 b' (Z.to_nat i0) ltac:(lia)) as [a Ha].
    destruct (lookup_lt_is_Some_2 b' (Z.to_nat i1) ltac:(lia)) as [c Hc].
    unfold pair_update. rewrite Ha, Hc.
    erewrite bind_run by reflexivity. erewrite bind_run by reflexivity.
    unfold update_pair.
    erewrite bind_run by (apply rd_run; [lia | exact Ha]).
    erewrite bind_run by reflexivity. erewrite bind_run by reflexivity.
    erewrite bind_run by (apply rd_run; [lia | exact Ha]).
    erewrite bind_run by (apply rd_run; [lia | exact Hc]).
    erewrite bind_run by (by apply wr_run).
    erewrite bind_run by reflexivity. erewrite bind_run by reflexivity.
    erewrite bind_run.
    2: { apply rd_run; [lia|]. rewrite list_lookup_insert_ne by lia. exact Hc. }
    apply wr_run. rewrite length_insert. lia. }
  exists b'. split; [|split; [done|]].
  - unfold apply_matrix_1.
    assert (forall St (s0 : St),
              is_diagonal_2x2 [m0; m1; m2; m3] s0 = Ok false s0) as Hdiag.
    { intros St s0. unfold is_diagonal_2x2.
      erewrite bind_run by reflexivity.
      destruct (c_eqb_double m1 d_zero); [|done].
      erewrite bind_run by reflexivity. simpl in Hnd. by rewrite Hnd. }
    erewrite bind_run by apply Hdiag. exact Hrun.
  - intros x Hx. destruct (Hlook x Hx) as (a & c & Ha & Hc & ->).
    exists a, c. done.
Qed.

Lemma swap_position_bits (lc j : Z) :
  0 <= lc -> 0 <= j ->
  Z.testbit (2 ^ (lc + 1) + Z.ones lc) j = (j =? lc + 1) || (j <? lc).
Proof.
  intros Hlc Hj.
  assert (Z.land (2 ^ (lc + 1)) (Z.ones lc) = 0) as Hland.
  { apply Z.bits_inj'. intros m Hm.
    rewrite Z.land_spec, Z.pow2_bits_eqb, Z.testbit_ones_nonneg, Z.bits_0 by lia.
    destruct (Z.eqb_spec (lc + 1) m); [|done].
    rewrite (proj2 (Z.ltb_ge m lc)) by lia. done. }
  rewrite Z.add_nocarry_lxor, Z.lxor_lor by done.
  rewrite Z.lor_spec, Z.pow2_bits_eqb, Z.testbit_ones_nonneg by lia.
  by rewrite (Z.eqb_sym j).
Qed.

(** X21. [apply_mcswap] on distinct qubits of the register, the last two of
    which are the qubits [u] and [v] to swap and the others the controls:
    the call returns and the new amplitude at every index [x] is the old
    amplitude at [x] with the bits [u] and [v] exchanged when all control
    bits of [x] are 1, and the old amplitude at [x] otherwise. *)
Theorem apply_mcswap_exchanges_bits (DEBUG : bool) (controls : list Z) (u v : Z)
    (s : QubitVector R) (b : list (complex_t R)) :
  wf s -> data_ s = Some b -> NoDup (controls ++ [u; v]) ->
  Forall (fun q => 0 <= q < num_qubits_ s) (controls ++ [u; v]) ->
  exists b' : list (complex_t R),
    apply_mcswap DEBUG (controls ++ [u; v]) s = Ok tt (set_data_ s (Some b')) /\
    length b' = length b /\
    forall x : nat, (x < length b)%nat ->
      b' !! x
      = b !! (if all_bits_set controls (Z.of_nat x)
                 && xorb (Z.testbit (Z.of_nat x) u) (Z.testbit (Z.of_nat x) v)
              then Z.to_nat (Z.lxor (Z.lxor (Z.of_nat x) (2 ^ u)) (2 ^ v))
              else x).
Proof.
  intros Hwf Hb Hnd Hr.
  assert (controls ++ [u; v] = (controls ++ [u]) ++ [v]) as Hq.
  { by rewrite <- app_assoc. }
  rewrite Hq in *.
  pose proof Hwf as (HN & Hsize & (b0 & Hb0 & Hlen) & _).
  rewrite Hb in Hb0. injection Hb0 as <-. rewrite Hsize in Hlen.
  assert (0 <= num_qubits_ s <= 63) as HN' by lia.
  pose proof (controlled_length _ (controls ++ [u]) v HN' Hnd Hr) as Hlc.
  pose proof (controlled_sorted (controls ++ [u]) v Hnd) as Hs.
  pose proof (controlled_range _ (controls ++ [u]) v Hr) as Hr'.
  pose proof (controlled_perm (controls ++ [u]) v) as Hperm.
  pose proof (target_nonneg _ (controls ++ [u]) v Hr) as Hv.
  pose proof (target_not_control (controls ++ [u]) v Hnd) as Hvnot.
  assert (0 <= u) as Hu.
  { apply (controls_nonneg _ (controls ++ [u]) v Hr).
    apply elem_of_app. right. by left. }
  assert (u <> v) as Huv.
  { intros ->. apply Hvnot. apply elem_of_app. right. by left. }
  assert (u ∉ controls) as Hunot.
  { intros Hin. apply NoDup_app in Hnd as (Hnd1 & _ & _).
    apply NoDup_app in Hnd1 as (_ & Hdis & _). apply (Hdis u Hin). by left. }
  assert (v ∉ controls) as Hvnot'.
  { intros Hin. apply Hvnot. apply elem_of_app. by left. }
  rewrite length_app in Hlc. simpl in Hlc.
  set (lc := Z.of_nat (length controls)) in *.
  assert (length (std_sort ((controls ++ [u]) ++ [v]))
          = length ((controls ++ [u]) ++ [v])) as Hlq.
  { by rewrite std_sort_perm. }
  assert (Z.of_nat (length ((controls ++ [u]) ++ [v])) = lc + 2) as Hn.
  { rewrite !length_app. simpl. lia. }
  assert (0 < 2 ^ lc) as Hpow by lia.
  assert (2 ^ (lc + 1) = 2 * 2 ^ lc) as Hpow1 by (rewrite Z.pow_add_r; lia).
  assert (2 ^ (lc + 2) = 4 * 2 ^ lc) as Hpow2 by (rewrite Z.pow_add_r; lia).
  assert (2 ^ (lc + 2) <= 2 ^ 59) as Hpow59 by (apply Z.pow_le_mono_r; lia).
  set (Z0 := Z.ones (lc + 1)).
  set (Z1 := 2 ^ (lc + 1) + Z.ones lc).
  assert (0 <= Z0 < 2 ^ (lc + 2) /\ 0 <= Z1 < 2 ^ (lc + 2) /\ Z0 <> Z1)
    as (HZ0 & HZ1 & HZne).
  { unfold Z0, Z1. rewrite !Z.ones_equiv. lia. }
  assert (forall z, 0 <= z < 2 ^ (lc + 2) ->
            (Z.to_nat z < 2 ^ length ((controls ++ [u]) ++ [v]))%nat) as Hpos.
  { intros z Hz. apply Nat2Z.inj_lt. rewrite of_nat_pow2, Hn. lia. }
  assert (forall j : nat, (j < length controls)%nat ->
            Z.testbit Z0 (Z.of_nat j) = true /\ Z.testbit Z1 (Z.of_nat j) = true)
    as Hbits_c.
  { intros j Hj. unfold Z0, Z1. rewrite swap_position_bits by lia.
    rewrite Z.ones_spec_low by lia.
    rewrite (proj2 (Z.ltb_lt (Z.of_nat j) lc)) by lia. by rewrite orb_true_r. }
  assert (Z.testbit Z0 lc = true /\ Z.testbit Z1 lc = false /\
          Z.testbit Z0 (lc + 1) = false /\ Z.testbit Z1 (lc + 1) = true)
    as (Hb0u & Hb1u & Hb0v & Hb1v).
  { unfold Z0, Z1. rewrite !swap_position_bits by lia.
    rewrite Z.ones_spec_low, Z.ones_spec_high by lia.
    rewrite Z.eqb_refl, Z.ltb_irrefl.
    rewrite (proj2 (Z.eqb_neq lc (lc + 1))) by lia.
    rewrite (proj2 (Z.ltb_ge (lc + 1) lc)) by lia. done. }
  (* the bits of the entries of a table *)
  assert (forall (k : nat) i (j : nat) c, controls !! j = Some c ->
            Z.testbit (block_entry ((controls ++ [u]) ++ [v]) (Z.of_nat k) i) c
            = Z.testbit i (Z.of_nat j)) as Hbit_c.
  { intros k i j c Hc.
    apply (entry_bit_control _ (controls ++ [u]) v Hnd Hr); [lia|].
    by apply lookup_app_l_Some. }
  assert (forall (k : nat) i,
            Z.testbit (block_entry ((controls ++ [u]) ++ [v]) (Z.of_nat k) i) u
            = Z.testbit i lc) as Hbit_u.
  { intros k i. unfold block_entry.
    rewrite (entry_bit_control _ (controls ++ [u]) v Hnd Hr (Z.of_nat k) i
               (length controls) u); [done | lia |].
    rewrite lookup_app_r by done. by rewrite Nat.sub_diag. }
  assert (forall (k : nat) i,
            Z.testbit (block_entry ((controls ++ [u]) ++ [v]) (Z.of_nat k) i) v
            = Z.testbit i (lc + 1)) as Hbit_v.
  { intros k i. unfold block_entry.
    rewrite (entry_bit_target _ (controls ++ [u]) v Hnd Hr) by lia.
    rewrite length_app. simpl. f_equal. lia. }
  assert (forall (k : nat) i i',
            Z.testbit i lc = Z.testbit i' lc ->
            Z.testbit i (lc + 1) = Z.testbit i' (lc + 1) ->
            (forall j : nat, (j < length controls)%nat ->
               Z.testbit i (Z.of_nat j) = Z.testbit i' (Z.of_nat j)) ->
            block_entry ((controls ++ [u]) ++ [v]) (Z.of_nat k) i
            = block_entry ((controls ++ [u]) ++ [v]) (Z.of_nat k) i') as Heq_bits.
  { intros k i i' Hlu Hlv Hlc'.
    apply (entry_eq_of_bits _ (controls ++ [u]) v Hnd Hr); [lia| |].
    - rewrite length_app. simpl.
      by replace (Z.of_nat (length controls + 1)) with (lc + 1) by lia.
    - intros j Hj. rewrite length_app in Hj. simpl in Hj.
      destruct (decide (j = length controls)) as [->|Hne]; [done|].
      apply Hlc'. lia. }
  (* the run *)
  destruct (block_pair_run DEBUG
              (fun inds =>
                 i0 <- lift (at_ inds Z0);;
                 i1 <- lift (at_ inds Z1);;
                 swap_entries i0 i1)%M
              (fun _ c => c) (fun a _ => a) ((controls ++ [u]) ++ [v])
              (Z.to_nat Z0) (Z.to_nat Z1) s b Hwf Hb Hnd Hr)
    as (b' & Hrun & Hl & Hblock).
  { by apply Hpos. }
  { by apply Hpos. }
  { lia. }
  { intros T b' i0 i1 H0 H1 Hi0 Hi1 Hne.
    unfold at_. rewrite !decide_True by lia. rewrite H0, H1.
    erewrite bind_run by reflexivity. erewrite bind_run by reflexivity.
    by apply swap_entries_run. }
  exists b'. split; [|split; [done|]].
  { unfold apply_mcswap. rewrite Hn.
    replace (lc + 2 - 1) with (lc + 1) by lia.
    replace (lc + 2 - 2) with lc by lia.
    rewrite !wrap64_small by lia.
    rewrite MASKS_at, BITS_at by lia.
    erewrite bind_run by reflexivity. erewrite bind_run by reflexivity.
    replace (wrap64 (Z.ones (lc + 1) + 2 ^ lc)) with Z1; [exact Hrun|].
    rewrite wrap64_small; unfold Z1; rewrite !Z.ones_equiv; lia. }
  intros x Hx.
  destruct (blocks_cover (num_qubits_ s) _ _ HN' Hs Hr' Hperm (Z.of_nat x)
              ltac:(lia)) as (k & i & Hk & Hi & Hxe).
  rewrite Hlq in Hk, Hi.
  destruct (Hblock k i Hk Hi) as (a0 & c0 & Ha0 & Hc0 & Hnew).
  rewrite !Z2Nat.id in Ha0, Hc0 by lia.
  fold (block_entry ((controls ++ [u]) ++ [v]) (Z.of_nat k) (Z.of_nat i)) in Hxe.
  rewrite <- Hxe, Nat2Z.id in Hnew.
  assert (all_bits_set controls (Z.of_nat x) = true ->
          forall j : nat, (j < length controls)%nat ->
            Z.testbit (Z.of_nat i) (Z.of_nat j) = true) as Hctrl.
  { intros Hall j Hj. unfold all_bits_set in Hall.
    rewrite forallb_forall in Hall.
    destruct (lookup_lt_is_Some_2 controls j Hj) as [c Hc].
    rewrite <- (Hbit_c k (Z.of_nat i) j c Hc), <- Hxe.
    apply Hall. apply list_elem_of_In. eapply list_elem_of_lookup_2, Hc. }
  assert (forall z, (forall j : nat, (j < length controls)%nat ->
                       Z.testbit z (Z.of_nat j) = true) ->
            all_bits_set controls
              (block_entry ((controls ++ [u]) ++ [v]) (Z.of_nat k) z) = true)
    as Hctrl'.
  { intros z Hz. unfold all_bits_set. apply forallb_forall. intros c Hc.
    apply list_elem_of_In, list_elem_of_lookup_1 in Hc as [j Hj].
    rewrite (Hbit_c k z j c Hj). apply Hz. by eapply lookup_lt_Some. }
  (* the two entries differ in the bits u and v only *)
  assert (block_entry ((controls ++ [u]) ++ [v]) (Z.of_nat k) Z1
          = Z.lxor (Z.lxor (block_entry ((controls ++ [u]) ++ [v]) (Z.of_nat k) Z0)
                      (2 ^ u)) (2 ^ v)) as H01.
  { apply Z.bits_inj'. intros m Hm.
    rewrite !Z.lxor_spec, !Z.pow2_bits_eqb by lia.
    destruct (decide (m = u)) as [->|Hmu].
    - rewrite !Hbit_u, Hb0u, Hb1u, Z.eqb_refl.
      by rewrite (proj2 (Z.eqb_neq v u)) by done.
    - destruct (decide (m = v)) as [->|Hmv].
      + rewrite !Hbit_v, Hb0v, Hb1v, Z.eqb_refl.
        by rewrite (proj2 (Z.eqb_neq u v)) by done.
      + rewrite (proj2 (Z.eqb_neq u m)), (proj2 (Z.eqb_neq v m)) by done.
        rewrite !xorb_false_r.
        destruct (decide (m ∈ controls)) as [Hin|Hnot].
        * apply list_elem_of_lookup_1 in Hin as [j Hj].
          rewrite !(Hbit_c k _ j m Hj).
          destruct (Hbits_c j ltac:(by eapply lookup_lt_Some)) as [-> ->]. done.
        * unfold block_entry.
          rewrite !(entry_bit_outside _ (controls ++ [u]) v Hr); try done.
          -- intros [[?|?%list_elem_of_singleton]%elem_of_app
                    |?%list_elem_of_singleton]%elem_of_app; done.
          -- intros [[?|?%list_elem_of_singleton]%elem_of_app
                    |?%list_elem_of_singleton]%elem_of_app; done. }
  assert (block_entry ((controls ++ [u]) ++ [v]) (Z.of_nat k) Z0
          = Z.lxor (Z.lxor (block_entry ((controls ++ [u]) ++ [v]) (Z.of_nat k) Z1)
                      (2 ^ u)) (2 ^ v)) as H10.
  { rewrite H01. apply Z.bits_inj'. intros m Hm. rewrite !Z.lxor_spec.
    by destruct (Z.testbit _ m), (Z.testbit (2 ^ u) m), (Z.testbit (2 ^ v) m). }
  destruct (all_bits_set controls (Z.of_nat x)) eqn:Hall; simpl.
  2: { rewrite Hnew. rewrite !decide_False; [done| |].
       - intros ->. rewrite Z2Nat.id in Hxe by lia.
         rewrite Hxe, Hctrl' in Hall; [done|]. intros j Hj.
         by destruct (Hbits_c j Hj).
       - intros ->. rewrite Z2Nat.id in Hxe by lia.
         rewrite Hxe, Hctrl' in Hall; [done|]. intros j Hj.
         by destruct (Hbits_c j Hj). }
  specialize (Hctrl eq_refl).
  pose proof (Hbit_u k (Z.of_nat i)) as Hxu. rewrite <- Hxe in Hxu.
  pose proof (Hbit_v k (Z.of_nat i)) as Hxv. rewrite <- Hxe in Hxv.
  destruct (Z.testbit (Z.of_nat x) u) eqn:Eu,
           (Z.testbit (Z.of_nat x) v) eqn:Ev; simpl.
  - rewrite Hnew. rewrite !decide_False; [done| |];
      intros ->; rewrite Z2Nat.id in Hxu, Hxv by lia; congruence.
  - assert (Z.of_nat x = block_entry ((controls ++ [u]) ++ [v]) (Z.of_nat k) Z0)
      as HxE.
    { rewrite Hxe. apply Heq_bits; [congruence | congruence |].
      intros j Hj. rewrite Hctrl by done. by destruct (Hbits_c j Hj). }
    assert (i = Z.to_nat Z0) as ->.
    { rewrite Hxe in HxE.
      destruct (blocks_inj (num_qubits_ s) _ _ Hs Hr' Hperm
                  (Z.of_nat k) (Z.of_nat k) i (Z.to_nat Z0))
        as [_ Hii]; [lia | lia | by rewrite Hlq | rewrite Hlq; by apply Hpos
                    | by rewrite Z2Nat.id by lia | done]. }
    rewrite decide_True in Hnew by done. rewrite Hnew, <- Hc0.
    by rewrite HxE, <- H01.
  - assert (Z.of_nat x = block_entry ((controls ++ [u]) ++ [v]) (Z.of_nat k) Z1)
      as HxE.
    { rewrite Hxe. apply Heq_bits; [congruence | congruence |].
      intros j Hj. rewrite Hctrl by done. by destruct (Hbits_c j Hj). }
    assert (i = Z.to_nat Z1) as ->.
    { rewrite Hxe in HxE.
      destruct (blocks_inj (num_qubits_ s) _ _ Hs Hr' Hperm
                  (Z.of_nat k) (Z.of_nat k) i (Z.to_nat Z1))
        as [_ Hii]; [lia | lia | by rewrite Hlq | rewrite Hlq; by apply Hpos
                    | by rewrite Z2Nat.id by lia | done]. }
    rewrite decide_False in Hnew by lia.
    rewrite decide_True in Hnew by done. rewrite Hnew, <- Ha0.
    by rewrite HxE, <- H10.
  - rewrite Hnew. rewrite !decide_False; [done| |];
      intros ->; rewrite Z2Nat.id in Hxu, Hxv by lia; congruence.
Qed.

(** X22. [apply_diagonal_matrix(q, diag)] for a qubit of the register
    and a diagonal [diag = [d0, d1]] neither entry of which passes the test
    [== 1.0]: the call returns and every amplitude is multiplied (amplitude
    first) by [d0] when bit [q] of its index is 0 and by [d1] when it
    is 1. *)
Theorem apply_diagonal_matrix_1_scales (DEBUG : bool) (q : Z)
    (d0 d1 : complex_t R) (s : QubitVector R) (b : list (complex_t R)) :
  wf s -> data_ s = Some b -> 0 <= q < num_qubits_ s ->
  c_eqb_double d0 d_one = false -> c_eqb_double d1 d_one = false ->
  exists b' : list (complex_t R),
    apply_diagonal_matrix_1 DEBUG q [d0; d1] s = Ok tt (set_data_ s (Some b')) /\
    length b' = length b /\
    forall (x : nat) (a : complex_t R), b !! x = Some a ->
      b' !! x = Some (if Z.testbit (Z.of_nat x) q then c_mul a d1 else c_mul a d0).
Proof.
  intros Hwf Hb Hq Hd0 Hd1.
  destruct (controlled_pair_run DEBUG
              (fun inds => kernel_times 0 [d0; d1] inds;;;
                           kernel_times 1 [d0; d1] inds)%M
              (fun a _ => c_mul a d0) (fun _ c => c_mul c d1)
              [] q s b Hwf Hb)
    as (b' & Hrun & Hlen & Hlook).
  { apply NoDup_singleton. }
  { by apply Forall_singleton. }
  { intros T b' i0 i1 H0 H1 Hi0 Hi1 Hne.
    change (Z.ones (Z.of_nat (length (@nil Z)))) with 0 in H0.
    change (Z.ones (Z.of_nat (length (@nil Z)) + 1)) with 1 in H1.
    destruct (lookup_lt_is_Some_2 b' (Z.to_nat i0) ltac:(lia)) as [a Ha].
    destruct (lookup_lt_is_Some_2 b' (Z.to_nat i1) ltac:(lia)) as [c Hc].
    unfold pair_update. rewrite Ha, Hc. unfold kernel_times.
    erewrite bind_run.
    2: { rewrite H0. erewrite bind_run by reflexivity.
         erewrite bind_run by reflexivity.
         erewrite bind_run by (apply rd_run; [lia | exact Ha]).
         by apply wr_run. }
    rewrite H1. erewrite bind_run by reflexivity.
    erewrite bind_run by reflexivity.
    erewrite bind_run.
    2: { apply rd_run; [lia|]. rewrite list_lookup_insert_ne by lia. exact Hc. }
    apply wr_run. rewrite length_insert. lia. }
  exists b'. split; [|split; [done|]].
  - unfold apply_diagonal_matrix_1.
    erewrite bind_run by reflexivity. rewrite Hd0.
    erewrite bind_run by reflexivity. rewrite Hd1. exact Hrun.
  - intros x a Ha.
    destruct (Hlook x ltac:(by eapply lookup_lt_Some)) as (a' & c & Ha' & Hc & ->).
    rewrite Ha in Ha'. injection Ha' as <-. done.
Qed.

(** X23. [apply_diagonal_matrix(q, diag)] for a qubit of the register and
    [diag = [d0, d1]] where [d1] passes the test [== 1.0], [d0] does not
    and [d0] passes the test [== complex_t(0., 1.)] (the matrix
    [[i, 0], [0, 1]]): the call returns, every amplitude whose index has
    bit [q] equal to 1 becomes [(-imag, real)] of itself, and every
    amplitude whose index has bit [q] equal to 0 is kept: the kernel of
    this branch addresses [inds[1]]. *)
Theorem apply_diagonal_matrix_1_phase_on_one (DEBUG : bool) (q : Z)
    (d0 d1 : complex_t R) (s : QubitVector R) (b : list (complex_t R)) :
  wf s -> data_ s = Some b -> 0 <= q < num_qubits_ s ->
  c_eqb_double d0 d_one = false -> c_eqb_double d1 d_one = true ->
  c_eqb d0 (Complex d_zero d_minus_one) = false ->
  c_eqb d0 (Complex d_zero d_one) = true ->
  exists b' : list (complex_t R),
    apply_diagonal_matrix_1 DEBUG q [d0; d1] s = Ok tt (set_data_ s (Some b')) /\
    length b' = length b /\
    forall (x : nat) (a : complex_t R), b !! x = Some a ->
      b' !! x = Some (if Z.testbit (Z.of_nat x) q
                      then Complex (d_mul (imag a) d_minus_one) (real a)
                      else a).
Proof.
  intros Hwf Hb Hq Hd0 Hd1 Hmi Hi.
  destruct (controlled_pair_run DEBUG (kernel_times_i 1)
              (fun a _ => a)
              (fun _ c => Complex (d_mul (imag c) d_minus_one) (real c))
              [] q s b Hwf Hb)
    as (b' & Hrun & Hlen & Hlook).
  { apply NoDup_singleton. }
  { by apply Forall_singleton. }
  { intros T b' i0 i1 H0 H1 Hi0 Hi1 Hne.
    change (Z.ones (Z.of_nat (length (@nil Z)) + 1)) with 1 in H1.
    destruct (lookup_lt_is_Some_2 b' (Z.to_nat i0) ltac:(lia)) as [a Ha].
    destruct (lookup_lt_is_Some_2 b' (Z.to_nat i1) ltac:(lia)) as [c Hc].
    unfold pair_update. rewrite Ha, Hc. unfold kernel_times_i.
    rewrite H1. erewrite bind_run by reflexivity.
    erewrite bind_run by (apply rd_run; [lia | exact Hc]).
    rewrite (list_insert_id b' (Z.to_nat i0) a Ha).
    by apply wr_run. }
  exists b'. split; [|split; [done|]].
  - unfold apply_diagonal_matrix_1.
    erewrite bind_run by reflexivity. rewrite Hd0.
    erewrite bind_run by reflexivity. rewrite Hd1, Hmi, Hi. exact Hrun.
  - intros x a Ha.
    destruct (Hlook x ltac:(by eapply lookup_lt_Some)) as (a' & c & Ha' & Hc & ->).
    rewrite Ha in Ha'. injection Ha' as <-. done.
Qed.

End Controlled_gates.

Lemma apply_mcx_flips_target_witness :
  exists b' : list (complex_t Z),
    apply_mcx false ([1] ++ [0]) (basis (R:=Z) 2 2)
    = Ok tt (set_data_ (basis (R:=Z) 2 2) (Some b')) /\
    length b' = length (reals (R:=Z) [0; 0; 1; 0]%Z) /\
    forall x : nat, (x < length (reals (R:=Z) [0; 0; 1; 0]%Z))%nat ->
      b' !! x = reals (R:=Z) [0; 0; 1; 0]%Z
                  !! (if all_bits_set [1] (Z.of_nat x)
                      then Z.to_nat (Z.lxor (Z.of_nat x) (2 ^ 0))
                      else x).
Proof.
  apply (apply_mcx_flips_target false [1] 0 (basis (R:=Z) 2 2)
           (reals (R:=Z) [0; 0; 1; 0]%Z)).
  - unfold wf. simpl. repeat split; try lia.
    + eexists. split; [reflexivity|]. reflexivity.
    + intros c Hc. discriminate.
  - reflexivity.
  - apply NoDup_ListNoDup. repeat constructor; simpl; intuition lia.
  - repeat constructor; simpl; lia.
Defined.

Lemma apply_mcx_twice_restores_witness :
  (apply_mcx false ([1] ++ [0]);;; apply_mcx false ([1] ++ [0]))%M
    (basis (R:=Z) 2 2)
  = Ok tt (basis (R:=Z) 2 2).
Proof.
  apply (apply_mcx_twice_restores false [1] 0 (basis (R:=Z) 2 2)).
  - unfold wf. simpl. repeat split; try lia.
    + eexists. split; [reflexivity|]. reflexivity.
    + intros c Hc. discriminate.
  - apply NoDup_ListNoDup. repeat constructor; simpl; intuition lia.
  - repeat constructor; simpl; lia.
Defined.

Lemma apply_mcy_rotates_pairs_witness :
  exists b' : list (complex_t Z),
    apply_mcy false ([1] ++ [0]) (basis (R:=Z) 2 2)
    = Ok tt (set_data_ (basis (R:=Z) 2 2) (Some b')) /\
    length b' = length (reals (R:=Z) [0; 0; 1; 0]%Z) /\
    forall x : nat, (x < length (reals (R:=Z) [0; 0; 1; 0]%Z))%nat ->
      exists a c : complex_t Z,
        reals (R:=Z) [0; 0; 1; 0]%Z !! x = Some a /\
        reals (R:=Z) [0; 0; 1; 0]%Z !! Z.to_nat (Z.lxor (Z.of_nat x) (2 ^ 0))
        = Some c /\
        b' !! x = Some (if all_bits_set [1] (Z.of_nat x)
                        then (if Z.testbit (Z.of_nat x) 0
                              then c_mul (Complex d_zero d_one) c
                              else c_mul (c_neg (Complex d_zero d_one)) c)
                        else a).
Proof.
  apply (apply_mcy_rotates_pairs false [1] 0 (basis (R:=Z) 2 2)
           (reals (R:=Z) [0; 0; 1; 0]%Z)).
  - unfold wf. simpl. repeat split; try lia.
    + eexists. split; [reflexivity|]. reflexivity.
    + intros c Hc. discriminate.
  - reflexivity.
  - apply NoDup_ListNoDup. repeat constructor; simpl; intuition lia.
  - repeat constructor; simpl; lia.
Defined.

Lemma apply_mcz_negates_selected_witness :
  exists b' : list (complex_t Z),
    apply_mcz false ([1] ++ [0]) (basis (R:=Z) 2 3)
    = Ok tt (set_data_ (basis (R:=Z) 2 3) (Some b')) /\
    length b' = length (reals (R:=Z) [0; 0; 0; 1]%Z) /\
    forall (x : nat) (a : complex_t Z),
      reals (R:=Z) [0; 0; 0; 1]%Z !! x = Some a ->
      b' !! x = Some (if all_bits_set ([1] ++ [0]) (Z.of_nat x)
                      then c_scale a d_minus_one else a).
Proof.
  apply (apply_mcz_negates_selected false [1] 0 (basis (R:=Z) 2 3)
           (reals (R:=Z) [0; 0; 0; 1]%Z)).
  - unfold wf. simpl. repeat split; try lia.
    + eexists. split; [reflexivity|]. reflexivity.
    + intros c Hc. discriminate.
  - reflexivity.
  - apply NoDup_ListNoDup. repeat constructor; simpl; intuition lia.
  - repeat constructor; simpl; lia.
Defined.

Lemma apply_matrix_1_multiplies_pairs_witness :
  exists b' : list (complex_t Z),
    apply_matrix_1 false 1
      [c_of_double 1%Z; c_of_double 2%Z; c_of_double 3%Z; c_of_double 4%Z]
      (basis (R:=Z) 2 2)
    = Ok tt (set_data_ (basis (R:=Z) 2 2) (Some b')) /\
    length b' = length (reals (R:=Z) [0; 0; 1; 0]%Z) /\
    forall x : nat, (x < length (reals (R:=Z) [0; 0; 1; 0]%Z))%nat ->
      exists a c : complex_t Z,
        reals (R:=Z) [0; 0; 1; 0]%Z !! x = Some a /\
        reals (R:=Z) [0; 0; 1; 0]%Z !! Z.to_nat (Z.lxor (Z.of_nat x) (2 ^ 1))
        = Some c /\
        b' !! x = Some (if Z.testbit (Z.of_nat x) 1
                        then c_add (c_mul (c_of_double 2%Z) c)
                                   (c_mul (c_of_double 4%Z) a)
                        else c_add (c_mul (c_of_double 1%Z) a)
                                   (c_mul (c_of_double 3%Z) c)).
Proof.
  apply (apply_matrix_1_multiplies_pairs false 1
           (c_of_double 1%Z) (c_of_double 2%Z) (c_of_double 3%Z) (c_of_double 4%Z)
           (basis (R:=Z) 2 2) (reals (R:=Z) [0; 0; 1; 0]%Z)).
  - unfold wf. simpl. repeat split; try lia.
    + eexists. split; [reflexivity|]. reflexivity.
    + intros c Hc. discriminate.
  - reflexivity.
  - simpl. lia.
  - reflexivity.
Defined.

Lemma apply_mcswap_exchanges_bits_witness :
  exists b' : list (complex_t Z),
    apply_mcswap false ([2] ++ [0; 1]) (basis (R:=Z) 3 5)
    = Ok tt (set_data_ (basis (R:=Z) 3 5) (Some b')) /\
    length b' = length (reals (R:=Z) [0; 0; 0; 0; 0; 1; 0; 0]%Z) /\
    forall x : nat, (x < length (reals (R:=Z) [0; 0; 0; 0; 0; 1; 0; 0]%Z))%nat ->
      b' !! x
      = reals (R:=Z) [0; 0; 0; 0; 0; 1; 0; 0]%Z
          !! (if all_bits_set [2] (Z.of_nat x)
                 && xorb (Z.testbit (Z.of_nat x) 0) (Z.testbit (Z.of_nat x) 1)
              then Z.to_nat (Z.lxor (Z.lxor (Z.of_nat x) (2 ^ 0)) (2 ^ 1))
              else x).
Proof.
  apply (apply_mcswap_exchanges_bits false [2] 0 1 (basis (R:=Z) 3 5)
           (reals (R:=Z) [0; 0; 0; 0; 0; 1; 0; 0]%Z)).
  - unfold wf. simpl. repeat split; try lia.
    + eexists. split; [reflexivity|]. reflexivity.
    + intros c Hc. discriminate.
  - reflexivity.
  - apply NoDup_ListNoDup. repeat constructor; simpl; intuition lia.
  - repeat constructor; simpl; lia.
Defined.

Lemma apply_diagonal_matrix_1_scales_witness :
  exists b' : list (complex_t Z),
    apply_diagonal_matrix_1 false 1 [c_of_double 2%Z; c_of_double 3%Z]
      (basis (R:=Z) 2 2)
    = Ok tt (set_data_ (basis (R:=Z) 2 2) (Some b')) /\
    length b' = length (reals (R:=Z) [0; 0; 1; 0]%Z) /\
    forall (x : nat) (a : complex_t Z),
      reals (R:=Z) [0; 0; 1; 0]%Z !! x = Some a ->
      b' !! x = Some (if Z.testbit (Z.of_nat x) 1
                      then c_mul a (c_of_double 3%Z)
                      else c_mul a (c_of_double 2%Z)).
Proof.
  apply (apply_diagonal_matrix_1_scales false 1
           (c_of_double 2%Z) (c_of_double 3%Z)
           (basis (R:=Z) 2 2) (reals (R:=Z) [0; 0; 1; 0]%Z)).
  - unfold wf. simpl. repeat split; try lia.
    + eexists. split; [reflexivity|]. reflexivity.
    + intros c Hc. discriminate.
  - reflexivity.
  - simpl. lia.
  - reflexivity.
  - reflexivity.
Defined.

(** The same call in binary64 arithmetic on an infinite amplitude: the
    product of [(inf, inf)] and [2] is [(inf, inf)], not the
    [(nan, nan)] of the componentwise formula. *)
Example apply_diagonal_matrix_1_scales_binary64 :
  apply_diagonal_matrix_1 false 0 [c_of_double 2; c_of_double 3]%float
    (qv_of 1 [Complex infinity infinity; Complex 1 1]%float)
  = Ok tt (qv_of 1 [Complex infinity infinity; Complex 3 3]%float).
Proof. vm_compute. reflexivity. Qed.

Lemma apply_diagonal_matrix_1_phase_on_one_witness :
  exists b' : list (complex_t Z),
    apply_diagonal_matrix_1 false 1 [Complex 0%Z 1%Z; c_of_double 1%Z]
      (basis (R:=Z) 2 2)
    = Ok tt (set_data_ (basis (R:=Z) 2 2) (Some b')) /\
    length b' = length (reals (R:=Z) [0; 0; 1; 0]%Z) /\
    forall (x : nat) (a : complex_t Z),
      reals (R:=Z) [0; 0; 1; 0]%Z !! x = Some a ->
      b' !! x = Some (if Z.testbit (Z.of_nat x) 1
                      then Complex (d_mul (imag a) d_minus_one) (real a)
                      else a).
Proof.
  apply (apply_diagonal_matrix_1_phase_on_one false 1
           (Complex 0%Z 1%Z) (c_of_double 1%Z)
           (basis (R:=Z) 2 2) (reals (R:=Z) [0; 0; 1; 0]%Z)).
  - unfold wf. simpl. repeat split; try lia.
    + eexists. split; [reflexivity|]. reflexivity.
    + intros c Hc. discriminate.
  - reflexivity.
  - simpl. lia.
  - reflexivity.
  - reflexivity.
  - reflexivity.
  - reflexivity.
Defined.

(** ** Sorting and expanding the matrix of a pair *)

Section Pair_matrices.
Context {R : Type} `{Double R}.

Lemma std_sort_pair (a b : Z) :
  std_sort [a; b] = if decide (a <= b) then [a; b] else [b; a].
Proof. reflexivity. Qed.

Lemma sort_matrix_ascending {St} (a b : Z) (M : list (complex_t R)) (s : St) :
  sort_matrix [a; b] [a; b] M s = Ok M s.
Proof.
  unfold sort_matrix. simpl length. rewrite BITS_at by lia.
  erewrite bind_run by reflexivity.
  unfold sort_matrix_loop. by rewrite decide_True by done.
Qed.

Lemma sort_matrix_loop_done {St} (rounds : nat) (current : list Z)
    (ret_ : list (complex_t R)) (DIM : Z) (s : St) :
  sort_matrix_loop rounds current current ret_ DIM s = Ok ret_ s.
Proof. destruct rounds; simpl; by rewrite decide_True by done. Qed.

Lemma sort_matrix_loop_step {St} (rounds : nat) (current sorted : list Z)
    (ret_ : list (complex_t R)) (DIM : Z) :
  current <> sorted ->
  sort_matrix_loop (St:=St) (S rounds) current sorted ret_ DIM
  = (let size := length current in
     from <- lift (find_from current sorted 0 size);;
     if decide (from = size) then ret ret_
     else
       x <- lift (current !! from);;
       to <- lift (find_to x sorted (S from) (size - S from));;
       if decide (to = size)
       then throw "QubitVector<data_t>::sort_matrix we should not reach here"
       else
         ret' <- lift (swap_cols_and_rows (Z.of_nat from) (Z.of_nat to) ret_ DIM);;
         y <- lift (current !! to);;
         let current := <[to := x]> (<[from := y]> current) in
         sort_matrix_loop rounds current sorted ret' DIM)%M.
Proof. intros Hne. simpl. by rewrite decide_False by done. Qed.

Lemma sort_matrix_descending {St} (a b : Z) (M : list (complex_t R)) (s : St) :
  a <> b ->
  sort_matrix [a; b] [b; a] M s = lift (swap_cols_and_rows 0 1 M 4) s.
Proof.
  intros Hne. unfold sort_matrix.
  change (at_ BITS (Z.of_nat (length [a; b]))) with (Some 4).
  erewrite bind_run by reflexivity.
  change (length [a; b]) with 2%nat.
  rewrite sort_matrix_loop_step by congruence.
  cbv zeta. change (length [a; b]) with 2%nat.
  assert (find_from [a; b] [b; a] 0 2 = Some 0%nat) as ->.
  { simpl. by rewrite decide_True by done. }
  erewrite bind_run by reflexivity.
  rewrite decide_False by lia.
  erewrite bind_run by reflexivity.
  assert (find_to a [b; a] 1 (2 - 1) = Some 1%nat) as ->.
  { simpl. by rewrite decide_True by done. }
  erewrite bind_run by reflexivity.
  rewrite decide_False by lia.
  change (Z.of_nat 0) with 0. change (Z.of_nat 1) with 1.
  unfold lift at 1 3. unfold bind at 1.
  destruct (swap_cols_and_rows 0 1 M 4) as [M'|]; [|done].
  change (ret M' s) with (Ok M' s). cbv beta iota.
  erewrite bind_run by reflexivity.
  apply sort_matrix_loop_done.
Qed.

(** The 4x4 matrix with the rows 1 and 2 and the columns 1 and 2
    exchanged. *)
Lemma swap_cols_and_rows_4 (m00 m10 m20 m30 m01 m11 m21 m31
                            m02 m12 m22 m32 m03 m13 m23 m33 : complex_t R) :
  swap_cols_and_rows 0 1
    [m00; m10; m20; m30; m01; m11; m21; m31;
     m02; m12; m22; m32; m03; m13; m23; m33] 4
  = Some [m00; m20; m10; m30; m02; m22; m12; m32;
          m01; m21; m11; m31; m03; m23; m13; m33].
Proof. reflexivity. Qed.

Lemma expand_loop_identity (m00 m10 m20 m30 m01 m11 m21 m31
                            m02 m12 m22 m32 m03 m13 m23 m33 : complex_t R) :
  expand_loop [0; 1; 2; 3] 4 4
    [m00; m10; m20; m30; m01; m11; m21; m31;
     m02; m12; m22; m32; m03; m13; m23; m33]
    (replicate 16 c_zero) (replicate 4 false)
  = Some ([m00; m10; m20; m30; m01; m11; m21; m31;
           m02; m12; m22; m32; m03; m13; m23; m33], replicate 4 true).
Proof. reflexivity. Qed.

Lemma expand_loop_swapped (m00 m10 m20 m30 m01 m11 m21 m31
                           m02 m12 m22 m32 m03 m13 m23 m33 : complex_t R) :
  expand_loop [0; 2; 1; 3] 4 4
    [m00; m20; m10; m30; m02; m22; m12; m32;
     m01; m21; m11; m31; m03; m23; m13; m33]
    (replicate 16 c_zero) (replicate 4 false)
  = Some ([m00; m10; m20; m30; m01; m11; m21; m31;
           m02; m12; m22; m32; m03; m13; m23; m33], replicate 4 true).
Proof. reflexivity. Qed.

Lemma list_of_length_16 {A} (M : list A) :
  length M = 16%nat ->
  exists m00 m10 m20 m30 m01 m11 m21 m31 m02 m12 m22 m32 m03 m13 m23 m33,
    M = [m00; m10; m20; m30; m01; m11; m21; m31;
         m02; m12; m22; m32; m03; m13; m23; m33].
Proof.
  intros Hlen.
  do 16 (destruct M as [|? M]; [done|]). destruct M; [|done].
  by repeat eexists.
Qed.

(** X24. [sort_matrix] on the 4x4 matrix of two distinct qubits and their
    sorted list: an ascending pair leaves the matrix as it is; a descending
    pair exchanges its rows 1 and 2 and its columns 1 and 2 (entry
    [(r, c)] of the result is entry [(r', c')] of the argument, where
    [r'] and [c'] have the two bits of [r] and [c] exchanged). *)
Theorem sort_matrix_pair {St} (a b : Z) (M : list (complex_t R)) (s : St) :
  a <> b -> length M = 16%nat ->
  exists M' : list (complex_t R),
    sort_matrix [a; b] (std_sort [a; b]) M s = Ok M' s /\
    length M' = 16%nat /\
    forall r c : nat, (r < 4)%nat -> (c < 4)%nat ->
      M' !! (r + 4 * c)%nat
      = if decide (a < b) then M !! (r + 4 * c)%nat
        else M !! (swap_two_bits r + 4 * swap_two_bits c)%nat.
Proof.
  intros Hne Hlen. rewrite std_sort_pair.
  destruct (decide (a <= b)) as [Hle|Hgt].
  - exists M. rewrite sort_matrix_ascending. split; [done|]. split; [done|].
    intros r c Hr Hc. by rewrite decide_True by lia.
  - destruct (list_of_length_16 M Hlen)
      as (m00 & m10 & m20 & m30 & m01 & m11 & m21 & m31 &
          m02 & m12 & m22 & m32 & m03 & m13 & m23 & m33 & ->).
    rewrite sort_matrix_descending by done.
    rewrite swap_cols_and_rows_4. eexists. split; [reflexivity|].
    split; [done|]. intros r c Hr Hc. rewrite decide_False by lia.
    do 4 (destruct r as [|r]; [do 4 (destruct c as [|c]; [done|]); lia|]). lia.
Qed.

(** X25. [expand_matrix] on the 4x4 matrix of two distinct qubits, with
    the sorted pair as the destination, returns the matrix it was given,
    for an ascending and for a descending pair alike: for a descending pair
    the offsets are taken from the unsorted pair and undo the exchange that
    [sort_matrix] has made. *)
Theorem expand_matrix_own_pair {St} (a b : Z) (M : list (complex_t R)) (s : St) :
  a <> b -> length M = 16%nat ->
  expand_matrix [a; b] (std_sort [a; b]) M s = Ok M s.
Proof.
  intros Hne Hlen.
  destruct (list_of_length_16 M Hlen)
    as (m00 & m10 & m20 & m30 & m01 & m11 & m21 & m31 &
        m02 & m12 & m22 & m32 & m03 & m13 & m23 & m33 & ->).
  unfold expand_matrix.
  assert (length (std_sort [a; b]) = 2%nat) as Hl2.
  { rewrite std_sort_pair. by case_decide. }
  rewrite Hl2.
  change (at_ BITS (Z.of_nat 2)) with (Some 4).
  change (at_ BITS (Z.of_nat (length [a; b]))) with (Some 4).
  erewrite bind_run by reflexivity. erewrite bind_run by reflexivity.
  erewrite bind_run by reflexivity.
  rewrite decide_False by done. rewrite decide_True by done.
  change (at_ [a; b] 0) with (Some a). change (at_ [a; b] 1) with (Some b).
  change (Z.to_nat (wrap64 (wrap64 (4 * 4)))) with 16%nat.
  change (Z.to_nat 4) with 4%nat.
  rewrite std_sort_pair.
  destruct (decide (a <= b)) as [Hle|Hgt].
  - erewrite bind_run by apply sort_matrix_ascending.
    erewrite bind_run by reflexivity. erewrite bind_run by reflexivity.
    assert (find_index [a; b] a = 0) as ->.
    { simpl. by rewrite decide_True by done. }
    assert (find_index [a; b] b = 1) as ->.
    { simpl. rewrite decide_False by done. by rewrite decide_True by done. }
    change (at_ BITS 0) with (Some 1). change (at_ BITS 1) with (Some 2).
    erewrite bind_run by reflexivity. erewrite bind_run by reflexivity.
    change (wrap64 (1 + 2)) with 3.
    rewrite expand_loop_identity. reflexivity.
  - erewrite bind_run.
    2: { rewrite sort_matrix_descending by done.
         rewrite swap_cols_and_rows_4. reflexivity. }
    erewrite bind_run by reflexivity. erewrite bind_run by reflexivity.
    assert (find_index [b; a] a = 1) as ->.
    { simpl. rewrite decide_False by done. by rewrite decide_True by done. }
    assert (find_index [b; a] b = 0) as ->.
    { simpl. by rewrite decide_True by done. }
    change (at_ BITS 0) with (Some 1). change (at_ BITS 1) with (Some 2).
    erewrite bind_run by reflexivity. erewrite bind_run by reflexivity.
    change (wrap64 (2 + 1)) with 3.
    rewrite expand_loop_swapped. reflexivity.
Qed.

End Pair_matrices.

Lemma sort_matrix_pair_witness :
  exists M' : list (complex_t Z),
    sort_matrix [1; 0] (std_sort [1; 0]) (CX_matrix (R:=Z)) tt = Ok M' tt /\
    length M' = 16%nat /\
    forall r c : nat, (r < 4)%nat -> (c < 4)%nat ->
      M' !! (r + 4 * c)%nat
      = if decide (1 < 0) then CX_matrix (R:=Z) !! (r + 4 * c)%nat
        else CX_matrix (R:=Z) !! (swap_two_bits r + 4 * swap_two_bits c)%nat.
Proof.
  apply (sort_matrix_pair 1 0 (CX_matrix (R:=Z)) tt).
  - lia.
  - reflexivity.
Defined.

Lemma expand_matrix_own_pair_witness :
  expand_matrix [1; 0] (std_sort [1; 0]) (CX_matrix (R:=Z)) tt
  = Ok (CX_matrix (R:=Z)) tt.
Proof.
  apply (expand_matrix_own_pair 1 0 (CX_matrix (R:=Z)) tt).
  - lia.
  - reflexivity.
Defined.

(** ** Kernels that rewrite a whole block *)

Section Scatter.
Context {A : Type}.

Lemma scatter_length (T : list Z) (ws : list A) (b : list A) :
  length (scatter T ws b) = length b.
Proof.
  unfold scatter. revert b.
  induction (zip T ws) as [|tw l IH]; intros b; [done|].
  simpl. by rewrite IH, length_insert.
Qed.

Lemma scatter_cons (t : Z) (T : list Z) (w : A) (ws : list A) (b : list A) :
  scatter (t :: T) (w :: ws) b = scatter T ws (<[Z.to_nat t := w]> b).
Proof. reflexivity. Qed.

Lemma scatter_snoc (t : Z) (T : list Z) (w : A) (ws : list A) (b : list A) :
  length T = length ws ->
  scatter (T ++ [t]) (ws ++ [w]) b = <[Z.to_nat t := w]> (scatter T ws b).
Proof.
  intros Hlen. unfold scatter.
  rewrite zip_with_app by done. by rewrite foldl_app.
Qed.

Lemma scatter_lookup_out (T : list Z) (ws : list A) (x : nat) : forall b : list A,
  (forall t, t ∈ T -> Z.to_nat t <> x) ->
  scatter T ws b !! x = b !! x.
Proof.
  revert ws. induction T as [|t T IH]; intros ws b Hout; [done|].
  destruct ws as [|w ws]; [done|]. rewrite scatter_cons.
  rewrite IH by (intros t' Ht'; apply Hout; by right).
  apply list_lookup_insert_ne. apply Hout. by left.
Qed.

Lemma scatter_lookup_in (T : list Z) : forall (ws b : list A) (i : nat) t w,
  NoDup (Z.to_nat <$> T) ->
  T !! i = Some t -> ws !! i = Some w -> (Z.to_nat t < length b)%nat ->
  scatter T ws b !! Z.to_nat t = Some w.
Proof.
  induction T as [|t0 T IH]; intros ws b i t w Hnd Ht Hw Hlen; [done|].
  destruct ws as [|w0 ws]; [done|]. rewrite scatter_cons.
  rewrite fmap_cons in Hnd. apply NoDup_cons in Hnd as [Hnot Hnd].
  destruct i as [|i]; simpl in Ht, Hw.
  - injection Ht as ->. injection Hw as ->.
    rewrite scatter_lookup_out.
    + by apply list_lookup_insert_eq.
    + intros t' Ht' Heq. apply Hnot. rewrite <- Heq.
      by apply list_elem_of_fmap_2.
  - apply (IH ws _ i); try done. by rewrite length_insert.
Qed.

Lemma gather_length (d : A) (T : list Z) (b : list A) :
  length (gather d T b) = length T.
Proof. unfold gather. by rewrite length_fmap. Qed.

Lemma gather_ext (d : A) (T : list Z) (b1 b2 : list A) :
  (forall t, t ∈ T -> b1 !! Z.to_nat t = b2 !! Z.to_nat t) ->
  gather d T b1 = gather d T b2.
Proof.
  intros Hext. unfold gather. apply list_fmap_ext.
  intros i t Ht. rewrite Hext; [done|]. by eapply list_elem_of_lookup_2.
Qed.

Lemma gather_lookup (d : A) (T : list Z) (b : list A) (i : nat) t v :
  T !! i = Some t -> b !! Z.to_nat t = Some v -> gather d T b !! i = Some v.
Proof.
  intros Ht Hv. unfold gather. rewrite list_lookup_fmap, Ht. simpl. by rewrite Hv.
Qed.

(** Rewriting the blocks [tab k] one after the other, each from its own
    old contents, when no index lies in two blocks. *)
Lemma block_scatter_fold (F : list A -> list A) (tab : nat -> list Z) (d : A)
    (ks : list nat) : forall b : list A,
  NoDup ks ->
  (forall k, k ∈ ks ->
     NoDup (Z.to_nat <$> tab k) /\
     Forall (fun t => 0 <= t < Z.of_nat (length b)) (tab k)) ->
  (forall k k' t, k ∈ ks -> k' ∈ ks -> t ∈ tab k -> t ∈ tab k' -> k = k') ->
  (forall k vs, k ∈ ks -> length vs = length (tab k) -> length (F vs) = length vs) ->
  length (foldl (fun bb k => scatter (tab k) (F (gather d (tab k) bb)) bb) b ks)
  = length b /\
  (forall k i t, k ∈ ks -> tab k !! i = Some t ->
     foldl (fun bb k => scatter (tab k) (F (gather d (tab k) bb)) bb) b ks
       !! Z.to_nat t
     = F (gather d (tab k) b) !! i) /\
  (forall x, (forall k t, k ∈ ks -> t ∈ tab k -> Z.to_nat t <> x) ->
     foldl (fun bb k => scatter (tab k) (F (gather d (tab k) bb)) bb) b ks !! x
     = b !! x).
Proof.
  induction ks as [|k0 ks IH]; intros b Hnd Htab Hdis HF.
  - simpl. split; [done|]. split; [|done].
    intros k i t Hk. by apply elem_of_nil in Hk.
  - apply NoDup_cons in Hnd as [Hk0 Hnd]. simpl.
    set (b1 := scatter (tab k0) (F (gather d (tab k0) b)) b).
    assert (length b1 = length b) as Hlen1 by apply scatter_length.
    destruct (IH b1 Hnd) as (IHlen & IHin & IHout).
    { intros k Hk. rewrite Hlen1. apply Htab. by right. }
    { intros k k' t Hk Hk'. apply Hdis; by right. }
    { intros k vs Hk. apply HF. by right. }
    assert (forall k t t0, k ∈ ks -> t ∈ tab k -> t0 ∈ tab k0 ->
              Z.to_nat t0 <> Z.to_nat t) as Hapart.
    { intros k t t0 Hk Ht Ht0 Heq.
      destruct (Htab k ltac:(by right)) as [_ Hr].
      destruct (Htab k0 ltac:(by left)) as [_ Hr0].
      rewrite Forall_forall in Hr, Hr0.
      specialize (Hr t Ht). specialize (Hr0 t0 Ht0).
      assert (t0 = t) as -> by lia.
      apply Hk0. rewrite <- (Hdis k k0 t); [done | by right | by left | done..]. }
    split; [by rewrite IHlen|]. split.
    + intros k i t [->|Hk]%elem_of_cons Ht.
      * rewrite IHout.
        2: { intros k t' Hk Ht'. apply not_eq_sym.
             apply (Hapart k t' t Hk Ht'). by eapply list_elem_of_lookup_2. }
        destruct (Htab k0 ltac:(by left)) as [Hnd0 Hr0].
        assert (i < length (F (gather d (tab k0) b)))%nat as Hi.
        { rewrite (HF k0), gather_length; [|by left|by rewrite gather_length].
          by eapply lookup_lt_Some. }
        destruct (lookup_lt_is_Some_2 _ _ Hi) as [w Hw].
        rewrite Hw. apply (scatter_lookup_in _ _ _ i); try done.
        rewrite Forall_forall in Hr0.
        specialize (Hr0 t ltac:(by eapply list_elem_of_lookup_2)). lia.
      * rewrite (IHin k i t Hk Ht). f_equal. f_equal.
        apply gather_ext. intros t' Ht'. apply scatter_lookup_out.
        intros t0 Ht0. by apply (Hapart k t' t0).
    + intros x Hx. rewrite IHout.
      2: { intros k t Hk Ht. apply (Hx k t); [by right | done]. }
      apply scatter_lookup_out. intros t Ht. apply (Hx k0 t); [by left | done].
Qed.

End Scatter.

Section Block_kernels.
Context {R : Type} `{Double R}.

(** The block loop on distinct qubits of the register for a kernel that
    rewrites the whole block from its old contents [vs] to [F vs]. *)
Lemma block_scatter_run (DEBUG : bool) (func : list Z -> M (buffer R) unit)
    (F : list (complex_t R) -> list (complex_t R))
    (qubits : list Z) (s : QubitVector R) (b : list (complex_t R)) :
  wf s -> data_ s = Some b -> NoDup qubits ->
  Forall (fun q => 0 <= q < num_qubits_ s) qubits ->
  (forall vs, length vs = (2 ^ length qubits)%nat -> length (F vs) = length vs) ->
  (forall (T : list Z) (b' : list (complex_t R)),
     length T = (2 ^ length qubits)%nat -> NoDup (Z.to_nat <$> T) ->
     Forall (fun t => 0 <= t < Z.of_nat (length b')) T ->
     func T b' = Ok tt (scatter T (F (gather c_zero T b')) b')) ->
  exists b' : list (complex_t R),
    apply_lambda DEBUG func qubits s = Ok tt (set_data_ s (Some b')) /\
    length b' = length b /\
    forall k : nat,
      (k < Z.to_nat (2 ^ (num_qubits_ s - Z.of_nat (length qubits))))%nat ->
      exists vs : list (complex_t R),
        length vs = (2 ^ length qubits)%nat /\
        (forall j : nat, (j < 2 ^ length qubits)%nat ->
           b !! Z.to_nat (block_entry qubits (Z.of_nat k) (Z.of_nat j)) = vs !! j) /\
        forall i : nat, (i < 2 ^ length qubits)%nat ->
          b' !! Z.to_nat (block_entry qubits (Z.of_nat k) (Z.of_nat i)) = F vs !! i.
Proof.
  intros Hwf Hb Hnd Hr HF Hker.
  pose proof Hwf as (HN & Hsize & (b0 & Hb0 & Hlen) & _).
  rewrite Hb in Hb0. injection Hb0 as <-. rewrite Hsize in Hlen.
  assert (0 <= num_qubits_ s <= 63) as HN' by lia.
  pose proof (std_sort_sorted qubits Hnd) as Hs.
  pose proof (std_sort_perm qubits) as Hperm'.
  assert (qubits ≡ₚ std_sort qubits) as Hperm by done.
  assert (Forall (fun q => 0 <= q < num_qubits_ s) (std_sort qubits)) as Hr'.
  { by rewrite Hperm'. }
  assert (length (std_sort qubits) = length qubits) as Hlq by (by rewrite Hperm').
  set (K := Z.to_nat (2 ^ (num_qubits_ s - Z.of_nat (length qubits)))).
  set (tab := fun k : nat =>
                index_table qubits (insert_zero_bits (std_sort qubits) (Z.of_nat k))
                  (length qubits)).
  assert (forall k : nat, (k < K)%nat ->
            0 <= Z.of_nat k
            < 2 ^ (num_qubits_ s - Z.of_nat (length (std_sort qubits))))
    as HkK.
  { intros k Hk. rewrite Hlq. unfold K in Hk. lia. }
  assert (forall (k : nat) i, (k < K)%nat ->
            0 <= block_entry qubits (Z.of_nat k) i < Z.of_nat (length b))
    as Hrange.
  { intros k i Hk. rewrite Hlen.
    apply (blocks_range (num_qubits_ s) _ _ HN' Hs Hr' Hperm). by apply HkK. }
  assert (forall (k k' i i' : nat),
            (i < 2 ^ length qubits)%nat -> (i' < 2 ^ length qubits)%nat ->
            block_entry qubits (Z.of_nat k) (Z.of_nat i)
            = block_entry qubits (Z.of_nat k') (Z.of_nat i') ->
            k = k' /\ i = i') as Hinj.
  { intros k k' i i' Hi Hi' Heq.
    destruct (blocks_inj (num_qubits_ s) _ _ Hs Hr' Hperm
                (Z.of_nat k) (Z.of_nat k') i i') as [Hkk Hii];
      [lia | lia | by rewrite Hlq | by rewrite Hlq | done |].
    split; [lia | done]. }
  assert (forall k i : nat, (i < 2 ^ length qubits)%nat ->
            tab k !! i = Some (block_entry qubits (Z.of_nat k) (Z.of_nat i)))
    as Htab.
  { intros k i Hi. unfold tab. rewrite <- Hlq.
    apply (blocks_table_lookup _ qubits Hperm). by rewrite Hlq. }
  assert (forall k, length (tab k) = (2 ^ length qubits)%nat) as Htablen.
  { intros k. apply index_table_length. }
  assert (forall k i t, tab k !! i = Some t ->
            (i < 2 ^ length qubits)%nat /\
            t = block_entry qubits (Z.of_nat k) (Z.of_nat i)) as Htab'.
  { intros k i t Ht.
    assert (i < 2 ^ length qubits)%nat as Hi.
    { rewrite <- (Htablen k). by eapply lookup_lt_Some. }
    split; [done|]. rewrite Htab in Ht by done. congruence. }
  assert (forall (k : nat) (b' : list (complex_t R)), (k < K)%nat ->
            length b' = length b ->
            NoDup (Z.to_nat <$> tab k) /\
            Forall (fun t => 0 <= t < Z.of_nat (length b')) (tab k)) as Hgood.
  { intros k b' Hk Hlen'. split.
    - apply NoDup_alt. intros i i' x Hi Hi'.
      rewrite list_lookup_fmap in Hi, Hi'.
      destruct (tab k !! i) as [t|] eqn:Ht; [|done].
      destruct (tab k !! i') as [t'|] eqn:Ht'; [|done].
      apply Htab' in Ht as [Hil ->]. apply Htab' in Ht' as [Hil' ->].
      simpl in Hi, Hi'.
      pose proof (Hrange k (Z.of_nat i) Hk). pose proof (Hrange k (Z.of_nat i') Hk).
      assert (block_entry qubits (Z.of_nat k) (Z.of_nat i)
              = block_entry qubits (Z.of_nat k) (Z.of_nat i')) as Heq.
      { apply Z2Nat.inj; [lia | lia | congruence]. }
      by apply Hinj in Heq as [_ Heq].
    - apply Forall_lookup_2. intros i t Ht.
      apply Htab' in Ht as [Hil ->]. rewrite Hlen'. by apply Hrange. }
  (* the run *)
  assert (apply_lambda DEBUG func qubits s
          = Ok tt (set_data_ s
                     (Some (foldl (fun bb k =>
                                     scatter (tab k) (F (gather c_zero (tab k) bb)) bb)
                              b (seq 0 K)))))
    as Hrun.
  { apply (apply_lambda_run DEBUG _
             (fun k bb => scatter (tab k) (F (gather c_zero (tab k) bb)) bb));
      try done.
    intros k b' Hk Hlen'. fold K in Hk. split; [|by rewrite scatter_length].
    destruct (Hgood k b' Hk Hlen') as [Hnd' Hr''].
    by apply Hker. }
  destruct (block_scatter_fold F tab c_zero (seq 0 K) b) as (Hl & Hin & _).
  { apply NoDup_seq. }
  { intros k Hk%elem_of_seq. apply Hgood; [lia | done]. }
  { intros k k' t Hk%elem_of_seq Hk'%elem_of_seq
      [i Ht]%list_elem_of_lookup_1 [i' Ht']%list_elem_of_lookup_1.
    apply Htab' in Ht as [Hil ->]. apply Htab' in Ht' as [Hil' Heq].
    by apply Hinj in Heq as [Heq _]. }
  { intros k vs _ Hvs. apply HF. by rewrite Hvs, Htablen. }
  eexists. split; [exact Hrun|]. split; [exact Hl|].
  intros k Hk. fold K in Hk. exists (gather c_zero (tab k) b).
  split; [by rewrite gather_length|]. split.
  - intros j Hj. pose proof (Hrange k (Z.of_nat j) Hk) as Hrj.
    destruct (lookup_lt_is_Some_2 b
                (Z.to_nat (block_entry qubits (Z.of_nat k) (Z.of_nat j)))
                ltac:(lia)) as [v Hv].
    rewrite Hv. symmetry. by apply (gather_lookup _ _ _ _ _ _ (Htab k j Hj)).
  - intros i Hi.
    by rewrite (Hin k i _ ltac:(apply elem_of_seq; lia) (Htab k i Hi)).
Qed.

(** A loop that writes [ws[i]] at [T[i]] in round [i]; the round may read
    the entries that later rounds write, which still hold their old
    values. *)
Lemma scatter_loop (body : nat -> M (buffer R) unit) (T : list Z)
    (ws b' : list (complex_t R)) :
  length ws = length T -> NoDup (Z.to_nat <$> T) ->
  Forall (fun t => 0 <= t < Z.of_nat (length b')) T ->
  (forall (i : nat) t w (bb : list (complex_t R)),
     T !! i = Some t -> ws !! i = Some w -> length bb = length b' ->
     (forall (j : nat) t', (i <= j)%nat -> T !! j = Some t' ->
        bb !! Z.to_nat t' = b' !! Z.to_nat t') ->
     body i bb = Ok tt (<[Z.to_nat t := w]> bb)) ->
  for_ body 0 (length T) b' = Ok tt (scatter T ws b').
Proof.
  intros Hlen Hnd Hr Hbody.
  assert (forall count i : nat, (i + count = length T)%nat ->
            for_ body i count (scatter (take i T) (take i ws) b')
            = Ok tt (scatter T ws b')) as Hloop.
  { induction count as [|c IH]; intros i Hi.
    - rewrite !take_ge by lia. done.
    - destruct (lookup_lt_is_Some_2 T i ltac:(lia)) as [t Ht].
      destruct (lookup_lt_is_Some_2 ws i ltac:(lia)) as [w Hw].
      rewrite for__S. erewrite bind_run.
      2: { apply (Hbody i t w); try done.
           - apply scatter_length.
           - intros j t' Hj Ht'. apply scatter_lookup_out.
             intros t0 [i0 Ht0]%list_elem_of_lookup_1 Heq.
             apply lookup_take_Some in Ht0 as [Ht0 Hi0].
             assert (i0 = j); [|lia].
             apply (NoDup_lookup _ i0 j (Z.to_nat t') Hnd).
             + by rewrite list_lookup_fmap, Ht0, <- Heq.
             + by rewrite list_lookup_fmap, Ht'. }
      rewrite <- scatter_snoc by (rewrite !length_take; lia).
      rewrite <- (take_S_r T i t Ht), <- (take_S_r ws i w Hw).
      apply IH. lia. }
  apply (Hloop (length T) 0%nat). lia.
Qed.

(** The kernel of [apply_diagonal_matrix(qubits, diag)]. *)
Lemma diagonal_kernel_run (diag : list (complex_t R)) (T : list Z)
    (b' : list (complex_t R)) :
  length diag = length T -> NoDup (Z.to_nat <$> T) ->
  Forall (fun t => 0 <= t < Z.of_nat (length b')) T ->
  diagonal_kernel (Z.of_nat (length T)) diag T b'
  = Ok tt (scatter T (zip_with c_mul (gather c_zero T b') diag) b').
Proof.
  intros Hdiag Hnd Hr. unfold diagonal_kernel. rewrite Nat2Z.id.
  apply scatter_loop; try done.
  { rewrite length_zip_with, gather_length. lia. }
  intros i t w bb Ht Hw Hlen Hkeep.
  apply lookup_zip_with_Some in Hw as (v & m & -> & Hv & Hm).
  rewrite Ht, Hm.
  erewrite bind_run by reflexivity. erewrite bind_run by reflexivity.
  pose proof (Forall_lookup_1 _ _ _ _ Hr Ht) as Htr. simpl in Htr.
  destruct (lookup_lt_is_Some_2 b' (Z.to_nat t) ltac:(lia)) as [a Ha].
  rewrite (gather_lookup _ _ _ _ _ a Ht Ha) in Hv. injection Hv as <-.
  erewrite bind_run.
  2: { apply rd_run; [lia|]. rewrite (Hkeep i t) by done. exact Ha. }
  apply wr_run. lia.
Qed.

Lemma check_vector_pass (vec : list (complex_t R)) (n : Z) (s : QubitVector R) :
  0 <= n < 64 -> Z.of_nat (length vec) = 2 ^ n -> check_vector vec n s = Ok tt s.
Proof.
  intros Hn Hlen. unfold check_vector. rewrite BITS_at by done.
  erewrite bind_run by reflexivity. by rewrite decide_False by lia.
Qed.

(** X26. [apply_diagonal_matrix(qubits, diag)] on a well-formed state, for
    distinct qubits of the register (any number but one) and a diagonal of
    [2^n] entries: the call returns and the amplitude [a] at entry [i] of
    every block becomes [a * diag[i]]. *)
Theorem apply_diagonal_matrix_scales_blocks (DEBUG : bool) (qubits : list Z)
    (diag : list (complex_t R)) (s : QubitVector R) (b : list (complex_t R)) :
  wf s -> data_ s = Some b -> NoDup qubits ->
  Forall (fun q => 0 <= q < num_qubits_ s) qubits ->
  length qubits <> 1%nat -> length diag = (2 ^ length qubits)%nat ->
  exists b' : list (complex_t R),
    apply_diagonal_matrix DEBUG qubits diag s = Ok tt (set_data_ s (Some b')) /\
    length b' = length b /\
    forall (k i : nat) (a m : complex_t R),
      (k < Z.to_nat (2 ^ (num_qubits_ s - Z.of_nat (length qubits))))%nat ->
      b !! Z.to_nat (block_entry qubits (Z.of_nat k) (Z.of_nat i)) = Some a ->
      diag !! i = Some m ->
      b' !! Z.to_nat (block_entry qubits (Z.of_nat k) (Z.of_nat i))
      = Some (c_mul a m).
Proof.
  intros Hwf Hb Hnd Hr Hn1 Hdiag.
  pose proof Hwf as (HN & _).
  pose proof (NoDup_range_length _ _ Hnd Hr) as Hn.
  destruct (block_scatter_run DEBUG
              (diagonal_kernel (2 ^ Z.of_nat (length qubits)) diag)
              (fun vs => zip_with c_mul vs diag) qubits s b Hwf Hb Hnd Hr)
    as (b' & Hrun & Hlen & Hblock).
  { intros vs Hvs. rewrite length_zip_with. lia. }
  { intros T b' HT HndT HrT.
    rewrite <- of_nat_pow2, <- HT. apply diagonal_kernel_run; try done. lia. }
  exists b'. split; [|split; [done|]].
  - unfold apply_diagonal_matrix. erewrite bind_run.
    2: { instantiate (1 := s). instantiate (1 := tt). destruct DEBUG; [|done].
         apply check_vector_pass; [lia|]. rewrite Hdiag. apply of_nat_pow2. }
    rewrite decide_False by lia. rewrite BITS_at by lia.
    erewrite bind_run by reflexivity. exact Hrun.
  - intros k i a m Hk Ha Hm.
    destruct (Hblock k Hk) as (vs & Hvs & Hold & Hnew).
    assert (i < 2 ^ length qubits)%nat as Hi.
    { rewrite <- Hdiag. by eapply lookup_lt_Some. }
    rewrite Hnew by done. apply lookup_zip_with_Some.
    exists a, m. split; [done|]. split; [|done]. by rewrite <- Hold.
Qed.

(** X27. [initialize_component(qubits, state)] on a well-formed state, for
    distinct qubits of the register and a vector of [2^n] entries: the call
    returns and entry [i] of every block becomes [c * state[i]], where [c]
    is the amplitude that entry 0 of the block held before the call. *)
Theorem initialize_component_fills_blocks (DEBUG : bool) (qubits : list Z)
    (state : list (complex_t R)) (s : QubitVector R) (b : list (complex_t R)) :
  wf s -> data_ s = Some b -> NoDup qubits ->
  Forall (fun q => 0 <= q < num_qubits_ s) qubits ->
  length state = (2 ^ length qubits)%nat ->
  exists b' : list (complex_t R),
    initialize_component DEBUG qubits state s = Ok tt (set_data_ s (Some b')) /\
    length b' = length b /\
    forall (k i : nat) (c x : complex_t R),
      (k < Z.to_nat (2 ^ (num_qubits_ s - Z.of_nat (length qubits))))%nat ->
      b !! Z.to_nat (block_entry qubits (Z.of_nat k) 0) = Some c ->
      state !! i = Some x ->
      b' !! Z.to_nat (block_entry qubits (Z.of_nat k) (Z.of_nat i))
      = Some (c_mul c x).
Proof.
  intros Hwf Hb Hnd Hr Hstate.
  pose proof Hwf as (HN & _).
  pose proof (NoDup_range_length _ _ Hnd Hr) as Hn.
  pose proof (pow2_nat_pos (length qubits)) as Hpos.
  destruct (block_scatter_run DEBUG
              (fun inds =>
                 DIM <- lift (shl64 1 (Z.of_nat (length qubits)));;
                 i0 <- lift (at_ inds 0);;
                 cache <- rd i0;;
                 for_ (fun i =>
                         ii <- lift (inds !! i);;
                         x <- lift (state !! i);;
                         wr ii (c_mul cache x))
                      0 (Z.to_nat DIM))%M
              (fun vs => (fun x => c_mul (default c_zero (vs !! 0%nat)) x) <$> state)
              qubits s b Hwf Hb Hnd Hr)
    as (b' & Hrun & Hlen & Hblock).
  { intros vs Hvs. rewrite length_fmap. lia. }
  { intros T b' HT HndT HrT.
    unfold shl64. rewrite decide_True by lia.
    rewrite Z.shiftl_1_l, wrap64_small.
    2: { split; [lia|]. apply Z.pow_lt_mono_r; lia. }
    erewrite bind_run by reflexivity.
    destruct (lookup_lt_is_Some_2 T 0 ltac:(lia)) as [t0 Ht0].
    unfold at_. rewrite decide_True by lia. change (Z.to_nat 0) with 0%nat.
    rewrite Ht0. erewrite bind_run by reflexivity.
    pose proof (Forall_lookup_1 _ _ _ _ HrT Ht0) as Htr. simpl in Htr.
    destruct (lookup_lt_is_Some_2 b' (Z.to_nat t0) ltac:(lia)) as [c Hc].
    erewrite bind_run by (apply rd_run; [lia | exact Hc]).
    rewrite (gather_lookup _ _ _ _ _ c Ht0 Hc). simpl default.
    rewrite pow2_to_nat, <- HT.
    apply scatter_loop; try done.
    { rewrite length_fmap. lia. }
    intros i t w bb Ht Hw Hlen' Hkeep.
    rewrite list_lookup_fmap in Hw.
    destruct (state !! i) as [x|] eqn:Hx; [|done]. injection Hw as <-.
    rewrite Ht. erewrite bind_run by reflexivity.
    erewrite bind_run by reflexivity.
    pose proof (Forall_lookup_1 _ _ _ _ HrT Ht) as Htr'. simpl in Htr'.
    apply wr_run. lia. }
  exists b'. split; [exact Hrun|]. split; [done|].
  intros k i c x Hk Hc Hx.
  destruct (Hblock k Hk) as (vs & Hvs & Hold & Hnew).
  assert (i < 2 ^ length qubits)%nat as Hi.
  { rewrite <- Hstate. by eapply lookup_lt_Some. }
  rewrite Hnew by done. rewrite list_lookup_fmap, Hx. simpl.
  change (Z.of_nat 0) with 0 in Hold.
  rewrite <- (Hold 0%nat) by lia. change (Z.of_nat 0) with 0. by rewrite Hc.
Qed.

Lemma scatter_scatter (T : list Z) (ws zs b' : list (complex_t R)) :
  length ws = length T -> length zs = length T ->
  NoDup (Z.to_nat <$> T) ->
  Forall (fun t => 0 <= t < Z.of_nat (length b')) T ->
  scatter T ws (scatter T zs b') = scatter T ws b'.
Proof.
  intros Hws Hzs Hnd Hr. apply list_eq. intros x.
  destruct (decide (x ∈ Z.to_nat <$> T)) as [Hin|Hout].
  - apply list_elem_of_fmap in Hin as (t & -> & [i Ht]%list_elem_of_lookup_1).
    destruct (lookup_lt_is_Some_2 ws i) as [w Hw].
    { rewrite Hws. by eapply lookup_lt_Some. }
    pose proof (Forall_lookup_1 _ _ _ _ Hr Ht) as Htr. simpl in Htr.
    rewrite !(scatter_lookup_in T _ _ i t w); try done; try lia.
    rewrite scatter_length. lia.
  - rewrite !scatter_lookup_out; try done.
    all: intros t Ht Heq; apply Hout; rewrite <- Heq;
      by apply list_elem_of_fmap_2.
Qed.

(** The first loop of the dense kernel: the block is copied to [cache] and
    cleared. *)
Lemma dense_cache_loop (T : list Z) (b' : list (complex_t R)) :
  NoDup (Z.to_nat <$> T) ->
  Forall (fun t => 0 <= t < Z.of_nat (length b')) T ->
  for_m (fun i cache =>
           ii <- lift (T !! i);;
           c <- rd ii;;
           wr ii c_zero;;;
           ret (cache ++ [c]))%M
        0 (length T) [] b'
  = Ok (gather c_zero T b') (scatter T (replicate (length T) c_zero) b').
Proof.
  intros Hnd Hr.
  assert (forall count i : nat, (i + count = length T)%nat ->
            for_m (fun i cache =>
                     ii <- lift (T !! i);;
                     c <- rd ii;;
                     wr ii c_zero;;;
                     ret (cache ++ [c]))%M
                  i count (take i (gather c_zero T b'))
                  (scatter (take i T) (replicate i c_zero) b')
            = Ok (gather c_zero T b')
                 (scatter T (replicate (length T) c_zero) b')) as Hloop.
  { induction count as [|c IH]; intros i Hi.
    - simpl. rewrite !take_ge by (rewrite ?gather_length; lia).
      by replace i with (length T) by lia.
    - destruct (lookup_lt_is_Some_2 T i ltac:(lia)) as [t Ht].
      pose proof (Forall_lookup_1 _ _ _ _ Hr Ht) as Htr. simpl in Htr.
      destruct (lookup_lt_is_Some_2 b' (Z.to_nat t) ltac:(lia)) as [a Ha].
      cbn [for_m]. erewrite bind_run.
      2: { rewrite Ht. erewrite bind_run by reflexivity.
           erewrite bind_run.
           2: { apply rd_run; [lia|]. rewrite scatter_lookup_out; [exact Ha|].
                intros t0 [i0 Ht0]%list_elem_of_lookup_1 Heq.
                apply lookup_take_Some in Ht0 as [Ht0 Hi0].
                assert (i0 = i); [|lia].
                apply (NoDup_lookup _ i0 i (Z.to_nat t) Hnd).
                - by rewrite list_lookup_fmap, Ht0, <- Heq.
                - by rewrite list_lookup_fmap, Ht. }
           erewrite bind_run.
           2: { apply wr_run. rewrite scatter_length. lia. }
           reflexivity. }
      rewrite <- scatter_snoc by (rewrite length_take, length_replicate; lia).
      rewrite <- (take_S_r T i t Ht).
      replace (replicate i c_zero ++ [c_zero]) with (replicate (S i) (c_zero (R:=R))).
      2: { by rewrite replicate_S_end. }
      rewrite <- (take_S_r (gather c_zero T b') i a).
      2: { by apply (gather_lookup _ _ _ _ _ _ Ht Ha). }
      apply IH. lia. }
  apply (Hloop (length T) 0%nat). lia.
Qed.

(** The innermost loop of the dense kernel adds the products of one row to
    the entry [t]. *)
Lemma dense_inner_loop (DIM : Z) (mat cache : list (complex_t R)) (T : list Z)
    (i : nat) (t : Z) :
  T !! i = Some t -> 0 <= t -> 0 <= DIM < 2 ^ 32 -> (i < Z.to_nat DIM)%nat ->
  (Z.to_nat DIM <= length cache)%nat ->
  (Z.to_nat DIM * Z.to_nat DIM <= length mat)%nat ->
  forall (count start : nat) (acc : complex_t R) (bb : list (complex_t R)),
    (start + count <= Z.to_nat DIM)%nat ->
    bb !! Z.to_nat t = Some acc ->
    for_ (fun j =>
            ii <- lift (T !! i);;
            m <- lift (at_ mat (wrap64 (Z.of_nat i + wrap64 (DIM * Z.of_nat j))));;
            cj <- lift (cache !! j);;
            d <- rd ii;;
            wr ii (c_add d (c_mul m cj)))%M
         start count bb
    = Ok tt (<[Z.to_nat t :=
               foldl (fun acc j =>
                        c_add acc
                          (c_mul (default c_zero (mat !! (i + Z.to_nat DIM * j)%nat))
                                 (default c_zero (cache !! j))))
                     acc (seq start count)]> bb).
Proof.
  intros Ht Ht0 HDIM Hi Hcache Hmat.
  assert (2 ^ 32 * 2 ^ 32 = 2 ^ 64) as Hpow by done.
  induction count as [|c IH]; intros start acc bb Hc Hacc.
  - simpl. by rewrite list_insert_id.
  - rewrite for__S.
    destruct (lookup_lt_is_Some_2 cache start ltac:(lia)) as [cj Hcj].
    assert (Z.of_nat i + DIM * Z.of_nat start < DIM * DIM) as Hidx by nia.
    destruct (lookup_lt_is_Some_2 mat (i + Z.to_nat DIM * start)%nat) as [m Hm].
    { nia. }
    erewrite bind_run.
    2: { rewrite Ht. erewrite bind_run by reflexivity.
         rewrite (wrap64_small (DIM * Z.of_nat start)) by nia.
         rewrite wrap64_small by nia.
         unfold at_. rewrite decide_True by nia.
         replace (Z.to_nat (Z.of_nat i + DIM * Z.of_nat start))
           with (i + Z.to_nat DIM * start)%nat by nia.
         rewrite Hm, Hcj.
         erewrite bind_run by reflexivity. erewrite bind_run by reflexivity.
         erewrite bind_run by (apply rd_run; [lia | exact Hacc]).
         apply wr_run. apply lookup_lt_Some in Hacc. lia. }
    rewrite (IH (S start) (c_add acc (c_mul m cj))).
    + rewrite list_insert_insert_eq. simpl. by rewrite Hm, Hcj.
    + lia.
    + apply list_lookup_insert_eq. by eapply lookup_lt_Some.
Qed.

(** The kernel of [apply_matrix(qubits, mat)]. *)
Lemma dense_kernel_run (mat : list (complex_t R)) (T : list Z)
    (b' : list (complex_t R)) :
  Z.of_nat (length T) < 2 ^ 32 -> (length T * length T <= length mat)%nat ->
  NoDup (Z.to_nat <$> T) ->
  Forall (fun t => 0 <= t < Z.of_nat (length b')) T ->
  dense_kernel (Z.of_nat (length T)) mat T b'
  = Ok tt (scatter T ((fun i => dense_row mat (gather c_zero T b') (length T) i)
                        <$> seq 0 (length T)) b').
Proof.
  intros Hsmall Hmat Hnd Hr. unfold dense_kernel. rewrite Nat2Z.id.
  erewrite bind_run by (by apply dense_cache_loop).
  pose proof (scatter_scatter T
                ((fun i => dense_row mat (gather c_zero T b') (length T) i)
                   <$> seq 0 (length T))
                (replicate (length T) c_zero) b'
                ltac:(by rewrite length_fmap, length_seq)
                ltac:(by rewrite length_replicate) Hnd Hr) as Hss.
  rewrite <- Hss.
  apply scatter_loop; [by rewrite length_fmap, length_seq | done
                      | by rewrite scatter_length |].
  intros i t w bb Ht Hw Hlen Hkeep.
  rewrite list_lookup_fmap in Hw.
  assert (i < length T)%nat as Hi by (by eapply lookup_lt_Some).
  rewrite lookup_seq_lt in Hw by done. injection Hw as <-.
  pose proof (Forall_lookup_1 _ _ _ _ Hr Ht) as Htr. simpl in Htr.
  rewrite (dense_inner_loop (Z.of_nat (length T)) mat (gather c_zero T b') T i t
             Ht ltac:(lia) ltac:(lia) ltac:(lia)
             ltac:(rewrite gather_length; lia) ltac:(lia)
             (length T) 0%nat c_zero bb ltac:(lia)).
  - by rewrite Nat2Z.id.
  - rewrite (Hkeep i t) by done.
    apply (scatter_lookup_in T _ _ i); try done; try lia.
    apply lookup_replicate_2. lia.
Qed.

(** X28. [apply_matrix(qubits, mat)] on a well-formed state, for distinct
    qubits of the register (any number below 32 but one) and a column-major
    matrix of [4^n] entries: the call returns and every block [vs] of
    [2^n] amplitudes becomes the product of the matrix with it, entry [i]
    being the sum of [mat[i + 2^n j] * vs[j]] over [j], added from left to
    right starting from 0. *)
Theorem apply_matrix_multiplies_blocks (DEBUG : bool) (qubits : list Z)
    (mat : list (complex_t R)) (s : QubitVector R) (b : list (complex_t R)) :
  wf s -> data_ s = Some b -> NoDup qubits ->
  Forall (fun q => 0 <= q < num_qubits_ s) qubits ->
  length qubits <> 1%nat -> (length qubits < 32)%nat ->
  length mat = (2 ^ length qubits * 2 ^ length qubits)%nat ->
  exists b' : list (complex_t R),
    apply_matrix DEBUG qubits mat s = Ok tt (set_data_ s (Some b')) /\
    length b' = length b /\
    forall k : nat,
      (k < Z.to_nat (2 ^ (num_qubits_ s - Z.of_nat (length qubits))))%nat ->
      exists vs : list (complex_t R),
        length vs = (2 ^ length qubits)%nat /\
        (forall j : nat, (j < 2 ^ length qubits)%nat ->
           b !! Z.to_nat (block_entry qubits (Z.of_nat k) (Z.of_nat j)) = vs !! j) /\
        forall i : nat, (i < 2 ^ length qubits)%nat ->
          b' !! Z.to_nat (block_entry qubits (Z.of_nat k) (Z.of_nat i))
          = Some (dense_row mat vs (2 ^ length qubits) i).
Proof.
  intros Hwf Hb Hnd Hr Hn1 Hn32 Hmat.
  pose proof Hwf as (HN & _).
  assert (2 ^ Z.of_nat (length qubits) < 2 ^ 32) as Hpow.
  { apply Z.pow_lt_mono_r; lia. }
  destruct (block_scatter_run DEBUG
              (fun inds =>
                 (if decide (2 <= Z.of_nat (length qubits) <= 4) then ret tt
                  else (cache <- new_array 16 (2 ^ Z.of_nat (length qubits))
                                   (c_zero (R:=R));;
                        ret tt));;;
                 dense_kernel (2 ^ Z.of_nat (length qubits)) mat inds)%M
              (fun vs => (fun i => dense_row mat vs (2 ^ length qubits) i)
                           <$> seq 0 (2 ^ length qubits))
              qubits s b Hwf Hb Hnd Hr)
    as (b' & Hrun & Hlen & Hblock).
  { intros vs Hvs. by rewrite length_fmap, length_seq. }
  { intros T b' HT HndT HrT.
    erewrite bind_run.
    2: { instantiate (1 := b'). instantiate (1 := tt).
         case_decide; [done|]. unfold new_array, bind.
         rewrite decide_False by lia. rewrite decide_False by lia. done. }
    rewrite <- of_nat_pow2, <- HT. apply dense_kernel_run; try done.
    - rewrite HT, of_nat_pow2. done.
    - rewrite HT. lia. }
  exists b'. split; [|split; [done|]].
  - unfold apply_matrix. erewrite bind_run.
    2: { instantiate (1 := s). instantiate (1 := tt). destruct DEBUG; [|done].
         rewrite wrap64_small by lia.
         apply check_vector_pass; [lia|]. rewrite Hmat.
         rewrite Nat2Z.inj_mul, !of_nat_pow2, <- Z.pow_add_r by lia.
         f_equal. lia. }
    rewrite decide_False by lia. rewrite BITS_at by lia.
    erewrite bind_run by reflexivity. exact Hrun.
  - intros k Hk. destruct (Hblock k Hk) as (vs & Hvs & Hold & Hnew).
    exists vs. split; [done|]. split; [done|].
    intros i Hi. rewrite Hnew by done.
    by rewrite list_lookup_fmap, lookup_seq_lt by done.
Qed.

End Block_kernels.

Lemma apply_diagonal_matrix_scales_blocks_witness :
  exists b' : list (complex_t Z),
    apply_diagonal_matrix false [1; 0] (reals (R:=Z) [1; 2; 3; 4]%Z)
      (basis (R:=Z) 2 2)
    = Ok tt (set_data_ (basis (R:=Z) 2 2) (Some b')) /\
    length b' = length (reals (R:=Z) [0; 0; 1; 0]%Z) /\
    forall (k i : nat) (a m : complex_t Z),
      (k < Z.to_nat (2 ^ (num_qubits_ (basis (R:=Z) 2 2)
                          - Z.of_nat (length [1; 0]))))%nat ->
      reals (R:=Z) [0; 0; 1; 0]%Z
        !! Z.to_nat (block_entry [1; 0] (Z.of_nat k) (Z.of_nat i)) = Some a ->
      reals (R:=Z) [1; 2; 3; 4]%Z !! i = Some m ->
      b' !! Z.to_nat (block_entry [1; 0] (Z.of_nat k) (Z.of_nat i))
      = Some (c_mul a m).
Proof.
  apply (apply_diagonal_matrix_scales_blocks false [1; 0]
           (reals (R:=Z) [1; 2; 3; 4]%Z) (basis (R:=Z) 2 2)
           (reals (R:=Z) [0; 0; 1; 0]%Z)).
  - unfold wf. simpl. repeat split; try lia.
    + eexists. split; [reflexivity|]. reflexivity.
    + intros c Hc. discriminate.
  - reflexivity.
  - apply NoDup_ListNoDup. repeat constructor; simpl; intuition lia.
  - repeat constructor; simpl; lia.
  - simpl. lia.
  - reflexivity.
Defined.

Lemma initialize_component_fills_blocks_witness :
  exists b' : list (complex_t Z),
    initialize_component false [1] (reals (R:=Z) [3; 4]%Z) (basis (R:=Z) 2 1)
    = Ok tt (set_data_ (basis (R:=Z) 2 1) (Some b')) /\
    length b' = length (reals (R:=Z) [0; 1; 0; 0]%Z) /\
    forall (k i : nat) (c x : complex_t Z),
      (k < Z.to_nat (2 ^ (num_qubits_ (basis (R:=Z) 2 1)
                          - Z.of_nat (length [1]))))%nat ->
      reals (R:=Z) [0; 1; 0; 0]%Z
        !! Z.to_nat (block_entry [1] (Z.of_nat k) 0) = Some c ->
      reals (R:=Z) [3; 4]%Z !! i = Some x ->
      b' !! Z.to_nat (block_entry [1] (Z.of_nat k) (Z.of_nat i))
      = Some (c_mul c x).
Proof.
  apply (initialize_component_fills_blocks false [1]
           (reals (R:=Z) [3; 4]%Z) (basis (R:=Z) 2 1)
           (reals (R:=Z) [0; 1; 0; 0]%Z)).
  - unfold wf. simpl. repeat split; try lia.
    + eexists. split; [reflexivity|]. reflexivity.
    + intros c Hc. discriminate.
  - reflexivity.
  - apply NoDup_ListNoDup. repeat constructor; simpl; intuition lia.
  - repeat constructor; simpl; lia.
  - reflexivity.
Defined.

Lemma apply_matrix_multiplies_blocks_witness :
  exists b' : list (complex_t Z),
    apply_matrix false [1; 0] (CX_matrix (R:=Z)) (basis (R:=Z) 2 2)
    = Ok tt (set_data_ (basis (R:=Z) 2 2) (Some b')) /\
    length b' = length (reals (R:=Z) [0; 0; 1; 0]%Z) /\
    forall k : nat,
      (k < Z.to_nat (2 ^ (num_qubits_ (basis (R:=Z) 2 2)
                          - Z.of_nat (length [1; 0]))))%nat ->
      exists vs : list (complex_t Z),
        length vs = (2 ^ length [1; 0])%nat /\
        (forall j : nat, (j < 2 ^ length [1; 0])%nat ->
           reals (R:=Z) [0; 0; 1; 0]%Z
             !! Z.to_nat (block_entry [1; 0] (Z.of_nat k) (Z.of_nat j))
           = vs !! j) /\
        forall i : nat, (i < 2 ^ length [1; 0])%nat ->
          b' !! Z.to_nat (block_entry [1; 0] (Z.of_nat k) (Z.of_nat i))
          = Some (dense_row (CX_matrix (R:=Z)) vs (2 ^ length [1; 0]) i).
Proof.
  apply (apply_matrix_multiplies_blocks false [1; 0] (CX_matrix (R:=Z))
           (basis (R:=Z) 2 2) (reals (R:=Z) [0; 0; 1; 0]%Z)).
  - unfold wf. simpl. repeat split; try lia.
    + eexists. split; [reflexivity|]. reflexivity.
    + intros c Hc. discriminate.
  - reflexivity.
  - apply NoDup_ListNoDup. repeat constructor; simpl; intuition lia.
  - repeat constructor; simpl; lia.
  - simpl. lia.
  - simpl. lia.
  - reflexivity.
Defined.

(** ** Sampling from a large state *)

Section Large_sampling.
Context {R : Type} `{Double R}.

Lemma lor_block (m i j : Z) :
  0 <= m -> 0 <= i -> 0 <= j < 2 ^ m -> Z.lor (2 ^ m * i) j = 2 ^ m * i + j.
Proof.
  intros Hm Hi Hj.
  assert (Z.land (2 ^ m * i) j = 0) as Hland.
  { apply Z.bits_inj'. intros n Hn. rewrite Z.land_spec, Z.bits_0.
    destruct (decide (n < m)) as [Hlt|Hge].
    - rewrite Z.mul_comm, Z.mul_pow2_bits_low by lia. done.
    - rewrite (above_pow2_bits j m n) by (done || lia). apply andb_false_r. }
  by rewrite Z.add_nocarry_lxor, Z.lxor_lor.
Qed.

(** The walk over the amplitudes returns an index between its start and
    its end. *)
Lemma sample_walk_runs (b : list (complex_t R)) (rnd : R) :
  forall (count k : nat) (p : R),
    (k + count <= length b)%nat ->
    exists j : nat,
      sample_walk count (Z.of_nat k) p rnd b = Ok (Z.of_nat j) b /\
      (k <= j <= k + count)%nat.
Proof.
  induction count as [|c IH]; intros k p Hk.
  - exists k. simpl. split; [done|]. lia.
  - destruct (lookup_lt_is_Some_2 b k ltac:(lia)) as [a Ha].
    simpl. erewrite bind_run.
    2: { apply rd_run; [lia|]. by rewrite Nat2Z.id. }
    destruct (d_ltb rnd (d_add p (norm_sq a))) eqn:Hcross.
    + exists k. split; [done|]. lia.
    + destruct (IH (S k) (d_add p (norm_sq a)) ltac:(lia)) as (j & Hrun & Hj).
      exists j. replace (Z.of_nat k + 1) with (Z.of_nat (S k)) by lia.
      split; [done|]. lia.
Qed.

(** The descent of the table of block weights stops at the start of a
    block; when the random number is below none of the running sums of the
    weights it stops behind the last block. *)
Lemma sample_descend_blocks (loop : nat) (rnd : R) (idxs : list R) :
  forall (m0 : nat) (p0 : R),
    Z.of_nat (loop * (m0 + length idxs)) < 2 ^ 63 ->
    exists (m : nat) (p : R),
      sample_descend idxs (Z.of_nat loop) (Z.of_nat (loop * m0)) p0 rnd
      = (Z.of_nat (loop * m), p) /\
      (m0 <= m <= m0 + length idxs)%nat /\
      ((forall k : nat, (k < length idxs)%nat ->
          d_ltb rnd (foldl d_add p0 (take (S k) idxs)) = false) ->
       m = (m0 + length idxs)%nat).
Proof.
  induction idxs as [|w idxs IH]; intros m0 p0 Hsmall.
  - exists m0, p0. simpl. split; [done|]. split; lia.
  - simpl in Hsmall |- *.
    destruct (d_ltb rnd (d_add p0 w)) eqn:Hcross.
    + exists m0, p0. split; [done|]. split; [lia|].
      intros Hnever. specialize (Hnever 0%nat ltac:(lia)). simpl in Hnever.
      by rewrite Hnever in Hcross.
    + destruct (IH (S m0) (d_add p0 w) ltac:(lia)) as (m & p & Hrun & Hm & Hend).
      exists m, p.
      replace (to_int64 (wrap64 (Z.of_nat (loop * m0) + Z.of_nat loop)))
        with (Z.of_nat (loop * S m0)).
      2: { rewrite wrap64_small, to_int64_small; nia. }
      split; [done|]. split; [lia|]. intros Hnever. rewrite Hend; [lia|].
      intros k Hk. exact (Hnever (S k) ltac:(lia)).
Qed.

(** X29. [sample_measure] in the regime of the index table: on a
    well-formed state of [N] qubits with
    [0 <= sample_measure_index_size_ <= N], the call returns one outcome
    per random number and leaves the state as it was; every outcome lies in
    [[0, 2^N]], the upper bound included; and a random number that is below
    none of the running sums of the block weights (the sums that the descent
    of the index table compares it with; 1.0 on a normalised state, or a
    NaN) gets the outcome [2^N], which is not the index of an amplitude. *)
Theorem sample_measure_large_state
    (rnds : list R) (s : QubitVector R) (b : list (complex_t R)) :
  wf s -> data_ s = Some b ->
  0 <= sample_measure_index_size_ s <= num_qubits_ s ->
  exists out : list Z,
    sample_measure rnds s = Ok out s /\
    length out = length rnds /\
    Forall (fun x => 0 <= x <= 2 ^ num_qubits_ s) out /\
    forall (i : nat) (rnd : R),
      rnds !! i = Some rnd ->
      (forall m : nat, (m < Z.to_nat (2 ^ sample_measure_index_size_ s))%nat ->
         d_ltb rnd
           (sum_left
              (take (S m)
                 (block_weights b
                    (Z.to_nat (2 ^ (num_qubits_ s - sample_measure_index_size_ s)))
                    (Z.to_nat (2 ^ sample_measure_index_size_ s)))))
         = false) ->
      out !! i = Some (2 ^ num_qubits_ s).
Proof.
  intros (HN & Hsize & (b0 & Hb0 & Hlen) & _) Hb HI.
  rewrite Hb in Hb0. injection Hb0 as <-.
  destruct s as [nq ds d c ot oth smi jct]. simpl in *. subst d ds.
  pose proof (pow2_bound_59 nq ltac:(lia)) as Hpow.
  assert (0 < 2 ^ smi <= 2 ^ nq) as Hpow'.
  { split; [lia|]. apply Z.pow_le_mono_r; lia. }
  set (s := {| num_qubits_ := nq; data_size_ := 2 ^ nq; data_ := Some b;
               checkpoint_ := c; omp_threads_ := ot; omp_threshold_ := oth;
               sample_measure_index_size_ := smi; json_chop_threshold_ := jct |}).
  set (loop := Z.to_nat (2 ^ (nq - smi))).
  set (cnt := Z.to_nat (2 ^ smi)).
  assert (Z.of_nat loop = 2 ^ (nq - smi)) as Hloop by (unfold loop; lia).
  assert (Z.of_nat cnt = 2 ^ smi) as Hcnt by (unfold cnt; lia).
  assert (Z.of_nat (loop * cnt) = 2 ^ nq) as Hprod.
  { rewrite Nat2Z.inj_mul, Hloop, Hcnt, <- Z.pow_add_r by lia. f_equal. lia. }
  assert (length b = (loop * cnt)%nat) as Hlenb by lia.
  assert (forall j a, b !! j = Some a -> on_data (rd (Z.of_nat j)) s = Ok a s)
    as Hrd.
  { intros j a Ha. exact (on_data_rd s b j a eq_refl Ha). }
  (* the table of block weights *)
  assert (for_m (fun i idxs =>
                   let base := wrap64 (Z.of_nat loop * Z.of_nat i) in
                   total <- for_m (fun j total =>
                                     let k := Z.lor base (Z.of_nat j) in
                                     a <- on_data (rd k);;
                                     ret (d_add total (norm_sq a)))
                                  0 loop d_zero;;
                   lift (upd idxs (Z.of_nat i) total))%M
                0 cnt (replicate cnt d_zero) s
          = Ok (block_weights b loop cnt) s) as Hidxs.
  { pose proof (gather_loop s (seq 0 cnt)
                  (fun i => foldl (fun p a => d_add p (norm_sq a)) d_zero
                              (take loop (drop (loop * i) b)))
                  (fun i idxs =>
                     let base := wrap64 (Z.of_nat loop * Z.of_nat i) in
                     total <- for_m (fun j total =>
                                       let k := Z.lor base (Z.of_nat j) in
                                       a <- on_data (rd k);;
                                       ret (d_add total (norm_sq a)))
                                    0 loop d_zero;;
                     lift (upd idxs (Z.of_nat i) total))%M) as Hg.
    specialize (Hg ltac:(
      intros j acc i Hi Hj;
      apply lookup_seq in Hi as [-> Hi]; cbv zeta;
      rewrite wrap64_small by nia;
      erewrite bind_run;
      [ by rewrite upd_of_nat
      | pose proof (reduce_loop s (take loop (drop (loop * j) b))
                      (fun p a => d_add p (norm_sq a))
                      (fun j' total =>
                         a <- on_data (rd (Z.lor (Z.of_nat loop * Z.of_nat j)
                                             (Z.of_nat j')));;
                         ret (d_add total (norm_sq a)))%M) as Hred;
        specialize (Hred ltac:(
          intros k acc' a Ha;
          apply lookup_take_Some in Ha as [Ha Hk];
          rewrite lookup_drop in Ha;
          rewrite Hloop, lor_block by lia;
          rewrite <- Hloop;
          replace (Z.of_nat loop * Z.of_nat j + Z.of_nat k)
            with (Z.of_nat (loop * j + k)) by lia;
          erewrite bind_run by (by apply Hrd); reflexivity));
        specialize (Hred loop 0%nat d_zero ltac:(
          rewrite length_take, length_drop; nia));
        rewrite drop_0, take_take, Nat.min_id in Hred; exact Hred ])).
    specialize (Hg cnt 0%nat (replicate cnt d_zero)
                  ltac:(rewrite length_seq; lia)
                  ltac:(by rewrite length_replicate, length_seq)).
    rewrite take_0, drop_0 in Hg. simpl in Hg.
    rewrite take_ge, drop_ge, app_nil_r in Hg
      by (rewrite ?length_map, ?length_replicate, ?length_seq; lia).
    exact Hg. }
  (* one shot *)
  set (shot := fun rnd : R =>
                 let '(sample, p) :=
                   sample_descend (block_weights b loop cnt) (Z.of_nat loop) 0
                     d_zero rnd in
                 match sample_walk (Z.to_nat (2 ^ nq - 1 - sample)) sample p rnd b
                 with
                 | Ok j _ => wrap64 j
                 | _ => 0
                 end).
  assert (forall rnd,
            (let '(sample, p) :=
               sample_descend (block_weights b loop cnt) (Z.of_nat loop) 0
                 d_zero rnd in
             on_data (sample_walk (Z.to_nat (2 ^ nq - 1 - sample)) sample p rnd) s
             = Ok (shot rnd) s /\ wrap64 (shot rnd) = shot rnd) /\
            0 <= shot rnd <= 2 ^ nq /\
            ((forall m : nat, (m < cnt)%nat ->
                d_ltb rnd (sum_left (take (S m) (block_weights b loop cnt)))
                = false) ->
             shot rnd = 2 ^ nq)) as Hshot.
  { intros rnd. unfold shot.
    destruct (sample_descend_blocks loop rnd (block_weights b loop cnt) 0 d_zero)
      as (m & p & Hdesc & Hm & Hend).
    { unfold block_weights. rewrite length_map, length_seq. lia. }
    unfold block_weights in Hm, Hend. rewrite length_map, length_seq in Hm, Hend.
    rewrite Nat.mul_0_r in Hdesc. change (Z.of_nat 0) with 0 in Hdesc.
    rewrite Hdesc.
    destruct (sample_walk_runs b rnd (Z.to_nat (2 ^ nq - 1 - Z.of_nat (loop * m)))
                (loop * m) p) as (j & Hrun & Hj).
    { nia. }
    rewrite Hrun.
    assert (Z.of_nat j <= 2 ^ nq) as Hjb by nia.
    rewrite !wrap64_small by lia.
    split; [split; [|done]|split; [lia|]].
    - exact (on_data_run _ s b b (Z.of_nat j) eq_refl Hrun).
    - intros Hnever.
      assert (m = (0 + cnt)%nat) as ->.
      { apply Hend. intros k Hk. exact (Hnever k Hk). }
      nia. }
  (* the loop over the shots *)
  assert (for_m (fun i samples =>
                   rnd <- lift (rnds !! i);;
                   let '(sample, p) :=
                     sample_descend (block_weights b loop cnt) (Z.of_nat loop) 0
                       d_zero rnd in
                   sample <- on_data (sample_walk
                                        (Z.to_nat (2 ^ nq - 1 - sample)) sample p rnd);;
                   lift (upd samples (Z.of_nat i) (wrap64 sample)))%M
                0 (length rnds) (replicate (length rnds) 0) s
          = Ok (map shot rnds) s) as Hshots.
  { pose proof (gather_loop s rnds shot
                  (fun i samples =>
                     rnd <- lift (rnds !! i);;
                     let '(sample, p) :=
                       sample_descend (block_weights b loop cnt) (Z.of_nat loop) 0
                         d_zero rnd in
                     sample <- on_data (sample_walk
                                          (Z.to_nat (2 ^ nq - 1 - sample))
                                          sample p rnd);;
                     lift (upd samples (Z.of_nat i) (wrap64 sample)))%M) as Hg.
    specialize (Hg ltac:(
      intros j acc rnd Hrnd Hj; cbv beta; rewrite Hrnd;
      erewrite bind_run by reflexivity;
      destruct (Hshot rnd) as [Hone _];
      destruct (sample_descend (block_weights b loop cnt) (Z.of_nat loop) 0
                  d_zero rnd) as [sample p];
      destruct Hone as [Hone Hw];
      erewrite bind_run by exact Hone;
      rewrite Hw; by rewrite upd_of_nat)).
    specialize (Hg (length rnds) 0%nat (replicate (length rnds) 0)
                  ltac:(lia) ltac:(by rewrite length_replicate)).
    rewrite take_0, drop_0 in Hg. simpl in Hg.
    rewrite take_ge, drop_ge, app_nil_r in Hg
      by (rewrite ?length_map, ?length_replicate; lia).
    exact Hg. }
  exists (map shot rnds). split; [|split; [by rewrite length_map|split]].
  - unfold sample_measure. unfold bind at 1. unfold get at 1. simpl.
    rewrite BITS_at by lia. erewrite bind_run by reflexivity.
    rewrite !to_int64_small by lia.
    rewrite decide_False by lia.
    unfold vector_assign. rewrite wrap64_small by lia.
    change ((2 ^ 63 - 1) / 8) with (2 ^ 60 - 1).
    rewrite decide_False by lia. erewrite bind_run by reflexivity.
    rewrite decide_True by lia. erewrite bind_run by reflexivity.
    rewrite Z.shiftr_div_pow2, <- Z.pow_sub_r by lia.
    rewrite wrap64_small.
    2: { split; [lia|]. apply Z.pow_lt_mono_r; lia. }
    rewrite <- Hloop. rewrite Nat2Z.id. fold cnt.
    erewrite bind_run by exact Hidxs.
    exact Hshots.
  - apply Forall_forall. intros x [rnd [-> _]]%list_elem_of_fmap.
    by destruct (Hshot rnd) as (_ & Hb' & _).
  - intros i rnd Hrnd Hnever. rewrite list_lookup_fmap, Hrnd. simpl.
    destruct (Hshot rnd) as (_ & _ & Hend). by rewrite Hend.
Qed.

End Large_sampling.

Lemma sample_measure_large_state_witness :
  exists out : list Z,
    sample_measure [0; 1; 5]%Z (qv_config (R:=Z) 1 (reals [1; 0]%Z) 1 0%Z)
    = Ok out (qv_config (R:=Z) 1 (reals [1; 0]%Z) 1 0%Z) /\
    length out = 3%nat /\
    Forall (fun x => 0 <= x <= 2) out /\
    out !! 1%nat = Some 2 /\
    out !! 2%nat = Some 2.
Proof.
  destruct (sample_measure_large_state [0; 1; 5]%Z
              (qv_config (R:=Z) 1 (reals [1; 0]%Z) 1 0%Z) (reals [1; 0]%Z))
    as (out & Hrun & Hlen & Hall & Hend).
  - unfold wf. simpl. repeat split; try lia.
    + eexists. split; [reflexivity|]. reflexivity.
    + intros c Hc. discriminate.
  - reflexivity.
  - simpl. lia.
  - exists out. split; [exact Hrun|]. split; [exact Hlen|].
    split; [exact Hall|]. split.
    + apply (Hend 1%nat 1); [reflexivity|].
      intros m Hm. destruct m as [|[|m]]; [reflexivity | reflexivity|].
      simpl in Hm. lia.
    + apply (Hend 2%nat 5); [reflexivity|].
      intros m Hm. destruct m as [|[|m]]; [reflexivity | reflexivity|].
      simpl in Hm. lia.
Defined.

(** The outcome [2^N] in binary64 arithmetic: the state [[1, 0]] of one
    qubit with index size 1, and the random numbers 0.5, 1 and NaN. With
    the default index size 10 the same shots give 0, 1 and 1. *)
Example sample_measure_large_state_binary64 :
  sample_measure [0.5; 1; PrimFloat.nan]%float
    (qv_config 1 (reals [1; 0]%float) 1 0%float)
  = Ok [0; 2; 2] (qv_config 1 (reals [1; 0]%float) 1 0%float) /\
  sample_measure [0.5; 1; PrimFloat.nan]%float
    (qv_config 1 (reals [1; 0]%float) 10 0%float)
  = Ok [0; 1; 1] (qv_config 1 (reals [1; 0]%float) 10 0%float).
Proof. split; vm_compute; reflexivity. Qed.

(** ** Permutations of a block *)

Section Permutations.
Context {R : Type} `{Double R}.

Lemma exchange_same {A} (p : nat) (l : list A) : exchange p p l = l.
Proof.
  unfold exchange, pair_update. destruct (l !! p) as [a|] eqn:Ha; [|done].
  rewrite list_insert_insert_eq. by apply list_insert_id.
Qed.

Lemma exchange_length {A} (p q : nat) (l : list A) :
  length (exchange p q l) = length l.
Proof. apply pair_update_length. Qed.

Lemma scatter_gather (T : list Z) (b' : list (complex_t R)) :
  NoDup (Z.to_nat <$> T) ->
  Forall (fun t => 0 <= t < Z.of_nat (length b')) T ->
  scatter T (gather c_zero T b') b' = b'.
Proof.
  intros Hnd Hr. apply list_eq. intros x.
  destruct (decide (x ∈ Z.to_nat <$> T)) as [Hin|Hout].
  - apply list_elem_of_fmap in Hin as (t & -> & [i Ht]%list_elem_of_lookup_1).
    pose proof (Forall_lookup_1 _ _ _ _ Hr Ht) as Htr. simpl in Htr.
    destruct (lookup_lt_is_Some_2 b' (Z.to_nat t) ltac:(lia)) as [a Ha].
    rewrite Ha. apply (scatter_lookup_in T _ _ i); try done; try lia.
    by apply (gather_lookup _ _ _ _ _ _ Ht Ha).
  - apply scatter_lookup_out. intros t Ht Heq. apply Hout. rewrite <- Heq.
    by apply list_elem_of_fmap_2.
Qed.

(** Exchanging two entries of a block in the buffer is exchanging them in
    the vector of the block's values. *)
Lemma exchange_scatter (T : list Z) (ws b' : list (complex_t R)) (p q : nat)
    (tp tq : Z) :
  NoDup (Z.to_nat <$> T) ->
  Forall (fun t => 0 <= t < Z.of_nat (length b')) T ->
  length ws = length T -> T !! p = Some tp -> T !! q = Some tq ->
  exchange (Z.to_nat tp) (Z.to_nat tq) (scatter T ws b')
  = scatter T (exchange p q ws) b'.
Proof.
  intros Hnd Hr Hws Hp Hq.
  destruct (decide (p = q)) as [->|Hne].
  { rewrite Hp in Hq. injection Hq as <-. by rewrite !exchange_same. }
  pose proof (Forall_lookup_1 _ _ _ _ Hr Hp) as Hrp. simpl in Hrp.
  pose proof (Forall_lookup_1 _ _ _ _ Hr Hq) as Hrq. simpl in Hrq.
  destruct (lookup_lt_is_Some_2 ws p) as [wp Hwp].
  { rewrite Hws. by eapply lookup_lt_Some. }
  destruct (lookup_lt_is_Some_2 ws q) as [wq Hwq].
  { rewrite Hws. by eapply lookup_lt_Some. }
  assert (forall i j ti tj, T !! i = Some ti -> T !! j = Some tj ->
            Z.to_nat ti = Z.to_nat tj -> i = j) as Hinj.
  { intros i j ti tj Hi Hj Heq.
    apply (NoDup_lookup _ i j (Z.to_nat ti) Hnd).
    - by rewrite list_lookup_fmap, Hi.
    - by rewrite list_lookup_fmap, Hj, Heq. }
  assert (Z.to_nat tp <> Z.to_nat tq) as Htne.
  { intros Heq. apply Hne. by apply (Hinj p q tp tq). }
  apply list_eq. intros x. unfold exchange at 1.
  rewrite (pair_update_lookup _ _ _ _ x _ wp wq); try done.
  2: { apply (scatter_lookup_in T _ _ p); try done. lia. }
  2: { apply (scatter_lookup_in T _ _ q); try done. lia. }
  destruct (decide (x ∈ Z.to_nat <$> T)) as [Hin|Hout].
  - apply list_elem_of_fmap in Hin as (t & -> & [i Ht]%list_elem_of_lookup_1).
    pose proof (Forall_lookup_1 _ _ _ _ Hr Ht) as Htr. simpl in Htr.
    destruct (lookup_lt_is_Some_2 ws i) as [wi Hwi].
    { rewrite Hws. by eapply lookup_lt_Some. }
    assert (exchange p q ws !! i
            = if decide (i = p) then Some wq
              else if decide (i = q) then Some wp else ws !! i) as Hex.
    { unfold exchange.
      by rewrite (pair_update_lookup _ _ p q i ws wp wq Hne Hwp Hwq). }
    destruct (lookup_lt_is_Some_2 (exchange p q ws) i) as [w' Hw'].
    { rewrite exchange_length. by eapply lookup_lt_Some. }
    rewrite (scatter_lookup_in T (exchange p q ws) b' i t w'); try done; try lia.
    rewrite <- Hw', Hex.
    destruct (decide (i = p)) as [->|Hip].
    { rewrite Hp in Ht. injection Ht as <-. by rewrite decide_True. }
    rewrite decide_False by (intros Heq; apply Hip; by apply (Hinj i p t tp)).
    destruct (decide (i = q)) as [->|Hiq].
    { rewrite Hq in Ht. injection Ht as <-. by rewrite decide_True. }
    rewrite decide_False by (intros Heq; apply Hiq; by apply (Hinj i q t tq)).
    rewrite Hwi. apply (scatter_lookup_in T _ _ i); try done. lia.
  - assert (forall t, t ∈ T -> Z.to_nat t <> x) as Hout'.
    { intros t Ht Heq. apply Hout. rewrite <- Heq. by apply list_elem_of_fmap_2. }
    rewrite decide_False.
    2: { intros ->. apply (Hout' tp); [by eapply list_elem_of_lookup_2 | done]. }
    rewrite decide_False.
    2: { intros ->. apply (Hout' tq); [by eapply list_elem_of_lookup_2 | done]. }
    by rewrite !scatter_lookup_out.
Qed.

(** The kernel of [apply_permutation_matrix]. *)
Lemma permutation_kernel_run (pairs : list (Z * Z)) (T : list Z)
    (b' : list (complex_t R)) :
  NoDup (Z.to_nat <$> T) ->
  Forall (fun t => 0 <= t < Z.of_nat (length b')) T ->
  Forall (fun pq => 0 <= fst pq < Z.of_nat (length T) /\
                    0 <= snd pq < Z.of_nat (length T)) pairs ->
  for_ (fun n =>
          p <- lift (pairs !! n);;
          i0 <- lift (at_ T (fst p));;
          i1 <- lift (at_ T (snd p));;
          swap_entries i0 i1)%M
       0 (length pairs) b'
  = Ok tt (scatter T
             (foldl (fun v pq => exchange (Z.to_nat (fst pq)) (Z.to_nat (snd pq)) v)
                (gather c_zero T b') pairs)
             b').
Proof.
  intros Hnd Hr Hpairs.
  assert (forall (count start : nat) (ws : list (complex_t R)),
            (start + count = length pairs)%nat -> length ws = length T ->
            for_ (fun n =>
                    p <- lift (pairs !! n);;
                    i0 <- lift (at_ T (fst p));;
                    i1 <- lift (at_ T (snd p));;
                    swap_entries i0 i1)%M
                 start count (scatter T ws b')
            = Ok tt (scatter T
                       (foldl (fun v pq =>
                                 exchange (Z.to_nat (fst pq)) (Z.to_nat (snd pq)) v)
                          ws (drop start pairs))
                       b')) as Hloop.
  { induction count as [|c IH]; intros start ws Hc Hws.
    - by rewrite drop_ge by lia.
    - destruct (lookup_lt_is_Some_2 pairs start ltac:(lia)) as [[p q] Hpq].
      pose proof (Forall_lookup_1 _ _ _ _ Hpairs Hpq) as [Hp Hq].
      simpl in Hp, Hq.
      destruct (lookup_lt_is_Some_2 T (Z.to_nat p) ltac:(lia)) as [tp Htp].
      destruct (lookup_lt_is_Some_2 T (Z.to_nat q) ltac:(lia)) as [tq Htq].
      pose proof (Forall_lookup_1 _ _ _ _ Hr Htp) as Hrp. simpl in Hrp.
      pose proof (Forall_lookup_1 _ _ _ _ Hr Htq) as Hrq. simpl in Hrq.
      rewrite for__S. erewrite bind_run.
      2: { rewrite Hpq. erewrite bind_run by reflexivity. simpl fst. simpl snd.
           unfold at_. rewrite !decide_True by lia. rewrite Htp, Htq.
           erewrite bind_run by reflexivity. erewrite bind_run by reflexivity.
           apply swap_entries_run; rewrite scatter_length; lia. }
      rewrite (exchange_scatter T ws b' (Z.to_nat p) (Z.to_nat q)) by done.
      rewrite (drop_S _ _ _ Hpq). simpl foldl.
      apply IH; [lia|]. by rewrite exchange_length. }
  specialize (Hloop (length pairs) 0%nat (gather c_zero T b') ltac:(lia)
                ltac:(apply gather_length)).
  rewrite scatter_gather, drop_0 in Hloop by done. exact Hloop.
Qed.

(** X30. [apply_permutation_matrix(qubits, pairs)] (in a build without
    [DEBUG]) on a well-formed state, for distinct qubits of the register
    and pairs of positions below [2^n]: the call returns and every block
    of [2^n] amplitudes becomes the block with the listed transpositions
    applied to it one after the other. *)
Theorem apply_permutation_matrix_permutes_blocks (qubits : list Z)
    (pairs : list (Z * Z)) (s : QubitVector R) (b : list (complex_t R)) :
  wf s -> data_ s = Some b -> NoDup qubits ->
  Forall (fun q => 0 <= q < num_qubits_ s) qubits ->
  Forall (fun pq => 0 <= fst pq < 2 ^ Z.of_nat (length qubits) /\
                    0 <= snd pq < 2 ^ Z.of_nat (length qubits)) pairs ->
  exists b' : list (complex_t R),
    apply_permutation_matrix false qubits pairs s
    = Ok tt (set_data_ s (Some b')) /\
    length b' = length b /\
    forall k : nat,
      (k < Z.to_nat (2 ^ (num_qubits_ s - Z.of_nat (length qubits))))%nat ->
      exists vs : list (complex_t R),
        length vs = (2 ^ length qubits)%nat /\
        (forall j : nat, (j < 2 ^ length qubits)%nat ->
           b !! Z.to_nat (block_entry qubits (Z.of_nat k) (Z.of_nat j)) = vs !! j) /\
        forall i : nat, (i < 2 ^ length qubits)%nat ->
          b' !! Z.to_nat (block_entry qubits (Z.of_nat k) (Z.of_nat i))
          = foldl (fun v pq => exchange (Z.to_nat (fst pq)) (Z.to_nat (snd pq)) v)
              vs pairs !! i.
Proof.
  intros Hwf Hb Hnd Hr Hpairs.
  assert (forall vs : list (complex_t R),
            length (foldl (fun v pq =>
                             exchange (Z.to_nat (fst pq)) (Z.to_nat (snd pq)) v)
                      vs pairs) = length vs) as HF.
  { clear. induction pairs as [|pq pairs IH]; intros vs; [done|].
    simpl. by rewrite IH, exchange_length. }
  destruct (block_scatter_run false
              (fun inds =>
                 for_ (fun n =>
                         p <- lift (pairs !! n);;
                         i0 <- lift (at_ inds (fst p));;
                         i1 <- lift (at_ inds (snd p));;
                         swap_entries i0 i1)
                      0 (length pairs))%M
              (fun vs => foldl (fun v pq =>
                                  exchange (Z.to_nat (fst pq)) (Z.to_nat (snd pq)) v)
                           vs pairs)
              qubits s b Hwf Hb Hnd Hr)
    as (b' & Hrun & Hlen & Hblock).
  { intros vs _. apply HF. }
  { intros T b' HT HndT HrT. apply permutation_kernel_run; try done.
    by rewrite HT, of_nat_pow2. }
  exists b'. split; [exact Hrun|]. split; [done|]. exact Hblock.
Qed.

End Permutations.

Lemma apply_permutation_matrix_permutes_blocks_witness :
  exists b' : list (complex_t Z),
    apply_permutation_matrix false [1; 0] [(0, 3); (1, 2)] (basis (R:=Z) 2 2)
    = Ok tt (set_data_ (basis (R:=Z) 2 2) (Some b')) /\
    length b' = length (reals (R:=Z) [0; 0; 1; 0]%Z) /\
    forall k : nat,
      (k < Z.to_nat (2 ^ (num_qubits_ (basis (R:=Z) 2 2)
                          - Z.of_nat (length [1; 0]))))%nat ->
      exists vs : list (complex_t Z),
        length vs = (2 ^ length [1; 0])%nat /\
        (forall j : nat, (j < 2 ^ length [1; 0])%nat ->
           reals (R:=Z) [0; 0; 1; 0]%Z
             !! Z.to_nat (block_entry [1; 0] (Z.of_nat k) (Z.of_nat j))
           = vs !! j) /\
        forall i : nat, (i < 2 ^ length [1; 0])%nat ->
          b' !! Z.to_nat (block_entry [1; 0] (Z.of_nat k) (Z.of_nat i))
          = foldl (fun v pq => exchange (Z.to_nat (fst pq)) (Z.to_nat (snd pq)) v)
              vs [(0, 3); (1, 2)] !! i.
Proof.
  apply (apply_permutation_matrix_permutes_blocks [1; 0] [(0, 3); (1, 2)]
           (basis (R:=Z) 2 2) (reals (R:=Z) [0; 0; 1; 0]%Z)).
  - unfold wf. simpl. repeat split; try lia.
    + eexists. split; [reflexivity|]. reflexivity.
    + intros c Hc. discriminate.
  - reflexivity.
  - apply NoDup_ListNoDup. repeat constructor; simpl; intuition lia.
  - repeat constructor; simpl; lia.
  - repeat constructor; simpl; lia.
Defined.
